(** * libasciidoc: the AsciiDoc grammar and its AST assembly, verified

    The parser of libasciidoc is a Parsing Expression Grammar
    ([pkg/parser/asciidoc-grammar.peg]) run by a PEG engine; every rule
    ends in a Go action that builds a node of [pkg/types].  This
    development embeds
    - the values the actions exchange (Go's [interface{}]),
    - the PEG engine (ordered choice, sequence, repetition, predicates,
      labels, actions, rule references),
    - the grammar, rule by rule, and the constructors of [pkg/types],
    and then states and proves the properties of the specification. *)

From Stdlib Require Import String Ascii List ZArith Lia Bool.
From stdpp Require Import base option list gmap strings pretty.

Set Warnings "-register-all".
#[local] Unset Elimination Schemes.

Open Scope string_scope.
Open Scope Z_scope.

(** ** Bytes and strings

    Go strings and byte slices are sequences of bytes: [string]. *)

Definition nl : string := String "010" EmptyString.
Definition cr : string := String "013" EmptyString.
Definition tab : string := String "009" EmptyString.
Definition bs : string := String "092" EmptyString.
Definition dq : string := String "034" EmptyString.

Fixpoint strip_prefix (p s : string) : option string :=
  match p with
  | EmptyString => Some s
  | String a p' =>
      match s with
      | EmptyString => None
      | String b s' => if Ascii.eqb a b then strip_prefix p' s' else None
      end
  end.

Definition has_prefix (p s : string) : bool :=
  match strip_prefix p s with Some _ => true | None => false end.

Fixpoint str_take (n : nat) (s : string) : string :=
  match n, s with
  | S n', String a s' => String a (str_take n' s')
  | _, _ => EmptyString
  end.

Fixpoint str_drop (n : nat) (s : string) : string :=
  match n, s with
  | S n', String _ s' => str_drop n' s'
  | _, _ => s
  end.

Fixpoint str_rev_onto (s acc : string) : string :=
  match s with
  | EmptyString => acc
  | String a s' => str_rev_onto s' (String a acc)
  end.

Definition str_rev (s : string) : string := str_rev_onto s EmptyString.

(** [p.sliceFrom(start)]: the text between the cursor [start] and the
    current one, [k] bytes further. *)
Definition sliceFrom (start : string) (k : nat) : string := str_take k start.

Definition lower_ascii (a : ascii) : ascii :=
  let n := nat_of_ascii a in
  if ((65 <=? n) && (n <=? 90))%nat then ascii_of_nat (n + 32) else a.

Fixpoint strip_prefix_fold (p s : string) : option (string * string) :=
  match p with
  | EmptyString => Some (EmptyString, s)
  | String a p' =>
      match s with
      | EmptyString => None
      | String b s' =>
          if Ascii.eqb (lower_ascii a) (lower_ascii b)
          then match strip_prefix_fold p' s' with
               | Some (m, r) => Some (String b m, r)
               | None => None
               end
          else None
      end
  end.

(** ** The Go library functions the actions call *)

Module Go.

Fixpoint contains_byte (c : ascii) (s : string) : bool :=
    match s with
    | EmptyString => false
    | String a s' => Ascii.eqb a c || contains_byte c s'
    end.

  (** The encodings of the runes of [unicode.IsSpace]. *)
Definition space_runes : list string :=
    let b (l : list nat) := string_of_list_ascii (map ascii_of_nat l) in
    map b
      [ [9]; [10]; [11]; [12]; [13]; [32];
        [194; 133]; [194; 160]; [225; 154; 128];
        [226; 128; 128]; [226; 128; 129]; [226; 128; 130]; [226; 128; 131];
        [226; 128; 132]; [226; 128; 133]; [226; 128; 134]; [226; 128; 135];
        [226; 128; 136]; [226; 128; 137]; [226; 128; 138];
        [226; 128; 168]; [226; 128; 169]; [226; 128; 175]; [226; 129; 159];
        [227; 128; 128] ]%nat.

Fixpoint strip_any (rs : list string) (s : string) : option string :=
    match rs with
    | [] => None
    | r :: rs' =>
        match strip_prefix r s with
        | Some s' => Some s'
        | None => strip_any rs' s
        end
    end.

Fixpoint trim_left_runes (n : nat) (rs : list string) (s : string) : string :=
    match n with
    | O => s
    | S n' =>
        match strip_any rs s with
        | Some s' => trim_left_runes n' rs s'
        | None => s
        end
    end.

Definition trim_right_runes (rs : list string) (s : string) : string :=
    str_rev (trim_left_runes (String.length s) (map str_rev rs) (str_rev s)).

  (** [strings.TrimSpace] *)
Definition TrimSpace (s : string) : string :=
    trim_right_runes space_runes
      (trim_left_runes (String.length s) space_runes s).

Fixpoint trim_left_set (cutset s : string) : string :=
    match s with
    | EmptyString => EmptyString
    | String a s' => if contains_byte a cutset then trim_left_set cutset s' else s
    end.

  (** Package [unicode/utf8].  A rune is a code point, an [int32];
      [RuneError] is U+FFFD. *)
Definition RuneError : Z := 65533.

Definition byte_val (a : ascii) : Z := Z.of_nat (nat_of_ascii a).

Definition is_ascii (a : ascii) : bool := byte_val a <? 128.

  (** The table [first] with [acceptRanges]: for the first byte of an
      encoding of more than one byte, its size and the range of its
      second byte. *)
Definition lead (b0 : Z) : option (nat * Z * Z) :=
    if (194 <=? b0) && (b0 <=? 223) then Some (2%nat, 128, 191)
    else if b0 =? 224 then Some (3%nat, 160, 191)
    else if (225 <=? b0) && (b0 <=? 236) then Some (3%nat, 128, 191)
    else if b0 =? 237 then Some (3%nat, 128, 159)
    else if (238 <=? b0) && (b0 <=? 239) then Some (3%nat, 128, 191)
    else if b0 =? 240 then Some (4%nat, 144, 191)
    else if (241 <=? b0) && (b0 <=? 243) then Some (4%nat, 128, 191)
    else if b0 =? 244 then Some (4%nat, 128, 143)
    else None.

Definition continuation (b : Z) : bool := (128 <=? b) && (b <=? 191).

  (** [utf8.DecodeRuneInString]: the first rune of [s] and its width;
      [(RuneError, 0)] for the empty string, [(RuneError, 1)] for an
      encoding that is not valid. *)
Definition DecodeRuneInString (s : string) : Z * nat :=
    match s with
    | EmptyString => (RuneError, 0%nat)
    | String a0 t0 =>
        let b0 := byte_val a0 in
        if b0 <? 128 then (b0, 1%nat)
        else
          match lead b0, t0 with
          | Some (sz, lo, hi), String a1 t1 =>
              let b1 := byte_val a1 in
              if (b1 <? lo) || (hi <? b1) then (RuneError, 1%nat)
              else if (sz <=? 2)%nat
              then (Z.lor (Z.shiftl (Z.land b0 31) 6) (Z.land b1 63), 2%nat)
              else
                match t1 with
                | String a2 t2 =>
                    let b2 := byte_val a2 in
                    if negb (continuation b2) then (RuneError, 1%nat)
                    else if (sz <=? 3)%nat
                    then (Z.lor (Z.shiftl (Z.land b0 15) 12)
                            (Z.lor (Z.shiftl (Z.land b1 63) 6) (Z.land b2 63)), 3%nat)
                    else
                      match t2 with
                      | String a3 _ =>
                          let b3 := byte_val a3 in
                          if negb (continuation b3) then (RuneError, 1%nat)
                          else (Z.lor (Z.shiftl (Z.land b0 7) 18)
                                  (Z.lor (Z.shiftl (Z.land b1 63) 12)
                                     (Z.lor (Z.shiftl (Z.land b2 63) 6) (Z.land b3 63))),
                                4%nat)
                      | EmptyString => (RuneError, 1%nat)
                      end
                | EmptyString => (RuneError, 1%nat)
                end
          | _, _ => (RuneError, 1%nat)
          end
    end.

  (** [utf8.RuneStart]: the byte is not a continuation byte. *)
Definition RuneStart (a : ascii) : bool := negb (Z.land (byte_val a) 192 =? 128).

  (** The loop [for start--; start >= lim; start-- { if
      RuneStart(s[start]) { break } }] of [DecodeLastRuneInString], from
      the index [start] on. *)
Fixpoint rune_start_from (fuel : nat) (s : string) (start lim : Z) : Z :=
    match fuel with
    | O => start
    | S fuel' =>
        if start <? lim then start
        else
          match String.get (Z.to_nat start) s with
          | Some a => if RuneStart a then start else rune_start_from fuel' s (start - 1) lim
          | None => start
          end
    end.

  (** [utf8.DecodeLastRuneInString]: the last rune of [s] and its
      width. *)
Definition DecodeLastRuneInString (s : string) : Z * nat :=
    let end_ := Z.of_nat (String.length s) in
    match String.get (Z.to_nat (end_ - 1)) s with
    | None => (RuneError, 0%nat)
    | Some a =>
        if byte_val a <? 128 then (byte_val a, 1%nat)
        else
          let lim := Z.max 0 (end_ - 4) in
          let start := Z.max 0 (rune_start_from 4 s (end_ - 2) lim) in
          let '(r, size) := DecodeRuneInString (str_drop (Z.to_nat start) s) in
          if start + Z.of_nat size =? end_ then (r, size) else (RuneError, 1%nat)
    end.

  (** The runes of [for _, r := range s]. *)
Fixpoint runes (fuel : nat) (s : string) : list Z :=
    match fuel, s with
    | S fuel', String _ _ =>
        let '(r, n) := DecodeRuneInString s in r :: runes fuel' (str_drop n s)
    | _, _ => []
    end.

  (** [strings.ContainsRune] *)
Definition ContainsRune (s : string) (r : Z) : bool :=
    existsb (Z.eqb r) (runes (String.length s) s).

Fixpoint all_ascii (s : string) : bool :=
    match s with
    | EmptyString => true
    | String a s' => is_ascii a && all_ascii s'
    end.

Fixpoint trim_right_unicode (fuel : nat) (s cutset : string) : string :=
    match fuel, s with
    | S fuel', String _ _ =>
        let '(r, n) := DecodeLastRuneInString s in
        if ContainsRune cutset r
        then trim_right_unicode fuel' (str_take (String.length s - n) s) cutset
        else s
    | _, _ => s
    end.

Fixpoint trim_left_unicode (fuel : nat) (s cutset : string) : string :=
    match fuel, s with
    | S fuel', String _ _ =>
        let '(r, n) := DecodeRuneInString s in
        if ContainsRune cutset r then trim_left_unicode fuel' (str_drop n s) cutset else s
    | _, _ => s
    end.

  (** [strings.TrimRight], [strings.TrimLeft] and [strings.Trim]: the
      runes of the cutset are removed from the end (the start, both
      ends) as long as one is found.  As in the library, a cutset of
      ASCII characters is looked up byte by byte, any other cutset rune
      by rune. *)
Definition TrimRight (s cutset : string) : string :=
    if all_ascii cutset then str_rev (trim_left_set cutset (str_rev s))
    else trim_right_unicode (String.length s) s cutset.
Definition TrimLeft (s cutset : string) : string :=
    if all_ascii cutset then trim_left_set cutset s
    else trim_left_unicode (String.length s) s cutset.
Definition Trim (s cutset : string) : string :=
    TrimRight (TrimLeft s cutset) cutset.

  (** [strings.TrimPrefix] and [strings.TrimSuffix] *)
Definition TrimPrefix (s p : string) : string :=
    match strip_prefix p s with Some r => r | None => s end.
Definition TrimSuffix (s p : string) : string :=
    match strip_prefix (str_rev p) (str_rev s) with
    | Some r => str_rev r
    | None => s
    end.

  (** [strings.Replace(s, old, new, -1)] for a one-byte [old]. *)
Fixpoint ReplaceByte (s : string) (old : ascii) (new : string) : string :=
    match s with
    | EmptyString => EmptyString
    | String a s' =>
        if Ascii.eqb a old then new ++ ReplaceByte s' old new
        else String a (ReplaceByte s' old new)
    end.

  (** The part of [s] after the last [c], and the part up to and
      including it. *)
Fixpoint split_last (c : ascii) (s : string) : option (string * string) :=
    match s with
    | EmptyString => None
    | String a s' =>
        match split_last c s' with
        | Some (d, f) => Some (String a d, f)
        | None => if Ascii.eqb a c then Some (String a EmptyString, s') else None
        end
    end.

  (** [filepath.Split]: directory (with its final separator) and file. *)
Definition Split (path : string) : string * string :=
    match split_last "/" path with
    | Some (d, f) => (d, f)
    | None => (EmptyString, path)
    end.

  (** [filepath.Ext]: the suffix that starts at the last dot of the
      last element of the path, empty when there is no dot. *)
Definition Ext (path : string) : string :=
    match split_last "." (snd (Split path)) with
    | Some (_, e) => String "." e
    | None => EmptyString
    end.

Definition digit_val (a : ascii) : option Z :=
    let n := nat_of_ascii a in
    if ((48 <=? n) && (n <=? 57))%nat then Some (Z.of_nat n - 48) else None.

Fixpoint digits_val (s : string) (acc : Z) : option Z :=
    match s with
    | EmptyString => Some acc
    | String a s' =>
        match digit_val a with
        | Some d => digits_val s' (10 * acc + d)
        | None => None
        end
    end.

  (** [strconv.ParseInt(s, 10, 64)]: [None] is the error. *)
Definition ParseInt (s : string) : option Z :=
    let body (t : string) :=
      match t with
      | EmptyString => None
      | _ => digits_val t 0
      end in
    let r :=
      match s with
      | String "-" t => option_map Z.opp (body t)
      | String "+" t => body t
      | _ => body s
      end in
    match r with
    | Some z => if (- 2 ^ 63 <=? z) && (z <=? 2 ^ 63 - 1) then Some z else None
    | None => None
    end.

  (** The sum of two [int]: an [int] is 64 bits wide, in two's
      complement, and the sum wraps around. *)
Definition int_add (a b : Z) : Z := (a + b + 2 ^ 63) mod 2 ^ 64 - 2 ^ 63.

End Go.

Module types.

(** ** Package [types]: values

    The engine and the actions exchange values of type [interface{}];
    the constructors below are the dynamic types that occur. *)

Inductive BlockKind := Fenced | Listing | Example | Comment | Verse.
Inductive AdmonitionKind := Tip | Note | Important | Warning | Caution.
Inductive QuotedTextKind := Bold | Italic | Monospace.
Inductive PassthroughKind :=
  SinglePlusPassthrough | TriplePlusPassthrough | PassthroughMacro.

Inductive value :=
| VNil                                                    (* nil *)
| VBytes (b : string)                                     (* []byte *)
| VStr (s : string)                                       (* string *)
| VList (l : list value)                                  (* []interface{} *)
| VInlineElements (l : list value)                        (* types.InlineElements *)
| VMap (m : gmap string value)                            (* map[string]interface{} *)
| VGenericAttribute (m : gmap string value)               (* types.GenericAttribute *)
| VBlockKind (k : BlockKind)
| VAdmonitionKind (k : AdmonitionKind)
| VStringElement (Content : string)
| VQuotedText (Kind : QuotedTextKind) (Elements : list value)
| VPassthrough (Kind : PassthroughKind) (Elements : list value)
| VCrossReference (ID : string)
| VLink (URL : string) (Attributes : gmap string value)
| VImageMacro (Path : string) (Attributes : gmap string value)
| VBlockImage (Macro : value) (Attributes : gmap string value)
| VInlineImage (Macro : value)
| VDocumentAttributeDeclaration (Name Value : string)
| VDocumentAttributeReset (Name : string)
| VDocumentAttributeSubstitution (Name : string)
| VSingleLineComment (Content : string)
| VBlankLine
| VTableOfContentsMacro
| VListItemContinuation
| VParagraph (Attributes : gmap string value) (Lines : list (list value))
| VDelimitedBlock (Attributes : gmap string value) (Elements : list value)
| VLiteralBlock (Content : string)
| VSectionTitle (Attributes : gmap string value) (Content : list value)
| VSection (Level : Z) (Title : value) (Elements : list value)
| VPreamble (Elements : list value)
| VOrderedListItemPrefix (NumberingStyle : string) (Level : Z)
| VUnorderedListItemPrefix (BulletStyle : string) (Level : Z)
| VOrderedListItem (Level Position : Z) (NumberingStyle : string)
    (Elements : list value) (Attributes : gmap string value)
| VUnorderedListItem (Level : Z) (BulletStyle : string) (Elements : list value)
| VLabeledListItem (Term : string) (Elements : list value)
| VOrderedList (Attributes : gmap string value) (Items : list value)
| VUnorderedList (Attributes : gmap string value) (Items : list value)
| VLabeledList (Attributes : gmap string value) (Items : list value)
| VDocumentAuthor (FullName Initials FirstName MiddleName LastName Email : string)
| VDocumentAuthors (authors : list value)                 (* []DocumentAuthor *)
| VDocumentRevision (Revnumber Revdate Revremark : string)
| VDocumentHeader (Content : gmap string value)
| VFrontMatter (Content : gmap string value)
| VDocument (Attributes : gmap string value) (Elements : list value)
    (ElementReferences : gmap string value).

(** What a Go action does: it returns a value, returns a value with an
    error (the error is recorded, the match stands), or panics. *)
Inductive action_result :=
| Ret (v : value)
| RetErr (v : value) (e : string)
| Panics (e : string).

(** ** Package [types]: helpers *)

(** A Go function returning [(T, error)]: on an error its caller
    returns at once, with that error. *)
Definition bind (a : action_result) (k : value -> action_result) : action_result :=
  match a with
  | Ret v => k v
  | RetErr _ e => RetErr VNil e
  | Panics m => Panics m
  end.

Notation "'let!' x ':=' a 'in' k" := (bind a (fun x => k))
  (at level 10, x name, a at level 100, k at level 200).

(** Type assertions [v.(T)]: a value of another dynamic type panics. *)
Definition asList (v : value) (k : list value -> action_result) : action_result :=
  match v with VList l => k l | _ => Panics "interface conversion: not []interface {}" end.
Definition asStr (v : value) (k : string -> action_result) : action_result :=
  match v with VStr x => k x | _ => Panics "interface conversion: not string" end.
Definition asMap (v : value) (k : gmap string value -> action_result) : action_result :=
  match v with VMap m => k m | _ => Panics "interface conversion: not map[string]interface {}" end.

(** A parameter of type [[]interface{}] that receives the literal
    [nil] or a slice. *)
Definition slice_of (v : value) : list value :=
  match v with VList l => l | _ => [] end.

Definition is_empty (s : string) : bool :=
  match s with EmptyString => true | _ => false end.

(** Modelled from the spec: [mergeElements] and [stringify] (file
    [pkg/types] utilities) are not among the sources.  Nested slices
    are flattened, [nil] is skipped, adjacent text (strings, byte
    slices, StringElements) is joined into one StringElement, and every
    other element is kept in its place; this is what the expected
    results of the parser tests show ("a paragraph" is one
    StringElement, "with " is followed by a QuotedText). *)
Fixpoint flatten (v : value) : list value :=
  match v with
  | VNil => []
  | VStr t => [VStringElement t]
  | VBytes t => [VStringElement t]
  | VStringElement t => [VStringElement t]
  | VList l =>
      (fix go (l : list value) : list value :=
         match l with
         | [] => []
         | x :: l' => (flatten x ++ go l')%list
         end) l
  | _ => [v]
  end.

Fixpoint merge_text (l : list value) : list value :=
  match l with
  | [] => []
  | VStringElement a :: l' =>
      match merge_text l' with
      | VStringElement b :: r => VStringElement (a ++ b) :: r
      | r => if is_empty a then r else VStringElement a :: r
      end
  | x :: l' => x :: merge_text l'
  end.

Definition mergeElements (elements : list value) : list value :=
  merge_text (flatten (VList elements)).

Fixpoint text_of (l : list value) : option string :=
  match l with
  | [] => Some EmptyString
  | VStringElement a :: l' =>
      match text_of l' with Some t => Some (a ++ t) | None => None end
  | _ => None
  end.

(** Modelled from the spec: [stringify] joins the text of the elements
    and applies the given functions in order; an element that is not
    text is an error. *)
Definition stringify (elements : list value) (fns : list (string -> string))
  : action_result :=
  match text_of (mergeElements elements) with
  | Some t => Ret (VStr (fold_left (fun acc f => f acc) fns t))
  | None => RetErr (VStr EmptyString) "cannot convert element to string content"
  end.

(** Modelled from the spec: [nilSafe] turns a nil slice into an empty
    one; both are the empty list here. *)
Definition nilSafe (elements : list value) : list value := elements.

(** [NewInlineElements] *)
Definition NewInlineElements (elements : list value) : action_result :=
  Ret (VInlineElements (mergeElements elements)).

(** Attribute keys *)
Definition AttrBlockKind : string := "kind".
Definition AttrID : string := "elementID".
Definition AttrTitle : string := "title".
Definition AttrLink : string := "link".
Definition AttrAdmonitionKind : string := "admonitionKind".
Definition AttrVerseKind : string := "verse".
Definition AttrVerseAuthor : string := "verseAuthor".
Definition AttrVerseTitle : string := "verseTitle".
Definition AttrImageAlt : string := "alt".
Definition AttrImageWidth : string := "width".
Definition AttrImageHeight : string := "height".
Definition AttrImageTitle : string := "title".
Definition AttrLinkText : string := "text".

(** [for k, v := range src { dst[k] = v }] *)
Definition map_put_all (src dst : gmap string value) : gmap string value :=
  src ∪ dst.

(** [NewElementAttributes]: the maps among the attributes, the later
    ones overwriting the earlier ones. *)
Fixpoint NewElementAttributes_from (attributes : list value) (attrbs : gmap string value)
  : gmap string value :=
  match attributes with
  | [] => attrbs
  | VMap m :: rest => NewElementAttributes_from rest (map_put_all m attrbs)
  | _ :: rest => NewElementAttributes_from rest attrbs
  end.

Definition NewElementAttributes (attributes : list value) : gmap string value :=
  NewElementAttributes_from attributes ∅.

(** Modelled from the spec: [mergeAttributes] is not among the sources;
    "multiple attribute lines accumulate into a single attribute map
    for the following block; later keys overwrite earlier". *)
Definition mergeAttributes (attributes : list value) : gmap string value :=
  NewElementAttributes attributes.

Definition NewElementID (id : string) : action_result :=
  Ret (VMap {[ AttrID := VStr id ]}).

Definition NewElementTitle (value : list value) : action_result :=
  match stringify value [] with
  | Ret (VStr v) => Ret (VMap {[ AttrTitle := VStr v ]})
  | _ => RetErr (VMap ∅) "failed to initialize a new ElementTitle"
  end.

Definition NewAdmonitionAttribute (k : AdmonitionKind) : action_result :=
  Ret (VMap {[ AttrAdmonitionKind := VAdmonitionKind k ]}).

Definition trim_quotes (t : string) : string := Go.Trim t dq.

(** [NewGenericAttribute]: [value] is [None] when the action passes
    [nil].  The slice of a repetition that has matched nothing is the
    nil slice too, [value != nil] is false for it. *)
Definition NewGenericAttribute (key : list value) (value : option (list value))
  : action_result :=
  match stringify key [trim_quotes] with
  | Ret (VStr k) =>
      match value with
      | Some (e :: val) =>
          match stringify (e :: val) [trim_quotes] with
          | Ret (VStr v) => Ret (VGenericAttribute {[ k := VStr v ]})
          | _ => RetErr (VGenericAttribute ∅) "failed to initialize a new generic attribute"
          end
      | _ => Ret (VGenericAttribute {[ k := VNil ]})
      end
  | _ => RetErr (VGenericAttribute ∅) "failed to initialize a new generic attribute"
  end.

Fixpoint NewAttributeGroup_from (attributes : list value) (result : gmap string value)
  : gmap string value :=
  match attributes with
  | [] => result
  | VGenericAttribute a :: rest => NewAttributeGroup_from rest (map_put_all a result)
  | _ :: rest => NewAttributeGroup_from rest result
  end.

Definition NewAttributeGroup (attributes : list value) : action_result :=
  Ret (VMap (NewAttributeGroup_from attributes ∅)).

Definition NewVerseAttributes (author title : string) : action_result :=
  Ret (VMap (<[ AttrVerseTitle := VStr (Go.TrimSpace title) ]>
            (<[ AttrVerseAuthor := VStr (Go.TrimSpace author) ]>
            (<[ AttrBlockKind := VBlockKind Verse ]> ∅)))).

Definition NewStringElement (content : string) : value := VStringElement content.

(** ** Package [types]: the constructors of the inline elements *)

Definition NewCrossReference (id : string) : action_result :=
  Ret (VCrossReference id).

Definition NewQuotedText (kind : QuotedTextKind) (content : list value) : action_result :=
  Ret (VQuotedText kind (mergeElements content)).

(** [NewEscapedQuotedText]: as many backslashes as the punctuation is
    long are removed, the extra ones are kept. *)
Definition NewEscapedQuotedText (backslashes : list value) (punctuation : string)
    (content : list value) : action_result :=
  let! backslashesStr :=
    stringify backslashes
      [fun t => if (String.length punctuation <? String.length t)%nat
                then str_drop (String.length punctuation) t
                else EmptyString] in
  Ret (VList [backslashesStr; VStr punctuation; VList content; VStr punctuation]).

Definition NewPassthrough (kind : PassthroughKind) (elements : list value) : action_result :=
  Ret (VPassthrough kind (mergeElements elements)).

(** [NewLink]: [attributes] is [None] when the action passes [nil]. *)
Definition NewLink (url : list value) (attributes : option (gmap string value))
  : action_result :=
  match stringify url [] with
  | Ret (VStr urlStr) =>
      Ret (VLink urlStr
             match attributes with
             | Some a => a
             | None => {[ AttrLinkText := VStr EmptyString ]}
             end)
  | _ => RetErr (VLink EmptyString ∅) "failed to initialize a new Link element"
  end.

(** [for _, otherAttr := range otherAttrs]: only a value of type
    [map[string]interface{}] is copied. *)
Fixpoint put_other_attrs (otherAttrs : list value) (result : gmap string value)
  : gmap string value :=
  match otherAttrs with
  | [] => result
  | VMap m :: rest => put_other_attrs rest (map_put_all m result)
  | _ :: rest => put_other_attrs rest result
  end.

Definition NewLinkAttributes (text : list value) (otherAttrs : list value) : action_result :=
  match stringify text [Go.TrimSpace] with
  | Ret textStr => Ret (VMap (put_other_attrs otherAttrs {[ AttrLinkText := textStr ]}))
  | _ => RetErr (VMap ∅) "unable to convert the 'text' link attribute into a string"
  end.

(** [Link.Text] *)
Definition Text (l : value) : string :=
  match l with
  | VLink _ attributes =>
      match attributes !! AttrLinkText with
      | Some (VStr text) => text
      | _ => EmptyString
      end
  | _ => EmptyString
  end.

(** [NewImageAttributes]: the positional attributes [alt], [width] and
    [height]; an absent one is the empty string. *)
Definition NewImageAttributes (alt width height otherAttrs : list value) : action_result :=
  match stringify alt [Go.TrimSpace] with
  | Ret altStr =>
    match stringify width [Go.TrimSpace] with
    | Ret widthStr =>
      match stringify height [Go.TrimSpace] with
      | Ret heightStr =>
          Ret (VMap (put_other_attrs otherAttrs
                       (<[ AttrImageHeight := heightStr ]>
                       (<[ AttrImageWidth := widthStr ]>
                       (<[ AttrImageAlt := altStr ]> ∅)))))
      | _ => RetErr (VMap ∅) "unable to convert the 'height' image attribute into a string"
      end
    | _ => RetErr (VMap ∅) "unable to convert the 'width' image attribute into a string"
    end
  | _ => RetErr (VMap ∅) "unable to convert the 'alt' image attribute into a string"
  end.

(** [NewImageMacro]: when the [alt] attribute is the empty string it is
    replaced by the file name, from which the characters of the
    extension are trimmed with [strings.TrimRight]. *)
Definition NewImageMacro (path : string) (attributes : gmap string value) : action_result :=
  let attributes' :=
    match attributes !! AttrImageAlt with
    | Some (VStr EmptyString) =>
        let filename := snd (Go.Split path) in
        let ext := Go.Ext filename in
        if negb (is_empty ext)
        then <[ AttrImageAlt := VStr (Go.TrimRight filename ("." ++ ext)) ]> attributes
        else <[ AttrImageAlt := VStr filename ]> attributes
    | _ => attributes
    end in
  Ret (VImageMacro path attributes').

(** [ImageMacro.Alt] *)
Definition Alt (i : value) : string :=
  match i with
  | VImageMacro _ attributes =>
      match attributes !! AttrImageAlt with
      | Some (VStr alt) => alt
      | _ => EmptyString
      end
  | _ => EmptyString
  end.

Definition NewBlockImage (imageMacro : value) (attributes : list value) : action_result :=
  Ret (VBlockImage imageMacro (NewElementAttributes attributes)).

Definition NewInlineImage (imageMacro : value) : action_result :=
  Ret (VInlineImage imageMacro).

(** ** Package [types]: the constructors of the blocks *)

Definition NewBlankLine : action_result := Ret VBlankLine.

Definition NewSingleLineComment (content : list value) : action_result :=
  match stringify content [] with
  | Ret (VStr c) => Ret (VSingleLineComment c)
  | _ => RetErr (VSingleLineComment EmptyString) "failed to initialize a new single line comment"
  end.

Fixpoint inline_lines (lines : list value) : list (list value) :=
  match lines with
  | [] => []
  | VInlineElements l :: rest => l :: inline_lines rest
  | _ :: rest => inline_lines rest
  end.

(** [NewParagraph]: the lines of type [InlineElements], in order. *)
Definition NewParagraph (lines : list value) (attributes : list value) : action_result :=
  Ret (VParagraph (NewElementAttributes attributes) (inline_lines lines)).

Definition NewAdmonitionParagraph (lines : list value) (admonitionKind : AdmonitionKind)
    (attributes : list value) : action_result :=
  Ret (VParagraph
         (<[ AttrAdmonitionKind := VAdmonitionKind admonitionKind ]>
            (NewElementAttributes attributes))
         (inline_lines lines)).

(** The substitutions of a delimited block. *)
Definition None_ (content : list value) : action_result :=
  Ret (VList (nilSafe content)).

Fixpoint Verbatim_from (content : list value) : option (list value) :=
  match content with
  | [] => Some []
  | VList c :: rest =>
      match stringify c [] with
      | Ret (VStr t) =>
          match Verbatim_from rest with
          | Some r => Some (NewStringElement t :: r)
          | None => None
          end
      | _ => None
      end
  | _ :: rest =>
      match Verbatim_from rest with
      | Some r => Some (VNil :: r)
      | None => None
      end
  end.

Definition Verbatim (content : list value) : action_result :=
  match Verbatim_from content with
  | Some r => Ret (VList r)
  | None => RetErr (VList []) "failed to apply the 'verbatim' substitution"
  end.

(** [NewDelimitedBlock]: the kind is stored under [AttrBlockKind],
    after the attributes of the block. *)
Definition NewDelimitedBlock (kind : BlockKind) (content : list value)
    (attributes : list value) (substitution : list value -> action_result)
  : action_result :=
  let attrbs := <[ AttrBlockKind := VBlockKind kind ]> (NewElementAttributes attributes) in
  match substitution content with
  | Ret (VList elements) => Ret (VDelimitedBlock attrbs elements)
  | Panics m => Panics m
  | _ => RetErr (VDelimitedBlock ∅ []) "failed to initialize a new delimited block"
  end.

Definition NewLiteralBlock (spaces content : list value) : action_result :=
  match stringify (spaces ++ content)%list [] with
  | Ret (VStr c) => Ret (VLiteralBlock (Go.TrimRight (Go.TrimRight c nl) cr))
  | _ => RetErr (VLiteralBlock EmptyString) "unable to initialize a new literal block"
  end.

(** ** Package [types]: document attributes *)

Definition NewDocumentAttributeDeclaration (name : list value) (value : list value)
  : action_result :=
  match stringify name [Go.TrimSpace] with
  | Ret (VStr attrName) =>
      match stringify value [Go.TrimSpace] with
      | Ret (VStr attrValue) => Ret (VDocumentAttributeDeclaration attrName attrValue)
      | _ => RetErr (VDocumentAttributeDeclaration EmptyString EmptyString)
               "error while initializing a DocumentAttributeDeclaration"
      end
  | _ => RetErr (VDocumentAttributeDeclaration EmptyString EmptyString)
           "error while initializing a DocumentAttributeDeclaration"
  end.

Definition NewDocumentAttributeReset (name : list value) : action_result :=
  match stringify name [] with
  | Ret (VStr attrName) => Ret (VDocumentAttributeReset attrName)
  | _ => RetErr (VDocumentAttributeReset EmptyString)
           "error while initializing a DocumentAttributeReset"
  end.

Definition NewDocumentAttributeSubstitution (name : list value) : action_result :=
  match stringify name [] with
  | Ret (VStr attrName) => Ret (VDocumentAttributeSubstitution attrName)
  | _ => RetErr (VDocumentAttributeSubstitution EmptyString)
           "error while initializing a DocumentAttributeSubstitution"
  end.

(** ** Package [types]: sections *)

Definition is_alnum (a : ascii) : bool :=
  let n := nat_of_ascii a in
  (((48 <=? n) && (n <=? 57)) || ((65 <=? n) && (n <=? 90))
   || ((97 <=? n) && (n <=? 122)))%nat.

Fixpoint plain_text (v : value) : string :=
  match v with
  | VStringElement t => t
  | VQuotedText _ l =>
      (fix go (l : list value) : string :=
         match l with [] => EmptyString | x :: l' => plain_text x ++ go l' end) l
  | _ => EmptyString
  end.

Fixpoint normalize (t : string) (in_run : bool) : string :=
  match t with
  | EmptyString => EmptyString
  | String a t' =>
      if is_alnum a then String (lower_ascii a) (normalize t' false)
      else if in_run then normalize t' true
      else String "_" (normalize t' true)
  end.

(** Modelled from the spec: [ReplaceNonAlphanumerics] is not among the
    sources; "synthesize one by lowercasing the title's plain text and
    replacing runs of non-alphanumerics with [_]". *)
Definition ReplaceNonAlphanumerics (source : list value) (replacement : string) : string :=
  normalize (String.concat EmptyString (map plain_text source)) false.

(** [NewSectionTitle]: the attributes keep the given ID, or one made
    from the content of the title. *)
Definition NewSectionTitle (inlineContent : list value) (attributes : list value)
  : action_result :=
  let attrbs := NewElementAttributes attributes in
  let attrbs' :=
    match attrbs !! AttrID with
    | Some _ => attrbs
    | None => <[ AttrID := VStr (ReplaceNonAlphanumerics inlineContent "_") ]> attrbs
    end in
  Ret (VSectionTitle attrbs' inlineContent).

Definition NewSection (level : Z) (sectionTitle : value) (blocks : list value)
  : action_result :=
  Ret (VSection level sectionTitle (nilSafe blocks)).

(** ** Package [types]: the document header *)

(** Modelled from the spec: [DocumentAttributes.AddNonEmpty] and
    [AddAttribute] are not among the sources; an attribute is copied
    under its key, [AddNonEmpty] only when the value is not empty. *)
Definition AddNonEmpty (key val : string) (a : gmap string value) : gmap string value :=
  if is_empty val then a else <[ key := VStr val ]> a.

Definition AddAttribute (attr : value) (a : gmap string value) : gmap string value :=
  match attr with
  | VDocumentAttributeDeclaration name v => <[ name := VStr v ]> a
  | _ => a
  end.

Definition suffixed (key : string) (i : nat) : string :=
  key ++ "_" ++ pretty (i + 1)%nat.

Fixpoint add_authors (authors : list value) (i : nat) (content : gmap string value)
  : gmap string value :=
  match authors with
  | VDocumentAuthor full ini first middle last email :: rest =>
      let k (key : string) := match i with O => key | _ => suffixed key i end in
      add_authors rest (S i)
        (AddNonEmpty (k "email") email
        (AddNonEmpty (k "authorinitials") ini
        (AddNonEmpty (k "author") full
        (AddNonEmpty (k "lastname") last
        (AddNonEmpty (k "middlename") middle
        (AddNonEmpty (k "firstname") first content))))))
  | _ => content
  end.

Definition NewDocumentHeader (header authors revision : value) (otherAttributes : list value)
  : action_result :=
  match header with
  | VNil | VSectionTitle _ _ =>
    let content0 : gmap string value :=
      match header with VNil => ∅ | _ => {[ "doctitle" := header ]} end in
    match authors with
    | VNil | VDocumentAuthors _ =>
      let content1 :=
        match authors with
        | VDocumentAuthors l => add_authors l 0 content0
        | _ => content0
        end in
      match revision with
      | VNil | VDocumentRevision _ _ _ =>
        let content2 :=
          match revision with
          | VDocumentRevision n d r =>
              AddNonEmpty "revremark" r
                (AddNonEmpty "revdate" d (AddNonEmpty "revnumber" n content1))
          | _ => content1
          end in
        Ret (VDocumentHeader (fold_left (fun c a => AddAttribute a c) otherAttributes content2))
      | _ => Panics "interface conversion: not types.DocumentRevision"
      end
    | _ => Panics "interface conversion: not []types.DocumentAuthor"
    end
  | _ => Panics "interface conversion: not types.SectionTitle"
  end.

Fixpoint all_authors (authors : list value) : bool :=
  match authors with
  | [] => true
  | VDocumentAuthor _ _ _ _ _ _ :: rest => all_authors rest
  | _ => false
  end.

Definition NewDocumentAuthors (authors : list value) : action_result :=
  if all_authors authors then Ret (VDocumentAuthors authors)
  else RetErr VNil "unexpected type of author".

(** [s[0:1]], which panics on the empty string. *)
Definition first_byte (t : string) : option string :=
  match t with
  | String a _ => Some (String a EmptyString)
  | EmptyString => None
  end.

Fixpoint initials_from (result : string) (otherParts : list string) : option string :=
  match otherParts with
  | [] => Some result
  | o :: rest =>
      match first_byte o with
      | Some c => initials_from (result ++ c) rest
      | None => None
      end
  end.

Definition initials (firstPart : string) (otherParts : list string) : option string :=
  match first_byte firstPart with
  | Some c => initials_from c otherParts
  | None => None
  end.

Definition name_part (v : value) : action_result :=
  match v with
  | VNil => Ret (VStr EmptyString)
  | VList l =>
      match stringify l [Go.TrimSpace; fun t => Go.ReplaceByte t "_" " "] with
      | Ret w => Ret w
      | _ => RetErr VNil "error while initializing a DocumentAuthor"
      end
  | _ => Panics "interface conversion: not []interface {}"
  end.

Definition NewDocumentAuthor (namePart1 namePart2 namePart3 emailAddress : value)
  : action_result :=
  let! p1 := name_part namePart1 in
  let! p2 := name_part namePart2 in
  let! p3 := name_part namePart3 in
  let! em :=
    match emailAddress with
    | VNil => Ret (VStr EmptyString)
    | VList l =>
        match stringify l [fun t => Go.TrimPrefix t "<"; fun t => Go.TrimSuffix t ">";
                           Go.TrimSpace] with
        | Ret w => Ret w
        | _ => RetErr VNil "error while initializing a DocumentAuthor"
        end
    | _ => Panics "interface conversion: not []interface {}"
    end in
  match p1, p2, p3, em with
  | VStr part1, VStr part2, VStr part3, VStr email =>
      let mk (full : string) (ini : option string) (first middle last : string) :=
        match ini with
        | Some i => Ret (VDocumentAuthor full i first middle last email)
        | None => Panics "slice bounds out of range"
        end in
      if negb (is_empty part2) && negb (is_empty part3) then
        mk (part1 ++ " " ++ part2 ++ " " ++ part3) (initials part1 [part2; part3])
           part1 part2 part3
      else if negb (is_empty part2) then
        mk (part1 ++ " " ++ part2) (initials part1 [part2]) part1 EmptyString part2
      else
        mk part1 (initials part1 []) part1 EmptyString EmptyString
  | _, _, _, _ => Panics "unreachable"
  end.

Definition rev_part (v : value) (fns : list (string -> string)) : action_result :=
  match v with
  | VNil => Ret (VStr EmptyString)
  | VList l =>
      match stringify l fns with
      | Ret w => Ret w
      | _ => RetErr VNil "error while initializing a DocumentRevision"
      end
  | _ => Panics "interface conversion: not []interface {}"
  end.

Definition NewDocumentRevision (revnumber revdate revremark : value) : action_result :=
  let! n := rev_part revnumber
              [fun t => Go.TrimPrefix t "v"; fun t => Go.TrimPrefix t "V"; Go.TrimSpace] in
  let! d := rev_part revdate [Go.TrimSpace] in
  let! r := rev_part revremark [fun t => Go.TrimPrefix t ":"; Go.TrimSpace] in
  match n, d, r with
  | VStr number, VStr date, VStr remark => Ret (VDocumentRevision number date remark)
  | _, _, _ => Panics "unreachable"
  end.

(** ** Package [types]: the document *)

Definition is_section (v : value) : bool :=
  match v with VSection _ _ _ => true | _ => false end.

Definition is_preamble (v : value) : bool :=
  match v with VPreamble _ => true | _ => false end.

(** The loop of [insertPreamble]: the [break] of the [Section] case
    leaves the [switch], the loop goes on to the last block. *)
Fixpoint preamble_elements (blocks : list value) (elements : list value) : list value :=
  match blocks with
  | [] => elements
  | block :: rest =>
      if is_section block then preamble_elements rest elements
      else preamble_elements rest (elements ++ [block])%list
  end.

Definition insertPreamble (blocks : list value) : list value :=
  let preamble := preamble_elements blocks [] in
  if (length preamble =? 0)%nat || (length preamble =? length blocks)%nat
  then nilSafe blocks
  else VPreamble preamble :: drop (length preamble) blocks.

Fixpoint index_of_preamble (elements : list value) : option nat :=
  match elements with
  | [] => None
  | e :: rest =>
      if is_preamble e then Some O
      else option_map S (index_of_preamble rest)
  end.

(** The [toc] attribute of the header: where the table of contents is
    inserted; [None] is the panic of [make] with a negative length. *)
Definition insert_toc (attrValue : value) (elements : list value) : option (list value) :=
  match attrValue with
  | VStr EmptyString | VStr "auto" => Some (VTableOfContentsMacro :: elements)
  | VStr "preamble" =>
      let preambleIndex := default O (index_of_preamble elements) in
      match elements with
      | [] => None
      | _ => Some (take (preambleIndex + 1) elements ++
                   VTableOfContentsMacro :: drop (preambleIndex + 1) elements)%list
      end
  | _ => Some elements
  end.

(** Modelled from the spec: the [ElementReferencesCollector] is not
    among the sources; "collect elementID -> SectionTitle mappings
    during traversal", the first definition of an ID being kept.  Of
    the blocks only sections are visited. *)
Fixpoint collect (v : value) (refs : gmap string value) : gmap string value :=
  match v with
  | VSection _ title elements =>
      let refs' :=
        match title with
        | VSectionTitle attrs _ =>
            match attrs !! AttrID with
            | Some (VStr id) =>
                match refs !! id with
                | Some _ => refs
                | None => <[ id := title ]> refs
                end
            | _ => refs
            end
        | _ => refs
        end in
      (fix go (l : list value) (refs : gmap string value) : gmap string value :=
         match l with
         | [] => refs
         | x :: l' => go l' (collect x refs)
         end) elements refs'
  | _ => refs
  end.

Definition NewDocument (frontmatter header : value) (blocks : list value) : action_result :=
  let elements := insertPreamble blocks in
  match frontmatter with
  | VNil | VFrontMatter _ =>
    let attributes0 : gmap string value :=
      match frontmatter with VFrontMatter c => c | _ => ∅ end in
    match header with
    | VNil | VDocumentHeader _ =>
      let content : gmap string value :=
        match header with VDocumentHeader c => c | _ => ∅ end in
      let elements' :=
        match content !! "toc" with
        | Some attrValue => insert_toc attrValue elements
        | None => Some elements
        end in
      match elements' with
      | Some els =>
          Ret (VDocument (map_put_all content attributes0) els
                 (fold_left (fun refs e => collect e refs) els ∅))
      | None => Panics "makeslice: len out of range"
      end
    | _ => Panics "interface conversion: not types.DocumentHeader"
    end
  | _ => Panics "interface conversion: not types.FrontMatter"
  end.

(** ** Package [types]: lists

    The list constructors work on pointers to the items: an item is
    changed in place (its level, its position, its elements) while it
    sits in a buffer.  The items live in a store, a pointer is an index
    into it. *)

Inductive go (A : Type) :=
| Done (a : A)                  (* normal return *)
| Fault (msg : string)          (* return with an error *)
| Crash (msg : string).         (* panic *)
Arguments Done {A} a.
Arguments Fault {A} msg.
Arguments Crash {A} msg.

Definition store := list value.

Definition UnknownNumberingStyle : string := "unknown".
Definition Arabic : string := "arabic".
Definition Decimal : string := "decimal".
Definition LowerAlpha : string := "loweralpha".
Definition UpperAlpha : string := "upperalpha".
Definition LowerRoman : string := "lowerroman".
Definition UpperRoman : string := "upperroman".
Definition LowerGreek : string := "lowergreek".
Definition UpperGreek : string := "uppergreek".

Definition numberingStyles : list string :=
  [Arabic; Decimal; LowerAlpha; UpperAlpha; LowerRoman; UpperRoman; LowerGreek; UpperGreek].

Definition UnknownBulletStyle : string := "unkwown".
Definition Dash : string := "dash".
Definition OneAsterisk : string := "1asterisk".
Definition TwoAsterisks : string := "2asterisks".
Definition ThreeAsterisks : string := "3asterisks".
Definition FourAsterisks : string := "4asterisks".
Definition FiveAsterisks : string := "5asterisks".

Definition NewOrderedListItemPrefix (s : string) (l : Z) : action_result :=
  Ret (VOrderedListItemPrefix s l).

Definition NewUnorderedListItemPrefix (s : string) (l : Z) : action_result :=
  Ret (VUnorderedListItemPrefix s l).

Definition NewOrderedListItem (prefix : value) (elements attributes : list value)
  : action_result :=
  match prefix with
  | VOrderedListItemPrefix style level =>
      Ret (VOrderedListItem level 1 style elements (mergeAttributes attributes))
  | _ => Panics "interface conversion: not types.OrderedListItemPrefix"
  end.

Definition NewUnorderedListItem (prefix : value) (elements : list value) : action_result :=
  match prefix with
  | VUnorderedListItemPrefix style level => Ret (VUnorderedListItem level style elements)
  | _ => Panics "interface conversion: not types.UnorderedListItemPrefix"
  end.

Definition NewLabeledListItem (term : list value) (elements : list value) : action_result :=
  match stringify term [] with
  | Ret (VStr t) => Ret (VLabeledListItem t elements)
  | _ => RetErr (VLabeledListItem EmptyString [])
           "unable to get term while instanciating a new LabeledListItem element"
  end.

Definition NewListItemContinuation : action_result := Ret VListItemContinuation.

(** [NewListItemContent]: the slices among the elements are opened,
    [nil] is dropped. *)
Fixpoint NewListItemContent_from (content : list value) : list value :=
  match content with
  | [] => []
  | VList l :: rest => (l ++ NewListItemContent_from rest)%list
  | VNil :: rest => NewListItemContent_from rest
  | e :: rest => e :: NewListItemContent_from rest
  end.

Definition NewListItemContent (content : list value) : action_result :=
  Ret (VList (NewListItemContent_from content)).

(** [i.Elements = append(i.Elements, item)] on the item at [ptr]. *)
Definition add_child (ptr : nat) (item : value) (st : store) : option store :=
  match st !! ptr with
  | Some (VOrderedListItem l p ns els at_) =>
      Some (<[ ptr := VOrderedListItem l p ns (els ++ [item]) at_ ]> st)
  | Some (VUnorderedListItem l b els) =>
      Some (<[ ptr := VUnorderedListItem l b (els ++ [item]) ]> st)
  | Some (VLabeledListItem t els) =>
      Some (<[ ptr := VLabeledListItem t (els ++ [item]) ]> st)
  | _ => None
  end.

Fixpoint first_style (styles : list string) (attrs : gmap string value) : option string :=
  match styles with
  | [] => None
  | style :: rest =>
      match attrs !! style with
      | Some _ => Some style
      | None => first_style rest attrs
      end
  end.

(** [applyAttributes]: the numbering style and the position of an item
    from its attributes; [None] is the panic of [i.Elements[0]]. *)
Definition applyAttributes (ptr : nat) (st : store) : option store :=
  match st !! ptr with
  | Some (VOrderedListItem l p ns (e :: els) at_) =>
      let ns' := default ns (first_style numberingStyles at_) in
      let p' :=
        match at_ !! "start" with
        | Some (VStr start) => default p (Go.ParseInt start)
        | _ => p
        end in
      Some (<[ ptr := VOrderedListItem l p' ns' (e :: els) at_ ]> st)
  | _ => None
  end.

(** The loop of [toOrderedList]: [items[0]], at [ptr0], is read again
    in every round. *)
Fixpoint renumber (items : list nat) (idx : Z) (ptr0 : nat)
    (st : store) (acc : list value) : option (list value * store) :=
  match items with
  | [] => Some (acc, st)
  | ptr :: rest =>
      match st !! ptr0, st !! ptr with
      | Some (VOrderedListItem _ p0 ns0 _ _), Some (VOrderedListItem l _ _ els at_) =>
          let item := VOrderedListItem l (Go.int_add p0 idx) ns0 els at_ in
          renumber rest (idx + 1) ptr0 (<[ ptr := item ]> st) (acc ++ [item])%list
      | _, _ => None
      end
  end.

(** [toOrderedList]: the buffered items of one level as a list; the
    first item gives the position and the numbering style. *)
Definition toOrderedList (items : list nat) (st : store) : option (value * store) :=
  match items with
  | [] => Some (VOrderedList ∅ [], st)
  | ptr0 :: _ =>
      match applyAttributes ptr0 st with
      | Some st1 =>
          match renumber items 0 ptr0 st1 [] with
          | Some (vs, st2) => Some (VOrderedList ∅ vs, st2)
          | None => None
          end
      | None => None
      end
  end.

Definition layer (buffered : gmap Z (list nat)) (level : Z) : list nat :=
  default [] (buffered !! level).

Record OrderedListState := {
  ol_store : store;
  bufferedItemsPerLevel : gmap Z (list nat);
  levelPerStyle : gmap string Z;
  previousLevel : Z;
  previousNumberingStyle : string }.

(** The level given to an item of level [level] and style [style], and
    the updated [levelPerStyle]. *)
Definition adjust_level (level : Z) (style : string) (st : OrderedListState)
  : Z * gmap string Z :=
  if previousLevel st <? level then
    (previousLevel st + 1, <[ style := previousLevel st + 1 ]> (levelPerStyle st))
  else if negb (String.eqb style (previousNumberingStyle st)) then
    match levelPerStyle st !! style with
    | Some level' => (level', levelPerStyle st)
    | None => (previousLevel st + 1, <[ style := previousLevel st + 1 ]> (levelPerStyle st))
    end
  else (previousLevel st, levelPerStyle st).

(** One round of the loop of [NewOrderedList]. *)
Definition ordered_step (st : OrderedListState) (ptr : nat) : go OrderedListState :=
  match ol_store st !! ptr with
  | Some (VOrderedListItem level pos style [] at_) => Crash "index out of range"
  | Some (VOrderedListItem level pos style els at_) =>
      let '(level', lps) := adjust_level level style st in
      let st1 := <[ ptr := VOrderedListItem level' pos style els at_ ]> (ol_store st) in
      let flushed : option (store * gmap Z (list nat)) :=
        if level' <? previousLevel st then
          match last (layer (bufferedItemsPerLevel st) (previousLevel st - 2)),
                layer (bufferedItemsPerLevel st) (previousLevel st - 1) with
          | Some parent, (c :: cs) =>
              match toOrderedList (c :: cs) st1 with
              | Some (childList, st2) =>
                  match add_child parent childList st2 with
                  | Some st3 =>
                      Some (st3, delete (previousLevel st - 1) (bufferedItemsPerLevel st))
                  | None => None
                  end
              | None => None
              end
          | _, _ => None
          end
        else Some (st1, bufferedItemsPerLevel st) in
      match flushed with
      | Some (st4, buffered) =>
          let buffered1 :=
            if Z.of_nat (size buffered) <? level'
            then <[ level' - 1 := [] ]> buffered else buffered in
          let buffered2 :=
            <[ level' - 1 := (layer buffered1 (level' - 1) ++ [ptr])%list ]> buffered1 in
          Done {| ol_store := st4; bufferedItemsPerLevel := buffered2;
                  levelPerStyle := lps; previousLevel := level';
                  previousNumberingStyle := style |}
      | None => Crash "index out of range"
      end
  | Some _ => Fault "element is not a valid unorderedlist item"
  | None => Crash "invalid pointer"
  end.

Fixpoint ordered_scan (st : OrderedListState) (elements : list nat) : go OrderedListState :=
  match elements with
  | [] => Done st
  | ptr :: rest =>
      match ordered_step st ptr with
      | Done st' => ordered_scan st' rest
      | Fault m => Fault m
      | Crash m => Crash m
      end
  end.

Fixpoint top_items (items : list nat) (idx : Z) (ptr0 : nat) (st : store) (acc : list value)
  : option (list value * store) :=
  match items with
  | [] => Some (acc, st)
  | ptr :: rest =>
      match st !! ptr0, st !! ptr with
      | Some (VOrderedListItem _ p0 _ _ _), Some (VOrderedListItem l _ ns els at_) =>
          let item := VOrderedListItem l (Go.int_add p0 idx) ns els at_ in
          top_items rest (idx + 1) ptr0 (<[ ptr := item ]> st) (acc ++ [item])%list
      | _, _ => None
      end
  end.

(** The last loop of [NewOrderedList]: from the deepest level up, the
    buffered items become a child list of the last item of the level
    above; the items of level 0 are the result. *)
Fixpoint ordered_rest (n : nat) (buffered : gmap Z (list nat)) (st : store)
    (result : list value) : option (list value * store) :=
  match n with
  | O => Some (result, st)
  | S level =>
      let items := layer buffered (Z.of_nat level) in
      match level with
      | O =>
          match items with
          | [] => ordered_rest level buffered st result
          | ptr0 :: _ =>
              match top_items items 0 ptr0 st [] with
              | Some (vs, st') => ordered_rest level buffered st' (result ++ vs)%list
              | None => None
              end
          end
      | S _ =>
          match toOrderedList items st with
          | Some (childList, st1) =>
              match last (layer buffered (Z.of_nat level - 1)) with
              | Some parent =>
                  match add_child parent childList st1 with
                  | Some st2 => ordered_rest level buffered st2 result
                  | None => None
                  end
              | None => None
              end
          | None => None
          end
      end
  end.

Definition NewOrderedList (elements : list nat) (attributes : list value) (st : store)
  : go (value * store) :=
  let init := {| ol_store := st; bufferedItemsPerLevel := ∅; levelPerStyle := ∅;
                 previousLevel := 0; previousNumberingStyle := UnknownNumberingStyle |} in
  match ordered_scan init elements with
  | Done s =>
      match ordered_rest (size (bufferedItemsPerLevel s)) (bufferedItemsPerLevel s)
              (ol_store s) [] with
      | Some (result, st') => Done (VOrderedList (mergeAttributes attributes) result, st')
      | None => Crash "index out of range"
      end
  | Fault m => Fault m
  | Crash m => Crash m
  end.

(** *** Unordered lists *)

(** [nextLevelStyle]: the bullet style after [p]; the style [b] itself
    when [p] is not a known style. *)
Definition nextLevelStyle (b p : string) : string :=
  if String.eqb p Dash then OneAsterisk
  else if String.eqb p OneAsterisk then TwoAsterisks
  else if String.eqb p TwoAsterisks then ThreeAsterisks
  else if String.eqb p ThreeAsterisks then FourAsterisks
  else if String.eqb p FourAsterisks then FiveAsterisks
  else if String.eqb p FiveAsterisks then Dash
  else b.

Record UnorderedListState := {
  ul_store : store;
  ul_buffered : gmap Z (list nat);
  ul_levelPerStyle : gmap string Z;
  ul_previousLevel : Z;
  previousBulletStyle : string }.

Fixpoint copies (items : list nat) (st : store) : option (list value) :=
  match items with
  | [] => Some []
  | ptr :: rest =>
      match st !! ptr, copies rest st with
      | Some v, Some vs => Some (v :: vs)
      | _, _ => None
      end
  end.

(** [for l := previousLevel; l > item.Level; l--]: [n] rounds, from
    level [l] down. *)
Fixpoint unordered_flush (n : nat) (l : Z) (buffered : gmap Z (list nat)) (st : store)
  : option (store * gmap Z (list nat)) :=
  match n with
  | O => Some (st, buffered)
  | S n' =>
      match last (layer buffered (l - 2)), copies (layer buffered (l - 1)) st with
      | Some parent, Some items =>
          match add_child parent (VUnorderedList ∅ items) st with
          | Some st' => unordered_flush n' (l - 1) (delete (l - 1) buffered) st'
          | None => None
          end
      | _, _ => None
      end
  end.

Definition unordered_step (st : UnorderedListState) (ptr : nat) : go UnorderedListState :=
  match ul_store st !! ptr with
  | Some (VUnorderedListItem level style []) => Crash "index out of range"
  | Some (VUnorderedListItem level style els) =>
      let '(level', style', lps) :=
        if ul_previousLevel st <? level then
          let style' := nextLevelStyle style (previousBulletStyle st) in
          (ul_previousLevel st + 1, style',
           <[ style' := ul_previousLevel st + 1 ]> (ul_levelPerStyle st))
        else if negb (String.eqb style (previousBulletStyle st)) then
          match ul_levelPerStyle st !! style with
          | Some l => (l, style, ul_levelPerStyle st)
          | None => (ul_previousLevel st + 1, style,
                     <[ style := ul_previousLevel st + 1 ]> (ul_levelPerStyle st))
          end
        else (ul_previousLevel st, style, ul_levelPerStyle st) in
      let st1 := <[ ptr := VUnorderedListItem level' style' els ]> (ul_store st) in
      match unordered_flush (Z.to_nat (ul_previousLevel st - level')) (ul_previousLevel st)
              (ul_buffered st) st1 with
      | Some (st2, buffered) =>
          let buffered1 :=
            if Z.of_nat (size buffered) <? level'
            then <[ level' - 1 := [] ]> buffered else buffered in
          let buffered2 :=
            <[ level' - 1 := (layer buffered1 (level' - 1) ++ [ptr])%list ]> buffered1 in
          Done {| ul_store := st2; ul_buffered := buffered2; ul_levelPerStyle := lps;
                  ul_previousLevel := level'; previousBulletStyle := style' |}
      | None => Crash "index out of range"
      end
  | Some _ => Fault "element is not a valid unorderedlist item"
  | None => Crash "invalid pointer"
  end.

Fixpoint unordered_scan (st : UnorderedListState) (elements : list nat)
  : go UnorderedListState :=
  match elements with
  | [] => Done st
  | ptr :: rest =>
      match unordered_step st ptr with
      | Done st' => unordered_scan st' rest
      | Fault m => Fault m
      | Crash m => Crash m
      end
  end.

Fixpoint unordered_rest (n : nat) (buffered : gmap Z (list nat)) (st : store)
    (result : list value) : option (list value * store) :=
  match n with
  | O => Some (result, st)
  | S level =>
      match copies (layer buffered (Z.of_nat level)) st with
      | Some items =>
          match level with
          | O => unordered_rest level buffered st (result ++ items)%list
          | S _ =>
              match last (layer buffered (Z.of_nat level - 1)) with
              | Some parent =>
                  match add_child parent (VUnorderedList ∅ items) st with
                  | Some st' => unordered_rest level buffered st' result
                  | None => None
                  end
              | None => None
              end
          end
      | None => None
      end
  end.

Definition NewUnorderedList (elements : list nat) (attributes : list value) (st : store)
  : go (value * store) :=
  let init := {| ul_store := st; ul_buffered := ∅; ul_levelPerStyle := ∅;
                 ul_previousLevel := 0; previousBulletStyle := UnknownBulletStyle |} in
  match unordered_scan init elements with
  | Done s =>
      match unordered_rest (size (ul_buffered s)) (ul_buffered s) (ul_store s) [] with
      | Some (result, st') => Done (VUnorderedList (mergeAttributes attributes) result, st')
      | None => Crash "index out of range"
      end
  | Fault m => Fault m
  | Crash m => Crash m
  end.

(** *** Labeled lists *)

Fixpoint labeled_items (elements : list nat) (st : store) : list value :=
  match elements with
  | [] => []
  | ptr :: rest =>
      match st !! ptr with
      | Some (VLabeledListItem t els) => VLabeledListItem t els :: labeled_items rest st
      | _ => labeled_items rest st
      end
  end.

Definition NewLabeledList (elements : list nat) (attributes : list value) (st : store)
  : go (value * store) :=
  Done (VLabeledList (mergeAttributes attributes) (labeled_items elements st), st).

(** *** Lists of mixed items *)

Inductive item_type := OrderedT | UnorderedT | LabeledT.

Definition item_type_eqb (a b : item_type) : bool :=
  match a, b with
  | OrderedT, OrderedT | UnorderedT, UnorderedT | LabeledT, LabeledT => true
  | _, _ => false
  end.

Definition type_of (v : value) : option item_type :=
  match v with
  | VOrderedListItem _ _ _ _ _ => Some OrderedT
  | VUnorderedListItem _ _ _ => Some UnorderedT
  | VLabeledListItem _ _ => Some LabeledT
  | _ => None
  end.

Definition newList (items : list nat) (attributes : list value) (st : store)
  : go (value * store) :=
  match items with
  | [] => Fault "cannot build a list from an empty slice"
  | ptr :: _ =>
      match st !! ptr with
      | Some v =>
          match type_of v with
          | Some OrderedT => NewOrderedList items attributes st
          | Some UnorderedT => NewUnorderedList items attributes st
          | Some LabeledT => NewLabeledList items attributes st
          | None => Fault "unsupported type of element as the root list"
          end
      | None => Crash "invalid pointer"
      end
  end.

(** [buffer]: the pointers collected so far, per type of item. *)
Definition buffer := item_type -> list nat.

Definition buffer_set (t : item_type) (l : list nat) (b : buffer) : buffer :=
  fun t' => if item_type_eqb t t' then l else b t'.

Record ListState := {
  l_store : store;
  l_buffer : buffer;
  previousType : item_type;
  stack : list item_type }.

Definition list_step (rootType : item_type) (st : ListState) (ptr : nat) : go ListState :=
  match l_store st !! ptr with
  | None => Crash "invalid pointer"
  | Some v =>
    match type_of v with
    | None => Fault "element is not a valid list item"
    | Some currentType =>
      let switched : go (store * buffer * list item_type) :=
        if negb (item_type_eqb currentType (previousType st))
           && negb (item_type_eqb (previousType st) rootType)
        then
          match newList (l_buffer st (previousType st)) [] (l_store st) with
          | Done (sublist, st1) =>
              match last (l_buffer st currentType) with
              | Some parentItem =>
                  match add_child parentItem sublist st1 with
                  | Some st2 =>
                      Done (st2, buffer_set (previousType st) [] (l_buffer st),
                            if existsb (item_type_eqb (previousType st)) (stack st)
                            then stack st
                            else (stack st ++ [previousType st])%list)
                  | None => Crash "invalid pointer"
                  end
              | None => Crash "index out of range"
              end
          | Fault m => Fault "failed to initialize a new sublist"
          | Crash m => Crash m
          end
        else Done (l_store st, l_buffer st, stack st) in
      match switched with
      | Done (st', buf, stk) =>
          Done {| l_store := st';
                  l_buffer := buffer_set currentType (buf currentType ++ [ptr])%list buf;
                  previousType := currentType; stack := stk |}
      | Fault m => Fault m
      | Crash m => Crash m
      end
    end
  end.

Fixpoint list_scan (rootType : item_type) (st : ListState) (elements : list nat)
  : go ListState :=
  match elements with
  | [] => Done st
  | ptr :: rest =>
      match list_step rootType st ptr with
      | Done st' => list_scan rootType st' rest
      | Fault m => Fault m
      | Crash m => Crash m
      end
  end.

(** [for i := len(stack) - 1; i > 0; i--]: [rev_stack] is the stack
    from its top. *)
Fixpoint list_rest (rev_stack : list item_type) (buf : buffer) (st : store) : go store :=
  match rev_stack with
  | t :: ((t' :: _) as below) =>
      match buf t with
      | [] => list_rest below buf st
      | items =>
          match last (buf t') with
          | Some parentItem =>
              match newList items [] st with
              | Done (sublist, st1) =>
                  match add_child parentItem sublist st1 with
                  | Some st2 => list_rest below buf st2
                  | None => Crash "invalid pointer"
                  end
              | Fault m => Fault "failed to initialize a new sublist"
              | Crash m => Crash m
              end
          | None => Crash "index out of range"
          end
      end
  | _ => Done st
  end.

(** [NewList]: the items are the cells of the store, in order. *)
Definition NewList (elements : list value) (attributes : list value) : action_result :=
  match elements with
  | [] => Panics "index out of range"
  | first :: _ =>
      match type_of first with
      | None => RetErr VNil "element is not a valid list item"
      | Some rootType =>
          let init := {| l_store := elements; l_buffer := fun _ => [];
                         previousType := rootType; stack := [rootType] |} in
          match list_scan rootType init (seq 0 (length elements)) with
          | Done s =>
              match list_rest (rev (stack s)) (l_buffer s) (l_store s) with
              | Done st' =>
                  match newList (l_buffer s rootType) attributes st' with
                  | Done (l, _) => Ret l
                  | Fault m => RetErr VNil m
                  | Crash m => Panics m
                  end
              | Fault m => RetErr VNil m
              | Crash m => Panics m
              end
          | Fault m => RetErr VNil m
          | Crash m => Panics m
          end
      end
  end.

End types.

Import types.

#[local] Set Elimination Schemes.

(** ** The PEG engine *)

(** The labelled values of the current frame, oldest first; a later
    binding of a label hides an earlier one. *)
Definition env := list (string * value).

Fixpoint env_find (l : string) (b : env) : option value :=
  match b with
  | [] => None
  | (k, v) :: b' =>
      match env_find l b' with
      | Some w => Some w
      | None => if String.eqb k l then Some v else None
      end
  end.

Definition env_get (l : string) (b : env) : value :=
  match env_find l b with Some v => v | None => VNil end.

Inductive expr {R : Type} :=
| Lit (s : string)                 (* "lit" *)
| LitI (s : string)                (* "lit"i *)
| Range (lo hi : ascii)            (* [a-z] *)
| Any                              (* . *)
| Seq (es : list expr)             (* e1 e2 ... *)
| Choice (es : list expr)          (* e1 / e2 / ... *)
| Star (e : expr)                  (* e* *)
| Plus (e : expr)                  (* e+ *)
| Opt (e : expr)                   (* e? *)
| And (e : expr)                   (* &e *)
| Not (e : expr)                   (* !e *)
| Lbl (l : string) (e : expr)      (* l:e *)
| Act (e : expr) (f : string -> env -> action_result)   (* e { code } *)
| Ref (r : R).
Arguments expr : clear implicits.

Inductive result :=
| Matched (v : value) (b : env) (k : nat) (rest : string)   (* [k] bytes consumed *)
| Failed
| Panic (msg : string).

(** The errors recorded by the actions that ran, and the result. *)
Definition outcome : Type := list string * result.
Definition parser : Type := string -> option outcome.

Definition in_range (lo hi c : ascii) : bool :=
  ((nat_of_ascii lo <=? nat_of_ascii c) && (nat_of_ascii c <=? nat_of_ascii hi))%nat.

Definition p_lit (l : string) : parser := fun s =>
  Some ([], match strip_prefix l s with
            | Some r => Matched (VBytes l) [] (String.length l) r
            | None => Failed
            end).

Definition p_liti (l : string) : parser := fun s =>
  Some ([], match strip_prefix_fold l s with
            | Some (m, r) => Matched (VBytes m) [] (String.length l) r
            | None => Failed
            end).

Definition p_range (lo hi : ascii) : parser := fun s =>
  Some ([], match s with
            | String c r =>
                if in_range lo hi c then Matched (VBytes (String c EmptyString)) [] 1%nat r
                else Failed
            | EmptyString => Failed
            end).

Definition p_any : parser := fun s =>
  Some ([], match s with
            | String c r => Matched (VBytes (String c EmptyString)) [] 1%nat r
            | EmptyString => Failed
            end).

(** The result of a sequence or of a repetition: the values of the
    parts in order. *)
Inductive results :=
| MatchedAll (vs : list value) (b : env) (k : nat) (rest : string)
| FailedAll
| PanicAll (msg : string).

(** Sequence: the values of the parts, in a slice; the labels of the
    parts stay in the frame. *)
Fixpoint p_seq (ps : list parser) (s : string) : option (list string * results) :=
  match ps with
  | [] => Some ([], MatchedAll [] [] 0%nat s)
  | p :: ps' =>
      match p s with
      | None => None
      | Some (er, Matched v b k r) =>
          match p_seq ps' r with
          | None => None
          | Some (er', MatchedAll vs b' k' r') =>
              Some ((er ++ er')%list, MatchedAll (v :: vs) (b ++ b')%list (k + k')%nat r')
          | Some (er', o) => Some ((er ++ er')%list, o)
          end
      | Some (er, Failed) => Some (er, FailedAll)
      | Some (er, Panic m) => Some (er, PanicAll m)
      end
  end.

Definition seq_result (o : option (list string * results)) : option outcome :=
  match o with
  | None => None
  | Some (er, MatchedAll vs b k r) => Some (er, Matched (VList vs) b k r)
  | Some (er, FailedAll) => Some (er, Failed)
  | Some (er, PanicAll m) => Some (er, Panic m)
  end.

(** Ordered choice: the first alternative that matches, each in a frame
    of its own. *)
Fixpoint p_choice (ps : list parser) (s : string) : option outcome :=
  match ps with
  | [] => Some ([], Failed)
  | p :: ps' =>
      match p s with
      | None => None
      | Some (er, Matched v _ k r) => Some (er, Matched v [] k r)
      | Some (er, Failed) =>
          match p_choice ps' s with
          | None => None
          | Some (er', o) => Some ((er ++ er')%list, o)
          end
      | Some (er, Panic m) => Some (er, Panic m)
      end
  end.

(** Repetition: the engine loops until the body fails; [k] bounds the
    number of rounds, and a body that matches without consuming input
    never leaves the loop. *)
Fixpoint p_many (k : nat) (p : parser) (s : string) : option (list string * results) :=
  match k with
  | O => None
  | S k' =>
      match p s with
      | None => None
      | Some (er, Matched v _ c r) =>
          match p_many k' p r with
          | None => None
          | Some (er', MatchedAll vs _ c' r') =>
              Some ((er ++ er')%list, MatchedAll (v :: vs) [] (c + c')%nat r')
          | Some (er', o) => Some ((er ++ er')%list, o)
          end
      | Some (er, Failed) => Some (er, MatchedAll [] [] 0%nat s)
      | Some (er, Panic m) => Some (er, PanicAll m)
      end
  end.

Definition star_result (o : option (list string * results)) : option outcome :=
  match o with
  | None => None
  | Some (er, MatchedAll vs _ k r) => Some (er, Matched (VList vs) [] k r)
  | Some (er, FailedAll) => Some (er, Failed)
  | Some (er, PanicAll m) => Some (er, Panic m)
  end.

Definition plus_result (o : option (list string * results)) : option outcome :=
  match o with
  | None => None
  | Some (er, MatchedAll [] _ _ _) => Some (er, Failed)
  | Some (er, MatchedAll vs _ k r) => Some (er, Matched (VList vs) [] k r)
  | Some (er, FailedAll) => Some (er, Failed)
  | Some (er, PanicAll m) => Some (er, Panic m)
  end.

Definition p_opt (p : parser) : parser := fun s =>
  match p s with
  | None => None
  | Some (er, Matched v _ k r) => Some (er, Matched v [] k r)
  | Some (er, Failed) => Some (er, Matched VNil [] 0%nat s)
  | Some (er, Panic m) => Some (er, Panic m)
  end.

Definition p_and (p : parser) : parser := fun s =>
  match p s with
  | None => None
  | Some (er, Matched _ _ _ _) => Some (er, Matched VNil [] 0%nat s)
  | Some (er, Failed) => Some (er, Failed)
  | Some (er, Panic m) => Some (er, Panic m)
  end.

Definition p_not (p : parser) : parser := fun s =>
  match p s with
  | None => None
  | Some (er, Matched _ _ _ _) => Some (er, Failed)
  | Some (er, Failed) => Some (er, Matched VNil [] 0%nat s)
  | Some (er, Panic m) => Some (er, Panic m)
  end.

Definition p_lbl (l : string) (p : parser) : parser := fun s =>
  match p s with
  | None => None
  | Some (er, Matched v _ k r) => Some (er, Matched v [(l, v)] k r)
  | Some (er, o) => Some (er, o)
  end.

Definition p_act (p : parser) (f : string -> env -> action_result) : parser := fun s =>
  match p s with
  | None => None
  | Some (er, Matched v b k r) =>
      match f (sliceFrom s k) b with
      | Ret v' => Some (er, Matched v' b k r)
      | RetErr v' e => Some ((er ++ [e])%list, Matched v' b k r)
      | Panics m => Some (er, Panic m)
      end
  | Some (er, o) => Some (er, o)
  end.

Definition p_rule (p : parser) : parser := fun s =>
  match p s with
  | None => None
  | Some (er, Matched v _ k r) => Some (er, Matched v [] k r)
  | Some (er, o) => Some (er, o)
  end.

Section Engine.
Context {R : Type}.
Variable grammar : R -> expr R.

  (** [parse n e s]: run expression [e] at input [s]; [n] bounds the
      depth of the recursion, [None] means the bound was reached. *)
Fixpoint parse (n : nat) (e : expr R) (s : string) {struct n} : option outcome :=
    match n with
    | O => None
    | S n' =>
        match e with
        | Lit l => p_lit l s
        | LitI l => p_liti l s
        | Range lo hi => p_range lo hi s
        | Any => p_any s
        | Seq es => seq_result (p_seq (map (parse n') es) s)
        | Choice es => p_choice (map (parse n') es) s
        | Star e' => star_result (p_many n' (parse n' e') s)
        | Plus e' => plus_result (p_many n' (parse n' e') s)
        | Opt e' => p_opt (parse n' e') s
        | And e' => p_and (parse n' e') s
        | Not e' => p_not (parse n' e') s
        | Lbl l e' => p_lbl l (parse n' e') s
        | Act e' f => p_act (parse n' e') f s
        | Ref r => p_rule (parse n' (grammar r)) s
        end
    end.
End Engine.

(** ** The runs of the engine, as a relation

    [eval e s o]: the run of [e] at [s] ends with the outcome [o].  The
    relation has one rule for each way a run of the engine ends; it
    says nothing of a run that does not end. *)

Definition all_result (o : results) : result :=
  match o with
  | MatchedAll vs b k r => Matched (VList vs) b k r
  | FailedAll => Failed
  | PanicAll m => Panic m
  end.

Definition star_out (o : results) : result :=
  match o with
  | MatchedAll vs _ k r => Matched (VList vs) [] k r
  | FailedAll => Failed
  | PanicAll m => Panic m
  end.

Definition plus_out (o : results) : result :=
  match o with
  | MatchedAll [] _ _ _ => Failed
  | MatchedAll vs _ k r => Matched (VList vs) [] k r
  | FailedAll => Failed
  | PanicAll m => Panic m
  end.

(** The outcome of a part that did not match ends the sequence. *)
Definition stopped (r : result) : results :=
  match r with
  | Panic m => PanicAll m
  | _ => FailedAll
  end.

Definition cons_all (v : value) (b : env) (k : nat) (o : results) : results :=
  match o with
  | MatchedAll vs b' k' r => MatchedAll (v :: vs) (b ++ b')%list (k + k')%nat r
  | o => o
  end.

Definition cons_many (v : value) (k : nat) (o : results) : results :=
  match o with
  | MatchedAll vs _ k' r => MatchedAll (v :: vs) [] (k + k')%nat r
  | o => o
  end.

Definition act_out (f : string -> env -> action_result) (s : string) (o : outcome)
  : outcome :=
  match o with
  | (er, Matched v b k r) =>
      match f (sliceFrom s k) b with
      | Ret v' => (er, Matched v' b k r)
      | RetErr v' e => ((er ++ [e])%list, Matched v' b k r)
      | Panics m => (er, Panic m)
      end
  | o => o
  end.

Section Semantics.
Context {R : Type}.
Variable grammar : R -> expr R.

Inductive eval : expr R -> string -> outcome -> Prop :=
  | E_Lit l s o : p_lit l s = Some o -> eval (Lit l) s o
  | E_LitI l s o : p_liti l s = Some o -> eval (LitI l) s o
  | E_Range lo hi s o : p_range lo hi s = Some o -> eval (Range lo hi) s o
  | E_Any s o : p_any s = Some o -> eval Any s o
  | E_Seq es s er o : eval_seq es s (er, o) -> eval (Seq es) s (er, all_result o)
  | E_Choice es s o : eval_choice es s o -> eval (Choice es) s o
  | E_Star e s er o : eval_many e s (er, o) -> eval (Star e) s (er, star_out o)
  | E_Plus e s er o : eval_many e s (er, o) -> eval (Plus e) s (er, plus_out o)
  | E_Opt_some e s er v b k r :
      eval e s (er, Matched v b k r) -> eval (Opt e) s (er, Matched v [] k r)
  | E_Opt_none e s er :
      eval e s (er, Failed) -> eval (Opt e) s (er, Matched VNil [] 0%nat s)
  | E_Opt_panic e s er m :
      eval e s (er, Panic m) -> eval (Opt e) s (er, Panic m)
  | E_And_some e s er v b k r :
      eval e s (er, Matched v b k r) -> eval (And e) s (er, Matched VNil [] 0%nat s)
  | E_And_none e s er :
      eval e s (er, Failed) -> eval (And e) s (er, Failed)
  | E_And_panic e s er m :
      eval e s (er, Panic m) -> eval (And e) s (er, Panic m)
  | E_Not_some e s er v b k r :
      eval e s (er, Matched v b k r) -> eval (Not e) s (er, Failed)
  | E_Not_none e s er :
      eval e s (er, Failed) -> eval (Not e) s (er, Matched VNil [] 0%nat s)
  | E_Not_panic e s er m :
      eval e s (er, Panic m) -> eval (Not e) s (er, Panic m)
  | E_Lbl_some l e s er v b k r :
      eval e s (er, Matched v b k r) -> eval (Lbl l e) s (er, Matched v [(l, v)] k r)
  | E_Lbl_none l e s er :
      eval e s (er, Failed) -> eval (Lbl l e) s (er, Failed)
  | E_Lbl_panic l e s er m :
      eval e s (er, Panic m) -> eval (Lbl l e) s (er, Panic m)
  | E_Act e f s o : eval e s o -> eval (Act e f) s (act_out f s o)
  | E_Ref_some r s er v b k rest :
      eval (grammar r) s (er, Matched v b k rest) -> eval (Ref r) s (er, Matched v [] k rest)
  | E_Ref_none r s er :
      eval (grammar r) s (er, Failed) -> eval (Ref r) s (er, Failed)
  | E_Ref_panic r s er m :
      eval (grammar r) s (er, Panic m) -> eval (Ref r) s (er, Panic m)

  with eval_seq : list (expr R) -> string -> list string * results -> Prop :=
  | ES_nil s : eval_seq [] s ([], MatchedAll [] [] 0%nat s)
  | ES_cons e es s er v b k r er' o :
      eval e s (er, Matched v b k r) -> eval_seq es r (er', o) ->
      eval_seq (e :: es) s ((er ++ er')%list, cons_all v b k o)
  | ES_fail e es s er :
      eval e s (er, Failed) -> eval_seq (e :: es) s (er, FailedAll)
  | ES_panic e es s er m :
      eval e s (er, Panic m) -> eval_seq (e :: es) s (er, PanicAll m)

  with eval_choice : list (expr R) -> string -> outcome -> Prop :=
  | EC_nil s : eval_choice [] s ([], Failed)
  | EC_first e es s er v b k r :
      eval e s (er, Matched v b k r) -> eval_choice (e :: es) s (er, Matched v [] k r)
  | EC_next e es s er er' o :
      eval e s (er, Failed) -> eval_choice es s (er', o) ->
      eval_choice (e :: es) s ((er ++ er')%list, o)
  | EC_panic e es s er m :
      eval e s (er, Panic m) -> eval_choice (e :: es) s (er, Panic m)

  with eval_many : expr R -> string -> list string * results -> Prop :=
  | EM_done e s er :
      eval e s (er, Failed) -> eval_many e s (er, MatchedAll [] [] 0%nat s)
  | EM_more e s er v b k r er' o :
      eval e s (er, Matched v b k r) -> eval_many e r (er', o) ->
      eval_many e s ((er ++ er')%list, cons_many v k o)
  | EM_panic e s er m :
      eval e s (er, Panic m) -> eval_many e s (er, PanicAll m).

Scheme eval_ind' := Induction for eval Sort Prop
    with eval_seq_ind' := Induction for eval_seq Sort Prop
    with eval_choice_ind' := Induction for eval_choice Sort Prop
    with eval_many_ind' := Induction for eval_many Sort Prop.
Combined Scheme eval_mutind from eval_ind', eval_seq_ind', eval_choice_ind', eval_many_ind'.
End Semantics.

(** ** The rules of the grammar *)

Inductive rule :=
| Document | DocumentBlock
| FrontMatter | YamlFrontMatterToken | YamlFrontMatterContent
| DocumentHeader | DocumentAuthors | DocumentAuthorsInlineForm
| DocumentAuthorsAttributeForm | DocumentAuthor | DocumentAuthorNamePart
| DocumentAuthorEmail | DocumentRevision | DocumentRevisionNumber
| DocumentRevisionDate | DocumentRevisionRemark
| DocumentAttributeDeclaration | DocumentAttributeDeclarationWithNameOnly
| DocumentAttributeDeclarationWithNameAndValue | DocumentAttributeReset
| DocumentAttributeResetWithSectionTitleBangSymbol
| DocumentAttributeResetWithTrailingBangSymbol
| DocumentAttributeSubstitution | AttributeName
| TableOfContentsMacro
| ElementAttribute | MasqueradeAttribute | ElementID | InlineElementID
| ElementTitle | AdmonitionMarkerAttribute | AttributeGroup | GenericAttribute
| OtherGenericAttribute | AttributeKey | AttributeValue | HorizontalLayout
| VerseAttributes | VerseAuthor | VerseTitle
| Section | SectionTitlePrefix
| Section0 | Section0TitlePrefix | Section0Title | Section0Block
| Section1 | Section1TitlePrefix | Section1Title | Section1Block
| Section2 | Section2TitlePrefix | Section2Title | Section2Block
| Section3 | Section3TitlePrefix | Section3Title | Section3Block
| Section4 | Section4TitlePrefix | Section4Title | Section4Block
| Section5 | Section5TitlePrefix | Section5Title | Section5Block
| TitleElements | TitleElement
| List | ListItems | ListParagraph | ListParagraphLine | ListItemContinuation
| ContinuedDocumentBlock
| OrderedListItem | OrderedListItemPrefix | OrderedListItemContent
| UnorderedListItem | UnorderedListItemPrefix | UnorderedListItemContent
| LabeledListItem | LabeledListItemTerm | LabeledListItemSeparator
| LabeledListItemDescription
| AdmonitionKind
| Paragraph | ParagraphAttribute | InlineElements | InlineElement
| QuotedText | BoldText | EscapedBoldText | ItalicText | EscapedItalicText
| MonospaceText | EscapedMonospaceText | QuotedTextContent
| QuotedTextContentElement | QuotedTextWord | WordWithQuotePunctuation
| UnbalancedQuotePunctuation
| Passthrough | SinglePlusPassthrough | TriplePlusPassthrough | PassthroughMacro
| PassthroughMacroCharacter
| CrossReference
| Link | ExternalLink | RelativeLink | LinkAttributes | LinkTextAttribute
| BlockImage | BlockImageMacro | InlineImage | InlineImageMacro
| ImageAttributes | ImageAltAttribute | ImageWidthAttribute | ImageHeightAttribute
| DelimitedBlock | BlockDelimiter
| FencedBlockDelimiter | FencedBlock
| ListingBlockDelimiter | ListingBlock
| ExampleBlockDelimiter | ExampleBlock
| BlockParagraph | BlockParagraphLine
| VerseBlockDelimiter | VerseBlock | VerseBlockAttribute | VerseBlockParagraph
| VerseBlockLine | VerseBlockLineContent
| CommentBlockDelimiter | CommentBlock | CommentBlockLine | SingleLineComment
| LiteralBlock | ParagraphWithSpaces | LiteralBlockContent | EndOfLiteralBlock
| ParagraphWithLiteralBlockDelimiter | LiteralBlockDelimiter
| ParagraphWithLiteralAttribute
| BlankLine
| Word | URL | ID | URL_TEXT | URL_SCHEME | DIGIT | WS | NEWLINE | EOF | EOL.

(** ** The grammar

    Every rule of [asciidoc-grammar.peg], with the Go code of its
    action.  The file defines [FrontMatter] twice; the engine keeps the
    last definition of a name, the one given here. *)

(** Modelled from the spec: [yaml.Unmarshal] is a library function,
    front matter is "parsed as a flat key->scalar map": lines of the
    form [key: value]; any other line is malformed. *)
Fixpoint yaml_line (t : string) : option (string * string) :=
  match t with
  | EmptyString => None
  | String ":" t' => Some (EmptyString, t')
  | String a t' =>
      match yaml_line t' with
      | Some (k, v) => Some (String a k, v)
      | None => None
      end
  end.

Fixpoint split_lines (t : string) (cur : string) : list string :=
  match t with
  | EmptyString => [str_rev cur]
  | String "010" t' => str_rev cur :: split_lines t' EmptyString
  | String a t' => split_lines t' (String a cur)
  end.

Fixpoint yaml_lines (ls : list string) (m : gmap string value) : option (gmap string value) :=
  match ls with
  | [] => Some m
  | l :: rest =>
      if is_empty (Go.TrimSpace l) then yaml_lines rest m
      else match yaml_line l with
           | Some (String a k, v) =>
               yaml_lines rest (<[ String a k := VStr (Go.TrimSpace v) ]> m)
           | _ => None
           end
  end.

Definition NewYamlFrontMatter (content : string) : action_result :=
  match yaml_lines (split_lines content EmptyString) ∅ with
  | Some attributes => Ret (VFrontMatter attributes)
  | None => RetErr (VFrontMatter ∅)
              "unable to parse yaml content in front-matter of document"
  end.

Definition get (b : env) (l : string) : value := env_get l b.

Definition asInlineElements (v : value) (k : list value -> action_result) : action_result :=
  match v with
  | VInlineElements l => k l
  | _ => Panics "interface conversion: not types.InlineElements"
  end.
Definition asSectionTitle (v : value) (k : value -> action_result) : action_result :=
  match v with
  | VSectionTitle _ _ => k v
  | _ => Panics "interface conversion: not types.SectionTitle"
  end.
Definition asAdmonitionKind (v : value) (k : types.AdmonitionKind -> action_result)
  : action_result :=
  match v with
  | VAdmonitionKind a => k a
  | _ => Panics "interface conversion: not types.AdmonitionKind"
  end.
Definition asImageMacro (v : value) (k : value -> action_result) : action_result :=
  match v with
  | VImageMacro _ _ => k v
  | _ => Panics "interface conversion: not types.ImageMacro"
  end.
Definition asDocumentAuthor (v : value) (k : value -> action_result) : action_result :=
  match v with
  | VDocumentAuthor _ _ _ _ _ _ => k v
  | _ => Panics "interface conversion: not types.DocumentAuthor"
  end.

(** [return string(c.text), nil] *)
Definition text_string : string -> env -> action_result := fun text _ => Ret (VStr text).

(** [return x, nil] for a label [x] *)
Definition label (l : string) : string -> env -> action_result :=
  fun _ b => Ret (get b l).

(** The title of a section of the level of [prefix]; for the levels 0
    to 2 blanks may follow the ID. *)
Definition section_title (prefix : rule) (blanks : bool) : expr rule :=
  Act (Seq ([Lbl "attributes" (Star (Ref ElementAttribute));
             Ref prefix;
             Lbl "content" (Ref TitleElements);
             Star (Ref WS);
             Lbl "id" (Opt (Ref InlineElementID))]
            ++ (if blanks then [Star (Ref WS)] else [])
            ++ [Ref EOL])%list)
    (fun _ b =>
       asInlineElements (get b "content") (fun content =>
       asList (get b "attributes") (fun attributes =>
       NewSectionTitle content (attributes ++ [get b "id"])%list))).

(** A section: its title and its blocks, [elements] being [blocks*] for
    the levels 0 and 1 and [block?] below. *)
Definition section (level : Z) (title : rule) (elements : expr rule) : expr rule :=
  Act (Seq [Not (Ref EOF);
            Lbl "section"
              (Act (Seq [Lbl "header" (Ref title); Lbl "elements" elements])
                 (fun _ b =>
                    asSectionTitle (get b "header") (fun header =>
                    asList (get b "elements") (fun elements =>
                    NewSection level header elements))))])
    (label "section").

(** The block of a section: none of the titles [stops] may start here. *)
Definition section_block (stops : list rule) (content : expr rule) : expr rule :=
  Act (Seq (map (fun t => Not (Ref t)) stops ++ [Lbl "content" content])%list)
    (label "content").

(** A quoted text: [open content close]. *)
Definition quoted (guard : string) (open close : string) (kind : types.QuotedTextKind)
    (extra : option string) : expr rule :=
  Act (Seq [Not (Lit guard); Lit open; Lbl "content" (Ref QuotedTextContent); Lit close])
    (fun _ b =>
       asList (get b "content") (fun content =>
       match extra with
       | Some x => NewQuotedText kind [VStr x; VList content]
       | None => NewQuotedText kind content
       end)).

(** An escaped quoted text: [backslashes open content close]. *)
Definition escaped (first : string) (open close : string) (punctuation : string)
    (extra : option string) : expr rule :=
  Act (Seq [Lbl "backslashes" (Seq [Lit first; Star (Lit bs)]);
            Lit open; Lbl "content" (Ref QuotedTextContent); Lit close])
    (fun _ b =>
       asList (get b "content") (fun content =>
       asList (get b "backslashes") (fun backslashes =>
       match extra with
       | Some x => NewEscapedQuotedText backslashes punctuation [VStr x; VList content]
       | None => NewEscapedQuotedText backslashes punctuation content
       end))).

(** A delimited block of paragraphs, lists and blank lines. *)
Definition delimited (delimiter : rule) (kind : types.BlockKind) : expr rule :=
  Act (Seq [Lbl "attributes" (Star (Ref ElementAttribute));
            Ref delimiter; Star (Ref WS); Ref NEWLINE;
            Lbl "content" (Star (Choice [Ref List; Ref BlockParagraph; Ref BlankLine]));
            Choice [Seq [Ref delimiter; Star (Ref WS); Ref EOL]; Ref EOF]])
    (fun _ b =>
       asList (get b "content") (fun content =>
       asList (get b "attributes") (fun attributes =>
       NewDelimitedBlock kind content attributes None_))).

(** The content of an ordered or unordered list item. *)
Definition item_content : expr rule :=
  Act (Lbl "elements" (Seq [Plus (Ref ListParagraph); Star (Ref ContinuedDocumentBlock)]))
    (fun _ b => asList (get b "elements") NewListItemContent).

Definition not_any (stops : list (expr rule)) : expr rule :=
  Seq (map Not stops ++ [Any])%list.

Definition grammar (r : rule) : expr rule :=
  match r with
  (* ---- Document ---- *)
  | Document =>
      Act (Seq [Lbl "frontMatter" (Opt (Ref FrontMatter));
                Lbl "documentHeader" (Opt (Ref DocumentHeader));
                Lbl "blocks" (Star (Choice [Ref Section; Ref DocumentBlock]));
                Ref EOF])
        (fun _ b =>
           asList (get b "blocks") (fun blocks =>
           NewDocument (get b "frontMatter") (get b "documentHeader") blocks))
  | DocumentBlock =>
      Act (Seq [Not (Ref EOF);
                Lbl "block"
                  (Choice [Ref BlankLine; Ref DocumentAttributeDeclaration;
                           Ref DocumentAttributeReset; Ref TableOfContentsMacro;
                           Ref List; Ref BlockImage; Ref LiteralBlock;
                           Ref DelimitedBlock; Ref Paragraph])])
        (label "block")
  (* ---- Front Matter ---- *)
  | FrontMatter =>
      Act (Seq [Ref YamlFrontMatterToken;
                Lbl "content" (Ref YamlFrontMatterContent);
                Ref YamlFrontMatterToken])
        (fun _ b => asStr (get b "content") NewYamlFrontMatter)
  | YamlFrontMatterToken => Seq [Lit "---"; Ref EOL]
  | YamlFrontMatterContent =>
      Act (Star (Seq [Not (Ref YamlFrontMatterToken); Any])) text_string
  (* ---- Document Header ---- *)
  | DocumentHeader =>
      Act (Seq [Lbl "header" (Ref Section0Title);
                Lbl "authors" (Opt (Ref DocumentAuthors));
                Lbl "revision" (Opt (Ref DocumentRevision));
                Lbl "otherAttributes" (Star (Ref DocumentAttributeDeclaration))])
        (fun _ b =>
           asList (get b "otherAttributes") (fun otherAttributes =>
           NewDocumentHeader (get b "header") (get b "authors") (get b "revision")
             otherAttributes))
  | DocumentAuthors =>
      Choice [Ref DocumentAuthorsInlineForm; Ref DocumentAuthorsAttributeForm]
  | DocumentAuthorsInlineForm =>
      Act (Seq [Star (Ref WS); Not (Lit ":");
                Lbl "authors" (Plus (Ref DocumentAuthor)); Ref EOL])
        (fun _ b => asList (get b "authors") NewDocumentAuthors)
  | DocumentAuthorsAttributeForm =>
      Act (Seq [Star (Ref WS); Lit ":author:"; Lbl "author" (Ref DocumentAuthor)])
        (fun _ b =>
           asDocumentAuthor (get b "author") (fun author =>
           Ret (VDocumentAuthors [author])))
  | DocumentAuthor =>
      Act (Seq [Star (Ref WS);
                Lbl "namePart1" (Ref DocumentAuthorNamePart);
                Lbl "namePart2" (Opt (Ref DocumentAuthorNamePart));
                Lbl "namePart3" (Opt (Ref DocumentAuthorNamePart));
                Lbl "email" (Opt (Ref DocumentAuthorEmail));
                Star (Ref WS); Opt (Lit ";"); Star (Ref WS)])
        (fun _ b =>
           NewDocumentAuthor (get b "namePart1") (get b "namePart2")
             (get b "namePart3") (get b "email"))
  | DocumentAuthorNamePart =>
      Seq [Not (Lit "<"); Not (Lit ";"); Ref Word; Star (Ref WS)]
  | DocumentAuthorEmail =>
      Seq [Lit "<"; Lbl "email" (Plus (not_any [Lit ">"; Ref EOL])); Lit ">"]
  | DocumentRevision =>
      Act (Seq [Star (Ref WS); Not (Lit ":");
                Lbl "revnumber" (Opt (Ref DocumentRevisionNumber));
                Opt (Lit ",");
                Lbl "revdate" (Opt (Ref DocumentRevisionDate));
                Opt (Lit ":");
                Lbl "revremark" (Opt (Ref DocumentRevisionRemark));
                Ref EOL])
        (fun _ b =>
           NewDocumentRevision (get b "revnumber") (get b "revdate") (get b "revremark"))
  | DocumentRevisionNumber =>
      Choice [Seq [LitI "v"; Ref DIGIT;
                   Star (not_any [Ref EOL; Lit ","; Lit ":"])];
              Seq [Opt (LitI "v"); Ref DIGIT;
                   Star (not_any [Ref EOL; Lit ","; Lit ":"]);
                   Star (Ref WS); And (Lit ",")]]
  | DocumentRevisionDate => Star (not_any [Ref EOL; Lit ":"])
  | DocumentRevisionRemark => Star (not_any [Ref EOL])
  (* ---- Document Attributes ---- *)
  | DocumentAttributeDeclaration =>
      Choice [Ref DocumentAttributeDeclarationWithNameOnly;
              Ref DocumentAttributeDeclarationWithNameAndValue]
  | DocumentAttributeDeclarationWithNameOnly =>
      Act (Seq [Lit ":"; Lbl "name" (Ref AttributeName); Lit ":"; Star (Ref WS); Ref EOL])
        (fun _ b =>
           asList (get b "name") (fun name => NewDocumentAttributeDeclaration name []))
  | DocumentAttributeDeclarationWithNameAndValue =>
      Act (Seq [Lit ":"; Lbl "name" (Ref AttributeName); Lit ":"; Plus (Ref WS);
                Lbl "value" (Star (not_any [Ref NEWLINE])); Ref EOL])
        (fun _ b =>
           asList (get b "name") (fun name =>
           asList (get b "value") (fun val => NewDocumentAttributeDeclaration name val)))
  | DocumentAttributeReset =>
      Choice [Ref DocumentAttributeResetWithSectionTitleBangSymbol;
              Ref DocumentAttributeResetWithTrailingBangSymbol]
  | DocumentAttributeResetWithSectionTitleBangSymbol =>
      Act (Seq [Lit ":!"; Lbl "name" (Ref AttributeName); Lit ":"; Star (Ref WS); Ref EOL])
        (fun _ b => asList (get b "name") NewDocumentAttributeReset)
  | DocumentAttributeResetWithTrailingBangSymbol =>
      Act (Seq [Lit ":"; Lbl "name" (Ref AttributeName); Lit "!:"; Star (Ref WS); Ref EOL])
        (fun _ b => asList (get b "name") NewDocumentAttributeReset)
  | DocumentAttributeSubstitution =>
      Act (Seq [Lit "{"; Lbl "name" (Ref AttributeName); Lit "}"])
        (fun _ b => asList (get b "name") NewDocumentAttributeSubstitution)
  | AttributeName =>
      Seq [Choice [Range "A" "Z"; Range "a" "z"; Range "0" "9"; Lit "_"];
           Star (Choice [Range "A" "Z"; Range "a" "z"; Range "0" "9"; Lit "-"])]
  (* ---- Table of Contents ---- *)
  | TableOfContentsMacro => Seq [Lit "toc::[]"; Ref NEWLINE]
  (* ---- Element Attributes ---- *)
  | ElementAttribute =>
      Act (Seq [Lbl "attr"
                  (Choice [Ref ElementID; Ref ElementTitle; Ref AdmonitionMarkerAttribute;
                           Ref HorizontalLayout; Ref AttributeGroup]);
                Star (Ref WS); Ref EOL])
        (label "attr")
  | MasqueradeAttribute =>
      Act (Seq [Lbl "attr" (Ref VerseAttributes); Star (Ref WS); Ref EOL]) (label "attr")
  | ElementID =>
      Choice [Act (Lbl "id" (Ref InlineElementID)) (label "id");
              Act (Seq [Lit "[#"; Lbl "id" (Ref ID); Lit "]"])
                (fun _ b => asStr (get b "id") NewElementID)]
  | InlineElementID =>
      Act (Seq [Lit "[["; Lbl "id" (Ref ID); Lit "]]"])
        (fun _ b => asStr (get b "id") NewElementID)
  | ElementTitle =>
      Act (Seq [Lit "."; Not (Lit "."); Not (Ref WS);
                Lbl "title" (Plus (not_any [Ref NEWLINE]))])
        (fun _ b => asList (get b "title") NewElementTitle)
  | AdmonitionMarkerAttribute =>
      Act (Seq [Lit "["; Lbl "k" (Ref AdmonitionKind); Lit "]"])
        (fun _ b => asAdmonitionKind (get b "k") NewAdmonitionAttribute)
  | AttributeGroup =>
      Act (Seq [Lit "["; Lbl "attribute" (Ref GenericAttribute);
                Lbl "attributes" (Star (Ref OtherGenericAttribute)); Lit "]"])
        (fun _ b =>
           asList (get b "attributes") (fun attributes =>
           NewAttributeGroup (get b "attribute" :: attributes)))
  | GenericAttribute =>
      Choice
        [Act (Seq [Lbl "key" (Ref AttributeKey); Lit "="; Lbl "value" (Ref AttributeValue)])
           (fun _ b =>
              asList (get b "key") (fun key =>
              asList (get b "value") (fun val => NewGenericAttribute key (Some val))));
         Act (Lbl "key" (Ref AttributeKey))
           (fun _ b => asList (get b "key") (fun key => NewGenericAttribute key None))]
  | OtherGenericAttribute =>
      Choice
        [Act (Seq [Lit ","; Star (Ref WS); Lbl "key" (Ref AttributeKey); Lit "=";
                   Lbl "value" (Ref AttributeValue)])
           (fun _ b =>
              asList (get b "key") (fun key =>
              asList (get b "value") (fun val => NewGenericAttribute key (Some val))));
         Act (Seq [Lit ","; Star (Ref WS); Lbl "key" (Ref AttributeKey)])
           (fun _ b => asList (get b "key") (fun key => NewGenericAttribute key None))]
  | AttributeKey =>
      Act (Seq [Lbl "key" (Plus (not_any [Ref WS; Lit "="; Lit ","; Lit "]"]));
                Star (Ref WS)])
        (label "key")
  | AttributeValue =>
      Act (Seq [Star (Ref WS);
                Lbl "value" (Star (not_any [Ref WS; Lit "="; Lit "]"]));
                Star (Ref WS)])
        (label "value")
  | HorizontalLayout =>
      Act (Lit "[horizontal]")
        (fun _ _ => Ret (VMap {[ "layout" := VStr "horizontal" ]}))
  | VerseAttributes =>
      Choice
        [Act (Seq [Lit "[verse"; Star (Ref WS); Lit ","; Lbl "author" (Ref VerseAuthor);
                   Lit ","; Lbl "title" (Ref VerseTitle); Lit "]"])
           (fun _ b =>
              asStr (get b "author") (fun author =>
              asStr (get b "title") (fun title => NewVerseAttributes author title)));
         Act (Seq [Lit "[verse"; Star (Ref WS); Lit ","; Lbl "author" (Ref VerseAuthor);
                   Lit "]"])
           (fun _ b =>
              asStr (get b "author") (fun author =>
              NewVerseAttributes author EmptyString));
         Act (Seq [Lit "[verse"; Star (Ref WS); Lit "]"])
           (fun _ _ => NewVerseAttributes EmptyString EmptyString)]
  | VerseAuthor => Act (Star (not_any [Ref EOL; Lit ","; Lit "]"])) text_string
  | VerseTitle => Act (Star (not_any [Ref EOL; Lit ","; Lit "]"])) text_string
  (* ---- Sections ---- *)
  | Section =>
      Act (Seq [Not (Ref EOF);
                Lbl "section"
                  (Choice [Ref Section0; Ref Section1; Ref Section2; Ref Section3;
                           Ref Section4; Ref Section5])])
        (label "section")
  | SectionTitlePrefix => Seq [Plus (Lit "="); Star (Ref WS)]
  | Section0 => section 0 Section0Title (Star (Ref Section0Block))
  | Section0TitlePrefix => Seq [Lit "="; Plus (Ref WS)]
  | Section0Title => section_title Section0TitlePrefix true
  | Section0Block =>
      section_block [Section0]
        (Choice [Ref Section1; Ref Section2; Ref Section3; Ref Section4; Ref Section5;
                 Ref DocumentBlock])
  | Section1 => section 1 Section1Title (Star (Ref Section1Block))
  | Section1TitlePrefix => Seq [Lit "=="; Plus (Ref WS)]
  | Section1Title => section_title Section1TitlePrefix true
  | Section1Block =>
      section_block [Section1Title]
        (Choice [Ref Section2; Ref Section3; Ref Section4; Ref Section5; Ref DocumentBlock])
  | Section2 => section 2 Section2Title (Opt (Ref Section2Block))
  | Section2TitlePrefix => Seq [Lit "==="; Plus (Ref WS)]
  | Section2Title => section_title Section2TitlePrefix true
  | Section2Block =>
      section_block [Section1Title; Section2Title]
        (Star (Choice [Ref Section3; Ref Section4; Ref Section5; Ref DocumentBlock]))
  | Section3 => section 3 Section3Title (Opt (Ref Section3Block))
  | Section3TitlePrefix => Seq [Lit "===="; Plus (Ref WS)]
  | Section3Title => section_title Section3TitlePrefix false
  | Section3Block =>
      section_block [Section1Title; Section2Title; Section3Title]
        (Star (Choice [Ref Section4; Ref Section5; Ref DocumentBlock]))
  | Section4 => section 4 Section4Title (Opt (Ref Section4Block))
  | Section4TitlePrefix => Seq [Lit "====="; Plus (Ref WS)]
  | Section4Title => section_title Section4TitlePrefix false
  | Section4Block =>
      section_block [Section1Title; Section2Title; Section3Title; Section4Title]
        (Star (Choice [Ref Section5; Ref DocumentBlock]))
  | Section5 => section 5 Section5Title (Opt (Ref Section5Block))
  | Section5TitlePrefix => Seq [Lit "======"; Plus (Ref WS)]
  | Section5Title => section_title Section5TitlePrefix false
  | Section5Block =>
      section_block [Section1Title; Section2Title; Section3Title; Section4Title;
                     Section5Title]
        (Star (Ref DocumentBlock))
  | TitleElements =>
      Act (Lbl "elements"
             (Plus (Seq [Not (Ref NEWLINE); Star (Ref WS); Not (Ref InlineElementID);
                         Ref TitleElement; Star (Ref WS)])))
        (fun _ b =>
           asList (get b "elements") (fun elements => NewInlineElements [VList elements]))
  | TitleElement =>
      Act (Lbl "element"
             (Choice [Ref CrossReference; Ref Passthrough; Ref InlineImage; Ref QuotedText;
                      Ref Link; Ref DocumentAttributeSubstitution; Ref Word]))
        (label "element")
  (* ---- Lists ---- *)
  | List =>
      Act (Seq [Lbl "attributes" (Star (Ref ElementAttribute));
                Lbl "elements" (Ref ListItems)])
        (fun _ b =>
           asList (get b "elements") (fun elements =>
           asList (get b "attributes") (fun attributes => NewList elements attributes)))
  | ListItems =>
      Plus (Choice [Ref OrderedListItem; Ref UnorderedListItem; Ref LabeledListItem])
  | ListParagraph =>
      Act (Lbl "lines" (Plus (Ref ListParagraphLine)))
        (fun _ b => asList (get b "lines") (fun lines => NewParagraph lines []))
  | ListParagraphLine =>
      Act (Seq [Not (Ref OrderedListItemPrefix);
                Not (Ref UnorderedListItemPrefix);
                Not (Seq [Ref LabeledListItemTerm; Ref LabeledListItemSeparator]);
                Not (Ref ListItemContinuation);
                Not (Ref ElementAttribute);
                Not (Ref BlockDelimiter);
                Lbl "line" (Ref InlineElements)])
        (label "line")
  | ListItemContinuation =>
      Act (Seq [Lit "+"; Star (Ref WS); Ref EOL]) (fun _ _ => NewListItemContinuation)
  | ContinuedDocumentBlock =>
      Act (Seq [Ref ListItemContinuation; Lbl "element" (Ref DocumentBlock)])
        (label "element")
  | OrderedListItem =>
      Act (Seq [Lbl "attributes" (Star (Ref ElementAttribute));
                Lbl "prefix" (Ref OrderedListItemPrefix);
                Lbl "content" (Ref OrderedListItemContent);
                Opt (Ref BlankLine)])
        (fun _ b =>
           asList (get b "content") (fun content =>
           asList (get b "attributes") (fun attributes =>
           NewOrderedListItem (get b "prefix") content attributes)))
  | OrderedListItemPrefix =>
      Act (Seq [Star (Ref WS);
                Lbl "prefix"
                  (Choice
                     [Act (Lit ".....") (fun _ _ => NewOrderedListItemPrefix UpperRoman 5);
                      Act (Lit "....") (fun _ _ => NewOrderedListItemPrefix UpperAlpha 4);
                      Act (Lit "...") (fun _ _ => NewOrderedListItemPrefix LowerRoman 3);
                      Act (Lit "..") (fun _ _ => NewOrderedListItemPrefix LowerAlpha 2);
                      Act (Lit ".") (fun _ _ => NewOrderedListItemPrefix Arabic 1);
                      Act (Seq [Plus (Range "0" "9"); Lit "."])
                        (fun _ _ => NewOrderedListItemPrefix Arabic 1);
                      Act (Seq [Plus (Range "a" "z"); Lit "."])
                        (fun _ _ => NewOrderedListItemPrefix LowerAlpha 1);
                      Act (Seq [Plus (Range "A" "Z"); Lit "."])
                        (fun _ _ => NewOrderedListItemPrefix UpperAlpha 1);
                      Act (Seq [Plus (Range "a" "z"); Lit ")"])
                        (fun _ _ => NewOrderedListItemPrefix LowerRoman 1);
                      Act (Seq [Plus (Range "A" "Z"); Lit ")"])
                        (fun _ _ => NewOrderedListItemPrefix UpperRoman 1)]);
                Plus (Ref WS)])
        (label "prefix")
  | OrderedListItemContent => item_content
  | UnorderedListItem =>
      Act (Seq [Lbl "prefix" (Ref UnorderedListItemPrefix);
                Lbl "content" (Ref UnorderedListItemContent);
                Opt (Ref BlankLine)])
        (fun _ b =>
           asList (get b "content") (fun content =>
           NewUnorderedListItem (get b "prefix") content))
  | UnorderedListItemPrefix =>
      Act (Seq [Star (Ref WS);
                Lbl "prefix"
                  (Choice
                     [Act (Lit "*****")
                        (fun _ _ => NewUnorderedListItemPrefix FiveAsterisks 5);
                      Act (Lit "****")
                        (fun _ _ => NewUnorderedListItemPrefix FourAsterisks 4);
                      Act (Lit "***")
                        (fun _ _ => NewUnorderedListItemPrefix ThreeAsterisks 3);
                      Act (Lit "**")
                        (fun _ _ => NewUnorderedListItemPrefix TwoAsterisks 2);
                      Act (Lit "*")
                        (fun _ _ => NewUnorderedListItemPrefix OneAsterisk 1);
                      Act (Lit "-")
                        (fun _ _ => NewUnorderedListItemPrefix Dash 1)]);
                Plus (Ref WS)])
        (label "prefix")
  | UnorderedListItemContent => item_content
  | LabeledListItem =>
      Choice
        [Act (Seq [Lbl "term" (Ref LabeledListItemTerm); Ref LabeledListItemSeparator;
                   Lbl "description" (Ref LabeledListItemDescription)])
           (fun _ b =>
              asList (get b "term") (fun term =>
              asList (get b "description") (fun description =>
              NewLabeledListItem term description)));
         Act (Seq [Lbl "term" (Ref LabeledListItemTerm); Lit "::"; Star (Ref WS); Ref EOL])
           (fun _ b => asList (get b "term") (fun term => NewLabeledListItem term []))]
  | LabeledListItemTerm =>
      Act (Lbl "term" (Star (not_any [Ref NEWLINE; Lit "::"]))) (label "term")
  | LabeledListItemSeparator => Seq [Lit "::"; Plus (Choice [Ref WS; Ref NEWLINE])]
  | LabeledListItemDescription =>
      Act (Lbl "elements" (Star (Choice [Ref ListParagraph; Ref ContinuedDocumentBlock])))
        (fun _ b => asList (get b "elements") NewListItemContent)
  (* ---- Admonitions ---- *)
  | AdmonitionKind =>
      Choice [Act (Lit "TIP") (fun _ _ => Ret (VAdmonitionKind types.Tip));
              Act (Lit "NOTE") (fun _ _ => Ret (VAdmonitionKind types.Note));
              Act (Lit "IMPORTANT") (fun _ _ => Ret (VAdmonitionKind types.Important));
              Act (Lit "WARNING") (fun _ _ => Ret (VAdmonitionKind types.Warning));
              Act (Lit "CAUTION") (fun _ _ => Ret (VAdmonitionKind types.Caution))]
  (* ---- Paragraphs ---- *)
  | Paragraph =>
      Choice
        [Act (Seq [Lbl "attributes" (Star (Ref ParagraphAttribute));
                   Not (Seq [Plus (Lit "="); Plus (Ref WS); Not (Ref NEWLINE)]);
                   Lbl "t" (Ref AdmonitionKind); Lit ": ";
                   Lbl "lines" (Plus (Ref InlineElements))])
           (fun _ b =>
              asList (get b "lines") (fun lines =>
              asAdmonitionKind (get b "t") (fun t =>
              asList (get b "attributes") (fun attributes =>
              NewAdmonitionParagraph lines t attributes))));
         Act (Seq [Lbl "attributes" (Star (Ref ParagraphAttribute));
                   Not (Seq [Plus (Lit "="); Plus (Ref WS); Not (Ref NEWLINE)]);
                   Lbl "lines" (Plus (Ref InlineElements))])
           (fun _ b =>
              asList (get b "lines") (fun lines =>
              asList (get b "attributes") (fun attributes =>
              NewParagraph lines attributes)))]
  | ParagraphAttribute => Choice [Ref MasqueradeAttribute; Ref ElementAttribute]
  | InlineElements =>
      Choice
        [Act (Lbl "comment" (Ref SingleLineComment))
           (fun _ b => NewInlineElements [VList [get b "comment"]]);
         Act (Seq [Not (Ref EOF); Not (Ref BlockDelimiter);
                   Lbl "elements"
                     (Plus (Seq [Not (Ref EOL); Star (Ref WS); Not (Ref InlineElementID);
                                 Ref InlineElement; Star (Ref WS)]));
                   Ref EOL])
           (fun _ b =>
           asList (get b "elements") (fun elements => NewInlineElements [VList elements]))]
  | InlineElement =>
      Act (Lbl "element"
             (Choice [Ref CrossReference; Ref Passthrough; Ref InlineImage; Ref QuotedText;
                      Ref Link; Ref DocumentAttributeSubstitution; Ref Word]))
        (label "element")
  (* ---- Quoted Texts ---- *)
  | QuotedText =>
      Choice [Ref BoldText; Ref ItalicText; Ref MonospaceText;
              Ref EscapedBoldText; Ref EscapedItalicText; Ref EscapedMonospaceText]
  | BoldText =>
      Choice [quoted (bs ++ bs) "**" "**" types.Bold None;
              quoted (bs ++ bs) "**" "*" types.Bold (Some "*");
              quoted bs "*" "*" types.Bold None]
  | EscapedBoldText =>
      Choice [escaped (bs ++ bs) "**" "**" "**" None;
              escaped bs "**" "*" "*" (Some "*");
              escaped bs "*" "*" "*" None]
  | ItalicText =>
      Choice [quoted (bs ++ bs) "__" "__" types.Italic None;
              quoted (bs ++ bs) "__" "_" types.Italic (Some "_");
              quoted bs "_" "_" types.Italic None]
  | EscapedItalicText =>
      Choice [escaped (bs ++ bs) "__" "__" "__" None;
              escaped bs "__" "_" "_" (Some "_");
              escaped bs "_" "_" "_" None]
  | MonospaceText =>
      Choice [quoted (bs ++ bs) "``" "``" types.Monospace None;
              quoted (bs ++ bs) "``" "`" types.Monospace (Some "`");
              quoted bs "`" "`" types.Monospace None]
  | EscapedMonospaceText =>
      Choice [escaped (bs ++ bs) "``" "``" "``" None;
              escaped bs "``" "`" "`" (Some "`");
              escaped bs "`" "`" "`" None]
  | QuotedTextContent =>
      Seq [Ref QuotedTextContentElement;
           Star (Seq [Plus (Ref WS); Ref QuotedTextContentElement])]
  | QuotedTextContentElement =>
      Choice [Ref QuotedText; Ref QuotedTextWord; Ref WordWithQuotePunctuation]
  | QuotedTextWord =>
      Plus (not_any [Ref NEWLINE; Ref WS; Lit "*"; Lit "_"; Lit "`"])
  | WordWithQuotePunctuation =>
      Act (Plus (not_any [Ref NEWLINE; Ref WS])) (fun text _ => Ret (VBytes text))
  | UnbalancedQuotePunctuation => Choice [Lit "*"; Lit "_"; Lit "`"]
  (* ---- Passthrough ---- *)
  | Passthrough =>
      Choice [Ref TriplePlusPassthrough; Ref SinglePlusPassthrough; Ref PassthroughMacro]
  | SinglePlusPassthrough =>
      Act (Seq [Lit "+"; Lbl "content" (Star (not_any [Ref NEWLINE; Lit "+"])); Lit "+"])
        (fun _ b =>
           asList (get b "content") (NewPassthrough types.SinglePlusPassthrough))
  | TriplePlusPassthrough =>
      Act (Seq [Lit "+++"; Lbl "content" (Star (not_any [Lit "+++"])); Lit "+++"])
        (fun _ b =>
           asList (get b "content") (NewPassthrough types.TriplePlusPassthrough))
  | PassthroughMacro =>
      Choice
        [Act (Seq [Lit "pass:["; Lbl "content" (Star (Ref PassthroughMacroCharacter));
                   Lit "]"])
           (fun _ b => asList (get b "content") (NewPassthrough types.PassthroughMacro));
         Act (Seq [Lit "pass:q[";
                   Lbl "content" (Star (Choice [Ref QuotedText;
                                                Ref PassthroughMacroCharacter]));
                   Lit "]"])
           (fun _ b => asList (get b "content") (NewPassthrough types.PassthroughMacro))]
  | PassthroughMacroCharacter => not_any [Lit "]"]
  (* ---- Cross References ---- *)
  | CrossReference =>
      Act (Seq [Lit "<<"; Lbl "id" (Ref ID); Lit ">>"])
        (fun _ b => asStr (get b "id") NewCrossReference)
  (* ---- Links ---- *)
  | Link => Choice [Ref RelativeLink; Ref ExternalLink]
  | ExternalLink =>
      Choice
        [Act (Seq [Lbl "url" (Seq [Ref URL_SCHEME; Ref URL]);
                   Lbl "attributes" (Ref LinkAttributes)])
           (fun _ b =>
              asList (get b "url") (fun url =>
              asMap (get b "attributes") (fun attributes => NewLink url (Some attributes))));
         Act (Lbl "url" (Seq [Ref URL_SCHEME; Ref URL]))
           (fun _ b => asList (get b "url") (fun url => NewLink url None))]
  | RelativeLink =>
      Act (Seq [Lit "link:"; Lbl "url" (Seq [Opt (Ref URL_SCHEME); Ref URL]);
                Lbl "attributes" (Ref LinkAttributes)])
        (fun _ b =>
           asList (get b "url") (fun url =>
           asMap (get b "attributes") (fun attributes => NewLink url (Some attributes))))
  | LinkAttributes =>
      Choice
        [Act (Seq [Lit "["; Lbl "text" (Ref LinkTextAttribute);
                   Lbl "otherAttrs" (Star (Ref OtherGenericAttribute)); Lit "]"])
           (fun _ b =>
              asList (get b "text") (fun text =>
              asList (get b "otherAttrs") (fun otherAttrs =>
              NewLinkAttributes text otherAttrs)));
         Act (Seq [Lit "["; Lbl "otherAttrs" (Star (Ref OtherGenericAttribute)); Lit "]"])
           (fun _ b =>
              asList (get b "otherAttrs") (fun otherAttrs => NewLinkAttributes [] otherAttrs))]
  | LinkTextAttribute =>
      Act (Lbl "value" (Plus (not_any [Lit ","; Lit "]"]))) (label "value")
  (* ---- Images ---- *)
  | BlockImage =>
      Act (Seq [Lbl "attributes" (Star (Ref ElementAttribute));
                Lbl "image" (Ref BlockImageMacro); Star (Ref WS); Ref EOL])
        (fun _ b =>
           asImageMacro (get b "image") (fun image =>
           asList (get b "attributes") (fun attributes => NewBlockImage image attributes)))
  | BlockImageMacro =>
      Act (Seq [Lit "image::"; Lbl "path" (Ref URL); Lbl "attributes" (Ref ImageAttributes)])
        (fun _ b =>
           asStr (get b "path") (fun path =>
           asMap (get b "attributes") (fun attributes => NewImageMacro path attributes)))
  | InlineImage =>
      Act (Lbl "image" (Ref InlineImageMacro))
        (fun _ b => asImageMacro (get b "image") NewInlineImage)
  | InlineImageMacro =>
      Act (Seq [Lit "image:"; Not (Lit ":"); Lbl "path" (Ref URL);
                Lbl "attributes" (Ref ImageAttributes)])
        (fun _ b =>
           asStr (get b "path") (fun path =>
           asMap (get b "attributes") (fun attributes => NewImageMacro path attributes)))
  | ImageAttributes =>
      Choice
        [Act (Seq [Lit "["; Lbl "alt" (Ref ImageAltAttribute);
                   Lbl "width" (Ref ImageWidthAttribute);
                   Lbl "height" (Ref ImageHeightAttribute);
                   Lbl "otherAttrs" (Star (Ref OtherGenericAttribute)); Lit "]"])
           (fun _ b =>
              asList (get b "alt") (fun alt =>
              asList (get b "width") (fun width =>
              asList (get b "height") (fun height =>
              asList (get b "otherAttrs") (fun otherAttrs =>
              NewImageAttributes alt width height otherAttrs)))));
         Act (Seq [Lit "["; Lbl "alt" (Ref ImageAltAttribute);
                   Lbl "width" (Ref ImageWidthAttribute);
                   Lbl "otherAttrs" (Star (Ref OtherGenericAttribute)); Lit "]"])
           (fun _ b =>
              asList (get b "alt") (fun alt =>
              asList (get b "width") (fun width =>
              asList (get b "otherAttrs") (fun otherAttrs =>
              NewImageAttributes alt width [] otherAttrs))));
         Act (Seq [Lit "["; Lbl "alt" (Ref ImageAltAttribute);
                   Lbl "otherAttrs" (Star (Ref OtherGenericAttribute)); Lit "]"])
           (fun _ b =>
              asList (get b "alt") (fun alt =>
              asList (get b "otherAttrs") (fun otherAttrs =>
              NewImageAttributes alt [] [] otherAttrs)));
         Act (Seq [Lit "["; Lbl "otherAttrs" (Star (Ref OtherGenericAttribute)); Lit "]"])
           (fun _ b =>
              asList (get b "otherAttrs") (fun otherAttrs =>
              NewImageAttributes [] [] [] otherAttrs))]
  | ImageAltAttribute =>
      Act (Lbl "value" (Plus (not_any [Lit ","; Lit "]"]))) (label "value")
  | ImageWidthAttribute =>
      Act (Seq [Lit ","; Lbl "value" (Plus (not_any [Lit ","; Lit "]"]))]) (label "value")
  | ImageHeightAttribute =>
      Act (Seq [Lit ","; Lbl "value" (Plus (not_any [Lit ","; Lit "]"]))]) (label "value")
  (* ---- Delimited Blocks ---- *)
  | DelimitedBlock =>
      Choice [Ref FencedBlock; Ref ListingBlock; Ref ExampleBlock; Ref CommentBlock;
              Ref VerseBlock]
  | BlockDelimiter =>
      Choice [Ref LiteralBlockDelimiter; Ref FencedBlockDelimiter;
              Ref ListingBlockDelimiter; Ref ExampleBlockDelimiter;
              Ref CommentBlockDelimiter; Ref VerseBlockDelimiter]
  | FencedBlockDelimiter => Lit "```"
  | FencedBlock => delimited FencedBlockDelimiter types.Fenced
  | ListingBlockDelimiter => Lit "----"
  | ListingBlock => delimited ListingBlockDelimiter types.Listing
  | ExampleBlockDelimiter => Lit "===="
  | ExampleBlock => delimited ExampleBlockDelimiter types.Example
  | BlockParagraph =>
      Act (Lbl "lines" (Plus (Ref BlockParagraphLine)))
        (fun _ b => asList (get b "lines") (fun lines => NewParagraph lines []))
  | BlockParagraphLine =>
      Act (Seq [Not (Ref OrderedListItemPrefix);
                Not (Ref UnorderedListItemPrefix);
                Not (Seq [Ref LabeledListItemTerm; Ref LabeledListItemSeparator]);
                Not (Ref ListItemContinuation);
                Not (Ref BlockDelimiter);
                Lbl "line" (Ref InlineElements)])
        (label "line")
  | VerseBlockDelimiter => Lit "____"
  | VerseBlock =>
      Act (Seq [Lbl "attributes" (Star (Ref VerseBlockAttribute));
                Ref VerseBlockDelimiter; Star (Ref WS); Ref NEWLINE;
                Lbl "content" (Ref VerseBlockParagraph);
                Choice [Seq [Ref VerseBlockDelimiter; Star (Ref WS); Ref EOL]; Ref EOF]])
        (fun _ b =>
           asList (get b "attributes") (fun attributes =>
           NewDelimitedBlock types.Verse [get b "content"] attributes None_))
  | VerseBlockAttribute =>
      Choice [Act (Seq [Lbl "attribute" (Ref VerseAttributes); Star (Ref WS); Ref EOL])
                (label "attribute");
              Act (Lbl "attribute" (Ref ElementAttribute)) (label "attribute")]
  | VerseBlockParagraph =>
      Act (Lbl "lines" (Star (Ref VerseBlockLine)))
        (fun _ b => asList (get b "lines") (fun lines => NewParagraph lines []))
  | VerseBlockLine =>
      Act (Seq [Lbl "line" (Ref VerseBlockLineContent); Ref EOL]) (label "line")
  | VerseBlockLineContent =>
      Act (Lbl "content" (Star (not_any [Ref VerseBlockDelimiter; Ref EOL])))
        (fun text _ => NewInlineElements [VStr (Go.TrimSpace text)])
  (* ---- Comments ---- *)
  | CommentBlockDelimiter => Lit "////"
  | CommentBlock =>
      Act (Seq [Lbl "attributes" (Star (Ref ElementAttribute));
                Ref CommentBlockDelimiter; Star (Ref WS); Ref NEWLINE;
                Lbl "content" (Star (Ref CommentBlockLine));
                Choice [Seq [Ref CommentBlockDelimiter; Star (Ref WS); Ref EOL]; Ref EOF]])
        (fun _ b =>
           asList (get b "content") (fun content =>
           asList (get b "attributes") (fun attributes =>
           NewDelimitedBlock types.Comment content attributes Verbatim)))
  | CommentBlockLine =>
      Act (Seq [Lbl "content" (Star (not_any [Ref CommentBlockDelimiter; Ref EOL]));
                Ref EOL])
        (label "content")
  | SingleLineComment =>
      Act (Seq [Not (Ref CommentBlockDelimiter); Lit "//";
                Lbl "content" (Star (not_any [Ref EOL])); Ref EOL])
        (fun _ b => asList (get b "content") NewSingleLineComment)
  (* ---- Literal Blocks ---- *)
  | LiteralBlock =>
      Choice [Ref ParagraphWithSpaces; Ref ParagraphWithLiteralBlockDelimiter;
              Ref ParagraphWithLiteralAttribute]
  | ParagraphWithSpaces =>
      Act (Seq [Lbl "spaces" (Plus (Ref WS)); Not (Ref NEWLINE);
                Lbl "content" (Ref LiteralBlockContent); Ref EndOfLiteralBlock])
        (fun _ b =>
           asList (get b "spaces") (fun spaces =>
           asList (get b "content") (fun content => NewLiteralBlock spaces content)))
  | LiteralBlockContent =>
      Act (Lbl "content" (Plus (not_any [Seq [Ref NEWLINE; Ref BlankLine]])))
        (label "content")
  | EndOfLiteralBlock =>
      Choice [Seq [Ref NEWLINE; Ref BlankLine]; Ref NEWLINE; Ref EOF]
  | ParagraphWithLiteralBlockDelimiter =>
      Act (Seq [Ref LiteralBlockDelimiter; Star (Ref WS); Ref NEWLINE;
                Lbl "content" (Star (not_any [Ref LiteralBlockDelimiter]));
                Choice [Seq [Ref LiteralBlockDelimiter; Star (Ref WS); Ref EOL]; Ref EOF]])
        (fun _ b => asList (get b "content") (fun content => NewLiteralBlock [] content))
  | LiteralBlockDelimiter => Lit "...."
  | ParagraphWithLiteralAttribute =>
      Act (Seq [Lit "[literal]"; Star (Ref WS); Ref NEWLINE;
                Lbl "content" (Ref LiteralBlockContent); Ref EndOfLiteralBlock])
        (fun _ b => asList (get b "content") (fun content => NewLiteralBlock [] content))
  (* ---- BlankLine ---- *)
  | BlankLine =>
      Act (Seq [Not (Ref EOF); Star (Ref WS); Ref EOL]) (fun _ _ => NewBlankLine)
  (* ---- Base Types ---- *)
  | Word => Act (Plus (not_any [Ref NEWLINE; Ref WS])) text_string
  | URL => Act (Plus (not_any [Ref NEWLINE; Ref WS; Lit "["; Lit "]"])) text_string
  | ID =>
      Act (Plus (not_any [Ref NEWLINE; Ref WS; Lit "["; Lit "]"; Lit "<<"; Lit ">>"]))
        text_string
  | URL_TEXT => Act (Plus (not_any [Ref NEWLINE; Lit "["; Lit "]"])) text_string
  | URL_SCHEME =>
      Choice [Lit "http://"; Lit "https://"; Lit "ftp://"; Lit "irc://"; Lit "mailto:"]
  | DIGIT => Range "0" "9"
  | WS => Choice [Lit " "; Act (Lit tab) text_string]
  | NEWLINE => Choice [Lit (cr ++ nl); Lit cr; Lit nl]
  | EOF => Not Any
  | EOL => Choice [Ref NEWLINE; Ref EOF]
  end.

(** ** The entry point

    [parser.Parse] runs the rule of the entry point (by default the
    first rule, [Document]).  It returns the value of the rule and the
    errors recorded on the way; when the rule does not match the error
    is "no match found", and a panic of an action is recovered and
    returned as an error. *)

Inductive parsed :=
| Returned (v : value)                 (* the value, no error *)
| ParseError (errors : list string).   (* an error is returned *)

Definition Parse (n : nat) (entrypoint : rule) (input : string) : option parsed :=
  match parse grammar n (Ref entrypoint) input with
  | None => None
  | Some ([], Matched v _ _ _) => Some (Returned v)
  | Some (errors, Matched _ _ _ _) => Some (ParseError errors)
  | Some ([], Failed) => Some (ParseError ["no match found"])
  | Some (errors, Failed) => Some (ParseError errors)
  | Some (errors, Panic m) => Some (ParseError (errors ++ [m])%list)
  end.

Definition is_document (v : value) : bool :=
  match v with VDocument _ _ _ => true | _ => false end.

(** Lines of input. *)
Fixpoint lines (ls : list string) : string :=
  match ls with
  | [] => EmptyString
  | [l] => l
  | l :: rest => l ++ nl ++ lines rest
  end.

(** A paragraph without attributes, of lines of plain text. *)
Definition text_paragraph (ls : list string) : value :=
  VParagraph ∅ (map (fun l => [VStringElement l]) ls).

(* ===================================================================== *)
(** * Package [html5]: the helpers of the renderer

    The functions of [renderer.go] that work on the elements alone. *)

Module html5.

(** [discardTrailingBlankLines]: the loop removes the last element as
    long as it is a blank line; [n] bounds the number of rounds. *)
Fixpoint discard_loop (n : nat) (filteredElements : list value) : list value :=
  match n with
  | O => filteredElements
  | S n' =>
      match last filteredElements with
      | Some VBlankLine =>
          discard_loop n' (take (length filteredElements - 1) filteredElements)
      | _ => filteredElements
      end
  end.

Definition discardTrailingBlankLines (elements : list value) : list value :=
  discard_loop (length elements) elements.

(** [renderPlainString]: the text of an element without its markup;
    [None] is the error that is returned.  The lines of a paragraph are
    rendered one after the other, as the elements of a line are. *)
Fixpoint renderPlainString (element : value) : option string :=
  let elements_ :=
    fix elements_ (l : list value) : option string :=
      match l with
      | [] => Some EmptyString
      | e :: l' =>
          match renderPlainString e with
          | Some plainStringElement =>
              match elements_ l' with
              | Some buff => Some (plainStringElement ++ buff)
              | None => None
              end
          | None => None
          end
      end in
  match element with
  | VSectionTitle _ Content => elements_ Content
  | VQuotedText _ Elements => elements_ Elements
  | VInlineImage Macro => Some (Alt Macro)
  | VLink _ _ => Some (Text element)
  | VBlankLine => Some (nl ++ nl)
  | VStringElement Content => Some Content
  | VParagraph _ Lines =>
      (fix lines_ (ls : list (list value)) : option string :=
         match ls with
         | [] => Some EmptyString
         | e :: ls' =>
             match elements_ e with
             | Some plainStringElement =>
                 match lines_ ls' with
                 | Some buff => Some (plainStringElement ++ buff)
                 | None => None
                 end
             | None => None
             end
         end) Lines
  | VInlineElements l => elements_ l
  | _ => None
  end.

Definition renderPlainStringForInlineElements (elements : list value) : option string :=
  renderPlainString (VInlineElements elements).

End html5.

(* ===================================================================== *)
(** * What the properties are stated with *)

(** ** Runs of the engine *)

Definition le_parser (p q : parser) : Prop :=
  forall s o, p s = Some o -> q s = Some o.

Section Runs.
Context {R : Type}.
Variable grammar : R -> expr R.

(** [runs e s o]: the run of [e] at [s] finishes with [o]. *)
Definition runs (e : expr R) (s : string) (o : outcome) : Prop :=
    exists n, parse grammar n e s = Some o.

(** [diverges e s]: the run of [e] at [s] never finishes. *)
Definition diverges (e : expr R) (s : string) : Prop :=
    forall n, parse grammar n e s = None.

(** [no_outcome e s]: the relation has no outcome for [e] at [s]. *)
Definition no_outcome (e : expr R) (s : string) : Prop := forall o, ~ eval grammar e s o.

End Runs.

(** ** Strings and bytes *)

Fixpoint str_repeat (t : string) (n : nat) : string :=
  match n with
  | O => EmptyString
  | S n' => t ++ str_repeat t n'
  end.

Fixpoint all_bytes (f : ascii -> bool) (t : string) : bool :=
  match t with
  | EmptyString => true
  | String a t' => f a && all_bytes f t'
  end.

(** [occurs p t]: [p] starts at some position of [t]. *)
Fixpoint occurs (p t : string) : bool :=
  has_prefix p t ||
  match t with
  | EmptyString => false
  | String _ t' => occurs p t'
  end.

Definition is_newline (a : ascii) : bool :=
  Ascii.eqb a "010" || Ascii.eqb a "013".

Definition is_blank (a : ascii) : bool :=
  Ascii.eqb a " " || Ascii.eqb a "009".

Fixpoint bytes_of (t : string) : list ascii :=
  match t with
  | EmptyString => []
  | String a t' => a :: bytes_of t'
  end.

(** ** The blocks of a document *)

(** [blocks:(Section / DocumentBlock)*], the block list of [Document]. *)
Definition blocks : expr rule := Star (Choice [Ref Section; Ref DocumentBlock]).

(** The block list of a document: first the blocks that are not
    sections, then the sections. *)
Definition block : expr rule := Choice [Ref Section; Ref DocumentBlock].

Definition no_section (l : list value) : bool := forallb (fun v => negb (is_section v)) l.

Definition all_sections (l : list value) : bool := forallb is_section l.

(** The elements of a document, in the words of the specification: the
    blocks before the first section in one preamble, then the
    sections; the blocks as they are when there is no section or no
    block before the first section. *)
Definition with_preamble (pre secs : list value) : list value :=
  match pre, secs with
  | [], _ => secs
  | _, [] => pre
  | _, _ => VPreamble pre :: secs
  end.

(** Where the table of contents is inserted among the elements. *)
Definition toc_inserted (elements els : list value) : Prop :=
  els = elements \/ exists attrValue, insert_toc attrValue elements = Some els.

(** The [toc] attribute of the header of a document. *)
Definition header_toc (header : value) : option value :=
  match header with
  | VDocumentHeader content => content !! "toc"
  | _ => None
  end.

(** The elements of a document, in the words of the specification:
    the table of contents is the first element for the values [""] and
    [auto] of the attribute [toc], the second element (after the
    preamble, when there is one) for the value [preamble]; without the
    attribute, and for any other value, the elements are left as they
    are. *)
Definition toc_placed (toc : option value) (elements : list value) : list value :=
  match toc with
  | Some (VStr EmptyString) | Some (VStr "auto") => VTableOfContentsMacro :: elements
  | Some (VStr "preamble") =>
      match elements with
      | e :: rest => e :: VTableOfContentsMacro :: rest
      | [] => []
      end
  | _ => elements
  end.

(** The parts of a document: the front matter and the header (nil
    without them) at the start of the input, and the blocks of the
    rest of the input, up to its end. *)
Definition document_parts (input : string) (frontmatter header : value)
    (blocks : list value) : Prop :=
  exists er1 b1 k1 s1 er2 b2 k2 s2 er3 b3 k3,
    eval grammar (Opt (Ref FrontMatter)) input (er1, Matched frontmatter b1 k1 s1) /\
    eval grammar (Opt (Ref DocumentHeader)) s1 (er2, Matched header b2 k2 s2) /\
    eval grammar (Star block) s2 (er3, Matched (VList blocks) b3 k3 EmptyString).

(** What [Parse] returns: the elements of the document. *)
Definition elements_of (p : option parsed) : list value :=
  match p with
  | Some (Returned (VDocument _ els _)) => els
  | _ => []
  end.

Definition is_toc (v : value) : bool :=
  match v with VTableOfContentsMacro => true | _ => false end.

(** A document with a header, one paragraph and one section. *)
Definition toc_document : string :=
  lines ["= Title"; ":toc:"; ""; "foo"; ""; "== Section"; ""; "bar"].

(** The values of the blocks of a document. *)
Definition block_value (v : value) : bool :=
  match v with
  | VBlankLine | VDocumentAttributeDeclaration _ _ | VDocumentAttributeReset _
  | VList _ | VOrderedList _ _ | VUnorderedList _ _ | VLabeledList _ _
  | VBlockImage _ _ | VLiteralBlock _ | VParagraph _ _ | VNil => true
  | _ => false
  end.

Definition is_delimited (v : value) : bool :=
  match v with VDelimitedBlock _ _ => true | _ => false end.

(** The kind of a delimited block. *)
Definition block_kind (v : value) : option value :=
  match v with
  | VDelimitedBlock a _ => a !! AttrBlockKind
  | _ => None
  end.

(** The BlankLine markers at the head of a list of blocks. *)
Fixpoint leading_markers (l : list value) : nat :=
  match l with
  | VBlankLine :: rest => S (leading_markers rest)
  | _ => O
  end.

(** The list of the one item [* a]. *)
Definition list_of_a : value :=
  VUnorderedList ∅ [VUnorderedListItem 1 OneAsterisk [text_paragraph ["a"]]].

(** ** The lines of a verse block *)

(** A content line of a verse block: no newline in it, and the verse
    delimiter does not occur in it. *)
Definition verse_line (l : string) : bool :=
  all_bytes (fun a => negb (is_newline a)) l && negb (occurs "____" l).

(** The lines [ls], each followed by a newline. *)
Fixpoint verse_lines (ls : list string) : string :=
  match ls with
  | [] => EmptyString
  | l :: rest => l ++ nl ++ verse_lines rest
  end.

(** The value of one round of [(!VerseBlockDelimiter !EOL .)*]. *)
Definition content_byte (a : ascii) : value :=
  VList [VNil; VNil; VBytes (String a EmptyString)].

(** The line stored for the text [l]: the text without the white space
    around it, no element at all when nothing is left. *)
Definition stored_line (l : string) : list value :=
  if is_empty (Go.TrimSpace l) then [] else [VStringElement (Go.TrimSpace l)].

(** The text [c], stored as the elements of a line: one string
    element, none for the empty text. *)
Definition line_of (c : string) : list value :=
  if is_empty c then [] else [VStringElement c].

(** White space, in the words of the claim: the characters of
    [unicode.IsSpace], in their UTF-8 encoding. *)
Definition space (r : string) : Prop := In r Go.space_runes.

Definition white (s : string) : Prop :=
  exists rs, Forall space rs /\ s = fold_right append EmptyString rs.

Definition starts_white (s : string) : Prop := exists r t, space r /\ s = r ++ t.

Definition ends_white (s : string) : Prop := exists r t, space r /\ s = t ++ r.

(** [c] is the line [l] without its leading and trailing white space:
    [l] is [c] between two runs of white space, and [c] neither starts
    nor ends with a white space character. *)
Definition trimmed (l c : string) : Prop :=
  (exists pre post, l = pre ++ c ++ post /\ white pre /\ white post)
  /\ ~ starts_white c /\ ~ ends_white c.

(** ** The lines of a paragraph *)

(** The end of a line: the end of the input or a line feed. *)
Definition line_end (t : string) : bool :=
  match t with
  | EmptyString => true
  | String a _ => Ascii.eqb a "010"
  end.

(** The start of a text: the end of the input, or a byte that is
    neither white space nor a newline. *)
Definition text_start (t : string) : bool :=
  match t with
  | EmptyString => true
  | String a _ => negb (is_blank a) && negb (is_newline a)
  end.

Definition block_delimiters : list string :=
  ["...."; "```"; "----"; "===="; "////"; "____"].

Definition blank_value (a : ascii) : value :=
  if Ascii.eqb a "009" then VStr tab else VBytes " ".

(** The guard at the start of the [Paragraph] rule. *)
Definition section_guard : expr rule :=
  Seq [Plus (Lit "="); Plus (Ref WS); Not (Ref NEWLINE)].

(** ** The levels of the items of an ordered list *)

(** The rule in the words of the specification: what is kept while the
    items are scanned, the level given to one item, and the levels
    given to the items of a sequence. *)
Record level_scan := {
  previous_level : Z;
  previous_numbering_style : string;
  level_per_style : gmap string Z }.

Definition rewrite_level (item_level : Z) (item_numbering_style : string)
    (sc : level_scan) : Z * gmap string Z :=
  if decide (item_level > previous_level sc) then
    (previous_level sc + 1,
     <[ item_numbering_style := previous_level sc + 1 ]> (level_per_style sc))
  else if decide (item_numbering_style <> previous_numbering_style sc) then
    match level_per_style sc !! item_numbering_style with
    | Some recorded => (recorded, level_per_style sc)
    | None =>
        (previous_level sc + 1,
         <[ item_numbering_style := previous_level sc + 1 ]> (level_per_style sc))
    end
  else (previous_level sc, level_per_style sc).

Fixpoint rewritten_levels (sc : level_scan) (items : list (Z * string)) : list Z :=
  match items with
  | [] => []
  | (l, s) :: rest =>
      let '(l', lps) := rewrite_level l s sc in
      l' :: rewritten_levels
              {| previous_level := l'; previous_numbering_style := s;
                 level_per_style := lps |} rest
  end.

(** What the code keeps, and the items of the store. *)
Definition scan_of (st : OrderedListState) : level_scan :=
  {| previous_level := previousLevel st;
     previous_numbering_style := previousNumberingStyle st;
     level_per_style := levelPerStyle st |}.

Definition item_level (v : value) : option Z :=
  match v with
  | VOrderedListItem l _ _ _ _ => Some l
  | _ => None
  end.

Definition level_at (st : store) (ptr : nat) : option Z :=
  match st !! ptr with
  | Some v => item_level v
  | None => None
  end.

Definition item_key (st : store) (ptr : nat) : Z * string :=
  match st !! ptr with
  | Some (VOrderedListItem l _ s _ _) => (l, s)
  | _ => (0, EmptyString)
  end.

(** The pointers that sit in a buffer. *)
Definition buffered (b : gmap Z (list nat)) (ptr : nat) : Prop :=
  exists l ps, b !! l = Some ps /\ ptr ∈ ps.

(** [touches ps st st']: from [st] to [st'] the cells out of [ps] are
    the same, and no item has changed its level. *)
Definition touches (ps : list nat) (st st' : store) : Prop :=
  forall q, (q ∉ ps -> st' !! q = st !! q) /\ level_at st' q = level_at st q.

(** What is kept before the first item. *)
Definition first_scan : level_scan :=
  {| previous_level := 0; previous_numbering_style := UnknownNumberingStyle;
     level_per_style := ∅ |}.

(** Four items of the levels 1, 2, 5 and 1. *)
Definition four_items : store :=
  [VOrderedListItem 1 1 Arabic [VStr "a"] ∅;
   VOrderedListItem 2 1 LowerAlpha [VStr "b"] ∅;
   VOrderedListItem 5 1 LowerRoman [VStr "c"] ∅;
   VOrderedListItem 1 1 Arabic [VStr "d"] ∅].

(** ** The verse blocks of a document *)

(** One paragraph, and nothing else. *)
Definition one_paragraph (l : list value) : Prop :=
  exists attrs lines, l = [VParagraph attrs lines].

(** [verse_ok v]: every delimited block of kind [Verse] among the blocks
    of [v], at any depth, has one element, a paragraph. *)
Fixpoint verse_ok (v : value) : Prop :=
  match v with
  | VList l | VPreamble l | VDocument _ l _ | VSection _ _ l
  | VOrderedList _ l | VUnorderedList _ l | VLabeledList _ l
  | VOrderedListItem _ _ _ l _ | VUnorderedListItem _ _ l | VLabeledListItem _ l =>
      (fix all (l : list value) : Prop :=
         match l with [] => True | x :: l' => verse_ok x /\ all l' end) l
  | VDelimitedBlock a l =>
      (a !! AttrBlockKind = Some (VBlockKind Verse) -> one_paragraph l) /\
      (fix all (l : list value) : Prop :=
         match l with [] => True | x :: l' => verse_ok x /\ all l' end) l
  | _ => True
  end.

Abbreviation all_ok := (Forall verse_ok).

Definition env_ok (b : env) : Prop := Forall (fun p => verse_ok p.2) b.

Definition result_ok (o : result) : Prop :=
  match o with
  | Matched v b _ _ => verse_ok v /\ env_ok b
  | _ => True
  end.

Definition results_ok (o : results) : Prop :=
  match o with
  | MatchedAll vs b _ _ => all_ok vs /\ env_ok b
  | _ => True
  end.

Section Actions.
Context {R : Type}.
Variable g : R -> expr R.

(** An action keeps the property: from a match of its expression, with
    values that have it, it returns a value that has it. *)
Definition act_ok (e : expr R) (f : string -> env -> action_result) : Prop :=
  forall s er v0 b k r v,
    eval g e s (er, Matched v0 b k r) -> verse_ok v0 -> env_ok b ->
    (f (sliceFrom s k) b = Ret v \/ exists m, f (sliceFrom s k) b = RetErr v m) ->
    verse_ok v.

Fixpoint acts_ok (e : expr R) : Prop :=
  match e with
  | Seq es | Choice es =>
      (fix all (es : list (expr R)) : Prop :=
         match es with [] => True | e' :: es' => acts_ok e' /\ all es' end) es
  | Star e' | Plus e' | Opt e' | And e' | Not e' | Lbl _ e' => acts_ok e'
  | Act e' f => act_ok e' f /\ acts_ok e'
  | _ => True
  end.

End Actions.

(** The result of an action has the property. *)
Definition ok_result (a : action_result) : Prop :=
  match a with
  | Ret v | RetErr v _ => verse_ok v
  | Panics _ => True
  end.

(** The values without blocks in them. *)
Definition leaf (v : value) : bool :=
  match v with
  | VList _ | VPreamble _ | VDocument _ _ _ | VSection _ _ _
  | VOrderedList _ _ | VUnorderedList _ _ | VLabeledList _ _
  | VOrderedListItem _ _ _ _ _ | VUnorderedListItem _ _ _ | VLabeledListItem _ _
  | VDelimitedBlock _ _ => false
  | _ => true
  end.

Definition leaf_result (a : action_result) : Prop :=
  match a with
  | Ret v | RetErr v _ => leaf v = true
  | Panics _ => True
  end.

(** The blocks in a value. *)
Definition children (v : value) : list value :=
  match v with
  | VList l | VPreamble l | VDocument _ l _ | VSection _ _ l
  | VOrderedList _ l | VUnorderedList _ l | VLabeledList _ l
  | VOrderedListItem _ _ _ l _ | VUnorderedListItem _ _ l | VLabeledListItem _ l
  | VDelimitedBlock _ l => l
  | _ => []
  end.

(** [within d v]: [v] is [d], or a block of [d], at any depth. *)
Inductive within : value -> value -> Prop :=
| within_here v : within v v
| within_child d c v : In c (children d) -> within c v -> within d v.

(** ** The blocks that [insertPreamble] collects *)

Definition not_section (v : value) : bool := negb (is_section v).

(** The elements of the document that [NewDocument] returns. *)
Definition document_elements (a : action_result) : option (list value) :=
  match a with
  | Ret (VDocument _ els _) => Some els
  | _ => None
  end.

(** ** The sections of the levels 2 to 5

    The rule of the section, of its title and of its blocks. *)
Definition deep_sections : list (rule * rule * rule) :=
  [(Section2, Section2Title, Section2Block); (Section3, Section3Title, Section3Block);
   (Section4, Section4Title, Section4Block); (Section5, Section5Title, Section5Block)].

(** ** Plain strings *)

(** Two rendered texts, one after the other; an error is an error of
    the whole. *)
Definition both (x y : option string) : option string :=
  match x, y with
  | Some t, Some u => Some (t ++ u)
  | _, _ => None
  end.

(** ** Lists *)

(** What [NewList] returns for what [newList] returns. *)
Definition returned (r : go (value * store)) : action_result :=
  match r with
  | Done (l, _) => Ret l
  | Fault m => RetErr VNil m
  | Crash m => Panics m
  end.

(** The list that a constructor returns. *)
Definition list_value (r : go (value * store)) : option value :=
  match r with
  | Done (l, _) => Some l
  | _ => None
  end.

(** What the renumbering of an ordered list leaves of an item: its
    level, its elements and its attributes. *)
Definition item_core (v : value) : option (Z * list value * gmap string value) :=
  match v with
  | VOrderedListItem l _ _ els at_ => Some (l, els, at_)
  | _ => None
  end.

Definition core_at (st : store) (ptr : nat) : option (Z * list value * gmap string value) :=
  st !! ptr ≫= item_core.

(** The position that the attribute [start] gives, [p] without it. *)
Definition start_position (p : Z) (at_ : gmap string value) : Z :=
  match at_ !! "start" with
  | Some (VStr start) => default p (Go.ParseInt start)
  | _ => p
  end.

(** The numbering style that the attributes give, [ns] without one. *)
Definition style_override (ns : string) (at_ : gmap string value) : string :=
  default ns (first_style numberingStyles at_).

(** ** The levels and the bullet styles of an unordered list *)

(** What is kept while the items are scanned. *)
Record bullet_scan := {
  bs_level : Z;
  bs_style : string;
  bs_levels : gmap string Z }.

(** The level and the bullet style given to one item. *)
Definition rewrite_bullet (item_level : Z) (item_style : string) (sc : bullet_scan)
  : Z * string * gmap string Z :=
  if decide (item_level > bs_level sc) then
    let style := nextLevelStyle item_style (bs_style sc) in
    (bs_level sc + 1, style, <[ style := bs_level sc + 1 ]> (bs_levels sc))
  else if decide (item_style <> bs_style sc) then
    match bs_levels sc !! item_style with
    | Some recorded => (recorded, item_style, bs_levels sc)
    | None =>
        (bs_level sc + 1, item_style, <[ item_style := bs_level sc + 1 ]> (bs_levels sc))
    end
  else (bs_level sc, item_style, bs_levels sc).

Fixpoint rewritten_bullets (sc : bullet_scan) (items : list (Z * string))
  : list (Z * string) :=
  match items with
  | [] => []
  | (l, s) :: rest =>
      let '(l', s', lps) := rewrite_bullet l s sc in
      (l', s') :: rewritten_bullets {| bs_level := l'; bs_style := s'; bs_levels := lps |} rest
  end.

Definition bullet_scan_of (st : UnorderedListState) : bullet_scan :=
  {| bs_level := ul_previousLevel st; bs_style := previousBulletStyle st;
     bs_levels := ul_levelPerStyle st |}.

(** What is kept before the first item. *)
Definition first_bullet_scan : bullet_scan :=
  {| bs_level := 0; bs_style := UnknownBulletStyle; bs_levels := ∅ |}.

(** The level and the bullet style of an item of the store. *)
Definition bullet_key (v : value) : option (Z * string) :=
  match v with
  | VUnorderedListItem l b _ => Some (l, b)
  | _ => None
  end.

Definition bullet_at (st : store) (ptr : nat) : option (Z * string) :=
  st !! ptr ≫= bullet_key.

Definition bullet_of (st : store) (ptr : nat) : Z * string :=
  default (0, EmptyString) (bullet_at st ptr).

(** The levels and the bullet styles of [n] items that all start with
    [**]: the first one of each pair is of the level 1, the second one
    of the level 2. *)
Fixpoint alternating (n : nat) (second : bool) : list (Z * string) :=
  match n with
  | O => []
  | S n' =>
      (if second then (2, ThreeAsterisks) else (1, TwoAsterisks))
      :: alternating n' (negb second)
  end.

(** ** The default [alt] of an image *)

(** [ends_in cutset s]: the last byte of [s] is one of [cutset]. *)
Definition ends_in (cutset s : string) : bool :=
  match str_rev s with
  | String c _ => Go.contains_byte c cutset
  | EmptyString => false
  end.

(** ** Lines and digits *)

(** The lines [ls], each ended by a line feed. *)
Fixpoint ended_lines (ls : list string) : string :=
  match ls with
  | [] => EmptyString
  | l :: rest => l ++ nl ++ ended_lines rest
  end.

Definition is_digit (a : ascii) : bool := in_range "0" "9" a.



(* ===================================================================== *)
(** * Properties *)

(** ** Properties of the engine *)

Lemma p_seq_mono (ps qs : list parser) :
  Forall2 le_parser ps qs ->
  forall s o, p_seq ps s = Some o -> p_seq qs s = Some o.
Proof.
  induction 1 as [|p q ps qs Hpq _ IH]; intros s o; simpl; [done|].
  destruct (p s) as [[er r]|] eqn:Hp; [|done].
  rewrite (Hpq _ _ Hp).
  destruct r as [v b k rest| |m]; try done.
  destruct (p_seq ps rest) as [o'|] eqn:Hs; [|done].
  by rewrite (IH _ _ Hs).
Qed.

Lemma p_choice_mono (ps qs : list parser) :
  Forall2 le_parser ps qs ->
  forall s o, p_choice ps s = Some o -> p_choice qs s = Some o.
Proof.
  induction 1 as [|p q ps qs Hpq _ IH]; intros s o; simpl; [done|].
  destruct (p s) as [[er r]|] eqn:Hp; [|done].
  rewrite (Hpq _ _ Hp).
  destruct r as [v b k rest| |m]; try done.
  destruct (p_choice ps s) as [o'|] eqn:Hs; [|done].
  by rewrite (IH _ _ Hs).
Qed.

Lemma p_many_S k (p : parser) s :
  p_many (S k) p s =
  match p s with
  | None => None
  | Some (er, Matched v _ c r) =>
      match p_many k p r with
      | None => None
      | Some (er', MatchedAll vs _ c' r') =>
          Some ((er ++ er')%list, MatchedAll (v :: vs) [] (c + c')%nat r')
      | Some (er', o) => Some ((er ++ er')%list, o)
      end
  | Some (er, Failed) => Some (er, MatchedAll [] [] 0%nat s)
  | Some (er, Panic m) => Some (er, PanicAll m)
  end.
Proof. reflexivity. Qed.

Lemma p_many_mono (p q : parser) :
  le_parser p q ->
  forall k s o, p_many k p s = Some o -> p_many (S k) q s = Some o.
Proof.
  intros Hpq k; induction k as [|k IH]; intros s o; [done|].
  rewrite (p_many_S k p s), (p_many_S (S k) q s).
  destruct (p s) as [[er r]|] eqn:Hp; [|done].
  rewrite (Hpq _ _ Hp).
  destruct r as [v b c rest| |m]; try done.
  destruct (p_many k p rest) as [o'|] eqn:Hs; [|done].
  by rewrite (IH _ _ Hs).
Qed.

Section EngineFacts.
Context {R : Type}.
Variable grammar : R -> expr R.

Abbreviation parse := (parse grammar).
Abbreviation runs := (runs grammar).
Abbreviation diverges := (diverges grammar).

Lemma parse_S n e s :
    parse (S n) e s =
    match e with
    | Lit l => p_lit l s
    | LitI l => p_liti l s
    | Range lo hi => p_range lo hi s
    | Any => p_any s
    | Seq es => seq_result (p_seq (map (parse n) es) s)
    | Choice es => p_choice (map (parse n) es) s
    | Star e' => star_result (p_many n (parse n e') s)
    | Plus e' => plus_result (p_many n (parse n e') s)
    | Opt e' => p_opt (parse n e') s
    | And e' => p_and (parse n e') s
    | Not e' => p_not (parse n e') s
    | Lbl l e' => p_lbl l (parse n e') s
    | Act e' f => p_act (parse n e') f s
    | Ref r => p_rule (parse n (grammar r)) s
    end.
Proof. reflexivity. Qed.

Lemma parse_mono_S n :
    forall e, le_parser (parse n e) (parse (S n) e).
Proof.
    induction n as [|n IH]; intros e s o; [done|].
    assert (Hall : forall es : list (expr R),
               Forall2 le_parser (map (parse n) es) (map (parse (S n)) es)).
    { induction es; constructor; auto. }
    rewrite (parse_S n e s), (parse_S (S n) e s).
    destruct e; try done.
    - destruct (p_seq (map (parse n) es) s) as [o'|] eqn:H; [|done].
      by rewrite (p_seq_mono _ _ (Hall es) _ _ H).
    - apply p_choice_mono, Hall.
    - destruct (p_many n (parse n e) s) as [o'|] eqn:H; [|done].
      by rewrite (p_many_mono _ _ (IH e) _ _ _ H).
    - destruct (p_many n (parse n e) s) as [o'|] eqn:H; [|done].
      by rewrite (p_many_mono _ _ (IH e) _ _ _ H).
    - unfold p_opt. destruct (parse n e s) eqn:H; [|done]. by rewrite (IH _ _ _ H).
    - unfold p_and. destruct (parse n e s) eqn:H; [|done]. by rewrite (IH _ _ _ H).
    - unfold p_not. destruct (parse n e s) eqn:H; [|done]. by rewrite (IH _ _ _ H).
    - unfold p_lbl. destruct (parse n e s) eqn:H; [|done]. by rewrite (IH _ _ _ H).
    - unfold p_act. destruct (parse n e s) eqn:H; [|done]. by rewrite (IH _ _ _ H).
    - unfold p_rule. destruct (parse n (grammar r) s) eqn:H; [|done].
      by rewrite (IH _ _ _ H).
Qed.

Lemma parse_mono n m e s o :
    (n <= m)%nat -> parse n e s = Some o -> parse m e s = Some o.
Proof.
    induction 1 as [|m _ IH]; [done|].
    intros H. by apply parse_mono_S, IH.
Qed.

  (** The engine is deterministic: the bound only decides whether a
      run finishes. *)
Lemma parse_det n m e s o o' :
    parse n e s = Some o -> parse m e s = Some o' -> o = o'.
Proof.
    intros H H'.
    apply (parse_mono n (n `max` m)) in H; [|lia].
    apply (parse_mono m (n `max` m)) in H'; [|lia].
    congruence.
Qed.

Lemma runs_det e s o o' : runs e s o -> runs e s o' -> o = o'.
Proof. intros [n H] [m H']. eapply parse_det; eauto. Qed.

Lemma runs_not_diverges e s o : runs e s o -> ~ diverges e s.
Proof. intros [n H] D. by rewrite D in H. Qed.
End EngineFacts.

(** ** The tests of the repository

    The expected results of [pkg/parser]'s tests, run on the embedding. *)

Example test_element_link_alone :
  Parse 100 DocumentBlock (lines ["[link=http://foo.bar]"; "a paragraph"])
  = Some (Returned (VParagraph {[ "link" := VStr "http://foo.bar" ]}
                      [[VStringElement "a paragraph"]])).
Proof. vm_compute. reflexivity. Qed.

Example test_spaces_before_keyword :
  Parse 100 DocumentBlock (lines ["[ link=http://foo.bar]"; "a paragraph"])
  = Some (Returned (text_paragraph ["[ link=http://foo.bar]"; "a paragraph"])).
Proof. vm_compute. reflexivity. Qed.

Example test_extra_space_after_dot :
  Parse 100 DocumentBlock (lines [". a title"; "a list item!"])
  = Some (Returned
            (VOrderedList ∅
               [VOrderedListItem 1 1 Arabic
                  [text_paragraph ["a title"; "a list item!"]] ∅])).
Proof. vm_compute. reflexivity. Qed.

Example test_fenced_block_with_unclosed_delimiter :
  Parse 100 DocumentBlock (lines ["```"; "End of file here"])
  = Some (Returned (VDelimitedBlock {[ AttrBlockKind := VBlockKind types.Fenced ]}
                      [text_paragraph ["End of file here"]])).
Proof. vm_compute. reflexivity. Qed.

Example test_listing_block_with_multiple_lines_then_a_paragraph :
  Parse 100 Document
    (lines ["---- "; "some listing code"; "with an empty line"; EmptyString;
            "in the middle"; "----"; "then a normal paragraph."])
  = Some (Returned
            (VDocument ∅
               [VDelimitedBlock {[ AttrBlockKind := VBlockKind types.Listing ]}
                  [text_paragraph ["some listing code"; "with an empty line"];
                   VBlankLine;
                   text_paragraph ["in the middle"]];
                text_paragraph ["then a normal paragraph."]]
               ∅)).
Proof. vm_compute. reflexivity. Qed.

Example test_example_block_as_admonition :
  Parse 100 DocumentBlock (lines ["[NOTE]"; "===="; "foo"; "===="])
  = Some (Returned
            (VDelimitedBlock
               (<[ AttrAdmonitionKind := VAdmonitionKind types.Note ]>
                  {[ AttrBlockKind := VBlockKind types.Example ]})
               [text_paragraph ["foo"]])).
Proof. vm_compute. reflexivity. Qed.

Example test_example_block_with_multiple_lines :
  Parse 100 DocumentBlock
    (lines ["===="; ".foo"; "some listing code"; "with *bold content*"; EmptyString;
            "* and a list item"; "===="])
  = Some (Returned
            (VDelimitedBlock {[ AttrBlockKind := VBlockKind types.Example ]}
               [VParagraph ∅
                  [[VStringElement ".foo"]; [VStringElement "some listing code"];
                   [VStringElement "with ";
                    VQuotedText types.Bold [VStringElement "bold content"]]];
                VBlankLine;
                VUnorderedList ∅
                  [VUnorderedListItem 1 OneAsterisk
                     [text_paragraph ["and a list item"]]]])).
Proof. vm_compute. reflexivity. Qed.

Example test_multi_line_verse_with_author_only :
  Parse 100 DocumentBlock
    (lines ["[verse, john doe, ]"; "____"; "- some "; "- verse "; "- content "; "____";
            EmptyString])
  = Some (Returned
            (VDelimitedBlock
               (<[ AttrVerseTitle := VStr EmptyString ]>
               (<[ AttrVerseAuthor := VStr "john doe" ]>
                  {[ AttrBlockKind := VBlockKind types.Verse ]}))
               [text_paragraph ["- some"; "- verse"; "- content"]])).
Proof. vm_compute. reflexivity. Qed.

Example test_mixing_literal_block_and_paragraph :
  Parse 100 Document (lines ["   some literal content"; EmptyString; "a normal paragraph."])
  = Some (Returned
            (VDocument ∅
               [VLiteralBlock "   some literal content";
                text_paragraph ["a normal paragraph."]]
               ∅)).
Proof. vm_compute. reflexivity. Qed.

Example test_xref_with_custom_id :
  let title := VSectionTitle {[ AttrID := VStr "thetitle" ]} [VStringElement "a title"] in
  Parse 100 Document
    (lines ["[[thetitle]]"; "== a title"; EmptyString;
            "with some content linked to <<thetitle>>!"])
  = Some (Returned
            (VDocument ∅
               [VSection 1 title
                  [VBlankLine;
                   VParagraph ∅
                     [[VStringElement "with some content linked to ";
                       VCrossReference "thetitle"; VStringElement "!"]]]]
               {[ "thetitle" := title ]})).
Proof. vm_compute. reflexivity. Qed.

(** ** The relation and the engine agree *)

Section Agreement.
Context {R : Type}.
Variable grammar : R -> expr R.

Abbreviation parse := (parse grammar).
Abbreviation eval := (eval grammar).
Abbreviation eval_seq := (eval_seq grammar).
Abbreviation eval_choice := (eval_choice grammar).
Abbreviation eval_many := (eval_many grammar).

Lemma p_seq_eval (ps : list parser) (es : list (expr R)) :
  Forall2 (fun p e => forall s o, p s = Some o -> eval e s o) ps es ->
  forall s o, p_seq ps s = Some o -> eval_seq es s o.
Proof.
  induction 1 as [|p e ps es Hpe _ IH]; intros s o; simpl.
  - intros [= <-]. constructor.
  - destruct (p s) as [[er r]|] eqn:Hp; [|done].
    apply Hpe in Hp.
    destruct r as [v b k rest| |m].
    + destruct (p_seq ps rest) as [[er' o']|] eqn:Hs; [|done].
      apply IH in Hs.
      intros H.
      assert (o = ((er ++ er')%list, cons_all v b k o')) as ->
        by (destruct o'; simpl in H |- *; congruence).
      by eapply ES_cons.
    + intros [= <-]. by constructor.
    + intros [= <-]. by constructor.
Qed.

Lemma p_choice_eval (ps : list parser) (es : list (expr R)) :
  Forall2 (fun p e => forall s o, p s = Some o -> eval e s o) ps es ->
  forall s o, p_choice ps s = Some o -> eval_choice es s o.
Proof.
  induction 1 as [|p e ps es Hpe _ IH]; intros s o; simpl.
  - intros [= <-]. constructor.
  - destruct (p s) as [[er r]|] eqn:Hp; [|done].
    apply Hpe in Hp.
    destruct r as [v b k rest| |m].
    + intros [= <-]. by econstructor.
    + destruct (p_choice ps s) as [[er' o']|] eqn:Hs; [|done].
      apply IH in Hs. intros [= <-]. by eapply EC_next.
    + intros [= <-]. by constructor.
Qed.

Lemma p_many_eval (p : parser) (e : expr R) :
  (forall s o, p s = Some o -> eval e s o) ->
  forall k s o, p_many k p s = Some o -> eval_many e s o.
Proof.
  intros Hpe k; induction k as [|k IH]; intros s o; [done|].
  rewrite p_many_S.
  destruct (p s) as [[er r]|] eqn:Hp; [|done].
  apply Hpe in Hp.
  destruct r as [v b c rest| |m].
  - destruct (p_many k p rest) as [[er' o']|] eqn:Hs; [|done].
    apply IH in Hs.
    intros H.
    assert (o = ((er ++ er')%list, cons_many v c o')) as ->
      by (destruct o'; simpl in H |- *; congruence).
    by eapply EM_more.
  - intros [= <-]. by constructor.
  - intros [= <-]. by constructor.
Qed.

(** Every run of the engine that ends is a derivation of the relation. *)
Lemma parse_eval n : forall e s o, parse n e s = Some o -> eval e s o.
Proof.
  induction n as [|n IH]; intros e s o; [done|].
  assert (Hall : forall es : list (expr R),
             Forall2 (fun p e => forall s o, p s = Some o -> eval e s o)
               (map (parse n) es) es).
  { induction es; constructor; auto. }
  rewrite parse_S.
  destruct e.
  - by constructor.
  - by constructor.
  - by constructor.
  - by constructor.
  - destruct (p_seq (map (parse n) es) s) as [[er o']|] eqn:H; [|done].
    apply (p_seq_eval _ _ (Hall es)) in H.
    destruct o'; intros [= <-]; by apply (E_Seq grammar _ _ _ _ H).
  - intros H. constructor. by apply (p_choice_eval _ _ (Hall es)).
  - destruct (p_many n (parse n e) s) as [[er o']|] eqn:H; [|done].
    apply (p_many_eval _ _ (IH e)) in H.
    destruct o'; intros [= <-]; by apply (E_Star grammar _ _ _ _ H).
  - destruct (p_many n (parse n e) s) as [[er o']|] eqn:H; [|done].
    apply (p_many_eval _ _ (IH e)) in H.
    destruct o' as [[|v vs] b k r| |m]; intros [= <-];
      by apply (E_Plus grammar _ _ _ _ H).
  - unfold p_opt. destruct (parse n e s) as [[er [v b k r| |m]]|] eqn:H; [| | |done];
      apply IH in H; intros [= <-]; by econstructor.
  - unfold p_and. destruct (parse n e s) as [[er [v b k r| |m]]|] eqn:H; [| | |done];
      apply IH in H; intros [= <-]; by econstructor.
  - unfold p_not. destruct (parse n e s) as [[er [v b k r| |m]]|] eqn:H; [| | |done];
      apply IH in H; intros [= <-]; by econstructor.
  - unfold p_lbl. destruct (parse n e s) as [[er [v b k r| |m]]|] eqn:H; [| | |done];
      apply IH in H; intros [= <-]; by econstructor.
  - unfold p_act. destruct (parse n e s) as [[er r]|] eqn:H; [|done].
    apply IH in H. intros H'.
    assert (o = act_out f s (er, r)) as ->; [|by constructor].
    destruct r; simpl; [|congruence..].
    destruct (f _ _); congruence.
  - unfold p_rule. destruct (parse n (grammar r) s) as [[er [v b k rest| |m]]|] eqn:H;
      [| | |done]; apply IH in H; intros [= <-]; by econstructor.
Qed.

Lemma runs_eval e s o : runs grammar e s o -> eval e s o.
Proof. intros [n H]. by eapply parse_eval. Qed.

(** Every derivation is a run of the engine, for every bound that is
    large enough. *)
Lemma eval_parse_mutual :
  (forall e s o, eval e s o ->
     exists n, forall m, (n <= m)%nat -> parse m e s = Some o) /\
  (forall es s o, eval_seq es s o ->
     exists n, forall m, (n <= m)%nat -> p_seq (map (parse m) es) s = Some o) /\
  (forall es s o, eval_choice es s o ->
     exists n, forall m, (n <= m)%nat -> p_choice (map (parse m) es) s = Some o) /\
  (forall e s o, eval_many e s o ->
     exists n, forall m k, (n <= m)%nat -> (n <= k)%nat ->
       p_many k (parse m e) s = Some o).
Proof.
  apply eval_mutind; intros.
  all: try (exists 1%nat; intros [|m0] ?; [lia|]; rewrite parse_S; done).
  all: try (destruct H as [n H]; exists (S n); intros [|m0] ?; [lia|];
            rewrite parse_S;
            first [ rewrite H by lia; done
                  | unfold p_opt, p_and, p_not, p_lbl, p_rule; rewrite H by lia; done ]).
  - (* Seq *)
    destruct H as [n H]. exists (S n). intros [|m0] ?; [lia|].
    rewrite parse_S, H by lia. by destruct o.
  - (* Star *)
    destruct H as [n H]. exists (S n). intros [|m0] ?; [lia|].
    rewrite parse_S, H by lia. by destruct o.
  - (* Plus *)
    destruct H as [n H]. exists (S n). intros [|m0] ?; [lia|].
    rewrite parse_S, H by lia. by destruct o as [[|??] ???| |?].
  - (* Act *)
    destruct H as [n H]. exists (S n). intros [|m0] ?; [lia|].
    rewrite parse_S. unfold p_act. rewrite H by lia.
    destruct o as [er [v b k r| |m']]; simpl; try done.
    by destruct (f _ _).
  - (* seq nil *) by exists 0%nat.
  - (* seq cons *)
    destruct H as [n H], H0 as [n' H']. exists (n `max` n')%nat. intros m0 ?.
    cbn [map p_seq]. rewrite H, H' by lia. by destruct o.
  - destruct H as [n H]. exists n. intros m0 ?. cbn [map p_seq]. by rewrite H.
  - destruct H as [n H]. exists n. intros m0 ?. cbn [map p_seq]. by rewrite H.
  - (* choice nil *) by exists 0%nat.
  - destruct H as [n H]. exists n. intros m0 ?. cbn [map p_choice]. by rewrite H.
  - destruct H as [n H], H0 as [n' H']. exists (n `max` n')%nat. intros m0 ?.
    cbn [map p_choice]. by rewrite H, H' by lia.
  - destruct H as [n H]. exists n. intros m0 ?. cbn [map p_choice]. by rewrite H.
  - (* many *)
    destruct H as [n H]. exists (S n). intros m0 [|k0] ??; [lia|].
    rewrite p_many_S, H by lia. done.
  - destruct H as [n H], H0 as [n' H']. exists (S (n `max` n'))%nat.
    intros m0 [|k0] ??; [lia|].
    rewrite p_many_S, H, H' by lia. by destruct o.
  - destruct H as [n H]. exists (S n). intros m0 [|k0] ??; [lia|].
    rewrite p_many_S, H by lia. done.
Qed.

Lemma eval_runs e s o : eval e s o -> runs grammar e s o.
Proof.
  intros H. destruct (proj1 eval_parse_mutual _ _ _ H) as [n Hn].
  exists n. by apply Hn.
Qed.

(** The relation is functional. *)
Lemma eval_det e s o o' : eval e s o -> eval e s o' -> o = o'.
Proof. intros H H'. eapply runs_det; by apply eval_runs. Qed.

End Agreement.

(** ** Divergence

    A run diverges exactly when the relation has no outcome for it. *)

Section Divergence.
Context {R : Type}.
Variable grammar : R -> expr R.

Abbreviation eval := (eval grammar).
Abbreviation eval_seq := (eval_seq grammar).
Abbreviation eval_choice := (eval_choice grammar).
Abbreviation eval_many := (eval_many grammar).
Abbreviation no_outcome := (no_outcome grammar).

Lemma no_outcome_diverges e s : no_outcome e s -> diverges grammar e s.
Proof.
  intros H n. destruct (parse grammar n e s) as [o|] eqn:Ho; [|done].
  by apply parse_eval, H in Ho.
Qed.

Lemma diverges_no_outcome e s : diverges grammar e s -> no_outcome e s.
Proof. intros H o Ho. apply eval_runs in Ho. by apply runs_not_diverges in Ho. Qed.

(** Two runs of one expression at one input have one outcome. *)
Ltac same_run He :=
  match goal with
  | H : _ |- _ =>
      tryif constr_eq H He then fail
      else (let E := fresh in
            pose proof (eval_det _ _ _ _ _ He H) as E; simplify_eq)
  end.

(** A repetition whose body matches without consuming input never
    ends. *)
Lemma many_stuck e s er v b k :
  eval e s (er, Matched v b k s) -> forall o, ~ eval_many e s o.
Proof.
  intros He o Ho.
  induction Ho as [e s er' Hf|e s er' v' b' k' r er'' o Hm Ho IH|e s er' m Hp].
  - by pose proof (eval_det _ _ _ _ _ He Hf).
  - pose proof (eval_det _ _ _ _ _ He Hm) as E. simplify_eq. by apply IH.
  - by pose proof (eval_det _ _ _ _ _ He Hp).
Qed.

Lemma many_later e s er v b k r :
  eval e s (er, Matched v b k r) -> (forall o, ~ eval_many e r o) ->
  forall o, ~ eval_many e s o.
Proof.
  intros He Hr o Ho. inversion Ho; subst; same_run He. by eapply Hr.
Qed.

Lemma many_here e s : no_outcome e s -> forall o, ~ eval_many e s o.
Proof. intros H o Ho. inversion Ho; subst; by eapply H. Qed.

Lemma no_outcome_star e s : (forall o, ~ eval_many e s o) -> no_outcome (Star e) s.
Proof. intros H o Ho. inversion Ho; subst. by eapply H. Qed.

Lemma no_outcome_plus e s : (forall o, ~ eval_many e s o) -> no_outcome (Plus e) s.
Proof. intros H o Ho. inversion Ho; subst. by eapply H. Qed.

Lemma seq_here e es s : no_outcome e s -> forall o, ~ eval_seq (e :: es) s o.
Proof. intros H o Ho. inversion Ho; subst; by eapply H. Qed.

Lemma seq_later e es s er v b k r :
  eval e s (er, Matched v b k r) -> (forall o, ~ eval_seq es r o) ->
  forall o, ~ eval_seq (e :: es) s o.
Proof.
  intros He Hr o Ho. inversion Ho; subst; same_run He. by eapply Hr.
Qed.

Lemma no_outcome_seq es s : (forall o, ~ eval_seq es s o) -> no_outcome (Seq es) s.
Proof. intros H o Ho. inversion Ho; subst. by eapply H. Qed.

Lemma choice_here e es s : no_outcome e s -> forall o, ~ eval_choice (e :: es) s o.
Proof. intros H o Ho. inversion Ho; subst; by eapply H. Qed.

Lemma choice_later e es s er :
  eval e s (er, Failed) -> (forall o, ~ eval_choice es s o) ->
  forall o, ~ eval_choice (e :: es) s o.
Proof.
  intros He Hr o Ho. inversion Ho; subst; try same_run He. by eapply Hr.
Qed.

Lemma no_outcome_choice es s :
  (forall o, ~ eval_choice es s o) -> no_outcome (Choice es) s.
Proof. intros H o Ho. inversion Ho; subst. by eapply H. Qed.

Lemma no_outcome_lbl l e s : no_outcome e s -> no_outcome (Lbl l e) s.
Proof. intros H o Ho. inversion Ho; subst; by eapply H. Qed.

Lemma no_outcome_act e f s : no_outcome e s -> no_outcome (Act e f) s.
Proof. intros H o Ho. inversion Ho; subst; by eapply H. Qed.

Lemma no_outcome_opt e s : no_outcome e s -> no_outcome (Opt e) s.
Proof. intros H o Ho. inversion Ho; subst; by eapply H. Qed.

Lemma no_outcome_ref r s : no_outcome (grammar r) s -> no_outcome (Ref r) s.
Proof. intros H o Ho. inversion Ho; subst; by eapply H. Qed.

End Divergence.

(** ** Tactics for runs of the grammar *)

(** A run that ends: the engine computes its outcome. *)
Ltac ev := apply runs_eval; exists 200%nat; vm_compute; reflexivity.

Ltac open_expr e :=
  eval cbv [grammar delimited section section_block section_title quoted escaped
            item_content not_any map app] in e.

Ltac open_rule :=
  lazymatch goal with
  | |- @eval _ ?g ?e ?s ?o => let e' := open_expr e in change (@eval _ g e' s o)
  | |- @no_outcome _ ?g ?e ?s => let e' := open_expr e in change (@no_outcome _ g e' s)
  end.

(** A run that does not end: the engine is followed to the repetition
    that loops. *)
Ltac diverge :=
  repeat first
    [ apply no_outcome_ref; open_rule
    | apply no_outcome_act | apply no_outcome_lbl | apply no_outcome_opt
    | apply no_outcome_seq | apply no_outcome_choice
    | apply no_outcome_star | apply no_outcome_plus
    | eapply many_stuck; ev
    | eapply many_later; [ev|]
    | apply many_here
    | eapply seq_later; [ev|]
    | apply seq_here
    | eapply choice_later; [ev|]
    | apply choice_here ].

Lemma Parse_diverges r s :
  no_outcome grammar (Ref r) s -> forall n, Parse n r s = None.
Proof.
  intros H n. unfold Parse. by rewrite (no_outcome_diverges _ _ _ H n).
Qed.

(** ** C2: not every input yields a Document *)

(** C2 (the code departs from the claim): the claim says that the
    [Document] entry point returns a Document for every input, in
    particular for an input that ends in a bare delimiter line.  On the
    input [----] no block matches (a listing block needs a newline
    after its opening delimiter, and no line of a paragraph may start
    with a delimiter), so the parse ends with the error "no match
    found". *)
Theorem C2_bare_delimiter_is_a_parse_error :
  Parse 100 Document "----" = Some (ParseError ["no match found"]).
Proof. vm_compute. reflexivity. Qed.

(** ** C5: the default [alt] of an image *)

(** C5 (the code departs from the claim): the claim says that an image
    without [alt] gets the file name without its extension, [tip] for
    [images/tip.png].  [NewImageMacro] trims with [strings.TrimRight]
    every trailing character that occurs in the extension, so the [p]
    of [tip] goes as well: the [alt] is [ti]. *)
Theorem C5_alt_of_tip_png_is_ti :
  Parse 100 DocumentBlock "image::images/tip.png[]"
  = Some (Returned
            (VBlockImage
               (VImageMacro "images/tip.png"
                  (<[ AttrImageAlt := VStr "ti" ]>
                  (<[ AttrImageWidth := VStr EmptyString ]>
                     {[ AttrImageHeight := VStr EmptyString ]})))
               ∅)).
Proof. vm_compute. reflexivity. Qed.

(** The same file name without a character of the extension at the end
    of its stem gets the stem. *)
Example alt_of_foo_png :
  NewImageMacro "images/foo.png" {[ AttrImageAlt := VStr EmptyString ]}
  = Ret (VImageMacro "images/foo.png" {[ AttrImageAlt := VStr "foo" ]}).
Proof. vm_compute. reflexivity. Qed.

(** ** C6: delimited blocks without a closing delimiter *)

Example unclosed_listing_block :
  Parse 100 DocumentBlock (lines ["----"; "End of file here."])
  = Some (Returned (VDelimitedBlock {[ AttrBlockKind := VBlockKind types.Listing ]}
                      [text_paragraph ["End of file here."]])).
Proof. vm_compute. reflexivity. Qed.

(** C6 (the code departs from the claim): the claim says that every
    delimited block without a closing delimiter ends at the end of the
    input, with the content read so far.  Fenced, listing and example
    blocks do; in a verse block the rule of a line,
    [VerseBlockLineContent EOL], matches the empty text at the end of
    the input, so the repetition [VerseBlockLine*] never ends: the
    parse of an unclosed verse block returns nothing, whatever bound is
    given to the engine. *)
Theorem C6_unclosed_verse_block_never_returns :
  forall n, Parse n DocumentBlock (lines ["____"; "End of file here"]) = None.
Proof.
  apply Parse_diverges. vm_compute lines. diverge.
Qed.

(** A comment block loops in the same way, and so does the whole
    document. *)
Lemma unclosed_comment_block_never_returns :
  forall n, Parse n Document (lines ["////"; "End of file here"]) = None.
Proof.
  apply Parse_diverges. vm_compute lines. diverge.
Qed.

(** ** C4: escaped quoted text *)

Lemma append_nil (t : string) : EmptyString ++ t = t.
Proof. reflexivity. Qed.

Lemma append_cons a (t u : string) : String a t ++ u = String a (t ++ u).
Proof. reflexivity. Qed.

Lemma append_empty_r (t : string) : t ++ EmptyString = t.
Proof. induction t as [|a t IH]; [done|]. by rewrite append_cons, IH. Qed.

Lemma str_repeat_bs_S n : str_repeat bs (S n) = String "092" (str_repeat bs n).
Proof. reflexivity. Qed.

Lemma length_str_repeat_bs n : String.length (str_repeat bs n) = n.
Proof.
  induction n as [|n IH]; [done|].
  rewrite str_repeat_bs_S. simpl. congruence.
Qed.

Lemma str_drop_repeat_bs k n : str_drop k (str_repeat bs n) = str_repeat bs (n - k).
Proof.
  revert n; induction k as [|k IH]; intros [|n]; try done.
  rewrite str_repeat_bs_S. simpl. apply IH.
Qed.

Lemma merge_text_run k :
  merge_text (replicate (S k) (VStringElement bs)) = [VStringElement (str_repeat bs (S k))].
Proof.
  induction k as [|k IH]; [done|].
  change (replicate (S (S k)) (VStringElement bs))
    with (VStringElement bs :: replicate (S k) (VStringElement bs)).
  cbn [merge_text]. by rewrite IH.
Qed.

Lemma flatten_run k :
  flatten (VList (replicate k (VBytes bs))) = replicate k (VStringElement bs).
Proof. induction k as [|k IH]; [done|]. simpl in *. by rewrite IH. Qed.

(** The text of the backslashes that the grammar hands to
    [NewEscapedQuotedText]: the first literal (one or two backslashes)
    and the backslashes of the repetition. *)
Lemma text_of_backslashes (two : bool) k :
  text_of (mergeElements [VBytes (if two then bs ++ bs else bs);
                          VList (replicate k (VBytes bs))])
  = Some (str_repeat bs ((if two then 2 else 1) + k)).
Proof.
  unfold mergeElements.
  assert (flatten (VList [VBytes (if two then bs ++ bs else bs);
                          VList (replicate k (VBytes bs))])
          = VStringElement (if two then bs ++ bs else bs)
              :: replicate k (VStringElement bs)) as ->.
  { pose proof (flatten_run k) as H. simpl in *. rewrite H. by rewrite app_nil_r. }
  destruct k as [|k].
  - destruct two; vm_compute; reflexivity.
  - cbn [merge_text]. rewrite merge_text_run. cbn [text_of].
    rewrite !append_empty_r. by destruct two.
Qed.

(** [NewEscapedQuotedText] on a run of [count] backslashes: the output
    keeps [count - len(punctuation)] of them, none when the run is not
    longer than the punctuation. *)
Lemma NewEscapedQuotedText_backslashes (two : bool) k punctuation content :
  let count := ((if two then 2 else 1) + k)%nat in
  NewEscapedQuotedText
    [VBytes (if two then bs ++ bs else bs); VList (replicate k (VBytes bs))]
    punctuation content
  = Ret (VList [VStr (str_repeat bs (count - String.length punctuation));
                VStr punctuation; VList content; VStr punctuation]).
Proof.
  intros count. unfold NewEscapedQuotedText, stringify.
  rewrite text_of_backslashes. fold count. cbn [fold_left bind].
  rewrite length_str_repeat_bs.
  destruct (Nat.ltb_spec (String.length punctuation) count) as [Hlt|Hge].
  - by rewrite str_drop_repeat_bs.
  - by replace (count - String.length punctuation)%nat with 0%nat by lia.
Qed.

(** C4, counterexample: the claim says that [\\**x**] yields the
    literal text [\**x**]; the parser yields [**x**], both backslashes
    are removed. *)
Lemma C4_two_backslashes_counterexample :
  Parse 100 InlineElements (bs ++ bs ++ "**x**")
  = Some (Returned (VInlineElements [VStringElement "**x**"]))
  /\ Parse 100 InlineElements (bs ++ bs ++ "**x**")
     <> Some (Returned (VInlineElements [VStringElement (bs ++ "**x**")])).
Proof. split; [vm_compute; reflexivity|vm_compute; discriminate]. Qed.

(** C4 (amended): parsing [\*x*] yields the literal text [*x*] and no
    QuotedText node, parsing [\\**x**] yields the literal text [**x**],
    and in general an escaped quoted text with a run of [count]
    backslashes passes [max(0, count - len(punctuation))] of them to
    the output. *)
Theorem C4_escaped_quoted_text :
  Parse 100 InlineElements (bs ++ "*x*")
  = Some (Returned (VInlineElements [VStringElement "*x*"]))
  /\ Parse 100 InlineElements (bs ++ bs ++ "**x**")
     = Some (Returned (VInlineElements [VStringElement "**x**"]))
  /\ forall (two : bool) (k : nat) (punctuation : string) (content : list value),
       let count := ((if two then 2 else 1) + k)%nat in
       NewEscapedQuotedText
         [VBytes (if two then bs ++ bs else bs); VList (replicate k (VBytes bs))]
         punctuation content
       = Ret (VList [VStr (str_repeat bs (count - String.length punctuation));
                     VStr punctuation; VList content; VStr punctuation]).
Proof.
  split; [vm_compute; reflexivity|].
  split; [vm_compute; reflexivity|].
  apply NewEscapedQuotedText_backslashes.
Qed.

(** Extra backslashes are kept: three before [*x*] leave two. *)
Example three_backslashes :
  Parse 100 InlineElements (bs ++ bs ++ bs ++ "*x*")
  = Some (Returned (VInlineElements [VStringElement (bs ++ bs ++ "*x*")])).
Proof. vm_compute. reflexivity. Qed.

(** ** From runs to the entry point *)

Lemma eval_Parse r s v b k rest :
  eval grammar (Ref r) s ([], Matched v b k rest) ->
  exists n, Parse n r s = Some (Returned v).
Proof.
  intros H. apply eval_runs in H as [n H]. exists n. unfold Parse. by rewrite H.
Qed.

Lemma eval_as {R} (g : R -> expr R) e s o o' : eval g e s o -> o = o' -> eval g e s o'.
Proof. by intros ? <-. Qed.

Lemma eval_many_env {R} (g : R -> expr R) e s er vs b k r :
  eval_many g e s (er, MatchedAll vs b k r) -> b = [].
Proof.
  inversion 1; subst; [done|].
  match goal with
  | H : cons_many _ _ ?o = _ |- _ => destruct o; simpl in H; congruence
  end.
Qed.

Lemma eval_star_inv {R} (g : R -> expr R) e s er vs b k r :
  eval g (Star e) s (er, Matched (VList vs) b k r) ->
  eval_many g e s (er, MatchedAll vs [] k r).
Proof.
  inversion 1; subst.
  match goal with
  | Hm : eval_many _ _ _ (_, ?o), Ho : star_out ?o = _ |- _ =>
      destruct o as [vs' b' k' r'| |]; simpl in Ho; simplify_eq;
      by rewrite (eval_many_env _ _ _ _ _ _ _ _ Hm) in Hm
  end.
Qed.

Lemma many_cons {R} (g : R -> expr R) e s er v b k r er' vs k' r' :
  eval g e s (er, Matched v b k r) ->
  eval_many g e r (er', MatchedAll vs [] k' r') ->
  eval_many g e s ((er ++ er')%list, MatchedAll (v :: vs) [] (k + k')%nat r').
Proof. intros H H'. exact (EM_more g _ _ _ _ _ _ _ _ _ H H'). Qed.

Lemma eval_star_intro {R} (g : R -> expr R) e s er vs k r :
  eval_many g e s (er, MatchedAll vs [] k r) ->
  eval g (Star e) s (er, Matched (VList vs) [] k r).
Proof. intros H. by apply (E_Star g _ _ _ _ H). Qed.

(** ** The document of a list of blocks without sections *)

Lemma preamble_elements_no_section bs0 acc :
  forallb (fun b => negb (is_section b)) bs0 = true ->
  preamble_elements bs0 acc = (acc ++ bs0)%list.
Proof.
  revert acc; induction bs0 as [|b bs0 IH]; intros acc; simpl.
  - by rewrite app_nil_r.
  - intros [Hb H]%andb_true_iff. destruct (is_section b); [done|].
    rewrite IH by done. by rewrite <- app_assoc.
Qed.

Lemma insertPreamble_no_section bs0 :
  forallb (fun b => negb (is_section b)) bs0 = true -> insertPreamble bs0 = bs0.
Proof.
  intros H. unfold insertPreamble.
  rewrite preamble_elements_no_section by done. simpl.
  by rewrite Nat.eqb_refl, orb_true_r.
Qed.

Lemma collect_no_section bs0 refs :
  forallb (fun b => negb (is_section b)) bs0 = true ->
  fold_left (fun refs e => collect e refs) bs0 refs = refs.
Proof.
  revert refs; induction bs0 as [|b bs0 IH]; intros refs; simpl; [done|].
  intros [Hb H]%andb_true_iff. rewrite IH by done. by destruct b.
Qed.

Lemma NewDocument_no_section bs0 :
  forallb (fun b => negb (is_section b)) bs0 = true ->
  NewDocument VNil VNil bs0 = Ret (VDocument ∅ bs0 ∅).
Proof.
  intros H. unfold NewDocument, map_put_all.
  rewrite insertPreamble_no_section by done.
  rewrite lookup_empty. rewrite collect_no_section by done.
  by rewrite (left_id_L ∅ (∪)).
Qed.

(** A document without front matter and header: its blocks, handed to
    [NewDocument]. *)
Lemma Document_of_blocks s er vs k doc :
  eval grammar (Ref FrontMatter) s ([], Failed) ->
  eval grammar (Ref DocumentHeader) s ([], Failed) ->
  eval grammar blocks s (er, Matched (VList vs) [] k EmptyString) ->
  NewDocument VNil VNil vs = Ret doc ->
  eval grammar (Ref Document) s (er, Matched doc [] k EmptyString).
Proof.
  intros Hf Hh Hb Hdoc.
  eapply E_Ref_some. open_rule. eapply eval_as.
  { eapply E_Act, E_Seq.
    eapply ES_cons; [eapply E_Lbl_some, E_Opt_none, Hf|].
    eapply ES_cons; [eapply E_Lbl_some, E_Opt_none, Hh|].
    eapply ES_cons; [eapply E_Lbl_some, Hb|].
    eapply ES_cons; [|apply ES_nil].
    apply runs_eval. exists 5%nat. vm_compute. reflexivity. }
  cbn -[NewDocument]. unfold get, env_get. cbn -[NewDocument].
  rewrite Hdoc, app_nil_r, Nat.add_0_r. reflexivity.
Qed.

(** ** C3: blank lines between blocks *)

Lemma str_repeat_nl_S N s : str_repeat nl (S N) ++ s = nl ++ str_repeat nl N ++ s.
Proof. reflexivity. Qed.

(** A blank line is one block, a BlankLine marker. *)
Lemma blank_line_block s :
  eval grammar (Choice [Ref Section; Ref DocumentBlock]) (nl ++ s)
    ([], Matched VBlankLine [] 1%nat s).
Proof. ev. Qed.

(** A run of [N] blank lines in front of any input puts [N] BlankLine
    markers in front of the blocks of that input. *)
Lemma blank_lines_blocks N s er vs k r :
  eval grammar blocks s (er, Matched (VList vs) [] k r) ->
  eval grammar blocks (str_repeat nl N ++ s)
    (er, Matched (VList (replicate N VBlankLine ++ vs)) [] (N + k)%nat r).
Proof.
  intros H. induction N as [|N IH]; [done|].
  apply eval_star_inv in IH. rewrite str_repeat_nl_S.
  apply eval_star_intro.
  exact (many_cons grammar _ _ _ _ _ _ _ _ _ _ _ (blank_line_block _) IH).
Qed.

(** A one-line paragraph in front of a blank line. *)
Lemma paragraph_a_block s :
  eval grammar (Choice [Ref Section; Ref DocumentBlock]) ("a" ++ nl ++ nl ++ s)
    ([], Matched (text_paragraph ["a"]) [] 2%nat (nl ++ s)).
Proof. ev. Qed.

Lemma no_section_blank_lines N tail :
  forallb (fun b => negb (is_section b)) tail = true ->
  forallb (fun b => negb (is_section b)) (replicate N VBlankLine ++ tail) = true.
Proof. intros H. induction N; simpl; done. Qed.

(** C3, counterexample: the claim says that a run of N blank lines
    between two blocks leaves exactly one BlankLine marker; two blank
    lines between two paragraphs leave two markers. *)
Lemma C3_two_blank_lines_counterexample :
  Parse 100 Document (lines ["a"; EmptyString; EmptyString; "b"])
  = Some (Returned (VDocument ∅
                      [text_paragraph ["a"]; VBlankLine; VBlankLine; text_paragraph ["b"]]
                      ∅)).
Proof. vm_compute. reflexivity. Qed.

(** Blank lines between two paragraphs of a document. *)
Lemma blank_lines_between_paragraphs (N : nat) :
  (1 <= N)%nat ->
  exists n,
    Parse n Document ("a" ++ nl ++ str_repeat nl N ++ "b")
    = Some (Returned
              (VDocument ∅
                 (text_paragraph ["a"] :: replicate N VBlankLine ++ [text_paragraph ["b"]])
                 ∅)).
Proof.
  intros HN. destruct N as [|N]; [lia|].
  eapply eval_Parse, Document_of_blocks.
  - rewrite str_repeat_nl_S. ev.
  - rewrite str_repeat_nl_S. ev.
  - rewrite str_repeat_nl_S. apply eval_star_intro.
    eapply (many_cons grammar _ _ _ _ _ _ _ _ _ _ _ (paragraph_a_block _)).
    apply eval_star_inv with (b := []).
    apply (blank_lines_blocks (S N) "b" [] [text_paragraph ["b"]] 1 EmptyString).
    ev.
  - apply NewDocument_no_section. simpl. by apply no_section_blank_lines.
Qed.

Lemma leading_markers_run M w vs :
  w <> VBlankLine -> leading_markers (replicate M VBlankLine ++ w :: vs) = M.
Proof.
  intros Hw. induction M as [|M IH]; simpl; [by destruct w|by rewrite IH].
Qed.

(** The markers after a block that has left [M] blank lines unread. *)
Lemma markers_after_block (M : nat) s q v b k vs k' r :
  eval grammar block s ([], Matched v b k (str_repeat nl M ++ q)) ->
  eval grammar blocks q ([], Matched (VList vs) [] k' r) ->
  eval grammar blocks s
    ([], Matched (VList (v :: replicate M VBlankLine ++ vs)) [] (k + (M + k'))%nat r).
Proof.
  intros Hv Hq. apply eval_star_intro.
  eapply (many_cons grammar _ _ [] _ _ _ _ [] _ _ _ Hv).
  apply eval_star_inv with (b := []).
  by apply blank_lines_blocks.
Qed.

(** The list item [* a] takes the blank line that follows it. *)
Lemma list_of_a_block s :
  eval grammar block ("* a" ++ nl ++ nl ++ nl ++ s)
    ([], Matched list_of_a [] 5%nat (nl ++ s)).
Proof. ev. Qed.

(** The literal block [ a] takes the blank line that follows it. *)
Lemma literal_a_block s :
  eval grammar block (" a" ++ nl ++ nl ++ s) ([], Matched (VLiteralBlock " a") [] 4%nat s).
Proof. ev. Qed.

(** C3 (amended): between two blocks separated by a run of blank
    lines there is one BlankLine marker for each blank line of the run
    that the rule of the first block has not read itself.  When the
    block [v] is read up to [M] blank lines and the blocks of the text
    [q] after them are [w :: vs], [w] not a marker, the blocks are [v],
    exactly [M] markers, and [w :: vs].  The rule of a paragraph reads
    no blank line: after the paragraph [a] and [N] blank lines come [N]
    markers.  The rules of a list item and of a literal block read the
    blank line that follows the block: after the list item [* a] and
    [N + 1] blank lines, as after the literal block [ a] and [N + 1]
    blank lines, come [N] markers. *)
Theorem C3_one_marker_per_blank_line :
  (forall (M : nat) s q v b k w vs k' r,
      eval grammar block s ([], Matched v b k (str_repeat nl M ++ q)) ->
      eval grammar blocks q ([], Matched (VList (w :: vs)) [] k' r) ->
      w <> VBlankLine ->
      eval grammar blocks s
        ([], Matched (VList (v :: replicate M VBlankLine ++ w :: vs)) []
               (k + (M + k'))%nat r)
      /\ leading_markers (replicate M VBlankLine ++ w :: vs) = M)
  /\ (forall (N : nat) q vs k' r,
        (1 <= N)%nat ->
        eval grammar blocks q ([], Matched (VList vs) [] k' r) ->
        eval grammar blocks ("a" ++ nl ++ str_repeat nl N ++ q)
          ([], Matched (VList (text_paragraph ["a"] :: replicate N VBlankLine ++ vs)) []
                 (2 + (N + k'))%nat r))
  /\ (forall (N : nat) q vs k' r,
        (1 <= N)%nat ->
        eval grammar blocks q ([], Matched (VList vs) [] k' r) ->
        eval grammar blocks ("* a" ++ nl ++ str_repeat nl (S N) ++ q)
          ([], Matched (VList (list_of_a :: replicate N VBlankLine ++ vs)) []
                 (5 + (N + k'))%nat r))
  /\ (forall (N : nat) q vs k' r,
        eval grammar blocks q ([], Matched (VList vs) [] k' r) ->
        eval grammar blocks (" a" ++ nl ++ str_repeat nl (S N) ++ q)
          ([], Matched (VList (VLiteralBlock " a" :: replicate N VBlankLine ++ vs)) []
                 (4 + (N + k'))%nat r)).
Proof.
  split; [|split; [|split]].
  - intros M s q v b k w vs k' r Hv Hq Hw. split.
    + by eapply markers_after_block.
    + by apply leading_markers_run.
  - intros N q vs k' r HN Hq. destruct N as [|N]; [lia|].
    eapply (markers_after_block (S N)); [|exact Hq].
    rewrite str_repeat_nl_S. apply paragraph_a_block.
  - intros N q vs k' r HN Hq. destruct N as [|N]; [lia|].
    eapply (markers_after_block (S N)); [|exact Hq].
    rewrite !str_repeat_nl_S. apply list_of_a_block.
  - intros N q vs k' r Hq.
    eapply (markers_after_block N); [|exact Hq].
    rewrite str_repeat_nl_S. apply literal_a_block.
Qed.

Lemma C3_witness :
  (eval grammar blocks ("a" ++ nl ++ str_repeat nl 3 ++ "b")
     ([], Matched (VList (text_paragraph ["a"] :: replicate 3 VBlankLine
                            ++ [text_paragraph ["b"]])) [] (2 + (3 + 1))%nat EmptyString)
   /\ leading_markers (replicate 3 VBlankLine ++ [text_paragraph ["b"]]) = 3%nat)
  /\ eval grammar blocks ("* a" ++ nl ++ str_repeat nl 3 ++ "b")
       ([], Matched (VList (list_of_a :: replicate 2 VBlankLine
                              ++ [text_paragraph ["b"]])) [] (5 + (2 + 1))%nat EmptyString)
  /\ eval grammar blocks (" a" ++ nl ++ str_repeat nl 3 ++ "b")
       ([], Matched (VList (VLiteralBlock " a" :: replicate 2 VBlankLine
                              ++ [text_paragraph ["b"]])) [] (4 + (2 + 1))%nat EmptyString).
Proof.
  destruct C3_one_marker_per_blank_line as (H1 & H2 & H3 & H4).
  assert (Hb : eval grammar blocks "b"
                 ([], Matched (VList [text_paragraph ["b"]]) [] 1%nat EmptyString)) by ev.
  split; [|split].
  - apply (H1 3%nat ("a" ++ nl ++ str_repeat nl 3 ++ "b") "b" _ [] 2%nat _ [] 1%nat).
    + ev.
    + exact Hb.
    + discriminate.
  - apply (H3 2%nat "b" _ 1%nat); [lia|exact Hb].
  - apply (H4 2%nat "b" _ 1%nat). exact Hb.
Defined.

(** One blank line after a list item or a literal block leaves no
    marker at all. *)
Example no_marker_after_a_list_item :
  Parse 100 Document (lines ["* a"; EmptyString; "b"])
  = Some (Returned (VDocument ∅ [list_of_a; text_paragraph ["b"]] ∅)).
Proof. vm_compute. reflexivity. Qed.

Example no_marker_after_a_literal_block :
  Parse 100 Document (lines [" a"; EmptyString; "b"])
  = Some (Returned (VDocument ∅ [VLiteralBlock " a"; text_paragraph ["b"]] ∅)).
Proof. vm_compute. reflexivity. Qed.

(** ** Building runs without errors

    The rules of the relation for runs that record no error, stated
    with the result of each step in the open. *)

Section Build.
Context {R : Type}.
Variable g : R -> expr R.

Lemma seq_nil s : eval_seq g [] s ([], MatchedAll [] [] 0%nat s).
Proof. constructor. Qed.

Lemma seq_cons e es s v b k r vs b' k' r' :
  eval g e s ([], Matched v b k r) ->
  eval_seq g es r ([], MatchedAll vs b' k' r') ->
  eval_seq g (e :: es) s ([], MatchedAll (v :: vs) (b ++ b')%list (k + k')%nat r').
Proof. intros H H'. exact (ES_cons g _ _ _ _ _ _ _ _ _ _ H H'). Qed.

Lemma seq_fail_later e es s v b k r :
  eval g e s ([], Matched v b k r) ->
  eval_seq g es r ([], FailedAll) ->
  eval_seq g (e :: es) s ([], FailedAll).
Proof. intros H H'. exact (ES_cons g _ _ _ _ _ _ _ _ _ _ H H'). Qed.

Lemma seq_matched es s vs b k r :
  eval_seq g es s ([], MatchedAll vs b k r) ->
  eval g (Seq es) s ([], Matched (VList vs) b k r).
Proof. intros H. exact (E_Seq g _ _ _ _ H). Qed.

Lemma seq_failed es s :
  eval_seq g es s ([], FailedAll) -> eval g (Seq es) s ([], Failed).
Proof. intros H. exact (E_Seq g _ _ _ _ H). Qed.

Lemma choice_first e es s v b k r :
  eval g e s ([], Matched v b k r) ->
  eval_choice g (e :: es) s ([], Matched v [] k r).
Proof. apply EC_first. Qed.

Lemma choice_next e es s o :
  eval g e s ([], Failed) -> eval_choice g es s ([], o) ->
  eval_choice g (e :: es) s ([], o).
Proof. intros H H'. exact (EC_next g _ _ _ _ _ _ H H'). Qed.

Lemma many_done e s :
  eval g e s ([], Failed) -> eval_many g e s ([], MatchedAll [] [] 0%nat s).
Proof. apply EM_done. Qed.

Lemma many_more e s v b k r vs k' r' :
  eval g e s ([], Matched v b k r) ->
  eval_many g e r ([], MatchedAll vs [] k' r') ->
  eval_many g e s ([], MatchedAll (v :: vs) [] (k + k')%nat r').
Proof. intros H H'. exact (EM_more g _ _ _ _ _ _ _ _ _ H H'). Qed.

Lemma star_matched e s vs k r :
  eval_many g e s ([], MatchedAll vs [] k r) ->
  eval g (Star e) s ([], Matched (VList vs) [] k r).
Proof. intros H. exact (E_Star g _ _ _ _ H). Qed.

Lemma plus_matched e s v vs k r :
  eval_many g e s ([], MatchedAll (v :: vs) [] k r) ->
  eval g (Plus e) s ([], Matched (VList (v :: vs)) [] k r).
Proof. intros H. exact (E_Plus g _ _ _ _ H). Qed.

Lemma plus_failed e s :
  eval g e s ([], Failed) -> eval g (Plus e) s ([], Failed).
Proof. intros H. exact (E_Plus g _ _ _ _ (EM_done g _ _ _ H)). Qed.

Lemma act_ret e f s v b k r v' :
  eval g e s ([], Matched v b k r) ->
  f (sliceFrom s k) b = Ret v' ->
  eval g (Act e f) s ([], Matched v' b k r).
Proof.
  intros H Hf. eapply eval_as; [exact (E_Act g _ _ _ _ H)|].
  simpl. by rewrite Hf.
Qed.

Lemma act_failed e f s :
  eval g e s ([], Failed) -> eval g (Act e f) s ([], Failed).
Proof. intros H. exact (E_Act g _ _ _ _ H). Qed.

End Build.

(** ** Bytes of a string *)

Lemma str_take_app (t u : string) : str_take (String.length t) (t ++ u) = t.
Proof.
  induction t as [|a t IH]; [by destruct u|].
  rewrite append_cons. simpl. by rewrite IH.
Qed.

Lemma append_assoc (t u w : string) : (t ++ u) ++ w = t ++ u ++ w.
Proof. induction t as [|a t IH]; [done|]. by rewrite !append_cons, IH. Qed.

(** A literal without the byte [c] that is not found in [t] is not
    found in [t] followed by [c]. *)
Lemma strip_prefix_app_None (p t u : string) c :
  Go.contains_byte c p = false ->
  strip_prefix p t = None ->
  strip_prefix p (t ++ String c u) = None.
Proof.
  revert t; induction p as [|a p IH]; intros t Hc; [done|].
  simpl in Hc. apply orb_false_iff in Hc as [Hac Hc].
  destruct t as [|b t].
  - intros _. rewrite append_nil. simpl. by rewrite Hac.
  - rewrite append_cons. simpl. destruct (Ascii.eqb a b); [|done]. by apply IH.
Qed.

(** ** C10: the lines of a verse block *)

Lemma EOL_fails a t :
  is_newline a = false -> eval grammar (Ref EOL) (String a t) ([], Failed).
Proof.
  destruct a as [[] [] [] [] [] [] [] []]; intros H; try discriminate H; ev.
Qed.

Lemma VerseBlockDelimiter_fails t :
  strip_prefix "____" t = None ->
  eval grammar (Ref VerseBlockDelimiter) t ([], Failed).
Proof.
  intros H. apply E_Ref_none. open_rule. apply E_Lit. unfold p_lit. by rewrite H.
Qed.

Lemma verse_content_byte a t :
  is_newline a = false ->
  strip_prefix "____" (String a t) = None ->
  eval grammar (Seq [Not (Ref VerseBlockDelimiter); Not (Ref EOL); Any]) (String a t)
    ([], Matched (content_byte a) [] 1%nat t).
Proof.
  intros Ha Hd. apply seq_matched.
  apply (seq_cons grammar _ _ _ VNil [] 0%nat (String a t));
    [by apply E_Not_none, VerseBlockDelimiter_fails|].
  apply (seq_cons grammar _ _ _ VNil [] 0%nat (String a t));
    [by apply E_Not_none, EOL_fails|].
  apply (seq_cons grammar _ _ _ (VBytes (String a EmptyString)) [] 1%nat t);
    [by apply E_Any|].
  apply seq_nil.
Qed.

Lemma verse_content_many l s :
  verse_line l = true ->
  eval_many grammar (Seq [Not (Ref VerseBlockDelimiter); Not (Ref EOL); Any])
    (l ++ nl ++ s)
    ([], MatchedAll (map content_byte (bytes_of l)) [] (String.length l) (nl ++ s)).
Proof.
  induction l as [|a l IH]; intros Hl.
  - rewrite append_nil. apply many_done. ev.
  - apply andb_true_iff in Hl as [Hn Ho]. simpl in Hn.
    apply andb_true_iff in Hn as [Ha Hn]. apply negb_true_iff in Ha, Ho.
    cbn [occurs] in Ho. apply orb_false_iff in Ho as [Hp Ho].
    rewrite append_cons.
    apply (many_more grammar _ _ (content_byte a) [] 1%nat (l ++ nl ++ s)).
    + apply verse_content_byte; [done|].
      unfold has_prefix in Hp.
      destruct (strip_prefix "____" (String a l)) eqn:E; [done|].
      pose proof (strip_prefix_app_None "____" (String a l) s "010" eq_refl E) as H.
      by rewrite append_cons in H.
    + apply IH. unfold verse_line. by rewrite Hn, Ho.
Qed.

Lemma mergeElements_text t :
  mergeElements [VStr t] = if is_empty t then [] else [VStringElement t].
Proof. unfold mergeElements. simpl. by destruct t. Qed.

Lemma VerseBlockLine_line l s :
  verse_line l = true ->
  eval grammar (Ref VerseBlockLine) (l ++ nl ++ s)
    ([], Matched (VInlineElements (stored_line l)) [] (String.length l + 1)%nat s).
Proof.
  intros Hl. eapply E_Ref_some. open_rule.
  eapply act_ret.
  - apply seq_matched.
    eapply (seq_cons grammar _ _ _ _ _ (String.length l) (nl ++ s)).
    + eapply E_Lbl_some. eapply E_Ref_some. open_rule.
      eapply act_ret.
      * eapply E_Lbl_some, star_matched, verse_content_many, Hl.
      * unfold sliceFrom. rewrite str_take_app. unfold NewInlineElements.
        rewrite mergeElements_text. reflexivity.
    + eapply (seq_cons grammar _ _ _ _ _ 1%nat s); [ev|apply seq_nil].
  - reflexivity.
Qed.

Lemma verse_lines_app l rest (t : string) :
  verse_lines (l :: rest) ++ t = l ++ nl ++ (verse_lines rest ++ t).
Proof. cbn [verse_lines]. by rewrite !append_assoc. Qed.

Lemma VerseBlockLine_many ls :
  forallb verse_line ls = true ->
  exists k,
    eval_many grammar (Ref VerseBlockLine) (verse_lines ls ++ "____")
      ([], MatchedAll (map (fun l => VInlineElements (stored_line l)) ls) [] k "____").
Proof.
  induction ls as [|l ls IH]; intros H.
  - exists 0%nat. apply many_done. ev.
  - simpl in H. apply andb_true_iff in H as [Hl H].
    destruct (IH H) as [k Hk].
    exists (String.length l + 1 + k)%nat. rewrite verse_lines_app.
    exact (many_more grammar _ _ _ _ _ _ _ _ _ (VerseBlockLine_line l _ Hl) Hk).
Qed.

Lemma inline_lines_map (xs : list (list value)) :
  inline_lines (map VInlineElements xs) = xs.
Proof. induction xs as [|x xs IH]; [done|]. simpl. by rewrite IH. Qed.

Lemma VerseBlockParagraph_lines ls :
  forallb verse_line ls = true ->
  exists k,
    eval grammar (Ref VerseBlockParagraph) (verse_lines ls ++ "____")
      ([], Matched (VParagraph ∅ (map stored_line ls)) [] k "____").
Proof.
  intros H. destruct (VerseBlockLine_many ls H) as [k Hk]. exists k.
  eapply E_Ref_some. open_rule.
  eapply act_ret; [eapply E_Lbl_some, star_matched, Hk|].
  cbn -[stored_line]. unfold get, env_get. cbn -[stored_line].
  unfold NewParagraph.
  rewrite <- (map_map stored_line VInlineElements), inline_lines_map.
  reflexivity.
Qed.

(** A verse block of the lines [ls], closed by its delimiter. *)
Lemma VerseBlock_lines ls :
  forallb verse_line ls = true ->
  exists k,
    eval grammar (Ref VerseBlock) ("____" ++ nl ++ verse_lines ls ++ "____")
      ([], Matched (VDelimitedBlock {[ AttrBlockKind := VBlockKind types.Verse ]}
                      [VParagraph ∅ (map stored_line ls)])
             [] k EmptyString).
Proof.
  intros H. destruct (VerseBlockParagraph_lines ls H) as [k Hk].
  eexists. eapply E_Ref_some. open_rule.
  eapply act_ret.
  - apply seq_matched.
    eapply seq_cons; [ev|].
    eapply seq_cons; [ev|].
    eapply seq_cons; [ev|].
    eapply seq_cons; [ev|].
    eapply seq_cons; [eapply E_Lbl_some, Hk|].
    eapply seq_cons; [ev|apply seq_nil].
  - cbn -[stored_line]. unfold get, env_get. cbn -[stored_line]. reflexivity.
Qed.

(** *** What [strings.TrimSpace] leaves of a text *)

Lemma str_rev_onto_app s acc : str_rev_onto s acc = str_rev s ++ acc.
Proof.
  unfold str_rev. revert acc. induction s as [|a s IH]; intros acc; [done|]. simpl.
  rewrite IH, (IH (String a EmptyString)). by rewrite append_assoc.
Qed.

Lemma str_rev_cons a s : str_rev (String a s) = str_rev s ++ String a EmptyString.
Proof. unfold str_rev at 1. simpl. apply str_rev_onto_app. Qed.

Lemma str_rev_app s t : str_rev (s ++ t) = str_rev t ++ str_rev s.
Proof.
  induction s as [|a s IH].
  - by rewrite append_nil, append_empty_r.
  - rewrite append_cons, !str_rev_cons, IH. by rewrite append_assoc.
Qed.

Lemma str_rev_involutive s : str_rev (str_rev s) = s.
Proof.
  induction s as [|a s IH]; [done|]. by rewrite str_rev_cons, str_rev_app, IH.
Qed.

Lemma length_append (t u : string) :
  String.length (t ++ u) = (String.length t + String.length u)%nat.
Proof. induction t as [|a t IH]; [done|]. rewrite append_cons. simpl. by rewrite IH. Qed.

Lemma str_rev_length s : String.length (str_rev s) = String.length s.
Proof.
  induction s as [|a s IH]; [done|]. rewrite str_rev_cons, length_append, IH. simpl. lia.
Qed.

Lemma strip_prefix_Some p s t : strip_prefix p s = Some t -> s = p ++ t.
Proof.
  revert s. induction p as [|a p IH]; intros s H; simpl in H.
  - by simplify_eq.
  - destruct s as [|b s]; [done|]. destruct (Ascii.eqb a b) eqn:E; [|done].
    apply Ascii.eqb_eq in E as ->. rewrite append_cons. f_equal. by apply IH.
Qed.

Lemma strip_prefix_app p t : strip_prefix p (p ++ t) = Some t.
Proof.
  induction p as [|a p IH]; [done|]. rewrite append_cons. simpl.
  by rewrite Ascii.eqb_refl.
Qed.

Lemma strip_any_Some rs s t :
  Go.strip_any rs s = Some t -> exists r, In r rs /\ s = r ++ t.
Proof.
  induction rs as [|r rs IH]; [done|]. simpl.
  destruct (strip_prefix r s) as [u|] eqn:E.
  - intros [= ->]. exists r. split; [by left|]. by apply strip_prefix_Some.
  - intros (r' & Hr & ->)%IH. exists r'. split; [by right|done].
Qed.

Lemma strip_any_None rs s r t :
  Go.strip_any rs s = None -> In r rs -> s <> r ++ t.
Proof.
  induction rs as [|r' rs IH]; [done|]. simpl.
  destruct (strip_prefix r' s) as [u|] eqn:E; [done|].
  intros H [->|Hr] ->.
  - by rewrite strip_prefix_app in E.
  - by eapply IH.
Qed.

Lemma strip_any_empty rs :
  Forall (fun r => r <> EmptyString) rs -> Go.strip_any rs EmptyString = None.
Proof.
  induction rs as [|r rs IH]; [done|]. intros [Hr Hrs]%Forall_cons. simpl.
  destruct r as [|a r]; [done|]. simpl. by apply IH.
Qed.

(** The runes that [trim_left_runes] removes, and where it stops. *)
Lemma trim_left_runes_spec rs n : forall s,
  Forall (fun r => r <> EmptyString) rs ->
  (String.length s <= n)%nat ->
  exists pre : list string,
    Forall (fun r => In r rs) pre
    /\ s = fold_right append EmptyString pre ++ Go.trim_left_runes n rs s
    /\ Go.strip_any rs (Go.trim_left_runes n rs s) = None.
Proof.
  intros s Hne. revert s. induction n as [|n IH]; intros s Hn.
  - destruct s; [|simpl in Hn; lia]. exists []. split; [constructor|]. split; [done|].
    by apply strip_any_empty.
  - simpl. destruct (Go.strip_any rs s) as [s'|] eqn:E.
    + apply strip_any_Some in E as (r & Hr & ->).
      assert (r <> EmptyString) as Hr'.
      { rewrite List.Forall_forall in Hne. by apply Hne. }
      destruct (IH s') as (pre & Hpre & Hs & Hstop).
      { rewrite length_append in Hn. destruct r; [done|]. simpl in Hn. lia. }
      exists (r :: pre). split; [by constructor|]. split; [|done].
      simpl. rewrite append_assoc. by rewrite <- Hs.
    + exists []. split; [constructor|]. by split.
Qed.

Lemma concat_snoc (l : list string) x :
  fold_right append EmptyString (l ++ [x])%list = fold_right append EmptyString l ++ x.
Proof.
  induction l as [|y l IH]; simpl; [by rewrite append_empty_r|].
  by rewrite IH, append_assoc.
Qed.

Lemma str_rev_concat (l : list string) :
  str_rev (fold_right append EmptyString l)
  = fold_right append EmptyString (rev (map str_rev l)).
Proof.
  induction l as [|x l IH]; [done|]. simpl.
  by rewrite str_rev_app, IH, concat_snoc.
Qed.

Lemma space_runes_not_empty : Forall (fun r => r <> EmptyString) Go.space_runes.
Proof. repeat constructor; discriminate. Qed.

(** [strings.TrimSpace] removes the white space around a text, and
    nothing else. *)
Lemma TrimSpace_trimmed l : trimmed l (Go.TrimSpace l).
Proof.
  unfold Go.TrimSpace, Go.trim_right_runes.
  destruct (trim_left_runes_spec Go.space_runes (String.length l) l)
    as (pre & Hpre & Hl & Hstop); [exact space_runes_not_empty|done|].
  set (t := Go.trim_left_runes (String.length l) Go.space_runes l) in *.
  destruct (trim_left_runes_spec (map str_rev Go.space_runes)
              (String.length t) (str_rev t))
    as (post & Hpost & Ht & Hstop').
  { apply List.Forall_forall. intros r (r' & <- & Hr')%in_map_iff.
    pose proof space_runes_not_empty as H. rewrite List.Forall_forall in H.
    specialize (H r' Hr'). intros E. apply H.
    rewrite <- (str_rev_involutive r'), E. done. }
  { by rewrite str_rev_length. }
  set (u := Go.trim_left_runes (String.length t) (map str_rev Go.space_runes) (str_rev t))
    in *.
  apply (f_equal str_rev) in Ht.
  rewrite str_rev_involutive, str_rev_app, str_rev_concat in Ht.
  split; [|split].
  - exists (fold_right append EmptyString pre),
           (fold_right append EmptyString (rev (map str_rev post))).
    split; [by rewrite <- Ht|]. split.
    + exists pre. split; [|done]. exact Hpre.
    + eexists. split; [|done]. apply List.Forall_forall.
      intros r Hr. apply in_rev in Hr.
      apply in_map_iff in Hr as (r' & <- & Hr').
      rewrite List.Forall_forall in Hpost. apply Hpost in Hr'.
      apply in_map_iff in Hr' as (r'' & <- & Hr''). by rewrite str_rev_involutive.
  - intros (r & x & Hr & Hx).
    apply (strip_any_None _ _ r (x ++ fold_right append EmptyString (rev (map str_rev post)))
             Hstop Hr).
    by rewrite Ht, Hx, append_assoc.
  - intros (r & x & Hr & Hx).
    apply (strip_any_None _ _ (str_rev r) (str_rev x) Hstop').
    + apply in_map_iff. by exists r.
    + rewrite <- str_rev_app, <- Hx. by rewrite str_rev_involutive.
Qed.

Lemma stored_line_trimmed l : stored_line l = line_of (Go.TrimSpace l).
Proof. reflexivity. Qed.

(** C10: inside a verse block (delimited by [____]) every content line
    is stored without its leading and trailing white space: the
    paragraph of the block holds, for each line [l], a text [c] such
    that [l] is [c] between two runs of white space, and [c] neither
    starts nor ends with a white space character. *)
Theorem C10_verse_lines_are_trimmed (ls : list string) :
  forallb verse_line ls = true ->
  exists n cs,
    Parse n DocumentBlock ("____" ++ nl ++ verse_lines ls ++ "____")
    = Some (Returned
              (VDelimitedBlock {[ AttrBlockKind := VBlockKind types.Verse ]}
                 [VParagraph ∅ (map line_of cs)]))
    /\ Forall2 trimmed ls cs.
Proof.
  intros H. destruct (VerseBlock_lines ls H) as [k Hk].
  assert (exists n,
             Parse n DocumentBlock ("____" ++ nl ++ verse_lines ls ++ "____")
             = Some (Returned
                       (VDelimitedBlock {[ AttrBlockKind := VBlockKind types.Verse ]}
                          [VParagraph ∅ (map stored_line ls)]))) as [n Hn].
  { eapply eval_Parse. eapply E_Ref_some. open_rule.
    eapply act_ret.
    - apply seq_matched.
      eapply seq_cons; [ev|].
      eapply seq_cons; [|apply seq_nil].
      eapply E_Lbl_some, E_Choice.
      do 7 (apply choice_next; [ev|]).
      eapply choice_first, E_Ref_some. open_rule. apply E_Choice.
      do 4 (apply choice_next; [ev|]).
      eapply choice_first, Hk.
    - reflexivity. }
  exists n, (map Go.TrimSpace ls). split.
  - rewrite Hn. do 4 f_equal. rewrite map_map. reflexivity.
  - clear. induction ls as [|l ls IH]; constructor; [apply TrimSpace_trimmed|exact IH].
Qed.

Lemma C10_witness :
  forallb verse_line ["- some "; "- verse "] = true /\
  exists n cs,
    Parse n DocumentBlock ("____" ++ nl ++ verse_lines ["- some "; "- verse "] ++ "____")
    = Some (Returned
              (VDelimitedBlock {[ AttrBlockKind := VBlockKind types.Verse ]}
                 [VParagraph ∅ (map line_of cs)]))
    /\ Forall2 trimmed ["- some "; "- verse "] cs.
Proof.
  split; [reflexivity|].
  apply (C10_verse_lines_are_trimmed ["- some "; "- verse "]). reflexivity.
Defined.

(** The lines [- some ] and [- verse ] of the test of the repository:
    they are stored as [- some] and [- verse]. *)
Example verse_of_the_test :
  Parse 200 DocumentBlock ("____" ++ nl ++ verse_lines ["- some "; "- verse "] ++ "____")
  = Some (Returned
            (VDelimitedBlock {[ AttrBlockKind := VBlockKind types.Verse ]}
               [VParagraph ∅ [[VStringElement "- some"]; [VStringElement "- verse"]]])).
Proof. vm_compute. reflexivity. Qed.

(** The table of [strings.TrimSpace] holds the white space
    characters of Unicode: U+0009 to U+000D, U+0020, U+0085, U+00A0,
    U+1680, U+2000 to U+200A, U+2028, U+2029, U+202F, U+205F and
    U+3000. *)
Example space_runes_decoded :
  map Go.DecodeRuneInString Go.space_runes
  = (map (fun c => (c, 1%nat)) [9; 10; 11; 12; 13; 32]
     ++ map (fun c => (c, 2%nat)) [133; 160]
     ++ map (fun c => (c, 3%nat))
          [5760; 8192; 8193; 8194; 8195; 8196; 8197; 8198; 8199; 8200; 8201; 8202;
           8232; 8233; 8239; 8287; 12288])%list.
Proof. reflexivity. Qed.

(** ** C9: where a paragraph ends *)

Lemma is_blank_inv a : is_blank a = true -> a = " "%char \/ a = "009"%char.
Proof.
  destruct a as [[] [] [] [] [] [] [] []]; intros H; try discriminate H; auto.
Qed.

Lemma line_end_inv t :
  line_end t = true -> t = EmptyString \/ exists t', t = String "010" t'.
Proof.
  destruct t as [|a t']; [auto|]. simpl. intros H.
  apply Ascii.eqb_eq in H as ->. eauto.
Qed.

Lemma WS_blank a t :
  is_blank a = true ->
  eval grammar (Ref WS) (String a t) ([], Matched (blank_value a) [] 1%nat t).
Proof. intros [-> | ->]%is_blank_inv; ev. Qed.

Lemma WS_fails a t :
  is_blank a = false -> eval grammar (Ref WS) (String a t) ([], Failed).
Proof.
  destruct a as [[] [] [] [] [] [] [] []]; intros H; try discriminate H; ev.
Qed.

Lemma NEWLINE_fails a t :
  is_newline a = false -> eval grammar (Ref NEWLINE) (String a t) ([], Failed).
Proof.
  destruct a as [[] [] [] [] [] [] [] []]; intros H; try discriminate H; ev.
Qed.

Lemma WS_many ws t :
  all_bytes is_blank ws = true ->
  eval grammar (Ref WS) t ([], Failed) ->
  eval_many grammar (Ref WS) (ws ++ t)
    ([], MatchedAll (map blank_value (bytes_of ws)) [] (String.length ws) t).
Proof.
  intros Hws Ht. induction ws as [|a ws IH].
  - rewrite append_nil. by apply many_done.
  - simpl in Hws. apply andb_true_iff in Hws as [Ha Hws].
    rewrite append_cons.
    exact (many_more grammar _ _ _ _ _ _ _ _ _ (WS_blank a _ Ha) (IH Hws)).
Qed.

Lemma WS_fails_at_line_end t :
  line_end t = true -> eval grammar (Ref WS) t ([], Failed).
Proof. intros [-> | [t' ->]]%line_end_inv; ev. Qed.

Lemma InlineElementID_fails_at_line_end t :
  line_end t = true -> eval grammar (Ref InlineElementID) t ([], Failed).
Proof. intros [-> | [t' ->]]%line_end_inv; ev. Qed.

Lemma InlineElement_fails_at_line_end t :
  line_end t = true -> eval grammar (Ref InlineElement) t ([], Failed).
Proof. intros [-> | [t' ->]]%line_end_inv; ev. Qed.

Lemma InlineElements_fails_at_line_end t :
  line_end t = true -> eval grammar (Ref InlineElements) t ([], Failed).
Proof. intros [-> | [t' ->]]%line_end_inv; ev. Qed.

Lemma blank_not_newline a : is_blank a = true -> is_newline a = false.
Proof. by intros [-> | ->]%is_blank_inv. Qed.

(** A blank line (white space up to the end of the line) is not a line
    of a paragraph. *)
Lemma InlineElements_fails_on_blank_line ws t :
  all_bytes is_blank ws = true -> line_end t = true ->
  eval grammar (Ref InlineElements) (ws ++ t) ([], Failed).
Proof.
  intros Hws Ht. destruct ws as [|a ws].
  { rewrite append_nil. by apply InlineElements_fails_at_line_end. }
  pose proof (WS_many _ _ Hws (WS_fails_at_line_end _ Ht)) as Hmany.
  simpl in Hws. apply andb_true_iff in Hws as [Ha Hws].
  rewrite append_cons in *.
  apply E_Ref_none. open_rule. apply E_Choice.
  apply choice_next.
  { apply is_blank_inv in Ha as [-> | ->]; ev. }
  apply choice_next; [|apply EC_nil].
  apply act_failed, seq_failed.
  eapply seq_fail_later.
  { apply is_blank_inv in Ha as [-> | ->]; ev. }
  eapply seq_fail_later.
  { apply is_blank_inv in Ha as [-> | ->]; ev. }
  apply ES_fail, E_Lbl_none, plus_failed, seq_failed.
  eapply seq_fail_later; [apply E_Not_none, EOL_fails, blank_not_newline, Ha|].
  eapply seq_fail_later; [apply star_matched, Hmany|].
  eapply seq_fail_later;
    [apply E_Not_none, InlineElementID_fails_at_line_end, Ht|].
  apply ES_fail, InlineElement_fails_at_line_end, Ht.
Qed.

(** A line that starts with a block delimiter is not a line of a
    paragraph. *)
Lemma InlineElements_fails_on_delimiter d s :
  In d block_delimiters -> eval grammar (Ref InlineElements) (d ++ s) ([], Failed).
Proof.
  intros Hd. repeat (destruct Hd as [<-|Hd]; [ev|]). destruct Hd.
Qed.

Lemma WS_fails_at_text_start t :
  text_start t = true -> eval grammar (Ref WS) t ([], Failed).
Proof.
  destruct t as [|a t]; [intros _; ev|]. simpl.
  intros [Hb _]%andb_true_iff. by apply WS_fails, negb_true_iff.
Qed.

Lemma NEWLINE_fails_at_text_start t :
  text_start t = true -> eval grammar (Ref NEWLINE) t ([], Failed).
Proof.
  destruct t as [|a t]; [intros _; ev|]. simpl.
  intros [_ Hn]%andb_true_iff. by apply NEWLINE_fails, negb_true_iff.
Qed.

Lemma str_repeat_S (t : string) n : str_repeat t (S n) = t ++ str_repeat t n.
Proof. reflexivity. Qed.

Lemma equals_many n a t :
  is_blank a = true ->
  eval_many grammar (Lit "=") (str_repeat "=" n ++ String a t)
    ([], MatchedAll (replicate n (VBytes "=")) [] n (String a t)).
Proof.
  intros Ha. induction n as [|n IH].
  - rewrite append_nil. apply many_done.
    apply is_blank_inv in Ha as [-> | ->]; ev.
  - rewrite str_repeat_S, append_assoc, append_cons, append_nil.
    refine (many_more grammar _ _ _ _ 1%nat _ _ _ _ _ IH). ev.
Qed.

(** The guard matches one or more [=], white space and the start of a
    text. *)
Lemma section_guard_matches n ws t :
  ws <> EmptyString -> all_bytes is_blank ws = true -> text_start t = true ->
  exists v k,
    eval grammar section_guard (str_repeat "=" (S n) ++ ws ++ t)
      ([], Matched v [] k t).
Proof.
  intros Hne Hws Ht. destruct ws as [|a ws]; [done|].
  pose proof (WS_many _ _ Hws (WS_fails_at_text_start _ Ht)) as Hmany.
  simpl in Hws. apply andb_true_iff in Hws as [Ha Hws].
  rewrite append_cons in *. do 2 eexists.
  apply seq_matched.
  refine (seq_cons grammar _ _ _ _ [] _ _ _ [] _ _ _ _).
  { apply plus_matched. exact (equals_many (S n) a _ Ha). }
  refine (seq_cons grammar _ _ _ _ [] _ _ _ [] _ _ _ _).
  { apply plus_matched. exact Hmany. }
  refine (seq_cons grammar _ _ _ _ [] _ _ _ [] _ _ _ (seq_nil grammar _)).
  apply E_Not_none, NEWLINE_fails_at_text_start, Ht.
Qed.

(** A paragraph does not start with a section prefix: one or more [=],
    white space and a text. *)
Lemma Paragraph_fails_on_section_prefix n ws t :
  ws <> EmptyString -> all_bytes is_blank ws = true -> text_start t = true ->
  eval grammar (Ref Paragraph) (str_repeat "=" (S n) ++ ws ++ t) ([], Failed).
Proof.
  intros Hne Hws Ht.
  destruct (section_guard_matches n ws t Hne Hws Ht) as (v & k & Hg).
  revert Hg. rewrite str_repeat_S, append_assoc, append_cons, append_nil.
  intros Hg.
  apply E_Ref_none. open_rule. apply E_Choice.
  apply choice_next.
  { apply act_failed, seq_failed.
    eapply seq_fail_later; [eapply E_Lbl_some; ev|].
    eapply ES_fail, E_Not_some, Hg. }
  apply choice_next; [|apply EC_nil].
  apply act_failed, seq_failed.
  eapply seq_fail_later; [eapply E_Lbl_some; ev|].
  eapply ES_fail, E_Not_some, Hg.
Qed.

(** C9, counterexample: the claim says that a section-prefix line that
    follows a non-blank line is never one of the lines of the
    paragraph; the line [== b] after the line [a] is the second line
    of the paragraph. *)
Lemma C9_section_line_absorbed_counterexample :
  Parse 100 Document (lines ["a"; "== b"])
  = Some (Returned (VDocument ∅ [text_paragraph ["a"; "== b"]] ∅)).
Proof. vm_compute. reflexivity. Qed.

(** C9 (amended): the lines of a paragraph end before the end of the
    input, before a blank line and before a line that starts with a
    block delimiter; a paragraph does not start with a section prefix
    (one or more [=], white space and a text); a section-prefix line
    that follows a non-blank line is one of the lines of the
    paragraph. *)
Theorem C9_where_a_paragraph_ends :
  (forall ws t, all_bytes is_blank ws = true -> line_end t = true ->
     eval grammar (Ref InlineElements) (ws ++ t) ([], Failed))
  /\ (forall d s, In d block_delimiters ->
        eval grammar (Ref InlineElements) (d ++ s) ([], Failed))
  /\ (forall n ws t,
        ws <> EmptyString -> all_bytes is_blank ws = true -> text_start t = true ->
        eval grammar (Ref Paragraph) (str_repeat "=" (S n) ++ ws ++ t) ([], Failed))
  /\ (forall s,
        eval grammar (Ref Paragraph) ("a" ++ nl ++ "== b" ++ nl ++ nl ++ s)
          ([], Matched (text_paragraph ["a"; "== b"]) [] 7%nat (nl ++ s))).
Proof.
  split; [exact InlineElements_fails_on_blank_line|].
  split; [exact InlineElements_fails_on_delimiter|].
  split; [exact Paragraph_fails_on_section_prefix|].
  intros s. ev.
Qed.

Lemma C9_witness :
  eval grammar (Ref InlineElements) ("  " ++ nl ++ "b") ([], Failed)
  /\ eval grammar (Ref InlineElements) ("----" ++ nl ++ "b") ([], Failed)
  /\ eval grammar (Ref Paragraph) (str_repeat "=" 2 ++ " " ++ "b") ([], Failed)
  /\ eval grammar (Ref Paragraph) ("a" ++ nl ++ "== b" ++ nl ++ nl ++ "c")
       ([], Matched (text_paragraph ["a"; "== b"]) [] 7%nat (nl ++ "c")).
Proof.
  destruct C9_where_a_paragraph_ends as (H1 & H2 & H3 & H4).
  split; [apply (H1 "  " (nl ++ "b")); reflexivity|].
  split; [apply (H2 "----" (nl ++ "b")); simpl; tauto|].
  split; [apply (H3 1%nat " " "b"); [discriminate|reflexivity|reflexivity]|].
  apply (H4 "c").
Defined.

(** ** Inversion of a run

    What a match of an expression says of its parts; the values of the
    rules of the delimited blocks. *)

Section Inversion.
Context {R : Type}.
Variable g : R -> expr R.

Lemma act_inv e f s er v b k r :
  eval g (Act e f) s (er, Matched v b k r) ->
  exists er0 v0,
    eval g e s (er0, Matched v0 b k r) /\
    (f (sliceFrom s k) b = Ret v \/ exists m, f (sliceFrom s k) b = RetErr v m).
Proof.
  inversion 1; subst.
  match goal with Hout : act_out _ _ ?o = _ |- _ =>
    destruct o as [er0 [v0 b0 k0 r0| |]]; simpl in Hout; try discriminate Hout;
    revert Hout end.
  destruct (f (sliceFrom s k0) b0) as [v'|v' m|m] eqn:Hf; intros Hout; simplify_eq;
    rewrite Hf; eauto 8.
Qed.

Lemma lbl_inv l e s er v b k r :
  eval g (Lbl l e) s (er, Matched v b k r) ->
  b = [(l, v)] /\ exists b0, eval g e s (er, Matched v b0 k r).
Proof. inversion 1; subst; eauto. Qed.

Lemma ref_inv x s er v b k r :
  eval g (Ref x) s (er, Matched v b k r) ->
  b = [] /\ exists b0, eval g (g x) s (er, Matched v b0 k r).
Proof. inversion 1; subst; eauto. Qed.

Lemma seq_inv es s er v b k r :
  eval g (Seq es) s (er, Matched v b k r) ->
  exists vs, v = VList vs /\ eval_seq g es s (er, MatchedAll vs b k r).
Proof.
  inversion 1; subst.
  match goal with H : all_result ?o = _ |- _ => destruct o; simplify_eq/= end. eauto.
Qed.

Lemma seq_cons_inv e es s er vs b k r :
  eval_seq g (e :: es) s (er, MatchedAll vs b k r) ->
  exists er1 v1 b1 k1 r1 er2 vs2 b2 k2,
    eval g e s (er1, Matched v1 b1 k1 r1) /\
    eval_seq g es r1 (er2, MatchedAll vs2 b2 k2 r) /\
    vs = v1 :: vs2 /\ b = (b1 ++ b2)%list.
Proof.
  inversion 1 as [|e' es' s' er1 v1 b1 k1 r1 er2 o H1 H2| |]; subst.
  destruct o; simplify_eq/=. eauto 15.
Qed.

Lemma seq_nil_inv s er vs b k r :
  eval_seq g [] s (er, MatchedAll vs b k r) -> vs = [] /\ b = [].
Proof. inversion 1; subst; eauto. Qed.

Lemma eval_choice_inv es s er v b k r :
  eval_choice g es s (er, Matched v b k r) ->
  b = [] /\ exists e er0 b0, In e es /\ eval g e s (er0, Matched v b0 k r).
Proof.
  remember (er, Matched v b k r) as o eqn:Ho. intros Hc.
  revert er Ho. induction Hc; intros er1 Ho; simplify_eq.
  - split; [done|]. eexists _, _, _. split; [by left|done].
  - destruct (IHHc _ eq_refl) as [-> (e2 & er2 & b2 & Hin & He2)].
    split; [done|]. exists e2, er2, b2. split; [by right|done].
Qed.

Lemma choice_inv es s er v b k r :
  eval g (Choice es) s (er, Matched v b k r) ->
  b = [] /\ exists e er0 b0, In e es /\ eval g e s (er0, Matched v b0 k r).
Proof. inversion 1; subst. by eapply eval_choice_inv. Qed.

Lemma star_env e s er v b k r :
  eval g (Star e) s (er, Matched v b k r) -> b = [] /\ exists vs, v = VList vs.
Proof.
  inversion 1; subst.
  match goal with H : star_out ?o = _ |- _ => destruct o; simplify_eq/= end. eauto.
Qed.

End Inversion.

(** Tactics for the parts of a sequence and the labels of an action. *)
Ltac open_rule_in H :=
  lazymatch type of H with
  | @eval _ ?g ?e ?s ?o => let e' := open_expr e in change (@eval _ g e' s o) in H
  end.

Ltac eval_get H :=
  repeat match type of H with
  | context [get ?b ?l] =>
      let v := eval cbv [get env_get env_find String.eqb Ascii.eqb Bool.eqb] in (get b l) in
      change (get b l) with v in H
  end.

Ltac seq_step H :=
  let He := fresh "He" in
  apply seq_cons_inv in H as (? & ? & ? & ? & ? & ? & ? & ? & ? & He & H & -> & ->).

Lemma VerseBlockParagraph_shape s er v b k r :
  eval grammar (Ref VerseBlockParagraph) s (er, Matched v b k r) ->
  exists lines, v = VParagraph ∅ lines.
Proof.
  intros H. apply ref_inv in H as [-> [b0 H]]. open_rule_in H.
  apply act_inv in H as (er0 & v0 & H & Hf).
  apply lbl_inv in H as [-> [b1 H]].
  apply star_env in H as [-> [vs ->]].
  simpl in Hf. unfold NewParagraph in Hf.
  destruct Hf as [Hf | [m Hf]]; simplify_eq. eauto.
Qed.

Lemma VerseBlock_shape s er v b k r :
  eval grammar (Ref VerseBlock) s (er, Matched v b k r) ->
  exists attrs lines,
    v = VDelimitedBlock attrs [VParagraph ∅ lines] /\
    block_kind v = Some (VBlockKind Verse).
Proof.
  intros H. apply ref_inv in H as [-> [b0 H]]. open_rule_in H.
  apply act_inv in H as (er0 & v0 & H & Hf).
  apply seq_inv in H as (vs & -> & H).
  do 6 seq_step H. apply seq_nil_inv in H as [-> ->].
  apply lbl_inv in He as [-> [? He]]. apply star_env in He as [_ [? ->]].
  apply ref_inv in He0 as [-> _].
  apply star_env in He1 as [-> _].
  apply ref_inv in He2 as [-> _].
  apply lbl_inv in He3 as [-> [? He3]].
  apply VerseBlockParagraph_shape in He3 as [lines ->].
  apply choice_inv in He4 as [-> _].
  simpl in Hf. eval_get Hf. unfold NewDelimitedBlock, None_, nilSafe in Hf.
  destruct Hf as [Hf | [m Hf]]; simplify_eq.
  eexists _, _. split; [done|]. apply lookup_insert_eq.
Qed.

Lemma delimited_kind d kind s er v b k r :
  eval grammar (delimited d kind) s (er, Matched v b k r) ->
  block_kind v = Some (VBlockKind kind).
Proof.
  intros H. unfold delimited in H.
  apply act_inv in H as (er0 & v0 & H & Hf).
  apply seq_inv in H as (vs & -> & H).
  do 6 seq_step H. apply seq_nil_inv in H as [-> ->].
  apply lbl_inv in He as [-> [? He]]. apply star_env in He as [_ [? ->]].
  apply ref_inv in He0 as [-> _].
  apply star_env in He1 as [-> _].
  apply ref_inv in He2 as [-> _].
  apply lbl_inv in He3 as [-> [? He3]]. apply star_env in He3 as [_ [? ->]].
  apply choice_inv in He4 as [-> _].
  simpl in Hf. eval_get Hf. unfold NewDelimitedBlock, None_, nilSafe in Hf.
  simpl in Hf. destruct Hf as [Hf | [m Hf]]; simplify_eq.
  apply lookup_insert_eq.
Qed.

Lemma CommentBlock_kind s er v b k r :
  eval grammar (Ref CommentBlock) s (er, Matched v b k r) ->
  block_kind v <> Some (VBlockKind Verse).
Proof.
  intros H. apply ref_inv in H as [-> [b0 H]]. open_rule_in H.
  apply act_inv in H as (er0 & v0 & H & Hf).
  apply seq_inv in H as (vs & -> & H).
  do 6 seq_step H. apply seq_nil_inv in H as [-> ->].
  apply lbl_inv in He as [-> [? He]]. apply star_env in He as [_ [? ->]].
  apply ref_inv in He0 as [-> _].
  apply star_env in He1 as [-> _].
  apply ref_inv in He2 as [-> _].
  apply lbl_inv in He3 as [-> [? He3]]. apply star_env in He3 as [_ [? ->]].
  apply choice_inv in He4 as [-> _].
  simpl in Hf. eval_get Hf. unfold NewDelimitedBlock in Hf.
  simpl in Hf.
  destruct (Verbatim _) as [[]| |]; destruct Hf as [Hf | [m' Hf]]; simplify_eq;
    simpl; rewrite ?lookup_insert_eq, ?lookup_empty; congruence.
Qed.

(** A delimited block of kind [Verse] has one element, a paragraph. *)
Lemma DelimitedBlock_verse s er v b k r :
  eval grammar (Ref DelimitedBlock) s (er, Matched v b k r) ->
  block_kind v = Some (VBlockKind Verse) ->
  exists attrs lines, v = VDelimitedBlock attrs [VParagraph ∅ lines].
Proof.
  intros H Hk. apply ref_inv in H as [-> [b0 H]]. open_rule_in H.
  apply choice_inv in H as [-> (e & er0 & b1 & Hin & H)].
  simpl in Hin. destruct Hin as [<-|[<-|[<-|[<-|[<-|[]]]]]].
  - apply ref_inv in H as [-> [? H]]. apply delimited_kind in H. congruence.
  - apply ref_inv in H as [-> [? H]]. apply delimited_kind in H. congruence.
  - apply ref_inv in H as [-> [? H]]. apply delimited_kind in H. congruence.
  - by apply CommentBlock_kind in H.
  - apply VerseBlock_shape in H as (attrs & lines & -> & _). eauto.
Qed.


(** ** C8: the levels of the items of an ordered list *)

Lemma touches_refl ps st : touches ps st st.
Proof. by intros q. Qed.

Lemma touches_trans ps st1 st2 st3 :
  touches ps st1 st2 -> touches ps st2 st3 -> touches ps st1 st3.
Proof.
  intros H1 H2 q. destruct (H1 q) as [H1a H1b], (H2 q) as [H2a H2b]. split.
  - intros Hq. by rewrite H2a, H1a.
  - by rewrite H2b, H1b.
Qed.

Lemma touches_mono ps ps' st st' :
  (forall q, q ∈ ps -> q ∈ ps') -> touches ps st st' -> touches ps' st st'.
Proof. intros Hs H q. destruct (H q) as [Ha Hb]. split; [|done]. intros Hq. apply Ha. auto. Qed.

Lemma insert_touches ptr v v' (st : store) :
  st !! ptr = Some v -> item_level v' = item_level v ->
  touches [ptr] st (<[ ptr := v' ]> st).
Proof.
  intros Hv Hl q. unfold level_at, store in *. destruct (decide (q = ptr)) as [->|Hne].
  - split; [intros Hq; exfalso; apply Hq; by left|].
    rewrite list_lookup_insert_eq by (by eapply lookup_lt_Some). by rewrite Hv.
  - by rewrite list_lookup_insert_ne.
Qed.

Lemma applyAttributes_touches ptr st st1 :
  applyAttributes ptr st = Some st1 -> touches [ptr] st st1.
Proof.
  unfold applyAttributes. intros H.
  destruct (st !! ptr) as [v|] eqn:Hv; [|done].
  destruct v; try done. destruct Elements; [done|]. simplify_eq.
  by eapply insert_touches.
Qed.

Lemma renumber_cons ptr items idx ptr0 (st : store) acc res :
  renumber (ptr :: items) idx ptr0 st acc = Some res ->
  exists l0 p0 ns0 els0 at0 l p ns els at_,
    st !! ptr0 = Some (VOrderedListItem l0 p0 ns0 els0 at0) /\
    st !! ptr = Some (VOrderedListItem l p ns els at_) /\
    renumber items (idx + 1) ptr0
      (<[ ptr := VOrderedListItem l (Go.int_add p0 idx) ns0 els at_ ]> st)
      (acc ++ [VOrderedListItem l (Go.int_add p0 idx) ns0 els at_])%list = Some res.
Proof.
  cbn [renumber]. intros H.
  destruct (st !! ptr0) as [[]|]; try done.
  destruct (st !! ptr) as [[]|]; try done.
  eauto 15.
Qed.

Lemma top_items_cons ptr items idx ptr0 (st : store) acc res :
  top_items (ptr :: items) idx ptr0 st acc = Some res ->
  exists l0 p0 ns0 els0 at0 l p ns els at_,
    st !! ptr0 = Some (VOrderedListItem l0 p0 ns0 els0 at0) /\
    st !! ptr = Some (VOrderedListItem l p ns els at_) /\
    top_items items (idx + 1) ptr0
      (<[ ptr := VOrderedListItem l (Go.int_add p0 idx) ns els at_ ]> st)
      (acc ++ [VOrderedListItem l (Go.int_add p0 idx) ns els at_])%list = Some res.
Proof.
  cbn [top_items]. intros H.
  destruct (st !! ptr0) as [[]|]; try done.
  destruct (st !! ptr) as [[]|]; try done.
  eauto 15.
Qed.

Lemma renumber_touches items : forall idx ptr0 st acc r st2,
  renumber items idx ptr0 st acc = Some (r, st2) -> touches items st st2.
Proof.
  induction items as [|ptr items IH]; intros idx ptr0 st acc r st2 H.
  - simpl in H. simplify_eq. apply touches_refl.
  - apply renumber_cons in H
      as (l0 & p0 & ns0 & els0 & at0 & l & p & ns & els & at_ & Hv0 & Hv & H).
    apply IH in H.
    pose proof (insert_touches ptr _
                  (VOrderedListItem l (Go.int_add p0 idx) ns0 els at_)
                  st Hv eq_refl) as Hi.
    eapply touches_trans.
    + eapply touches_mono; [|exact Hi]. intros q ->%list_elem_of_singleton. by left.
    + eapply touches_mono; [|exact H]. intros q Hq. by right.
Qed.

Lemma toOrderedList_touches items st v st2 :
  toOrderedList items st = Some (v, st2) -> touches items st st2.
Proof.
  unfold toOrderedList. intros H. destruct items as [|ptr0 items].
  { simplify_eq. apply touches_refl. }
  destruct (applyAttributes ptr0 st) as [st1|] eqn:Ha; [|done].
  destruct (renumber _ _ _ _ _) as [[vs st2']|] eqn:Hr; [|done]. simplify_eq.
  eapply touches_trans; [|by eapply renumber_touches].
  eapply touches_mono; [|by eapply applyAttributes_touches].
  intros q ->%list_elem_of_singleton. by left.
Qed.

Lemma add_child_touches parent v st st3 :
  add_child parent v st = Some st3 -> touches [parent] st st3.
Proof.
  unfold add_child. intros H.
  destruct (st !! parent) as [w|] eqn:Hw; [|done].
  destruct w; try done; simplify_eq; by eapply insert_touches.
Qed.

Lemma adjust_level_rewrite level style st :
  adjust_level level style st = rewrite_level level style (scan_of st).
Proof.
  unfold adjust_level, rewrite_level, scan_of; simpl.
  destruct (Z.ltb_spec (previousLevel st) level); destruct (decide _); try lia; [done|].
  destruct (String.eqb_spec style (previousNumberingStyle st));
    destruct (decide _); simpl; try congruence; done.
Qed.

Lemma layer_buffered b l q : q ∈ layer b l -> buffered b q.
Proof.
  unfold layer, buffered. destruct (b !! l) as [ps|] eqn:Hl; simpl; [eauto|].
  by intros ?%elem_of_nil.
Qed.

Lemma buffered_delete b l q : buffered (delete l b) q -> buffered b q.
Proof.
  intros (l' & ps & H & Hq). apply lookup_delete_Some in H as [_ H].
  by exists l', ps.
Qed.

Lemma buffered_insert b l ps q :
  buffered (<[ l := ps ]> b) q -> q ∈ ps \/ buffered b q.
Proof.
  intros (l' & ps' & H & Hq). apply lookup_insert_Some in H as [[_ <-]|[_ H]]; [by left|].
  right. by exists l', ps'.
Qed.

Lemma ordered_step_level st p st1 :
  ordered_step st p = Done st1 ->
  exists l',
    (l', levelPerStyle st1)
    = rewrite_level (item_key (ol_store st) p).1 (item_key (ol_store st) p).2 (scan_of st)
    /\ previousLevel st1 = l'
    /\ previousNumberingStyle st1 = (item_key (ol_store st) p).2
    /\ level_at (ol_store st1) p = Some l'
    /\ (forall q, q <> p -> level_at (ol_store st1) q = level_at (ol_store st) q)
    /\ (forall q, q <> p -> ~ buffered (bufferedItemsPerLevel st) q ->
          ol_store st1 !! q = ol_store st !! q)
    /\ (forall q, buffered (bufferedItemsPerLevel st1) q ->
          buffered (bufferedItemsPerLevel st) q \/ q = p).
Proof.
  unfold ordered_step, item_key. intros H.
  destruct (ol_store st !! p) as [v|] eqn:Hv; [|done].
  destruct v; try done. destruct Elements as [|e els]; [done|].
  rewrite adjust_level_rewrite in H.
  destruct (rewrite_level _ _ _) as [l' lps] eqn:Hr. simpl.
  set (st1' := <[ p := VOrderedListItem l' Position NumberingStyle (e :: els) Attributes ]>
                 (ol_store st)) in *.
  assert (Hp : level_at st1' p = Some l').
  { unfold level_at, st1', store in *.
    rewrite list_lookup_insert_eq by (by eapply lookup_lt_Some). done. }
  assert (Hne : forall q, q <> p -> st1' !! q = ol_store st !! q).
  { intros q Hq. unfold st1', store in *. by rewrite list_lookup_insert_ne. }
  match type of H with
  | match ?f with _ => _ end = _ => destruct f as [[st4 buf]|] eqn:Hflush; [|done]
  end.
  assert (Hst4 : touches (layer (bufferedItemsPerLevel st) (previousLevel st - 1)
                            ++ layer (bufferedItemsPerLevel st) (previousLevel st - 2))%list
                   st1' st4
                 /\ (forall q, buffered buf q -> buffered (bufferedItemsPerLevel st) q)).
  { destruct (l' <? previousLevel st).
    - destruct (last _) as [parent|] eqn:Hlast; [|done].
      destruct (layer (bufferedItemsPerLevel st) (previousLevel st - 1)) as [|c cs] eqn:Hlayer;
        [done|].
      destruct (toOrderedList _ _) as [[childList st2]|] eqn:Hto; [|done].
      destruct (add_child _ _ _) as [st3|] eqn:Hadd; [|done]. simplify_eq.
      split; [|intros q; apply buffered_delete].
      eapply touches_trans; [eapply touches_mono; [|by eapply toOrderedList_touches]|].
      { intros q Hq. apply elem_of_app. by left. }
      eapply touches_mono; [|by eapply add_child_touches].
      intros q ->%list_elem_of_singleton. apply elem_of_app. right.
      by eapply last_Some_elem_of.
    - simplify_eq. split; [|done]. apply touches_refl. }
  destruct Hst4 as [Hst4 Hbuf]. simplify_eq. simpl.
  exists l'. split; [done|]. split; [done|]. split; [done|].
  split; [|split; [|split]].
  - destruct (Hst4 p) as [_ ->]. done.
  - intros q Hq. destruct (Hst4 q) as [_ ->].
    unfold level_at. by rewrite Hne.
  - intros q Hq Hnb. destruct (Hst4 q) as [Ha _]. rewrite Ha; [by apply Hne|].
    intros [Hin|Hin]%elem_of_app; apply Hnb; by eapply layer_buffered.
  - intros q [Hq|Hq]%buffered_insert.
    + apply elem_of_app in Hq as [Hq|Hq];
        [|apply list_elem_of_singleton in Hq as ->; by right].
      left. apply layer_buffered in Hq.
      match type of Hq with context [if ?c then _ else _] => destruct c end;
        [|by apply Hbuf].
      apply buffered_insert in Hq as [?%elem_of_nil|Hq]; [done|by apply Hbuf].
    + left.
      match type of Hq with context [if ?c then _ else _] => destruct c end;
        [|by apply Hbuf].
      apply buffered_insert in Hq as [?%elem_of_nil|Hq]; [done|by apply Hbuf].
Qed.


Lemma item_key_same (st st' : store) q : st' !! q = st !! q -> item_key st' q = item_key st q.
Proof. unfold item_key. by intros ->. Qed.

Lemma ordered_scan_levels ptrs : forall st st',
  NoDup ptrs ->
  (forall q, q ∈ ptrs -> ~ buffered (bufferedItemsPerLevel st) q) ->
  ordered_scan st ptrs = Done st' ->
  map (level_at (ol_store st')) ptrs
  = map Some (rewritten_levels (scan_of st) (map (item_key (ol_store st)) ptrs))
  /\ (forall q, q ∉ ptrs -> level_at (ol_store st') q = level_at (ol_store st) q).
Proof.
  induction ptrs as [|p rest IH]; intros st st' Hnd Hnb H; simpl in H.
  { simplify_eq. done. }
  destruct (ordered_step st p) as [st1| |] eqn:Hstep; try done.
  apply NoDup_cons in Hnd as [Hp Hnd].
  destruct (ordered_step_level _ _ _ Hstep)
    as (l' & Hr & Hl & Hs & Hat & Hlev & Hsame & Hbuf).
  destruct (IH st1 st' Hnd) as [IH1 IH2]; [|done|].
  { intros q Hq [Hb| ->]%Hbuf; [|done]. eapply Hnb; [|done]. by right. }
  split.
  - simpl. destruct (item_key (ol_store st) p) as [l s] eqn:Hk. simpl in *.
    rewrite <- Hr. simpl. f_equal.
    + by rewrite IH2, Hat.
    + rewrite IH1. f_equal.
      replace (scan_of st1) with
        {| previous_level := l'; previous_numbering_style := s;
           level_per_style := levelPerStyle st1 |}
        by (unfold scan_of; by rewrite Hl, Hs).
      f_equal. apply map_ext_in. intros q Hq%list_elem_of_In.
      apply item_key_same, Hsame; [by intros ->|].
      apply Hnb. by right.
  - intros q Hq. apply not_elem_of_cons in Hq as [Hqp Hq].
    by rewrite IH2, Hlev.
Qed.

Lemma top_items_touches items : forall idx ptr0 st acc r st2,
  top_items items idx ptr0 st acc = Some (r, st2) -> touches items st st2.
Proof.
  induction items as [|ptr items IH]; intros idx ptr0 st acc r st2 H.
  - simpl in H. simplify_eq. apply touches_refl.
  - apply top_items_cons in H
      as (l0 & p0 & ns0 & els0 & at0 & l & p & ns & els & at_ & Hv0 & Hv & H).
    apply IH in H.
    pose proof (insert_touches ptr _
                  (VOrderedListItem l (Go.int_add p0 idx) ns els at_)
                  st Hv eq_refl) as Hi.
    eapply touches_trans.
    + eapply touches_mono; [|exact Hi]. intros q ->%list_elem_of_singleton. by left.
    + eapply touches_mono; [|exact H]. intros q Hq. by right.
Qed.

Lemma touches_levels ps st st' q : touches ps st st' -> level_at st' q = level_at st q.
Proof. intros H. by destruct (H q). Qed.

Lemma ordered_rest_levels n : forall b st result r st' q,
  ordered_rest n b st result = Some (r, st') -> level_at st' q = level_at st q.
Proof.
  induction n as [|level IH]; intros b st result r st' q H; simpl in H.
  { by simplify_eq. }
  destruct level as [|level'].
  - destruct (layer b (Z.of_nat 0)) as [|ptr0 items] eqn:Hl; [by eapply IH|].
    destruct (top_items _ _ _ _ _) as [[vs st1]|] eqn:Ht; [|done].
    erewrite IH by done. by eapply touches_levels, top_items_touches.
  - destruct (toOrderedList _ _) as [[childList st1]|] eqn:Hto; [|done].
    destruct (last _) as [parent|]; [|done].
    destruct (add_child _ _ _) as [st2|] eqn:Hadd; [|done].
    erewrite IH by done.
    erewrite touches_levels by (by eapply add_child_touches).
    by eapply touches_levels, toOrderedList_touches.
Qed.

(** C8: [NewOrderedList] gives to the items of the sequence, scanned
    from left to right, the levels of the rule of the specification: one
    more than the previous level for an item of a greater level (and
    this level is recorded for its numbering style); for an item of
    another numbering style than the previous one the level recorded
    for its style, and without one the previous level plus one (which
    is recorded); the previous level otherwise. *)
Theorem C8_levels_of_an_ordered_list (elements : list nat) attributes (st : store) l st' :
  NoDup elements ->
  NewOrderedList elements attributes st = Done (l, st') ->
  map (level_at st') elements
  = map Some (rewritten_levels first_scan (map (item_key st) elements)).
Proof.
  unfold NewOrderedList. intros Hnd H.
  destruct (ordered_scan _ _) as [s| |] eqn:Hscan; try done.
  destruct (ordered_rest _ _ _ _) as [[result st1]|] eqn:Hrest; [|done]. simplify_eq.
  apply ordered_scan_levels in Hscan as [Hscan _]; [|done|].
  - change (scan_of _) with first_scan in Hscan. simpl in Hscan.
    rewrite <- Hscan. apply map_ext. intros q.
    by eapply ordered_rest_levels.
  - intros q _ (lv & ps & Hl & _). simpl in Hl. by rewrite lookup_empty in Hl.
Qed.

Lemma C8_witness :
  exists l st',
    NewOrderedList [0; 1; 2; 3]%nat [] four_items = Done (l, st') /\
    map (level_at st') [0; 1; 2; 3]%nat = [Some 1; Some 2; Some 3; Some 1].
Proof.
  assert (H : exists r, NewOrderedList [0; 1; 2; 3]%nat [] four_items = Done r)
    by (eexists; vm_compute; reflexivity).
  destruct H as [[l st'] H]. exists l, st'. split; [exact H|].
  assert (Hnd : NoDup [0; 1; 2; 3]%nat)
    by (apply (bool_decide_unpack _); vm_compute; exact I).
  rewrite (C8_levels_of_an_ordered_list _ _ _ _ _ Hnd H).
  vm_compute. reflexivity.
Defined.

(** ** C1: the preamble of a document

    What a failure of an expression says of its parts. *)

Section Failure.
Context {R : Type}.
Variable g : R -> expr R.

Lemma act_fail_inv e f s er :
  eval g (Act e f) s (er, Failed) -> eval g e s (er, Failed).
Proof.
  inversion 1; subst.
  match goal with Hout : act_out _ _ ?o = _ |- _ =>
    destruct o as [er0 [v0 b0 k0 r0| |]]; simpl in Hout; [|by simplify_eq|done];
    by destruct (f _ _) end.
Qed.

Lemma lbl_fail_inv l e s er :
  eval g (Lbl l e) s (er, Failed) -> eval g e s (er, Failed).
Proof. by inversion 1. Qed.

Lemma ref_fail_inv x s er :
  eval g (Ref x) s (er, Failed) -> eval g (g x) s (er, Failed).
Proof. by inversion 1. Qed.

Lemma seq_fail_inv es s er :
  eval g (Seq es) s (er, Failed) -> eval_seq g es s (er, FailedAll).
Proof.
  inversion 1; subst.
  match goal with H : all_result ?o = _ |- _ => by destruct o end.
Qed.

Lemma seq_cons_fail_inv e es s er :
  eval_seq g (e :: es) s (er, FailedAll) ->
  eval g e s (er, Failed) \/
  exists er1 v b k r er2,
    eval g e s (er1, Matched v b k r) /\ eval_seq g es r (er2, FailedAll).
Proof.
  inversion 1; subst; [|by left].
  match goal with H : cons_all _ _ _ ?o = _ |- _ => destruct o; simplify_eq/= end.
  right. eauto 10.
Qed.

Lemma seq_nil_fail_inv s er : eval_seq g [] s (er, FailedAll) -> False.
Proof. inversion 1. Qed.

Lemma eval_choice_fail_inv es s er :
  eval_choice g es s (er, Failed) ->
  forall e, In e es -> exists er', eval g e s (er', Failed).
Proof.
  remember (er, Failed) as o eqn:Ho. intros Hc.
  revert er Ho. induction Hc; intros er1 Ho; simplify_eq.
  - intros e0 [].
  - intros e0 [<-|Hin]; eauto.
Qed.

Lemma choice_fail_inv es s er :
  eval g (Choice es) s (er, Failed) ->
  forall e, In e es -> exists er', eval g e s (er', Failed).
Proof. inversion 1; subst. by eapply eval_choice_fail_inv. Qed.

Lemma not_fail_inv e s er :
  eval g (Not e) s (er, Failed) -> exists v b k r, eval g e s (er, Matched v b k r).
Proof. inversion 1; subst; eauto. Qed.

Lemma not_inv e s er v b k r :
  eval g (Not e) s (er, Matched v b k r) ->
  r = s /\ b = [] /\ eval g e s (er, Failed).
Proof. inversion 1; subst; eauto. Qed.

Lemma many_not_failed e s er : eval_many g e s (er, FailedAll) -> False.
Proof.
  remember (er, FailedAll) as o eqn:Ho. intros H. revert er Ho.
  induction H; intros er1 Ho; simplify_eq.
  match goal with H : cons_many _ _ ?o = _ |- _ => destruct o; simplify_eq/= end.
  eauto.
Qed.

Lemma star_fail_inv e s er : eval g (Star e) s (er, Failed) -> False.
Proof.
  inversion 1; subst.
  match goal with H : star_out ?o = _ |- _ => destruct o; simplify_eq/= end.
  by eapply many_not_failed.
Qed.

(** A repetition ends where its expression does not match. *)
Lemma many_end e s er vs b k r :
  eval_many g e s (er, MatchedAll vs b k r) -> exists er', eval g e r (er', Failed).
Proof.
  remember (er, MatchedAll vs b k r) as o eqn:Ho. intros H. revert er vs b k Ho.
  induction H; intros er1 vs1 b1 k1 Ho; simplify_eq; [eauto|].
  match goal with H : cons_many _ _ ?o = _ |- _ => destruct o; simplify_eq/= end.
  eauto.
Qed.

Lemma star_end e s er v b k r :
  eval g (Star e) s (er, Matched v b k r) -> exists er', eval g e r (er', Failed).
Proof.
  inversion 1; subst.
  match goal with H : star_out ?o = _ |- _ => destruct o; simplify_eq/= end.
  by eapply many_end.
Qed.

Lemma opt_inv e s er v b k r :
  eval g (Opt e) s (er, Matched v b k r) ->
  (exists b0, eval g e s (er, Matched v b0 k r)) \/ (v = VNil /\ r = s).
Proof. inversion 1; subst; eauto. Qed.

Lemma seq_end s er vs b k r :
  eval_seq g [] s (er, MatchedAll vs b k r) -> r = s.
Proof. by inversion 1. Qed.

End Failure.

(** A section: the end of the input is not here, its title matches, and
    its elements match up to the end of the section. *)
Lemma section_inv level title elements s er v b k r :
  eval grammar (section level title elements) s (er, Matched v b k r) ->
  exists er0 er1 er2 vt bt kt s1 l be ke,
    eval grammar (Ref EOF) s (er0, Failed) /\
    eval grammar (Ref title) s (er1, Matched vt bt kt s1) /\
    eval grammar elements s1 (er2, Matched (VList l) be ke r) /\
    is_section v = true.
Proof.
  unfold section. intros H.
  apply act_inv in H as (er0 & v0 & H & Hf).
  apply seq_inv in H as (vs & -> & H).
  do 2 seq_step H. pose proof (seq_end _ _ _ _ _ _ _ H) as ->.
  apply seq_nil_inv in H as [-> ->].
  apply not_inv in He as (-> & -> & He).
  apply lbl_inv in He0 as [-> [b0 He0]].
  apply act_inv in He0 as (er3 & v3 & He0 & Hf0).
  apply seq_inv in He0 as (vs0 & -> & He0).
  do 2 seq_step He0. pose proof (seq_end _ _ _ _ _ _ _ He0) as ->.
  apply seq_nil_inv in He0 as [-> ->].
  apply lbl_inv in He1 as [-> [bt He1]].
  apply lbl_inv in He2 as [-> [be He2]].
  unfold label in Hf. simpl in Hf, Hf0. eval_get Hf. eval_get Hf0.
  unfold asSectionTitle, asList, NewSection in Hf0.
  destruct Hf as [Hf|[m Hf]]; simplify_eq.
  repeat match type of Hf0 with
  | context [match ?x with _ => _ end] =>
      is_var x; destruct x; try (by destruct Hf0 as [?|[? ?]])
  end.
  destruct Hf0 as [Hf0|[m Hf0]]; simplify_eq.
  eauto 15.
Qed.

Lemma section_block_failed stops content s er :
  eval grammar (section_block stops content) s (er, Failed) ->
  (exists t er' v b k r, In t stops /\ eval grammar (Ref t) s (er', Matched v b k r))
  \/ (exists er', eval grammar content s (er', Failed)).
Proof.
  unfold section_block. intros H%act_fail_inv%seq_fail_inv.
  revert er H. induction stops as [|t stops IH]; simpl; intros er H.
  - apply seq_cons_fail_inv in H as [H|(? & ? & ? & ? & ? & ? & _ & H)].
    + right. apply lbl_fail_inv in H. eauto.
    + by apply seq_nil_fail_inv in H.
  - apply seq_cons_fail_inv in H as [H|(? & ? & ? & ? & ? & ? & Hn & H)].
    + left. apply not_fail_inv in H as (v & b & k & r & H). exists t. eauto 10.
    + apply not_inv in Hn as (-> & _ & _).
      destruct (IH _ H) as [(t' & ? & ? & ? & ? & ? & Hin & Ht)|Hc]; [left|by right].
      exists t'. eauto 10.
Qed.

Lemma section_block_matched stops content s er v b k r :
  eval grammar (section_block stops content) s (er, Matched v b k r) ->
  exists er' v' b' k', eval grammar content s (er', Matched v' b' k' r).
Proof.
  unfold section_block. intros H.
  apply act_inv in H as (er0 & v0 & H & _).
  apply seq_inv in H as (vs & _ & H).
  revert er0 vs b k H. induction stops as [|t stops IH]; simpl; intros er0 vs b k H.
  - seq_step H. pose proof (seq_end _ _ _ _ _ _ _ H) as ->.
    apply lbl_inv in He as [_ [b' He]]. eauto.
  - seq_step H. apply not_inv in He as (-> & _ & _). eauto.
Qed.

Lemma EOF_matched s er v b k r :
  eval grammar (Ref EOF) s (er, Matched v b k r) -> s = EmptyString.
Proof.
  intros H. apply ref_inv in H as [_ [b0 H]]. open_rule_in H.
  apply not_inv in H as (_ & _ & H). inversion H; subst.
  by destruct s.
Qed.

Lemma EOF_failed s er : eval grammar (Ref EOF) s (er, Failed) -> s <> EmptyString.
Proof.
  intros H ->. assert (H' : eval grammar (Ref EOF) EmptyString ([], Matched VNil [] 0%nat EmptyString)) by ev.
  by pose proof (eval_det _ _ _ _ _ H H').
Qed.

(** A section fails only at the end of the input or where its title
    fails. *)
Lemma section_failed level title e s er :
  eval grammar (section level title (Star e)) s (er, Failed) ->
  s = EmptyString \/ exists er', eval grammar (Ref title) s (er', Failed).
Proof.
  unfold section. intros H%act_fail_inv%seq_fail_inv.
  apply seq_cons_fail_inv in H as [H|(? & ? & ? & ? & ? & ? & Hn & H)].
  { left. apply not_fail_inv in H as (? & ? & ? & ? & H). by eapply EOF_matched. }
  apply not_inv in Hn as (-> & _ & _).
  apply seq_cons_fail_inv in H as [H|(? & ? & ? & ? & ? & ? & _ & H)];
    [|by apply seq_nil_fail_inv in H].
  apply lbl_fail_inv, act_fail_inv, seq_fail_inv in H.
  apply seq_cons_fail_inv in H as [H|(? & ? & ? & ? & ? & ? & Ht & H)].
  { right. apply lbl_fail_inv in H. eauto. }
  apply seq_cons_fail_inv in H as [H|(? & ? & ? & ? & ? & ? & _ & H)];
    [|by apply seq_nil_fail_inv in H].
  by apply lbl_fail_inv, star_fail_inv in H.
Qed.

(** Where the rule [Section] fails: at the end of the input, or where
    the six rules of the sections fail. *)
Lemma Section_failed s er :
  eval grammar (Ref Section) s (er, Failed) ->
  s = EmptyString \/
  forall sec, In sec [Section0; Section1; Section2; Section3; Section4; Section5] ->
    exists er', eval grammar (Ref sec) s (er', Failed).
Proof.
  intros H%ref_fail_inv. open_rule_in H.
  apply act_fail_inv, seq_fail_inv in H.
  apply seq_cons_fail_inv in H as [H|(? & ? & ? & ? & ? & ? & Hn & H)].
  { left. apply not_fail_inv in H as (? & ? & ? & ? & H). by eapply EOF_matched. }
  apply not_inv in Hn as (-> & _ & _).
  apply seq_cons_fail_inv in H as [H|(? & ? & ? & ? & ? & ? & _ & H)];
    [|by apply seq_nil_fail_inv in H].
  right. intros sec Hx. apply lbl_fail_inv in H.
  eapply choice_fail_inv in H; [exact H|].
  simpl in *. destruct Hx as [<-|[<-|[<-|[<-|[<-|[<-|[]]]]]]]; auto 10.
Qed.

Lemma Section_inv s er v b k r :
  eval grammar (Ref Section) s (er, Matched v b k r) ->
  exists sec er' b' k',
    In sec [Section0; Section1; Section2; Section3; Section4; Section5] /\
    eval grammar (Ref sec) s (er', Matched v b' k' r).
Proof.
  intros H. apply ref_inv in H as [-> [b0 H]]. open_rule_in H.
  apply act_inv in H as (er0 & v0 & H & Hf).
  apply seq_inv in H as (vs & -> & H).
  do 2 seq_step H. pose proof (seq_end _ _ _ _ _ _ _ H) as ->.
  apply seq_nil_inv in H as [-> ->].
  apply not_inv in He as (-> & -> & He).
  apply lbl_inv in He0 as [-> [b1 He0]].
  unfold label in Hf. simpl in Hf. eval_get Hf.
  destruct Hf as [Hf|[m Hf]]; simplify_eq.
  apply choice_inv in He0 as [_ (e & er1 & b2 & Hin & He0)].
  simpl in Hin.
  destruct Hin as [<-|[<-|[<-|[<-|[<-|[<-|[]]]]]]];
    eexists _, _, _, _; (split; [|exact He0]); simpl; auto 10.
Qed.

Ltac absurd_run :=
  match goal with
  | H : eval grammar ?e ?s (_, Matched _ _ _ _), H' : eval grammar ?e ?s (_, Failed) |- _ =>
      by pose proof (eval_det _ _ _ _ _ H H')
  end.

Lemma deep_section_end level title blk stops e s er v b k r :
  grammar blk = section_block stops (Star e) ->
  (forall r er, eval grammar e r (er, Failed) ->
     exists er', eval grammar (Ref DocumentBlock) r (er', Failed)) ->
  eval grammar (section level title (Opt (Ref blk))) s (er, Matched v b k r) ->
  is_section v = true /\ exists er', eval grammar (Ref DocumentBlock) r (er', Failed).
Proof.
  intros Hblk He H.
  apply section_inv in H as (er0 & er1 & er2 & vt & bt & kt & s1 & l & be & ke & _ & _ & H & Hv).
  split; [done|].
  apply opt_inv in H as [[b0 H]|[? _]]; [|done].
  apply ref_inv in H as [_ [b1 H]]. rewrite Hblk in H.
  apply section_block_matched in H as (er3 & v3 & b3 & k3 & H).
  apply star_end in H as [er4 H]. eauto.
Qed.

Lemma choice_DocumentBlock alts :
  In (Ref DocumentBlock) alts ->
  forall r er, eval grammar (Choice alts) r (er, Failed) ->
    exists er', eval grammar (Ref DocumentBlock) r (er', Failed).
Proof. intros Hin r er H. by eapply choice_fail_inv in H. Qed.

Lemma Section0_end s er v b k r :
  eval grammar (Ref Section0) s (er, Matched v b k r) ->
  is_section v = true /\
  forall er', eval grammar (Ref Section) r (er', Failed) ->
    exists er'', eval grammar (Ref DocumentBlock) r (er'', Failed).
Proof.
  intros H. apply ref_inv in H as [_ [b0 H]].
  change (grammar Section0) with (section 0 Section0Title (Star (Ref Section0Block))) in H.
  apply section_inv in H as (er0 & er1 & er2 & vt & bt & kt & s1 & l & be & ke & _ & _ & H & Hv).
  split; [done|]. intros er' Hs.
  apply star_end in H as [er3 H]. apply ref_fail_inv in H.
  change (grammar Section0Block) with
    (section_block [Section0]
       (Choice [Ref Section1; Ref Section2; Ref Section3; Ref Section4; Ref Section5;
                Ref DocumentBlock])) in H.
  apply section_block_failed in H as [(t & er4 & v4 & b4 & k4 & r4 & [<-|[]] & Ht)|[er4 H]].
  - exfalso. apply Section_failed in Hs as [->|Hs].
    + apply ref_inv in Ht as [_ [b5 Ht]].
      change (grammar Section0) with (section 0 Section0Title (Star (Ref Section0Block))) in Ht.
      apply section_inv in Ht as (? & ? & ? & ? & ? & ? & ? & ? & ? & ? & Heof & _).
      by apply EOF_failed in Heof.
    + destruct (Hs Section0) as [er5 Hf]; [by left|]. absurd_run.
  - eapply choice_DocumentBlock; [|exact H]. simpl. auto 10.
Qed.

Lemma Section1_end s er v b k r :
  eval grammar (Ref Section1) s (er, Matched v b k r) ->
  is_section v = true /\
  forall er', eval grammar (Ref Section) r (er', Failed) ->
    exists er'', eval grammar (Ref DocumentBlock) r (er'', Failed).
Proof.
  intros H. apply ref_inv in H as [_ [b0 H]].
  change (grammar Section1) with (section 1 Section1Title (Star (Ref Section1Block))) in H.
  apply section_inv in H as (er0 & er1 & er2 & vt & bt & kt & s1 & l & be & ke & _ & _ & H & Hv).
  split; [done|]. intros er' Hs.
  apply star_end in H as [er3 H]. apply ref_fail_inv in H.
  change (grammar Section1Block) with
    (section_block [Section1Title]
       (Choice [Ref Section2; Ref Section3; Ref Section4; Ref Section5;
                Ref DocumentBlock])) in H.
  apply section_block_failed in H as [(t & er4 & v4 & b4 & k4 & r4 & [<-|[]] & Ht)|[er4 H]].
  - exfalso.
    assert (Hne : r <> EmptyString).
    { intros ->.
      assert (Hf : eval grammar (Ref Section1Title) EmptyString ([], Failed)) by ev.
      absurd_run. }
    apply Section_failed in Hs as [->|Hs]; [done|].
    destruct (Hs Section1) as [er5 Hf]; [simpl; auto|].
    apply ref_fail_inv in Hf.
    change (grammar Section1) with (section 1 Section1Title (Star (Ref Section1Block))) in Hf.
    apply section_failed in Hf as [->|[er6 Hf]]; [done|]. absurd_run.
  - eapply choice_DocumentBlock; [|exact H]. simpl. auto 10.
Qed.

(** Where a section ends no block starts, unless a section does. *)
Lemma Section_end s er v b k r :
  eval grammar (Ref Section) s (er, Matched v b k r) ->
  is_section v = true /\
  forall er', eval grammar (Ref Section) r (er', Failed) ->
    exists er'', eval grammar (Ref DocumentBlock) r (er'', Failed).
Proof.
  intros H. apply Section_inv in H as (sec & er0 & b0 & k0 & Hin & H).
  simpl in Hin. destruct Hin as [<-|[<-|[<-|[<-|[<-|[<-|[]]]]]]].
  - by eapply Section0_end.
  - by eapply Section1_end.
  - apply ref_inv in H as [_ [b1 H]].
    eapply (deep_section_end 2 Section2Title Section2Block) in H as [Hv H];
      [eauto| reflexivity |].
    apply choice_DocumentBlock. simpl. auto 10.
  - apply ref_inv in H as [_ [b1 H]].
    eapply (deep_section_end 3 Section3Title Section3Block) in H as [Hv H];
      [eauto| reflexivity |].
    apply choice_DocumentBlock. simpl. auto 10.
  - apply ref_inv in H as [_ [b1 H]].
    eapply (deep_section_end 4 Section4Title Section4Block) in H as [Hv H];
      [eauto| reflexivity |].
    apply choice_DocumentBlock. simpl. auto 10.
  - apply ref_inv in H as [_ [b1 H]].
    eapply (deep_section_end 5 Section5Title Section5Block) in H as [Hv H];
      [eauto| reflexivity |].
    eauto.
Qed.

Ltac action_cases Hf :=
  repeat match type of Hf with
  | context [match ?x with _ => _ end] =>
      destruct x eqn:?; try (by destruct Hf as [?|[? ?]])
  end;
  destruct Hf as [Hf|[? Hf]]; simplify_eq; try done.

Lemma BlankLine_value s er v b k r :
  eval grammar (Ref BlankLine) s (er, Matched v b k r) -> block_value v = true.
Proof.
  intros H. apply ref_inv in H as [_ [b0 H]]. open_rule_in H.
  apply act_inv in H as (er0 & v0 & _ & Hf).
  unfold NewBlankLine in Hf. action_cases Hf.
Qed.

Lemma DocumentAttributeDeclaration_value s er v b k r :
  eval grammar (Ref DocumentAttributeDeclaration) s (er, Matched v b k r) ->
  block_value v = true.
Proof.
  intros H. apply ref_inv in H as [_ [b0 H]]. open_rule_in H.
  apply choice_inv in H as [_ (e & er0 & b1 & Hin & H)].
  simpl in Hin. destruct Hin as [<-|[<-|[]]];
    apply ref_inv in H as [_ [b2 H]]; open_rule_in H;
    apply act_inv in H as (er1 & v1 & _ & Hf);
    unfold asList, NewDocumentAttributeDeclaration in Hf; action_cases Hf.
Qed.

Lemma DocumentAttributeReset_value s er v b k r :
  eval grammar (Ref DocumentAttributeReset) s (er, Matched v b k r) ->
  block_value v = true.
Proof.
  intros H. apply ref_inv in H as [_ [b0 H]]. open_rule_in H.
  apply choice_inv in H as [_ (e & er0 & b1 & Hin & H)].
  simpl in Hin. destruct Hin as [<-|[<-|[]]];
    apply ref_inv in H as [_ [b2 H]]; open_rule_in H;
    apply act_inv in H as (er1 & v1 & _ & Hf);
    unfold asList, NewDocumentAttributeReset in Hf; action_cases Hf.
Qed.

Lemma TableOfContentsMacro_value s er v b k r :
  eval grammar (Ref TableOfContentsMacro) s (er, Matched v b k r) ->
  block_value v = true.
Proof.
  intros H. apply ref_inv in H as [_ [b0 H]]. open_rule_in H.
  by apply seq_inv in H as (vs & -> & _).
Qed.

Lemma BlockImage_value s er v b k r :
  eval grammar (Ref BlockImage) s (er, Matched v b k r) -> block_value v = true.
Proof.
  intros H. apply ref_inv in H as [_ [b0 H]]. open_rule_in H.
  apply act_inv in H as (er0 & v0 & _ & Hf).
  unfold asImageMacro, asList, NewBlockImage in Hf. action_cases Hf.
Qed.

Lemma LiteralBlock_value s er v b k r :
  eval grammar (Ref LiteralBlock) s (er, Matched v b k r) -> block_value v = true.
Proof.
  intros H. apply ref_inv in H as [_ [b0 H]]. open_rule_in H.
  apply choice_inv in H as [_ (e & er0 & b1 & Hin & H)].
  simpl in Hin. destruct Hin as [<-|[<-|[<-|[]]]];
    apply ref_inv in H as [_ [b2 H]]; open_rule_in H;
    apply act_inv in H as (er1 & v1 & _ & Hf);
    unfold asList, NewLiteralBlock in Hf; action_cases Hf.
Qed.

Lemma Paragraph_value s er v b k r :
  eval grammar (Ref Paragraph) s (er, Matched v b k r) -> block_value v = true.
Proof.
  intros H. apply ref_inv in H as [_ [b0 H]]. open_rule_in H.
  apply choice_inv in H as [_ (e & er0 & b1 & Hin & H)].
  simpl in Hin. destruct Hin as [<-|[<-|[]]];
    apply act_inv in H as (er1 & v1 & _ & Hf);
    unfold asList, asAdmonitionKind, NewAdmonitionParagraph, NewParagraph in Hf;
    action_cases Hf.
Qed.

Lemma newList_value items attrs st l st' :
  newList items attrs st = Done (l, st') -> block_value l = true.
Proof.
  unfold newList, NewOrderedList, NewUnorderedList, NewLabeledList. intros H.
  repeat match type of H with
  | context [match ?x with _ => _ end] => destruct x eqn:?; try done
  end; by simplify_eq.
Qed.

Lemma NewList_value elements attributes v :
  (NewList elements attributes = Ret v \/ exists m, NewList elements attributes = RetErr v m) ->
  block_value v = true.
Proof.
  unfold NewList. intros Hf.
  destruct elements as [|first rest]; [by destruct Hf as [?|[? ?]]|].
  destruct (type_of first) as [rootType|]; [|by destruct Hf as [?|[? ?]]; simplify_eq].
  destruct (list_scan _ _ _) as [s| |]; [|by destruct Hf as [?|[? ?]]; simplify_eq..].
  destruct (list_rest _ _ _) as [st'| |]; [|by destruct Hf as [?|[? ?]]; simplify_eq..].
  destruct (newList _ _ _) as [[l st'']| |] eqn:Hn;
    [|by destruct Hf as [?|[? ?]]; simplify_eq..].
  apply newList_value in Hn. by destruct Hf as [?|[? ?]]; simplify_eq.
Qed.

Lemma List_value s er v b k r :
  eval grammar (Ref List) s (er, Matched v b k r) -> block_value v = true.
Proof.
  intros H. apply ref_inv in H as [_ [b0 H]]. open_rule_in H.
  apply act_inv in H as (er0 & v0 & _ & Hf).
  unfold asList in Hf.
  destruct (get b0 "elements"); try (by destruct Hf as [?|[? ?]]).
  destruct (get b0 "attributes"); try (by destruct Hf as [?|[? ?]]).
  by eapply NewList_value.
Qed.

Lemma DelimitedBlock_value s er v b k r :
  eval grammar (Ref DelimitedBlock) s (er, Matched v b k r) -> is_delimited v = true.
Proof.
  intros H. apply ref_inv in H as [-> [b0 H]]. open_rule_in H.
  apply choice_inv in H as [_ (e & er0 & b1 & Hin & H)].
  simpl in Hin. destruct Hin as [<-|[<-|[<-|[<-|[<-|[]]]]]].
  - apply ref_inv in H as [-> [? H]]. apply delimited_kind in H. by destruct v.
  - apply ref_inv in H as [-> [? H]]. apply delimited_kind in H. by destruct v.
  - apply ref_inv in H as [-> [? H]]. apply delimited_kind in H. by destruct v.
  - apply ref_inv in H as [_ [b2 H]]. open_rule_in H.
    apply act_inv in H as (er1 & v1 & _ & Hf).
    unfold asList, NewDelimitedBlock in Hf. action_cases Hf.
  - apply VerseBlock_shape in H as (attrs & lines & -> & _). done.
Qed.

(** The value of a block of a document: a delimited block, or one of
    the other blocks; not a section. *)
Lemma DocumentBlock_value s er v b k r :
  eval grammar (Ref DocumentBlock) s (er, Matched v b k r) ->
  block_value v = true \/
  exists er' b' k', eval grammar (Ref DelimitedBlock) s (er', Matched v b' k' r).
Proof.
  intros H. apply ref_inv in H as [-> [b0 H]]. open_rule_in H.
  apply act_inv in H as (er0 & v0 & H & Hf).
  apply seq_inv in H as (vs & -> & H).
  do 2 seq_step H. pose proof (seq_end _ _ _ _ _ _ _ H) as ->.
  apply seq_nil_inv in H as [-> ->].
  apply not_inv in He as (-> & -> & He).
  apply lbl_inv in He0 as [-> [b1 He0]].
  unfold label in Hf. simpl in Hf. eval_get Hf.
  destruct Hf as [Hf|[m Hf]]; simplify_eq.
  apply choice_inv in He0 as [_ (e & er1 & b2 & Hin & He0)].
  simpl in Hin.
  destruct Hin as [<-|[<-|[<-|[<-|[<-|[<-|[<-|[<-|[<-|[]]]]]]]]]].
  - left. by eapply BlankLine_value.
  - left. by eapply DocumentAttributeDeclaration_value.
  - left. by eapply DocumentAttributeReset_value.
  - left. by eapply TableOfContentsMacro_value.
  - left. by eapply List_value.
  - left. by eapply BlockImage_value.
  - left. by eapply LiteralBlock_value.
  - right. eauto.
  - left. by eapply Paragraph_value.
Qed.

Lemma DocumentBlock_not_section s er v b k r :
  eval grammar (Ref DocumentBlock) s (er, Matched v b k r) -> is_section v = false.
Proof.
  intros [H|(er' & b' & k' & H)]%DocumentBlock_value.
  - by destruct v.
  - apply DelimitedBlock_value in H. by destruct v.
Qed.


Lemma block_inv s er v b k r :
  eval grammar block s (er, Matched v b k r) ->
  (is_section v = true /\
   forall er', eval grammar (Ref Section) r (er', Failed) ->
     exists er'', eval grammar (Ref DocumentBlock) r (er'', Failed))
  \/ (is_section v = false /\
      (exists er', eval grammar (Ref Section) s (er', Failed)) /\
      exists er' b' k', eval grammar (Ref DocumentBlock) s (er', Matched v b' k' r)).
Proof.
  unfold block. intros H. inversion H as [| | | | |es s' o Hc| | | | | | | | | | | | | | | | | |]; subst.
  inversion Hc as [|e es s' er0 v0 b0 k0 r0 He|e es s' er0 er1 o He Hc'|]; subst.
  - left. by eapply Section_end.
  - right. inversion Hc' as [|e es s' er2 v0 b0 k0 r0 He'|e es s' er2 er3 o He' Hc''|]; subst.
    + split; [by eapply DocumentBlock_not_section|]. eauto 10.
    + inversion Hc''.
Qed.

Lemma blocks_shape s er vs b k r :
  eval_many grammar block s (er, MatchedAll vs b k r) ->
  (exists pre secs, vs = (pre ++ secs)%list /\ no_section pre = true /\ all_sections secs = true)
  /\ ((forall er', eval grammar (Ref Section) s (er', Failed) ->
         exists er'', eval grammar (Ref DocumentBlock) s (er'', Failed)) ->
      all_sections vs = true).
Proof.
  remember (er, MatchedAll vs b k r) as o eqn:Ho.
  remember block as e eqn:Hb. intros H. revert er vs b k Ho.
  induction H as [e s er0 He|e s er0 v0 b0 k0 r0 er1 o He Hm IH|];
    intros er2 vs b k Ho; simplify_eq.
  { split; [|done]. by exists [], []. }
  destruct o as [vs' b' k' r'| |]; simplify_eq/=.
  destruct (IH eq_refl _ _ _ _ eq_refl) as [(pre & secs & -> & Hpre & Hsecs) Hall].
  apply block_inv in He as [[Hv Hend]|(Hv & [er3 Hsf] & (er4 & b4 & k4 & Hd))].
  - specialize (Hall Hend). split.
    + exists [], (v0 :: pre ++ secs)%list. simpl. by rewrite Hv, Hall.
    + intros _. by rewrite Hv, Hall.
  - split.
    + exists (v0 :: pre), secs. simpl. by rewrite Hv, Hpre, Hsecs.
    + intros Hend. destruct (Hend _ Hsf) as [er5 Hdf].
      by pose proof (eval_det _ _ _ _ _ Hd Hdf).
Qed.

Lemma preamble_elements_sections secs acc :
  all_sections secs = true -> preamble_elements secs acc = acc.
Proof.
  induction secs as [|v secs IH]; simpl; [done|].
  intros [Hv H]%andb_true_iff. rewrite Hv. by apply IH.
Qed.

Lemma preamble_elements_app l1 l2 acc :
  preamble_elements (l1 ++ l2) acc = preamble_elements l2 (preamble_elements l1 acc).
Proof.
  revert acc. induction l1 as [|v l1 IH]; intros acc; simpl; [done|].
  by destruct (is_section v).
Qed.

Lemma insertPreamble_split pre secs :
  no_section pre = true -> all_sections secs = true ->
  insertPreamble (pre ++ secs) = with_preamble pre secs.
Proof.
  intros Hpre Hsecs. unfold insertPreamble.
  rewrite preamble_elements_app.
  rewrite (preamble_elements_no_section pre []) by exact Hpre.
  rewrite preamble_elements_sections by exact Hsecs. simpl.
  rewrite length_app.
  destruct pre as [|p pre]; [done|].
  destruct secs as [|sec secs].
  - simpl. rewrite Nat.add_0_r, Nat.eqb_refl. unfold nilSafe. by rewrite app_nil_r.
  - replace (length (p :: pre) =? 0)%nat with false by done.
    replace (length (p :: pre) =? length (p :: pre) + length (sec :: secs))%nat with false
      by (symmetry; apply Nat.eqb_neq; simpl; lia).
    simpl. by rewrite drop_app_length.
Qed.

Lemma NewDocument_elements frontmatter header blocks v :
  (NewDocument frontmatter header blocks = Ret v
   \/ exists m, NewDocument frontmatter header blocks = RetErr v m) ->
  exists attrs els refs,
    v = VDocument attrs els refs /\ toc_inserted (insertPreamble blocks) els.
Proof.
  unfold NewDocument. intros Hf.
  destruct frontmatter; try (by destruct Hf as [?|[? ?]]);
    destruct header; try (by destruct Hf as [?|[? ?]]);
    match type of Hf with
    | context [match ?x with Some _ => _ | None => _ end] => destruct x as [els|] eqn:He
    end; try (by destruct Hf as [?|[? ?]]);
    (destruct Hf as [Hf|[? Hf]]; simplify_eq);
    eexists _, _, _; (split; [done|]).
  all: try (left; congruence).
  all: match type of He with
       | context [match ?x with Some _ => _ | None => _ end] => destruct x eqn:Ht
       end; [right; eauto|left; congruence].
Qed.

Lemma Parse_Returned n r input v :
  Parse n r input = Some (Returned v) ->
  exists b k rest, eval grammar (Ref r) input ([], Matched v b k rest).
Proof.
  unfold Parse. intros H.
  destruct (parse grammar n (Ref r) input) as [[er [v0 b k rest| |]]|] eqn:Hp;
    [|destruct er; done..|done].
  destruct er; [|done]. simplify_eq. apply parse_eval in Hp. eauto.
Qed.

Lemma block_not_preamble s er v b k r :
  eval grammar block s (er, Matched v b k r) -> is_preamble v = false.
Proof.
  intros [[Hv _]|(_ & _ & (er' & b' & k' & Hd))]%block_inv; [by destruct v|].
  apply DocumentBlock_value in Hd as [Hv|(er1 & b1 & k1 & Hd)]; [by destruct v|].
  apply DelimitedBlock_value in Hd. by destruct v.
Qed.

Lemma blocks_not_preamble s er vs b k r :
  eval_many grammar block s (er, MatchedAll vs b k r) ->
  Forall (fun v => is_preamble v = false) vs.
Proof.
  remember (er, MatchedAll vs b k r) as o eqn:Ho.
  remember block as e eqn:Hb. intros H. revert er vs b k Ho.
  induction H as [e s er0 He|e s er0 v0 b0 k0 r0 er1 o He Hm IH|];
    intros er2 vs b k Ho; simplify_eq.
  { constructor. }
  destruct o as [vs' b' k' r'| |]; simplify_eq/=.
  constructor; [by eapply block_not_preamble|by eapply IH].
Qed.

Lemma index_of_preamble_not elements :
  Forall (fun v => is_preamble v = false) elements -> index_of_preamble elements = None.
Proof.
  induction elements as [|e elements IH]; [done|].
  intros [He H]%Forall_cons. simpl. by rewrite He, IH.
Qed.

(** The table of contents among the blocks of a parsed document. *)
Lemma insert_toc_placed attrValue pre secs els :
  Forall (fun v => is_preamble v = false) (pre ++ secs) ->
  insert_toc attrValue (with_preamble pre secs) = Some els ->
  els = toc_placed (Some attrValue) (with_preamble pre secs).
Proof.
  intros Hno H. unfold insert_toc in H. unfold toc_placed.
  assert (forall els,
             match with_preamble pre secs with
             | [] => None
             | _ :: _ =>
                 Some (take (default 0%nat (index_of_preamble (with_preamble pre secs)) + 1)
                         (with_preamble pre secs)
                       ++ VTableOfContentsMacro
                          :: drop (default 0%nat (index_of_preamble (with_preamble pre secs)) + 1)
                               (with_preamble pre secs))%list
             end = Some els ->
             els = match with_preamble pre secs with
                   | e :: rest => e :: VTableOfContentsMacro :: rest
                   | [] => []
                   end) as Hpre.
  { clear H. intros els0 H.
    assert (index_of_preamble (with_preamble pre secs) = Some 0%nat
            \/ index_of_preamble (with_preamble pre secs) = None) as [Hi|Hi].
    { unfold with_preamble. destruct pre as [|p pre]; [|destruct secs as [|sec secs]].
      - right. by apply index_of_preamble_not.
      - right. apply index_of_preamble_not. by rewrite app_nil_r in Hno.
      - by left. }
    - rewrite Hi in H. destruct (with_preamble pre secs); [done|]. simpl in H.
      rewrite drop_0 in H. by simplify_eq.
    - rewrite Hi in H. destruct (with_preamble pre secs); [done|]. simpl in H.
      rewrite drop_0 in H. by simplify_eq. }
  destruct attrValue; try (by simplify_eq).
  repeat (match type of H with
          | context [match ?x with EmptyString => _ | String _ _ => _ end] =>
              destruct x
          | context [match ?x with Ascii _ _ _ _ _ _ _ _ => _ end] =>
              destruct x as [[] [] [] [] [] [] [] []]
          end; try (by simplify_eq); try (by apply Hpre)).
Qed.

Lemma NewDocument_placed frontmatter header pre secs v :
  Forall (fun v => is_preamble v = false) (pre ++ secs) ->
  no_section pre = true -> all_sections secs = true ->
  (NewDocument frontmatter header (pre ++ secs) = Ret v
   \/ exists m, NewDocument frontmatter header (pre ++ secs) = RetErr v m) ->
  exists attrs refs,
    v = VDocument attrs (toc_placed (header_toc header) (with_preamble pre secs)) refs.
Proof.
  intros Hno Hpre Hsecs Hf. unfold NewDocument in Hf.
  rewrite insertPreamble_split in Hf by done.
  destruct frontmatter; try (by destruct Hf as [?|[? ?]]);
    destruct header; try (by destruct Hf as [?|[? ?]]);
    match type of Hf with
    | context [match ?x with Some _ => _ | None => _ end] => destruct x as [els|] eqn:He
    end; try (by destruct Hf as [?|[? ?]]);
    (destruct Hf as [Hf|[? Hf]]; simplify_eq);
    eexists _, _; f_equal; cbn [header_toc].
  all: try (rewrite lookup_empty in *; by simplify_eq).
  all: match type of He with
       | context [match ?x with Some _ => _ | None => _ end] => destruct x eqn:Ht
       end; [by eapply insert_toc_placed|by simplify_eq].
Qed.

(** C1 (amended): in every parsed document the blocks that follow the
    front matter and the header are the blocks that are not sections,
    followed by the sections.  When there are both, the blocks before
    the first section are wrapped in one preamble, placed before the
    sections, which are kept in order; when there is no section or no
    block before the first section the blocks are left as they are.
    The elements of the document are this list with the table of
    contents that the [toc] attribute of the header asks for: at the
    first position, before the preamble, for the empty value and for
    [auto]; at the second position, just after the preamble, for the
    value [preamble]; nowhere without the attribute or for another
    value. *)
Theorem C1_preamble_of_a_document n input v :
  Parse n Document input = Some (Returned v) ->
  exists frontmatter header pre secs attrs refs,
    document_parts input frontmatter header (pre ++ secs) /\
    no_section pre = true /\ all_sections secs = true /\
    v = VDocument attrs (toc_placed (header_toc header) (with_preamble pre secs)) refs.
Proof.
  intros (b & k & rest & H)%Parse_Returned.
  apply ref_inv in H as [-> [b0 H]]. open_rule_in H.
  apply act_inv in H as (er0 & v0 & H & Hf).
  apply seq_inv in H as (vs & -> & H).
  do 4 seq_step H. apply seq_nil_inv in H as [-> ->].
  apply lbl_inv in He as [-> [? He]].
  apply lbl_inv in He0 as [-> [? He0]].
  apply lbl_inv in He1 as [-> [? He1]].
  pose proof (EOF_matched _ _ _ _ _ _ He2) as ->.
  apply ref_inv in He2 as [-> _].
  pose proof He1 as Hstar.
  apply star_env in He1 as [-> [bs ->]].
  pose proof (eval_star_inv _ _ _ _ _ _ _ _ Hstar) as Hmany.
  pose proof (blocks_not_preamble _ _ _ _ _ _ Hmany) as Hno.
  apply blocks_shape in Hmany as [(pre & secs & -> & Hpre & Hsecs) _].
  simpl in Hf. eval_get Hf. unfold asList in Hf.
  apply NewDocument_placed in Hf as (attrs & refs & ->); [|done..].
  eexists _, _, pre, secs, attrs, refs. split; [|done].
  unfold document_parts. eauto 15.
Qed.

(** C1, counterexample: the claim says that the preamble is the first
    of the elements of the document; with the attribute [toc] in the
    header the table of contents is the first element and the preamble
    the second. *)
Lemma C1_toc_before_preamble_counterexample :
  map (fun v => (is_toc v, is_preamble v)) (elements_of (Parse 200 Document toc_document))
  = [(true, false); (false, true); (false, false)].
Proof. vm_compute. reflexivity. Qed.

Lemma C1_witness :
  exists v,
    Parse 200 Document
      (lines ["= Title"; ":toc: preamble"; ""; "foo"; ""; "== Section"; ""; "bar"])
    = Some (Returned v)
  /\ exists frontmatter header pre secs attrs refs,
    document_parts
      (lines ["= Title"; ":toc: preamble"; ""; "foo"; ""; "== Section"; ""; "bar"])
      frontmatter header (pre ++ secs) /\
    no_section pre = true /\ all_sections secs = true /\
    v = VDocument attrs (toc_placed (header_toc header) (with_preamble pre secs)) refs.
Proof.
  assert (H : exists v,
             Parse 200 Document
               (lines ["= Title"; ":toc: preamble"; ""; "foo"; ""; "== Section"; ""; "bar"])
             = Some (Returned v)) by (eexists; vm_compute; reflexivity).
  destruct H as [v H]. exists v. split; [exact H|].
  exact (C1_preamble_of_a_document _ _ _ H).
Defined.

(** The elements of this document: the preamble, the table of
    contents, the section. *)
Example toc_after_the_preamble :
  map (fun v => (is_toc v, is_preamble v, is_section v))
    (elements_of
       (Parse 200 Document
          (lines ["= Title"; ":toc: preamble"; ""; "foo"; ""; "== Section"; ""; "bar"])))
  = [(false, true, false); (true, false, false); (false, false, true)].
Proof. vm_compute. reflexivity. Qed.

(** The loop of [insertPreamble] does not stop at the first section: a
    block after a section would be taken into the preamble, and kept
    after it.  No parsed document has such a block. *)
Example insertPreamble_block_after_section :
  insertPreamble [VBlankLine; VSection 1 VNil []; VLiteralBlock "x"]
  = [VPreamble [VBlankLine; VLiteralBlock "x"]; VLiteralBlock "x"].
Proof. reflexivity. Qed.

(** ** C7: the verse blocks of a document

    The property [verse_ok] holds of every value of the grammar: the
    actions keep it. *)

Lemma all_ok_fix l :
  (fix all (l : list value) : Prop :=
     match l with [] => True | x :: l' => verse_ok x /\ all l' end) l <-> all_ok l.
Proof.
  induction l as [|x l IH]; [by split; [constructor|]|].
  rewrite Forall_cons. by rewrite IH.
Qed.

Lemma verse_ok_VList l : verse_ok (VList l) <-> all_ok l.
Proof. apply all_ok_fix. Qed.

Lemma env_ok_get b l : env_ok b -> verse_ok (get b l).
Proof.
  unfold get, env_get. intros Hb.
  assert (H : forall v, env_find l b = Some v -> verse_ok v).
  { induction Hb as [|[k w] b Hw Hb IH]; simpl; [done|].
    intros v. destruct (env_find l b) as [w'|]; [by intros [= <-]; apply IH|].
    destruct (String.eqb k l); [by intros [= <-]|done]. }
  destruct (env_find l b); [by apply H|done].
Qed.

Lemma env_ok_nil : env_ok [].
Proof. constructor. Qed.

Lemma all_ok_nil : all_ok [].
Proof. constructor. Qed.

Section Invariant.
Context {R : Type}.
Variable g : R -> expr R.

Abbreviation act_ok := (act_ok g).
Abbreviation acts_ok := (acts_ok g).

Lemma acts_ok_all es :
  (fix all (es : list (expr R)) : Prop :=
     match es with [] => True | e' :: es' => acts_ok e' /\ all es' end) es
  <-> Forall acts_ok es.
Proof.
  induction es as [|x l IH]; [by split; [constructor|]|].
  rewrite Forall_cons. by rewrite IH.
Qed.

Hypothesis grammar_ok : forall r, acts_ok (g r).

Lemma eval_ok :
  (forall e s o, eval g e s o -> acts_ok e -> result_ok o.2) /\
  (forall es s o, eval_seq g es s o -> Forall acts_ok es -> results_ok o.2) /\
  (forall es s o, eval_choice g es s o -> Forall acts_ok es -> result_ok o.2) /\
  (forall e s o, eval_many g e s o -> acts_ok e -> results_ok o.2).
Proof.
  apply eval_mutind; simpl; intros.
  - unfold p_lit in *. destruct (strip_prefix _ _); simplify_eq; simpl; [|done].
    split; [done|apply env_ok_nil].
  - unfold p_liti in *. destruct (strip_prefix_fold _ _) as [[? ?]|]; simplify_eq; simpl;
      [|done].
    split; [done|apply env_ok_nil].
  - unfold p_range in *. destruct s as [|c s]; simplify_eq; simpl; [done|].
    destruct (in_range _ _ _); simplify_eq; simpl; [|done]. split; [done|apply env_ok_nil].
  - unfold p_any in *. destruct s as [|c s]; simplify_eq; simpl; [done|].
    split; [done|apply env_ok_nil].
  - destruct o; simpl in *; [|done..].
    rewrite acts_ok_all in H0. specialize (H H0) as [? ?].
    split; [by apply verse_ok_VList|done].
  - rewrite acts_ok_all in H0. auto.
  - destruct o; simpl in *; [|done..]. specialize (H H0) as [? ?].
    split; [by apply verse_ok_VList|apply env_ok_nil].
  - destruct o as [[|v vs] ? ? ?| |]; simpl in *; try done. specialize (H H0) as [? ?].
    split; [by apply (proj2 (verse_ok_VList (v :: vs)))|apply env_ok_nil].
  - specialize (H H0) as [? ?]. split; [done|apply env_ok_nil].
  - split; [done|apply env_ok_nil].
  - done.
  - split; [done|apply env_ok_nil].
  - done.
  - done.
  - done.
  - split; [done|apply env_ok_nil].
  - done.
  - specialize (H H0) as [? ?]. split; [done|]. by repeat constructor.
  - done.
  - done.
  - destruct H0 as [Hf He]. specialize (H He).
    destruct o as [er [v b k r| |]]; simpl in *; [|done..].
    destruct H as [Hv Hb].
    destruct (f (sliceFrom s k) b) as [v'|v' m|m] eqn:Hfv; simpl; [| |done].
    + split; [|done]. eapply Hf; eauto.
    + split; [|done]. eapply Hf; eauto.
  - specialize (H (grammar_ok r)) as [? ?]. split; [done|apply env_ok_nil].
  - done.
  - done.
  - split; [apply all_ok_nil|apply env_ok_nil].
  - apply Forall_cons in H1 as [He Hes]. specialize (H He) as [? ?]. specialize (H0 Hes).
    destruct o; simpl in *; [|done..]. destruct H0 as [? ?].
    split; [by constructor|by apply Forall_app].
  - done.
  - done.
  - done.
  - apply Forall_cons in H0 as [He Hes]. specialize (H He) as [? ?].
    split; [done|apply env_ok_nil].
  - apply Forall_cons in H1 as [He Hes]. by apply H0.
  - done.
  - split; [apply all_ok_nil|apply env_ok_nil].
  - specialize (H H1) as [? ?]. specialize (H0 H1).
    destruct o; simpl in *; [|done..]. destruct H0 as [? ?].
    split; [by constructor|apply env_ok_nil].
  - done.
Qed.

End Invariant.

(** *** The property on the constructors *)

Lemma ok_OrderedListItem l p s els a : verse_ok (VOrderedListItem l p s els a) <-> all_ok els.
Proof. apply all_ok_fix. Qed.
Lemma ok_UnorderedListItem l s els : verse_ok (VUnorderedListItem l s els) <-> all_ok els.
Proof. apply all_ok_fix. Qed.
Lemma ok_LabeledListItem t els : verse_ok (VLabeledListItem t els) <-> all_ok els.
Proof. apply all_ok_fix. Qed.
Lemma ok_OrderedList a items : verse_ok (VOrderedList a items) <-> all_ok items.
Proof. apply all_ok_fix. Qed.
Lemma ok_UnorderedList a items : verse_ok (VUnorderedList a items) <-> all_ok items.
Proof. apply all_ok_fix. Qed.
Lemma ok_LabeledList a items : verse_ok (VLabeledList a items) <-> all_ok items.
Proof. apply all_ok_fix. Qed.
Lemma ok_Section l t els : verse_ok (VSection l t els) <-> all_ok els.
Proof. apply all_ok_fix. Qed.
Lemma ok_Preamble els : verse_ok (VPreamble els) <-> all_ok els.
Proof. apply all_ok_fix. Qed.
Lemma ok_Document a els refs : verse_ok (VDocument a els refs) <-> all_ok els.
Proof. apply all_ok_fix. Qed.
Lemma ok_DelimitedBlock a els :
  verse_ok (VDelimitedBlock a els) <->
  (a !! AttrBlockKind = Some (VBlockKind Verse) -> one_paragraph els) /\ all_ok els.
Proof. simpl. by rewrite all_ok_fix. Qed.

(** *** The assembly of the lists keeps the property *)

Lemma store_lookup_ok (st : store) p v : all_ok st -> st !! p = Some v -> verse_ok v.
Proof. intros H Hp. unfold store in *. by eapply Forall_lookup_1. Qed.

Lemma store_insert_ok (st : store) p v : all_ok st -> verse_ok v -> all_ok (<[ p := v ]> st).
Proof. intros H Hv. unfold store in *. by apply Forall_insert. Qed.

Lemma add_child_ok ptr item (st st' : store) :
  all_ok st -> verse_ok item -> add_child ptr item st = Some st' -> all_ok st'.
Proof.
  unfold add_child. intros Hst Hi H.
  destruct (st !! ptr) as [v|] eqn:Hv; [|done].
  pose proof (store_lookup_ok _ _ _ Hst Hv) as Hok.
  destruct v; try done; simplify_eq; (apply store_insert_ok; [done|]).
  - apply ok_OrderedListItem, Forall_app. split; [by apply ok_OrderedListItem in Hok|by constructor].
  - apply ok_UnorderedListItem, Forall_app. split; [by apply ok_UnorderedListItem in Hok|by constructor].
  - apply ok_LabeledListItem, Forall_app. split; [by apply ok_LabeledListItem in Hok|by constructor].
Qed.

Lemma applyAttributes_ok ptr (st st' : store) :
  all_ok st -> applyAttributes ptr st = Some st' -> all_ok st'.
Proof.
  unfold applyAttributes. intros Hst H.
  destruct (st !! ptr) as [v|] eqn:Hv; [|done].
  pose proof (store_lookup_ok _ _ _ Hst Hv) as Hok.
  destruct v; try done. destruct Elements; [done|]. simplify_eq.
  apply store_insert_ok; [done|]. apply ok_OrderedListItem. by apply ok_OrderedListItem in Hok.
Qed.

Lemma renumber_ok items : forall idx ptr0 (st : store) acc r (st' : store),
  all_ok st -> all_ok acc ->
  renumber items idx ptr0 st acc = Some (r, st') -> all_ok r /\ all_ok st'.
Proof.
  induction items as [|ptr items IH]; intros idx ptr0 st acc r st' Hst Hacc H;
    [simpl in H; by simplify_eq|].
  apply renumber_cons in H
    as (l0 & p0 & ns0 & els0 & at0 & l & p & ns & els & at_ & Hv0 & Hv & H).
  pose proof (store_lookup_ok _ _ _ Hst Hv) as Hok.
  assert (Hi : verse_ok (VOrderedListItem l (Go.int_add p0 idx) ns0 els at_)).
  { apply ok_OrderedListItem. by apply ok_OrderedListItem in Hok. }
  eapply IH in H; [done|by apply store_insert_ok|].
  apply Forall_app. split; [done|by constructor].
Qed.

Lemma toOrderedList_ok items (st : store) v (st' : store) :
  all_ok st -> toOrderedList items st = Some (v, st') -> verse_ok v /\ all_ok st'.
Proof.
  unfold toOrderedList. intros Hst H. destruct items as [|ptr0 items].
  { simplify_eq. split; [|done]. apply ok_OrderedList. constructor. }
  destruct (applyAttributes ptr0 st) as [st1|] eqn:Ha; [|done].
  apply applyAttributes_ok in Ha; [|done].
  destruct (renumber _ _ _ _ _) as [[vs st2]|] eqn:Hr; [|done]. simplify_eq.
  apply renumber_ok in Hr as [? ?]; [|done|constructor].
  split; [|done]. by apply ok_OrderedList.
Qed.

Lemma copies_ok items (st : store) vs : all_ok st -> copies items st = Some vs -> all_ok vs.
Proof.
  intros Hst. revert vs. induction items as [|ptr items IH]; intros vs H; simpl in H.
  { simplify_eq. constructor. }
  destruct (st !! ptr) as [v|] eqn:Hv; [|done].
  destruct (copies items st) as [vs'|]; [|done]. simplify_eq.
  constructor; [by eapply store_lookup_ok|by apply IH].
Qed.

Lemma ordered_step_ok st ptr st' :
  all_ok (ol_store st) -> ordered_step st ptr = Done st' -> all_ok (ol_store st').
Proof.
  unfold ordered_step. intros Hst H.
  destruct (ol_store st !! ptr) as [v|] eqn:Hv; [|done].
  pose proof (store_lookup_ok _ _ _ Hst Hv) as Hok.
  destruct v; try done. destruct Elements as [|e els]; [done|].
  destruct (adjust_level _ _ _) as [l' lps].
  match type of H with
  | match ?f with _ => _ end = _ => destruct f as [[st4 buf]|] eqn:Hflush; [|done]
  end.
  simplify_eq. simpl.
  assert (H1 : all_ok (<[ ptr := VOrderedListItem l' Position NumberingStyle (e :: els)
                                   Attributes ]> (ol_store st))).
  { apply store_insert_ok; [done|].
    apply ok_OrderedListItem. by apply ok_OrderedListItem in Hok. }
  destruct (l' <? previousLevel st)%Z; [|by simplify_eq].
  destruct (last _) as [parent|]; [|done].
  destruct (layer _ _) as [|c cs]; [done|].
  destruct (toOrderedList _ _) as [[childList st2]|] eqn:Hto; [|done].
  destruct (add_child _ _ _) as [st3|] eqn:Hadd; [|done]. simplify_eq.
  apply toOrderedList_ok in Hto as [? ?]; [|done].
  refine (add_child_ok _ _ _ _ _ _ Hadd); done.
Qed.

Lemma ordered_scan_ok elements : forall st st',
  all_ok (ol_store st) -> ordered_scan st elements = Done st' -> all_ok (ol_store st').
Proof.
  induction elements as [|ptr rest IH]; intros st st' Hst H; simpl in H; [by simplify_eq|].
  destruct (ordered_step st ptr) as [st1| |] eqn:Hs; try done.
  eapply IH; [|done]. by eapply ordered_step_ok.
Qed.

Lemma top_items_ok items : forall idx ptr0 (st : store) acc r (st' : store),
  all_ok st -> all_ok acc ->
  top_items items idx ptr0 st acc = Some (r, st') -> all_ok r /\ all_ok st'.
Proof.
  induction items as [|ptr items IH]; intros idx ptr0 st acc r st' Hst Hacc H;
    [simpl in H; by simplify_eq|].
  apply top_items_cons in H
    as (l0 & p0 & ns0 & els0 & at0 & l & p & ns & els & at_ & Hv0 & Hv & H).
  pose proof (store_lookup_ok _ _ _ Hst Hv) as Hok.
  assert (Hi : verse_ok (VOrderedListItem l (Go.int_add p0 idx) ns els at_)).
  { apply ok_OrderedListItem. by apply ok_OrderedListItem in Hok. }
  eapply IH in H; [done|by apply store_insert_ok|].
  apply Forall_app. split; [done|by constructor].
Qed.

Lemma ordered_rest_ok n : forall b (st : store) result r (st' : store),
  all_ok st -> all_ok result ->
  ordered_rest n b st result = Some (r, st') -> all_ok r /\ all_ok st'.
Proof.
  induction n as [|level IH]; intros b st result r st' Hst Hres H; simpl in H.
  { by simplify_eq. }
  destruct level as [|level'].
  - destruct (layer b (Z.of_nat 0)) as [|ptr0 items] eqn:Hl;
      [exact (IH _ _ _ _ _ Hst Hres H)|].
    destruct (top_items _ _ _ _ _) as [[vs st1]|] eqn:Ht; [|done].
    apply top_items_ok in Ht as [? ?]; [|done|constructor].
    refine (IH _ _ _ _ _ _ _ H); [done|]. by apply Forall_app.
  - destruct (toOrderedList _ _) as [[childList st1]|] eqn:Hto; [|done].
    destruct (last _) as [parent|]; [|done].
    destruct (add_child _ _ _) as [st2|] eqn:Hadd; [|done].
    apply toOrderedList_ok in Hto as [? ?]; [|done].
    refine (IH _ _ _ _ _ _ Hres H). refine (add_child_ok _ _ _ _ _ _ Hadd); done.
Qed.

Lemma NewOrderedList_ok elements attributes (st : store) l (st' : store) :
  all_ok st -> NewOrderedList elements attributes st = Done (l, st') ->
  verse_ok l /\ all_ok st'.
Proof.
  unfold NewOrderedList. intros Hst H.
  destruct (ordered_scan _ _) as [s| |] eqn:Hscan; try done.
  destruct (ordered_rest _ _ _ _) as [[result st1]|] eqn:Hrest; [|done]. simplify_eq.
  apply ordered_scan_ok in Hscan; [|done].
  apply ordered_rest_ok in Hrest as [? ?]; [|done|constructor].
  split; [|done]. by apply ok_OrderedList.
Qed.

Lemma unordered_flush_ok n : forall l b (st st' : store) b',
  all_ok st -> unordered_flush n l b st = Some (st', b') -> all_ok st'.
Proof.
  induction n as [|n IH]; intros l b st st' b' Hst H; simpl in H; [by simplify_eq|].
  destruct (last _) as [parent|]; [|done].
  destruct (copies _ _) as [items|] eqn:Hc; [|done].
  destruct (add_child _ _ _) as [st1|] eqn:Hadd; [|done].
  apply copies_ok in Hc; [|done].
  refine (IH _ _ _ _ _ _ H). refine (add_child_ok _ _ _ _ Hst _ Hadd).
  by apply ok_UnorderedList.
Qed.

Lemma unordered_step_ok st ptr st' :
  all_ok (ul_store st) -> unordered_step st ptr = Done st' -> all_ok (ul_store st').
Proof.
  unfold unordered_step. intros Hst H.
  destruct (ul_store st !! ptr) as [v|] eqn:Hv; [|done].
  pose proof (store_lookup_ok _ _ _ Hst Hv) as Hok.
  destruct v; try done. destruct Elements as [|e els]; [done|].
  assert (Hi : forall l' style', verse_ok (VUnorderedListItem l' style' (e :: els))).
  { intros l' style'. apply ok_UnorderedListItem. by apply ok_UnorderedListItem in Hok. }
  destruct (ul_previousLevel st <? _)%Z;
    [|destruct (negb _); [destruct (ul_levelPerStyle st !! _)|]];
    (destruct (unordered_flush _ _ _ _) as [[st2 buf]|] eqn:Hflush; [|done]);
    simplify_eq; simpl;
    refine (unordered_flush_ok _ _ _ _ _ _ _ Hflush);
    by apply store_insert_ok.
Qed.

Lemma unordered_scan_ok elements : forall st st',
  all_ok (ul_store st) -> unordered_scan st elements = Done st' -> all_ok (ul_store st').
Proof.
  induction elements as [|ptr rest IH]; intros st st' Hst H; simpl in H; [by simplify_eq|].
  destruct (unordered_step st ptr) as [st1| |] eqn:Hs; try done.
  eapply IH; [|done]. by eapply unordered_step_ok.
Qed.

Lemma unordered_rest_ok n : forall b (st : store) result r (st' : store),
  all_ok st -> all_ok result ->
  unordered_rest n b st result = Some (r, st') -> all_ok r /\ all_ok st'.
Proof.
  induction n as [|level IH]; intros b st result r st' Hst Hres H; simpl in H.
  { by simplify_eq. }
  destruct (copies _ _) as [items|] eqn:Hc; [|done].
  apply copies_ok in Hc; [|done].
  destruct level as [|level'].
  - refine (IH _ _ _ _ _ Hst _ H). by apply Forall_app.
  - destruct (last _) as [parent|]; [|done].
    destruct (add_child _ _ _) as [st2|] eqn:Hadd; [|done].
    refine (IH _ _ _ _ _ _ Hres H). refine (add_child_ok _ _ _ _ Hst _ Hadd).
    by apply ok_UnorderedList.
Qed.

Lemma NewUnorderedList_ok elements attributes (st : store) l (st' : store) :
  all_ok st -> NewUnorderedList elements attributes st = Done (l, st') ->
  verse_ok l /\ all_ok st'.
Proof.
  unfold NewUnorderedList. intros Hst H.
  destruct (unordered_scan _ _) as [s| |] eqn:Hscan; try done.
  destruct (unordered_rest _ _ _ _) as [[result st1]|] eqn:Hrest; [|done]. simplify_eq.
  apply unordered_scan_ok in Hscan; [|done].
  apply unordered_rest_ok in Hrest as [? ?]; [|done|constructor].
  split; [|done]. by apply ok_UnorderedList.
Qed.

Lemma labeled_items_ok elements (st : store) : all_ok st -> all_ok (labeled_items elements st).
Proof.
  intros Hst. induction elements as [|ptr rest IH]; simpl; [constructor|].
  destruct (st !! ptr) as [v|] eqn:Hv; [|done].
  pose proof (store_lookup_ok _ _ _ Hst Hv) as Hok.
  destruct v; try done. by constructor.
Qed.

Lemma newList_ok items attributes (st : store) l (st' : store) :
  all_ok st -> newList items attributes st = Done (l, st') -> verse_ok l /\ all_ok st'.
Proof.
  unfold newList. intros Hst H. destruct items as [|ptr items]; [done|].
  destruct (st !! ptr) as [v|]; [|done].
  destruct (type_of v) as [[| |]|]; [| | |done].
  - by eapply NewOrderedList_ok.
  - by eapply NewUnorderedList_ok.
  - unfold NewLabeledList in H. simplify_eq. split; [|done].
    apply ok_LabeledList. by apply (labeled_items_ok (ptr :: items)).
Qed.

Lemma list_step_ok rootType st ptr st' :
  all_ok (l_store st) -> list_step rootType st ptr = Done st' -> all_ok (l_store st').
Proof.
  unfold list_step. intros Hst H.
  destruct (l_store st !! ptr) as [v|]; [|done].
  destruct (type_of v) as [currentType|]; [|done].
  match type of H with
  | match ?x with _ => _ end = _ => destruct x as [[[st1 buf] stk]| |] eqn:Hsw; [|done..]
  end.
  simplify_eq. simpl.
  destruct (_ && _); [|by simplify_eq].
  destruct (newList _ _ _) as [[sublist st2]| |] eqn:Hn; [|done..].
  destruct (last _) as [parentItem|]; [|done].
  destruct (add_child _ _ _) as [st3|] eqn:Hadd; [|done]. simplify_eq.
  apply newList_ok in Hn as [? ?]; [|done].
  refine (add_child_ok _ _ _ _ _ _ Hadd); done.
Qed.

Lemma list_scan_ok rootType elements : forall st st',
  all_ok (l_store st) -> list_scan rootType st elements = Done st' -> all_ok (l_store st').
Proof.
  induction elements as [|ptr rest IH]; intros st st' Hst H; simpl in H; [by simplify_eq|].
  destruct (list_step rootType st ptr) as [st1| |] eqn:Hs; try done.
  eapply IH; [|done]. by eapply list_step_ok.
Qed.

Lemma list_rest_ok rev_stack : forall buf (st st' : store),
  all_ok st -> list_rest rev_stack buf st = Done st' -> all_ok st'.
Proof.
  induction rev_stack as [|t below IH]; intros buf st st' Hst H; cbn [list_rest] in H;
    [by simplify_eq|].
  destruct below as [|t' below']; [by simplify_eq|].
  destruct (buf t) as [|i items] eqn:Hb; [exact (IH _ _ _ Hst H)|].
  destruct (last _) as [parentItem|]; [|done].
  destruct (newList _ _ _) as [[sublist st1]| |] eqn:Hn; [|done..].
  destruct (add_child _ _ _) as [st2|] eqn:Hadd; [|done].
  apply newList_ok in Hn as [? ?]; [|done].
  refine (IH _ _ _ _ H). refine (add_child_ok _ _ _ _ _ _ Hadd); done.
Qed.

(** *** The results of the actions *)

Lemma leaf_ok v : leaf v = true -> verse_ok v.
Proof. by destruct v. Qed.

Lemma leaf_result_ok a : leaf_result a -> ok_result a.
Proof. destruct a; simpl; auto using leaf_ok. Qed.

Lemma leaf_bind a k : (forall v, leaf_result (k v)) -> leaf_result (bind a k).
Proof. intros H. destruct a; simpl; auto. Qed.

Lemma ok_bind a k :
  ok_result a -> (forall v, verse_ok v -> ok_result (k v)) -> ok_result (bind a k).
Proof. intros Ha H. destruct a; simpl in *; auto. Qed.

Lemma ok_asList v k :
  verse_ok v -> (forall l, all_ok l -> ok_result (k l)) -> ok_result (asList v k).
Proof. intros Hv H. destruct v; try done. simpl. by apply H, verse_ok_VList. Qed.

Lemma leaf_asList v k : (forall l, leaf_result (k l)) -> leaf_result (asList v k).
Proof. intros H. destruct v; try done. apply H. Qed.

Lemma leaf_asStr v k : (forall t, leaf_result (k t)) -> leaf_result (asStr v k).
Proof. intros H. destruct v; try done. apply H. Qed.

Lemma leaf_asMap v k : (forall m, leaf_result (k m)) -> leaf_result (asMap v k).
Proof. intros H. destruct v; try done. apply H. Qed.

Lemma leaf_asInlineElements v k :
  (forall l, leaf_result (k l)) -> leaf_result (asInlineElements v k).
Proof. intros H. destruct v; try done. apply H. Qed.

Lemma leaf_asAdmonitionKind v k :
  (forall a, leaf_result (k a)) -> leaf_result (asAdmonitionKind v k).
Proof. intros H. destruct v; try done. apply H. Qed.

Lemma leaf_asImageMacro v k : (forall w, leaf_result (k w)) -> leaf_result (asImageMacro v k).
Proof. intros H. destruct v; try done. apply H. Qed.

Lemma leaf_asDocumentAuthor v k :
  (forall w, leaf_result (k w)) -> leaf_result (asDocumentAuthor v k).
Proof. intros H. destruct v; try done. apply H. Qed.

Lemma ok_asSectionTitle v k :
  (forall w, ok_result (k w)) -> ok_result (asSectionTitle v k).
Proof. intros H. destruct v; try done. apply H. Qed.

Lemma leaf_stringify l fns : leaf_result (stringify l fns).
Proof. unfold stringify. by destruct (text_of _). Qed.

Lemma leaf_stringify_inv l fns v :
  stringify l fns = Ret v -> exists t, v = VStr t.
Proof. unfold stringify. destruct (text_of _); intros; simplify_eq; eauto. Qed.

Ltac leaf_cases :=
  repeat first
    [ done
    | match goal with
      | |- context [match stringify ?l ?f with _ => _ end] =>
          let E := fresh in
          destruct (stringify l f) as [?|? ?|?] eqn:E;
          [apply leaf_stringify_inv in E as [? ->]| |]
      | |- context [match ?x with _ => _ end] => is_var x; destruct x
      | |- context [if ?x then _ else _] => destruct x
      | |- context [match ?x with _ => _ end] => destruct x eqn:?
      end
    | progress simpl ].

Lemma leaf_NewElementTitle l : leaf_result (NewElementTitle l).
Proof. unfold NewElementTitle. leaf_cases. Qed.
Lemma leaf_NewGenericAttribute k v : leaf_result (NewGenericAttribute k v).
Proof. unfold NewGenericAttribute. leaf_cases. Qed.
Lemma leaf_NewLink u a : leaf_result (NewLink u a).
Proof. unfold NewLink. leaf_cases. Qed.
Lemma leaf_NewLinkAttributes t o : leaf_result (NewLinkAttributes t o).
Proof. unfold NewLinkAttributes. leaf_cases. Qed.
Lemma leaf_NewImageAttributes a w h o : leaf_result (NewImageAttributes a w h o).
Proof. unfold NewImageAttributes. leaf_cases. Qed.
Lemma leaf_NewSingleLineComment c : leaf_result (NewSingleLineComment c).
Proof. unfold NewSingleLineComment. leaf_cases. Qed.
Lemma leaf_NewLiteralBlock s c : leaf_result (NewLiteralBlock s c).
Proof. unfold NewLiteralBlock. leaf_cases. Qed.
Lemma leaf_NewDocumentAttributeDeclaration n v :
  leaf_result (NewDocumentAttributeDeclaration n v).
Proof. unfold NewDocumentAttributeDeclaration. leaf_cases. Qed.
Lemma leaf_NewDocumentAttributeReset n : leaf_result (NewDocumentAttributeReset n).
Proof. unfold NewDocumentAttributeReset. leaf_cases. Qed.
Lemma leaf_NewDocumentAttributeSubstitution n :
  leaf_result (NewDocumentAttributeSubstitution n).
Proof. unfold NewDocumentAttributeSubstitution. leaf_cases. Qed.
Lemma leaf_NewDocumentHeader h a r o : leaf_result (NewDocumentHeader h a r o).
Proof.
  destruct h; try exact I; (destruct a; try exact I; (destruct r; first [exact I|reflexivity])).
Qed.
Lemma leaf_NewDocumentAuthors a : leaf_result (NewDocumentAuthors a).
Proof. unfold NewDocumentAuthors. by destruct (all_authors a). Qed.
Lemma leaf_NewDocumentAuthor p1 p2 p3 e : leaf_result (NewDocumentAuthor p1 p2 p3 e).
Proof.
  unfold NewDocumentAuthor. repeat (apply leaf_bind; intros ?).
  destruct v; try exact I; (destruct v0; try exact I;
    (destruct v1; try exact I; (destruct v2; try exact I))).
  repeat match goal with
  | |- context [if ?x then _ else _] => destruct x
  | |- context [initials ?a ?b] => destruct (initials a b)
  end; done.
Qed.
Lemma leaf_NewDocumentRevision n d r : leaf_result (NewDocumentRevision n d r).
Proof.
  unfold NewDocumentRevision. repeat (apply leaf_bind; intros ?).
  destruct v; try exact I; (destruct v0; try exact I;
    (destruct v1; first [exact I|reflexivity])).
Qed.
Lemma leaf_NewYamlFrontMatter c : leaf_result (NewYamlFrontMatter c).
Proof. unfold NewYamlFrontMatter. by destruct (yaml_lines _ _). Qed.

Lemma ok_NewSection level title blocks :
  all_ok blocks -> ok_result (NewSection level title blocks).
Proof. intros H. by apply ok_Section. Qed.

Lemma ok_NewDelimitedBlock_None kind content attributes :
  kind <> Verse -> all_ok content ->
  ok_result (NewDelimitedBlock kind content attributes None_).
Proof.
  intros Hk Hc. unfold NewDelimitedBlock, None_, nilSafe. apply ok_DelimitedBlock.
  split; [|done]. rewrite lookup_insert_eq. intros [= ?]. done.
Qed.

Lemma Verbatim_from_ok content r : Verbatim_from content = Some r -> all_ok r.
Proof.
  revert r. induction content as [|x content IH]; intros r H; simpl in H.
  { simplify_eq. constructor. }
  destruct (Verbatim_from content) as [r'|].
  - destruct x; try (simplify_eq; constructor; [done|by apply IH]).
    destruct (stringify _ _) as [[]| |]; simplify_eq. constructor; [done|by apply IH].
  - destruct x; try done. by destruct (stringify _ _) as [[]| |].
Qed.

Lemma ok_NewDelimitedBlock_Verbatim content attributes :
  ok_result (NewDelimitedBlock Comment content attributes Verbatim).
Proof.
  unfold NewDelimitedBlock, Verbatim.
  destruct (Verbatim_from content) as [r|] eqn:Hr; simpl.
  - apply ok_DelimitedBlock. split; [|by eapply Verbatim_from_ok].
    rewrite lookup_insert_eq. intros [= ?].
  - apply ok_DelimitedBlock. split; [|constructor]. by rewrite lookup_empty.
Qed.

Lemma NewListItemContent_from_ok content :
  all_ok content -> all_ok (NewListItemContent_from content).
Proof.
  induction 1 as [|x content Hx Hc IH]; simpl; [constructor|].
  destruct x; try (by constructor); try done. apply Forall_app. split; [|done].
  by apply verse_ok_VList.
Qed.

Lemma ok_NewListItemContent content :
  all_ok content -> ok_result (NewListItemContent content).
Proof. intros H. by apply verse_ok_VList, NewListItemContent_from_ok. Qed.

Lemma ok_NewOrderedListItem prefix elements attributes :
  all_ok elements -> ok_result (NewOrderedListItem prefix elements attributes).
Proof. intros H. destruct prefix; try exact I. by apply ok_OrderedListItem. Qed.

Lemma ok_NewUnorderedListItem prefix elements :
  all_ok elements -> ok_result (NewUnorderedListItem prefix elements).
Proof. intros H. destruct prefix; try exact I. by apply ok_UnorderedListItem. Qed.

Lemma ok_NewLabeledListItem term elements :
  all_ok elements -> ok_result (NewLabeledListItem term elements).
Proof.
  intros H. unfold NewLabeledListItem.
  destruct (stringify term []) as [v|v m|m] eqn:E; [|apply ok_LabeledListItem; constructor..].
  apply leaf_stringify_inv in E as [t ->]. by apply ok_LabeledListItem.
Qed.

Lemma ok_NewEscapedQuotedText backslashes punctuation content :
  all_ok content -> ok_result (NewEscapedQuotedText backslashes punctuation content).
Proof.
  intros H. unfold NewEscapedQuotedText. apply ok_bind.
  { apply leaf_result_ok, leaf_stringify. }
  intros v Hv. apply verse_ok_VList. repeat constructor; try done.
  by apply verse_ok_VList.
Qed.

Lemma ok_NewList elements attributes :
  all_ok elements -> ok_result (NewList elements attributes).
Proof.
  intros H. unfold NewList.
  destruct elements as [|first rest]; [done|].
  destruct (type_of first) as [rootType|]; [|done].
  destruct (list_scan _ _ _) as [s| |] eqn:Hs; [|done..].
  apply list_scan_ok in Hs; [|done].
  destruct (list_rest _ _ _) as [st'| |] eqn:Hr; [|done..].
  apply list_rest_ok in Hr; [|done].
  destruct (newList _ _ _) as [[l st'']| |] eqn:Hn; [|done..].
  by apply newList_ok in Hn as [? ?].
Qed.

Lemma preamble_elements_ok blocks : forall acc,
  all_ok blocks -> all_ok acc -> all_ok (preamble_elements blocks acc).
Proof.
  induction blocks as [|x blocks IH]; intros acc Hb Hacc; simpl; [done|].
  apply Forall_cons in Hb as [Hx Hb].
  destruct (is_section x); apply IH; try done. apply Forall_app. by split; [|constructor].
Qed.

Lemma insertPreamble_ok blocks : all_ok blocks -> all_ok (insertPreamble blocks).
Proof.
  intros H. unfold insertPreamble, nilSafe.
  destruct (_ || _); [done|]. constructor.
  - apply ok_Preamble, preamble_elements_ok; [done|constructor].
  - by apply Forall_drop.
Qed.

Lemma insert_toc_ok attrValue elements els :
  all_ok elements -> insert_toc attrValue elements = Some els -> all_ok els.
Proof.
  intros H. unfold insert_toc.
  assert (Hpre : forall i,
             all_ok (take i elements ++ VTableOfContentsMacro :: drop i elements)%list).
  { intros i. apply Forall_app. split; [by apply Forall_take|].
    constructor; [done|by apply Forall_drop]. }
  assert (Hsome : forall t, match elements with
                            | [] => None
                            | _ => Some (take t elements ++ VTableOfContentsMacro :: drop t elements)%list
                            end = Some els -> all_ok els).
  { intros t. destruct elements; [done|]. intros [= <-]. apply Hpre. }
  assert (Hfirst : Some (VTableOfContentsMacro :: elements) = Some els -> all_ok els).
  { intros [= <-]. by constructor. }
  assert (Hsame : Some elements = Some els -> all_ok els).
  { by intros [= <-]. }
  destruct attrValue; try exact Hsame.
  repeat match goal with
  | |- context [match ?x with _ => _ end] => is_var x; destruct x; try exact Hsame;
      try exact Hfirst
  | |- context [if ?x then _ else _] => is_var x; destruct x; try exact Hsame;
      try exact Hfirst
  end; try apply (Hsome (default 0 (index_of_preamble elements) + 1)%nat);
    try done; intros [= <-]; apply Hpre.
Qed.

Lemma ok_NewDocument frontmatter header blocks :
  all_ok blocks -> ok_result (NewDocument frontmatter header blocks).
Proof.
  intros H%insertPreamble_ok. unfold NewDocument.
  generalize dependent (insertPreamble blocks). intros elements H.
  assert (Hc : forall (content : gmap string value) a,
             ok_result
               match match content !! "toc" with
                     | Some attrValue => insert_toc attrValue elements
                     | None => Some elements
                     end with
               | Some els =>
                   Ret (VDocument (map_put_all content a) els
                          (fold_left (fun refs e => collect e refs) els ∅))
               | None => Panics "makeslice: len out of range"
               end).
  { intros content a. destruct (content !! "toc") as [attrValue|].
    - destruct (insert_toc attrValue elements) as [els|] eqn:He; [|done].
      apply ok_Document. by eapply insert_toc_ok.
    - by apply ok_Document. }
  destruct frontmatter; try exact I; (destruct header; try exact I; apply Hc).
Qed.

(** *** The actions of the grammar *)

Lemma act_ok_result (e : expr rule) f :
  (forall text b, env_ok b -> ok_result (f text b)) -> act_ok grammar e f.
Proof.
  intros H s er v0 b k r v _ _ Hb [Hf|[m Hf]]; specialize (H (sliceFrom s k) b Hb);
    by rewrite Hf in H.
Qed.

Lemma act_ok_leaf (e : expr rule) f :
  (forall text b, leaf_result (f text b)) -> act_ok grammar e f.
Proof. intros H. apply act_ok_result. intros text b _. apply leaf_result_ok, H. Qed.

Lemma act_ok_label (e : expr rule) l : act_ok grammar e (label l).
Proof. apply act_ok_result. intros text b Hb. by apply env_ok_get. Qed.

Create HintDb leaf.
#[local] Hint Resolve leaf_NewElementTitle leaf_NewGenericAttribute leaf_NewLink
  leaf_NewLinkAttributes leaf_NewImageAttributes leaf_NewSingleLineComment
  leaf_NewLiteralBlock leaf_NewDocumentAttributeDeclaration leaf_NewDocumentAttributeReset
  leaf_NewDocumentAttributeSubstitution leaf_NewDocumentHeader leaf_NewDocumentAuthors
  leaf_NewDocumentAuthor leaf_NewDocumentRevision leaf_NewYamlFrontMatter : leaf.

Ltac leaf_act :=
  apply act_ok_leaf; intros ? ?; cbv beta;
  repeat first
    [ apply leaf_asList; intros ?
    | apply leaf_asStr; intros ?
    | apply leaf_asMap; intros ?
    | apply leaf_asInlineElements; intros ?
    | apply leaf_asAdmonitionKind; intros ?
    | apply leaf_asImageMacro; intros ?
    | apply leaf_asDocumentAuthor; intros ? ];
  first [ reflexivity | solve [auto with leaf] ].

Ltac ok_act tac :=
  apply act_ok_result; intros ? ? ?; cbv beta;
  repeat first
    [ apply ok_asList; [by apply env_ok_get|intros ? ?]
    | apply ok_asSectionTitle; intros ? ];
  tac.

Ltac open_acts :=
  lazymatch goal with
  | |- @acts_ok ?R ?g ?e => let e' := open_expr e in change (@acts_ok R g e')
  end;
  cbv [acts_ok];
  repeat match goal with |- _ /\ _ => split end; try exact I.

Lemma VerseBlock_act_ok e f :
  grammar VerseBlock = Act e f -> act_ok grammar e f.
Proof.
  intros Hg s er v0 b k r v Heval _ _ Hf.
  assert (H : exists er', eval grammar (Ref VerseBlock) s (er', Matched v [] k r)).
  { destruct Hf as [Hf|[m Hf]].
    - exists er. eapply E_Ref_some. rewrite Hg. eapply eval_as; [apply E_Act, Heval|].
      simpl. by rewrite Hf.
    - exists (er ++ [m])%list. eapply E_Ref_some. rewrite Hg.
      eapply eval_as; [apply E_Act, Heval|]. simpl. by rewrite Hf. }
  destruct H as [er' H]. apply VerseBlock_shape in H as (attrs & lines & -> & _).
  apply ok_DelimitedBlock. split; [intros _; by eexists _, _|by repeat constructor].
Qed.

Lemma grammar_acts_ok r : acts_ok grammar (grammar r).
Proof.
  destruct r; open_acts; try apply act_ok_label; try (solve [leaf_act]);
    try (by apply VerseBlock_act_ok).
  all: ok_act ltac:(first [ by apply ok_NewSection
                          | by apply ok_NewDelimitedBlock_None
                          | by apply ok_NewDelimitedBlock_Verbatim
                          | by apply ok_NewListItemContent
                          | by apply ok_NewOrderedListItem
                          | by apply ok_NewUnorderedListItem
                          | by apply ok_NewLabeledListItem
                          | by apply ok_NewEscapedQuotedText
                          | apply ok_NewEscapedQuotedText; repeat constructor;
                            by apply verse_ok_VList
                          | by apply ok_NewList
                          | by apply ok_NewDocument ]).
Qed.

(** *** Every value of the grammar has the property *)

Lemma eval_verse_ok e s er v b k r :
  eval grammar e s (er, Matched v b k r) -> acts_ok grammar e -> verse_ok v.
Proof.
  intros H He.
  by destruct (proj1 (eval_ok grammar grammar_acts_ok) _ _ _ H He).
Qed.

Lemma verse_ok_children v : verse_ok v -> all_ok (children v).
Proof.
  destruct v; try (intros _; constructor); try (by intros ?%all_ok_fix).
  by intros [_ ?]%ok_DelimitedBlock.
Qed.

Lemma within_ok d v : within d v -> verse_ok d -> verse_ok v.
Proof.
  induction 1 as [|d c v Hc Hw IH]; [done|]. intros Hd. apply IH.
  apply verse_ok_children in Hd. rewrite Forall_forall in Hd. apply Hd.
  by apply list_elem_of_In.
Qed.

(** C7: in every parsed document, every delimited block of kind
    [Verse], at any depth among the blocks, has exactly one element,
    and this element is a paragraph; the paragraph of the empty verse
    block has no line. *)
Theorem C7_verse_block_has_one_paragraph :
  (forall n input doc attrs elements,
     Parse n Document input = Some (Returned doc) ->
     within doc (VDelimitedBlock attrs elements) ->
     attrs !! AttrBlockKind = Some (VBlockKind types.Verse) ->
     exists pattrs lines, elements = [VParagraph pattrs lines])
  /\ Parse 100 Document ("____" ++ nl ++ "____")
     = Some (Returned
               (VDocument ∅
                  [VDelimitedBlock {[ AttrBlockKind := VBlockKind types.Verse ]}
                     [VParagraph ∅ []]] ∅)).
Proof.
  split; [|vm_compute; reflexivity].
  intros n input doc attrs elements (b & k & rest & H)%Parse_Returned Hw Hk.
  apply eval_verse_ok in H; [|exact I].
  apply (within_ok _ _ Hw) in H. apply ok_DelimitedBlock in H as [H _]. by apply H.
Qed.

Lemma C7_witness :
  exists pattrs lines,
    [VParagraph ∅ [[VStringElement "a"]]] = [VParagraph pattrs lines].
Proof.
  destruct C7_verse_block_has_one_paragraph as [H _].
  apply (H 100%nat ("____" ++ nl ++ "a" ++ nl ++ "____")
           (VDocument ∅
              [VDelimitedBlock {[ AttrBlockKind := VBlockKind types.Verse ]}
                 [VParagraph ∅ [[VStringElement "a"]]]] ∅)
           {[ AttrBlockKind := VBlockKind types.Verse ]}).
  - vm_compute. reflexivity.
  - eapply within_child; [left; reflexivity|apply within_here].
  - vm_compute. reflexivity.
Defined.

(* ===================================================================== *)
(** * More properties of the code

    Properties of functions and rules that the claims above do not
    reach, each read off the source. *)

(** ** The attributes of an element *)

Lemma NewElementAttributes_from_union l : forall acc,
  NewElementAttributes_from l acc = NewElementAttributes_from l ∅ ∪ acc.
Proof.
  induction l as [|v l IH]; intros acc; simpl.
  - by rewrite (left_id_L ∅ (∪)).
  - destruct v; try apply IH.
    rewrite IH, (IH (map_put_all m ∅)). unfold map_put_all.
    by rewrite (right_id_L ∅ (∪)), (assoc_L (∪)).
Qed.

Lemma NewElementAttributes_from_app l1 l2 acc :
  NewElementAttributes_from (l1 ++ l2) acc
  = NewElementAttributes_from l2 (NewElementAttributes_from l1 acc).
Proof.
  revert acc. induction l1 as [|v l1 IH]; intros acc; simpl; [done|].
  destruct v; apply IH.
Qed.

(** X1: [NewElementAttributes] of attributes in two parts is the map of
    the later part over the map of the earlier part: under every key
    the value of the later part when it has one, the value of the
    earlier part otherwise. *)
Theorem NewElementAttributes_later_wins (earlier later : list value) (key : string) :
  NewElementAttributes (earlier ++ later)
  = NewElementAttributes later ∪ NewElementAttributes earlier
  /\ NewElementAttributes (earlier ++ later) !! key
     = match NewElementAttributes later !! key with
       | Some v => Some v
       | None => NewElementAttributes earlier !! key
       end.
Proof.
  assert (NewElementAttributes (earlier ++ later)
          = NewElementAttributes later ∪ NewElementAttributes earlier) as E.
  { unfold NewElementAttributes.
    by rewrite NewElementAttributes_from_app, NewElementAttributes_from_union. }
  split; [done|]. rewrite E, lookup_union.
  by destruct (NewElementAttributes later !! key), (NewElementAttributes earlier !! key).
Qed.

(** ** The preamble, for any list of blocks *)

Lemma preamble_elements_filter blocks : forall acc,
  preamble_elements blocks acc = (acc ++ List.filter not_section blocks)%list.
Proof.
  induction blocks as [|b blocks IH]; intros acc; simpl.
  - by rewrite app_nil_r.
  - unfold not_section at 1. destruct (is_section b); simpl; [apply IH|].
    rewrite IH. by rewrite <- app_assoc.
Qed.

Lemma filter_length_le {A} (f : A -> bool) (l : list A) :
  (length (List.filter f l) <= length l)%nat.
Proof. induction l as [|x l IH]; simpl; [lia|]. destruct (f x); simpl; lia. Qed.

Lemma filter_all_length {A} (f : A -> bool) (l : list A) :
  length (List.filter f l) = length l -> List.filter f l = l.
Proof.
  induction l as [|x l IH]; [done|]. simpl.
  destruct (f x); simpl.
  - intros [= H]. by rewrite IH.
  - intros H. pose proof (filter_length_le f l). lia.
Qed.

Lemma filter_nil_forallb {A} (f : A -> bool) (l : list A) :
  List.filter f l = [] <-> forallb (fun x => negb (f x)) l = true.
Proof.
  induction l as [|x l IH]; [done|]. simpl.
  destruct (f x); simpl; [split; done|exact IH].
Qed.

Lemma filter_idem {A} (f : A -> bool) (l : list A) :
  List.filter f (List.filter f l) = List.filter f l.
Proof.
  induction l as [|x l IH]; [done|]. simpl.
  destruct (f x) eqn:E; simpl; [|done]. by rewrite E, IH.
Qed.

Lemma all_sections_not (l : list value) :
  forallb (fun x => negb (not_section x)) l = all_sections l.
Proof.
  unfold all_sections, not_section. induction l as [|x l IH]; [done|]. simpl.
  by rewrite IH, negb_involutive.
Qed.

(** X2: when [insertPreamble] makes a preamble (of blocks without a
    Preamble among them), the preamble holds every block that is not a
    section, wherever it stands, and it is followed by the blocks after
    the first [n], [n] being the number of the blocks of the preamble.
    The blocks of the input are all kept, in their order, exactly when
    the blocks that follow the preamble are all sections; if not, a
    section that stands before a block of another kind is lost, and
    that block comes twice. *)
Theorem insertPreamble_keeps_or_loses_blocks (blocks pre rest : list value) :
  Forall (fun b => is_preamble b = false) blocks ->
  insertPreamble blocks = VPreamble pre :: rest ->
  pre = List.filter not_section blocks
  /\ rest = drop (length pre) blocks
  /\ ((pre ++ rest)%list = blocks <-> all_sections rest = true).
Proof.
  intros Hno H. unfold insertPreamble in H.
  rewrite preamble_elements_filter in H. simpl in H.
  set (p := List.filter not_section blocks) in *.
  destruct ((length p =? 0)%nat || (length p =? length blocks)%nat) eqn:Hc.
  - unfold nilSafe in H. subst blocks. by apply Forall_cons in Hno as [? _].
  - injection H as <- <-. split; [done|]. split; [done|].
    rewrite <- all_sections_not, <- filter_nil_forallb. split.
    + intros Heq.
      assert (List.filter not_section (p ++ drop (length p) blocks) = p) as E
          by (by rewrite Heq).
      rewrite List.filter_app in E. unfold p in E at 1. rewrite filter_idem in E.
      fold p in E. apply (f_equal length) in E. rewrite length_app in E.
      destruct (List.filter _ (drop _ _)); [done|simpl in E; lia].
    + intros Hf.
      assert (p = List.filter not_section (take (length p) blocks)) as Ep.
      { unfold p at 1. rewrite <- (take_drop (length p) blocks) at 1.
        by rewrite List.filter_app, Hf, app_nil_r. }
      assert (List.filter not_section (take (length p) blocks)
              = take (length p) blocks) as Et.
      { apply filter_all_length. rewrite <- Ep. rewrite length_take.
        pose proof (filter_length_le not_section blocks). fold p in H. lia. }
      rewrite Ep at 1. rewrite Et. apply take_drop.
Qed.

(** A section in front of a paragraph: the section is lost, the
    paragraph is in the preamble and after it. *)
Lemma insertPreamble_keeps_or_loses_blocks_witness :
  [VParagraph ∅ []] = List.filter not_section [VSection 1 VNil []; VParagraph ∅ []]
  /\ [VParagraph ∅ []]
     = drop (length [VParagraph ∅ []]) [VSection 1 VNil []; VParagraph ∅ []]
  /\ (([VParagraph ∅ []] ++ [VParagraph ∅ []])%list
      = [VSection 1 VNil []; VParagraph ∅ []]
      <-> all_sections [VParagraph ∅ []] = true).
Proof.
  apply (insertPreamble_keeps_or_loses_blocks
           [VSection 1 VNil []; VParagraph ∅ []] [VParagraph ∅ []] [VParagraph ∅ []]).
  - repeat constructor.
  - reflexivity.
Defined.

(** ** The table of contents after the preamble *)

Lemma index_of_preamble_none l :
  Forall (fun v => is_preamble v = false) l -> index_of_preamble l = None.
Proof.
  induction 1 as [|x l Hx _ IH]; [done|]. simpl. by rewrite Hx, IH.
Qed.

Lemma insertPreamble_sections blocks :
  all_sections blocks = true -> insertPreamble blocks = blocks.
Proof.
  intros H. unfold insertPreamble.
  by rewrite preamble_elements_sections.
Qed.

Lemma NewDocument_toc frontmatter content blocks attrValue els :
  (frontmatter = VNil \/ exists c, frontmatter = VFrontMatter c) ->
  content !! "toc" = Some attrValue ->
  insert_toc attrValue (insertPreamble blocks) = Some els ->
  document_elements (NewDocument frontmatter (VDocumentHeader content) blocks) = Some els.
Proof.
  intros Hf Ht Hi. unfold NewDocument. rewrite Ht, Hi.
  by destruct Hf as [-> | [c ->]].
Qed.

(** X3: [NewDocument] with the attribute [toc] of the header set to
    [preamble].  Without any block it panics (the length handed to
    [make] is negative).  When a preamble is made the table of contents
    is the second element, between the preamble and the sections.
    When no preamble is made (the blocks are all sections, or none is)
    the table of contents is the second element as well, after the
    first block. *)
Theorem NewDocument_toc_preamble (frontmatter : value) (content : gmap string value) :
  (frontmatter = VNil \/ exists c, frontmatter = VFrontMatter c) ->
  content !! "toc" = Some (VStr "preamble") ->
  NewDocument frontmatter (VDocumentHeader content) []
  = Panics "makeslice: len out of range"
  /\ (forall pre secs,
        pre <> [] -> secs <> [] -> no_section pre = true -> all_sections secs = true ->
        document_elements (NewDocument frontmatter (VDocumentHeader content) (pre ++ secs))
        = Some (VPreamble pre :: VTableOfContentsMacro :: secs))
  /\ (forall b rest,
        Forall (fun v => is_preamble v = false) (b :: rest) ->
        no_section (b :: rest) = true \/ all_sections (b :: rest) = true ->
        document_elements (NewDocument frontmatter (VDocumentHeader content) (b :: rest))
        = Some (b :: VTableOfContentsMacro :: rest)).
Proof.
  intros Hf Ht. split; [|split].
  - unfold NewDocument. rewrite Ht.
    by destruct Hf as [-> | [c ->]].
  - intros pre secs Hpre Hsecs Hn Hs.
    apply (NewDocument_toc _ _ _ _ _ Hf Ht).
    rewrite insertPreamble_split by done.
    destruct pre as [|p pre]; [done|]. destruct secs as [|s secs]; [done|].
    reflexivity.
  - intros b rest Hno Hor.
    apply (NewDocument_toc _ _ _ _ _ Hf Ht).
    assert (insertPreamble (b :: rest) = b :: rest) as ->.
    { destruct Hor as [H|H]; [by apply insertPreamble_no_section|by apply insertPreamble_sections]. }
    cbn -[index_of_preamble]. by rewrite index_of_preamble_none.
Qed.

Lemma NewDocument_toc_preamble_witness :
  NewDocument VNil (VDocumentHeader {[ "toc" := VStr "preamble" ]}) []
  = Panics "makeslice: len out of range"
  /\ document_elements
       (NewDocument VNil (VDocumentHeader {[ "toc" := VStr "preamble" ]})
          ([VParagraph ∅ []] ++ [VSection 1 VNil []]))
     = Some [VPreamble [VParagraph ∅ []]; VTableOfContentsMacro; VSection 1 VNil []]
  /\ document_elements
       (NewDocument VNil (VDocumentHeader {[ "toc" := VStr "preamble" ]})
          [VSection 1 VNil []; VSection 2 VNil []])
     = Some [VSection 1 VNil []; VTableOfContentsMacro; VSection 2 VNil []].
Proof.
  destruct (NewDocument_toc_preamble VNil {[ "toc" := VStr "preamble" ]})
    as (H1 & H2 & H3); [by left|reflexivity|].
  split; [exact H1|]. split.
  - apply H2; [discriminate|discriminate|reflexivity|reflexivity].
  - apply H3; [repeat constructor|by right].
Defined.


(** The same from the text of a document: a header that asks for the
    table of contents in the preamble and has no block after it does
    not parse, the panic of [NewDocument] is the error of the parse. *)
Example toc_preamble_without_block :
  Parse 200 Document (lines ["= T"; ":toc: preamble"])
  = Some (ParseError ["makeslice: len out of range"]).
Proof. vm_compute. reflexivity. Qed.

(** ** Lines of white space *)

Lemma Section_fails_on_blank ws t :
  all_bytes is_blank ws = true -> line_end t = true ->
  ws ++ t <> EmptyString ->
  eval grammar (Ref Section) (ws ++ t) ([], Failed).
Proof.
  intros Hws Ht Hne. destruct ws as [|a ws].
  - rewrite append_nil in *. apply line_end_inv in Ht as [->|[t' ->]]; [done|ev].
  - simpl in Hws. apply andb_true_iff in Hws as [Ha _]. rewrite append_cons.
    apply is_blank_inv in Ha as [-> | ->]; ev.
Qed.

Lemma EOF_fails a t : eval grammar (Ref EOF) (String a t) ([], Failed).
Proof. ev. Qed.

Lemma BlankLine_line ws t v k r :
  all_bytes is_blank ws = true -> ws ++ t <> EmptyString ->
  eval grammar (Ref WS) t ([], Failed) ->
  eval grammar (Ref EOL) t ([], Matched v [] k r) ->
  eval grammar (Ref BlankLine) (ws ++ t)
    ([], Matched VBlankLine [] (String.length ws + k)%nat r).
Proof.
  intros Hws Hne Hw He.
  eapply E_Ref_some. open_rule.
  eapply act_ret; [|reflexivity].
  apply seq_matched.
  apply (seq_cons grammar _ _ _ VNil [] 0%nat (ws ++ t)).
  { destruct (ws ++ t) as [|a u] eqn:E; [done|]. apply E_Not_none, EOF_fails. }
  eapply (seq_cons grammar _ _ _ _ [] (String.length ws) t).
  { apply star_matched, WS_many; done. }
  rewrite <- (Nat.add_0_r k).
  eapply (seq_cons grammar _ _ _ _ [] k r); [exact He|apply seq_nil].
Qed.

Lemma white_line_block ws t v k r :
  all_bytes is_blank ws = true ->
  line_end t = true -> ws ++ t <> EmptyString ->
  eval grammar (Ref EOL) t ([], Matched v [] k r) ->
  eval grammar block (ws ++ t)
    ([], Matched VBlankLine [] (String.length ws + k)%nat r).
Proof.
  intros Hws Ht Hne He. apply E_Choice.
  apply choice_next; [by apply Section_fails_on_blank|].
  eapply choice_first, E_Ref_some. open_rule.
  eapply act_ret.
  - apply seq_matched.
    apply (seq_cons grammar _ _ _ VNil [] 0%nat (ws ++ t)).
    { destruct (ws ++ t) as [|a u] eqn:E; [done|]. apply E_Not_none, EOF_fails. }
    rewrite <- (Nat.add_0_r (_ + k)).
    eapply (seq_cons grammar _ _ _ VBlankLine [("block", VBlankLine)] _ r); [|apply seq_nil].
    eapply E_Lbl_some, E_Choice, choice_first.
    apply (BlankLine_line ws t v k r); try done. by apply WS_fails_at_line_end.
  - reflexivity.
Qed.

(** X4: a line of spaces and tabs only is one block, a BlankLine:
    when a line feed ends it, and at the end of the input when the
    line is not empty.  No section and no literal block starts
    there. *)
Theorem blank_line_of_white_space (ws s : string) :
  all_bytes is_blank ws = true ->
  eval grammar block (ws ++ nl ++ s) ([], Matched VBlankLine [] (String.length ws + 1)%nat s)
  /\ (ws <> EmptyString ->
      eval grammar block ws ([], Matched VBlankLine [] (String.length ws) EmptyString)).
Proof.
  intros Hws. split.
  - apply (white_line_block ws (nl ++ s) (VBytes nl) 1%nat s); [done|done| |ev].
    by destruct ws.
  - intros Hne.
    pose proof (white_line_block ws EmptyString VNil 0%nat EmptyString) as H.
    rewrite append_empty_r, Nat.add_0_r in H. apply H; [done|done|done|ev].
Qed.

Lemma blank_line_of_white_space_witness :
  eval grammar block ((" " ++ tab) ++ nl ++ "a")
    ([], Matched VBlankLine [] (String.length (" " ++ tab) + 1)%nat "a")
  /\ (" " ++ tab <> EmptyString ->
      eval grammar block (" " ++ tab)
        ([], Matched VBlankLine [] (String.length (" " ++ tab)) EmptyString)).
Proof. apply (blank_line_of_white_space (" " ++ tab) "a"). reflexivity. Defined.

(** ** Verse blocks and comment blocks that are not closed *)

Lemma is_newline_inv a : is_newline a = true -> a = "010"%char \/ a = "013"%char.
Proof.
  destruct a as [[] [] [] [] [] [] [] []]; intros H; try discriminate H; auto.
Qed.

(** The end of a line at a newline: one or two bytes are taken. *)
Lemma EOL_newline a t :
  is_newline a = true ->
  exists v k r, eval grammar (Ref EOL) (String a t) ([], Matched v [] (S k) r)
                /\ exists p, t = p ++ r.
Proof.
  intros [-> | ->]%is_newline_inv.
  - exists (VBytes nl), 0%nat, t. split; [ev|by exists EmptyString].
  - destruct t as [|b t].
    + exists (VBytes cr), 0%nat, EmptyString. split; [ev|by exists EmptyString].
    + destruct b as [[] [] [] [] [] [] [] []];
        first [ exists (VBytes (cr ++ nl)), 1%nat, t;
                split; [ev|by eexists (String _ EmptyString)]
              | eexists (VBytes cr), 0%nat, _; split; [ev|by exists EmptyString] ].
Qed.

Lemma occurs_cons p a t : occurs p (String a t) = false ->
  strip_prefix p (String a t) = None /\ occurs p t = false.
Proof.
  cbn [occurs]. intros [Hp Ho]%orb_false_iff. split; [|done].
  unfold has_prefix in Hp. by destruct (strip_prefix p (String a t)).
Qed.

Lemma occurs_suffix p u t : occurs p (u ++ t) = false -> occurs p t = false.
Proof.
  induction u as [|a u IH]; [done|]. rewrite append_cons.
  intros [_ H]%occurs_cons. by apply IH.
Qed.

Section Unclosed.
Variable D : rule.
Variable d : string.
Hypothesis D_fails :
  forall t, strip_prefix d t = None -> eval grammar (Ref D) t ([], Failed).
Hypothesis d_not_empty : d <> EmptyString.

Abbreviation content := (Seq [Not (Ref D); Not (Ref EOL); Any]).

Lemma strip_prefix_empty : strip_prefix d EmptyString = None.
Proof. clear D_fails. by destruct d. Qed.

(** The bytes of a line are taken up to its end. *)
Lemma content_run t :
  occurs d t = false ->
  exists vs k r p,
    eval_many grammar content t ([], MatchedAll vs [] k r)
    /\ t = p ++ r /\ k = String.length p
    /\ (r = EmptyString \/ exists a r', r = String a r' /\ is_newline a = true).
Proof.
  induction t as [|a t IH]; intros Ho.
  - exists [], 0%nat, EmptyString, EmptyString. split; [|by auto].
    apply many_done, seq_failed.
    apply (seq_fail_later grammar _ _ _ VNil [] 0%nat EmptyString).
    { apply E_Not_none, D_fails, strip_prefix_empty. }
    apply ES_fail. eapply E_Not_some. ev.
  - apply occurs_cons in Ho as [Hp Ho].
    destruct (is_newline a) eqn:Ha.
    + exists [], 0%nat, (String a t), EmptyString.
      split; [|split; [done|]; split; [done|]; right; by exists a, t].
      apply many_done, seq_failed.
      apply (seq_fail_later grammar _ _ _ VNil [] 0%nat (String a t)).
      { by apply E_Not_none, D_fails. }
      apply ES_fail.
      destruct (EOL_newline a t Ha) as (v & k & r & He & _).
      eapply E_Not_some, He.
    + destruct (IH Ho) as (vs & k & r & p & Hm & -> & -> & Hr).
      exists (content_byte a :: vs), (1 + String.length p)%nat, r, (String a p).
      split; [|by auto].
      apply (many_more grammar _ _ (content_byte a) [] 1%nat (p ++ r)); [|done].
      apply seq_matched.
      apply (seq_cons grammar _ _ _ VNil [] 0%nat (String a (p ++ r)));
        [by apply E_Not_none, D_fails|].
      apply (seq_cons grammar _ _ _ VNil [] 0%nat (String a (p ++ r)));
        [by apply E_Not_none, EOL_fails|].
      apply (seq_cons grammar _ _ _ (VBytes (String a EmptyString)) [] 1%nat (p ++ r));
        [by apply E_Any|].
      apply seq_nil.
Qed.

(** The end of the line that follows. *)
Lemma line_end_run r :
  (r = EmptyString \/ exists a r', r = String a r' /\ is_newline a = true) ->
  exists v k r',
    eval grammar (Ref EOL) r ([], Matched v [] k r')
    /\ (exists p, r = p ++ r')
    /\ (r <> EmptyString -> (String.length r' < String.length r)%nat).
Proof.
  intros [-> | (a & t & -> & Ha)].
  - exists VNil, 0%nat, EmptyString. split; [ev|]. split; [by exists EmptyString|done].
  - destruct (EOL_newline a t Ha) as (v & k & r' & He & p & ->).
    exists v, (S k), r'. split; [done|]. split; [by exists (String a p)|].
    intros _. simpl. rewrite length_append. lia.
Qed.

(** A line: its bytes and its end. *)
Lemma line_run t :
  occurs d t = false ->
  exists vs k v k' r,
    eval grammar (Star content) t ([], Matched (VList vs) [] k (str_drop k t))
    /\ eval grammar (Ref EOL) (str_drop k t) ([], Matched v [] k' r)
    /\ occurs d r = false
    /\ ((String.length r < String.length t)%nat \/ t = EmptyString /\ r = EmptyString).
Proof.
  intros Ho.
  destruct (content_run t Ho) as (vs & k & r & p & Hm & -> & -> & Hr).
  destruct (line_end_run r Hr) as (v & k' & r' & He & [p' ->] & Hlen).
  assert (str_drop (String.length p) (p ++ p' ++ r') = p' ++ r') as Hd.
  { clear. induction p as [|a p IH]; [by destruct (p' ++ r')|exact IH]. }
  exists vs, (String.length p), v, k', r'. rewrite Hd.
  split; [by apply star_matched|]. split; [done|].
  split; [by do 2 apply occurs_suffix in Ho|].
  destruct (p' ++ r') as [|a u] eqn:E.
  - destruct p', r'; try done. destruct p as [|b p]; [by right|left; simpl; lia].
  - left. rewrite length_append. specialize (Hlen ltac:(done)). lia.
Qed.

(** A repetition of lines that end at the end of the input as well
    never ends. *)
Lemma lines_loop (Line : rule) :
  (forall t, occurs d t = false ->
     exists v k r,
       eval grammar (Ref Line) t ([], Matched v [] k r)
       /\ occurs d r = false
       /\ ((String.length r < String.length t)%nat \/ t = EmptyString /\ r = EmptyString)) ->
  forall t, occurs d t = false -> forall o, ~ eval_many grammar (Ref Line) t o.
Proof.
  intros Hline t. remember (String.length t) as n eqn:Hn. revert t Hn.
  induction n as [n IH] using lt_wf_ind. intros t -> Ho.
  destruct (Hline t Ho) as (v & k & r & He & Hor & [Hlt | [-> ->]]).
  - eapply many_later; [exact He|]. by eapply IH.
  - eapply many_stuck, He.
Qed.

End Unclosed.

Lemma CommentBlockDelimiter_fails t :
  strip_prefix "////" t = None ->
  eval grammar (Ref CommentBlockDelimiter) t ([], Failed).
Proof.
  intros H. apply E_Ref_none. open_rule. apply E_Lit. unfold p_lit. by rewrite H.
Qed.

Lemma VerseBlockLine_run t :
  occurs "____" t = false ->
  exists v k r,
    eval grammar (Ref VerseBlockLine) t ([], Matched v [] k r)
    /\ occurs "____" r = false
    /\ ((String.length r < String.length t)%nat \/ t = EmptyString /\ r = EmptyString).
Proof.
  intros Ho.
  destruct (line_run VerseBlockDelimiter "____" VerseBlockDelimiter_fails ltac:(done) t Ho)
    as (vs & k & v & k' & r & Hs & He & Hr & Hlen).
  eexists _, _, r. split; [|done].
  eapply E_Ref_some. open_rule.
  eapply act_ret.
  - apply seq_matched.
    eapply (seq_cons grammar _ _ _ _ _ k (str_drop k t)).
    + eapply E_Lbl_some. eapply E_Ref_some. open_rule.
      eapply act_ret; [eapply E_Lbl_some, Hs|reflexivity].
    + eapply (seq_cons grammar _ _ _ _ _ k' r); [exact He|apply seq_nil].
  - reflexivity.
Qed.

Lemma CommentBlockLine_run t :
  occurs "////" t = false ->
  exists v k r,
    eval grammar (Ref CommentBlockLine) t ([], Matched v [] k r)
    /\ occurs "////" r = false
    /\ ((String.length r < String.length t)%nat \/ t = EmptyString /\ r = EmptyString).
Proof.
  intros Ho.
  destruct (line_run CommentBlockDelimiter "////" CommentBlockDelimiter_fails ltac:(done) t Ho)
    as (vs & k & v & k' & r & Hs & He & Hr & Hlen).
  eexists _, _, r. split; [|done].
  eapply E_Ref_some. open_rule.
  eapply act_ret.
  - apply seq_matched.
    eapply (seq_cons grammar _ _ _ _ _ k (str_drop k t)); [eapply E_Lbl_some, Hs|].
    eapply (seq_cons grammar _ _ _ _ _ k' r); [exact He|apply seq_nil].
  - reflexivity.
Qed.

(** X5: a verse block that is opened and never closed: when the
    delimiter [____] does not occur in the text [t] after the opening
    line, the parse of the document never returns, whatever bound is
    given to the engine.  The rule of a line matches the empty text at
    the end of the input, so the repetition of the lines goes on for
    ever. *)
Theorem verse_block_without_end_never_returns (t : string) :
  occurs "____" t = false ->
  forall n, Parse n Document ("____" ++ nl ++ t) = None.
Proof.
  intros Ho. apply Parse_diverges.
  apply no_outcome_ref; open_rule. apply no_outcome_act, no_outcome_seq.
  eapply seq_later; [ev|]. eapply seq_later; [ev|].
  apply seq_here, no_outcome_lbl, no_outcome_star, many_here, no_outcome_choice.
  eapply choice_later; [ev|].
  apply choice_here, no_outcome_ref; open_rule. apply no_outcome_act, no_outcome_seq.
  eapply seq_later; [ev|].
  apply seq_here, no_outcome_lbl, no_outcome_choice.
  do 7 (eapply choice_later; [ev|]).
  apply choice_here, no_outcome_ref; open_rule. apply no_outcome_choice.
  do 4 (eapply choice_later; [ev|]).
  apply choice_here, no_outcome_ref; open_rule. apply no_outcome_act, no_outcome_seq.
  do 4 (eapply seq_later; [ev|]).
  apply seq_here, no_outcome_lbl, no_outcome_ref; open_rule.
  apply no_outcome_act, no_outcome_lbl, no_outcome_star.
  exact (lines_loop "____" VerseBlockLine VerseBlockLine_run t Ho).
Qed.

Lemma verse_block_without_end_never_returns_witness :
  Parse 1000 Document ("____" ++ nl ++ lines ["some"; "verse"; "___"]) = None.
Proof.
  apply (verse_block_without_end_never_returns (lines ["some"; "verse"; "___"])).
  reflexivity.
Defined.

(** X6: a comment block that is opened and never closed: when the
    delimiter [////] does not occur in the text [t] after the opening
    line, the parse of the document never returns, whatever bound is
    given to the engine. *)
Theorem comment_block_without_end_never_returns (t : string) :
  occurs "////" t = false ->
  forall n, Parse n Document ("////" ++ nl ++ t) = None.
Proof.
  intros Ho. apply Parse_diverges.
  apply no_outcome_ref; open_rule. apply no_outcome_act, no_outcome_seq.
  eapply seq_later; [ev|]. eapply seq_later; [ev|].
  apply seq_here, no_outcome_lbl, no_outcome_star, many_here, no_outcome_choice.
  eapply choice_later; [ev|].
  apply choice_here, no_outcome_ref; open_rule. apply no_outcome_act, no_outcome_seq.
  eapply seq_later; [ev|].
  apply seq_here, no_outcome_lbl, no_outcome_choice.
  do 7 (eapply choice_later; [ev|]).
  apply choice_here, no_outcome_ref; open_rule. apply no_outcome_choice.
  do 3 (eapply choice_later; [ev|]).
  apply choice_here, no_outcome_ref; open_rule. apply no_outcome_act, no_outcome_seq.
  do 4 (eapply seq_later; [ev|]).
  apply seq_here, no_outcome_lbl, no_outcome_star.
  exact (lines_loop "////" CommentBlockLine CommentBlockLine_run t Ho).
Qed.

Lemma comment_block_without_end_never_returns_witness :
  Parse 1000 Document ("////" ++ nl ++ lines ["a"; "// b"]) = None.
Proof.
  apply (comment_block_without_end_never_returns (lines ["a"; "// b"])).
  reflexivity.
Defined.

(** ** A section of the levels 2 to 5 without a block *)

Lemma section_title_value prefix blanks s er v b k r :
  eval grammar (section_title prefix blanks) s (er, Matched v b k r) ->
  exists a c, v = VSectionTitle a c.
Proof.
  unfold section_title. intros H.
  apply act_inv in H as (er0 & v0 & _ & Hf).
  unfold asInlineElements, asList, NewSectionTitle in Hf.
  destruct (get b "content"); try (by destruct Hf as [?|[? ?]]).
  destruct (get b "attributes"); try (by destruct Hf as [?|[? ?]]).
  destruct Hf as [Hf|[? Hf]]; simplify_eq. eauto.
Qed.

Lemma section_without_block_panics level title blk s er a c b k r er2 :
  s <> EmptyString ->
  eval grammar (Ref title) s (er, Matched (VSectionTitle a c) b k r) ->
  eval grammar (Ref blk) r (er2, Failed) ->
  eval grammar (section level title (Opt (Ref blk))) s
    ((er ++ er2)%list, Panic "interface conversion: not []interface {}").
Proof.
  intros Hs Ht Hb. unfold section.
  eapply eval_as.
  { eapply E_Act, E_Seq.
    eapply ES_cons.
    { destruct s as [|x s]; [done|]. apply E_Not_none, EOF_fails. }
    eapply ES_panic, E_Lbl_panic.
    eapply eval_as.
    { eapply E_Act, E_Seq.
      eapply ES_cons; [eapply E_Lbl_some, Ht|].
      eapply ES_cons; [eapply E_Lbl_some, E_Opt_none, Hb|].
      apply ES_nil. }
    simpl. reflexivity. }
  simpl. by rewrite app_nil_r.
Qed.

(** X7: in a section of a level from 2 to 5 the blocks are optional
    ([SectionNBlock?]), and the action asserts that they are a slice.
    When the rule of the blocks fails right after the title (a title of
    the same or of a higher level follows), the optional part is [nil]
    and the action panics: the parse ends with the error of the
    conversion.  So a document that starts with the lines [=== a] and
    [=== b] has no parse, whatever follows. *)
Theorem deep_section_without_block_panics :
  (forall sec title blk s er v b k r er2,
     In (sec, title, blk) deep_sections ->
     eval grammar (Ref title) s (er, Matched v b k r) ->
     eval grammar (Ref blk) r (er2, Failed) ->
     eval grammar (Ref sec) s
       ((er ++ er2)%list, Panic "interface conversion: not []interface {}"))
  /\ (forall t,
        Parse 200 Document ("=== a" ++ nl ++ "=== b" ++ nl ++ t)
        = Some (ParseError ["interface conversion: not []interface {}"])).
Proof.
  split; [|intros t; vm_compute; reflexivity].
  intros sec title blk s er v b k r er2 Hin Ht Hb.
  assert (s <> EmptyString) as Hs.
  { intros ->. simpl in Hin.
    destruct Hin as [E|[E|[E|[E|[]]]]]; simplify_eq;
      match type of Ht with
      | eval _ ?e _ _ =>
          assert (eval grammar e EmptyString ([], Failed)) as Hf by ev;
          by pose proof (eval_det _ _ _ _ _ Ht Hf)
      end. }
  assert (exists a c, v = VSectionTitle a c) as (a & c & ->).
  { simpl in Hin. pose proof Ht as Ht'. apply ref_inv in Ht' as [_ [b0 Ht']].
    destruct Hin as [E|[E|[E|[E|[]]]]]; simplify_eq;
      first [exact (section_title_value _ true _ _ _ _ _ _ Ht')
            |exact (section_title_value _ false _ _ _ _ _ _ Ht')]. }
  simpl in Hin.
  destruct Hin as [E|[E|[E|[E|[]]]]]; simplify_eq; apply E_Ref_panic;
    exact (section_without_block_panics _ _ _ _ _ _ _ _ _ _ _ Hs Ht Hb).
Qed.

Lemma deep_section_without_block_panics_witness :
  eval grammar (Ref Section3) (lines ["==== a"; "=== b"])
    (([] ++ [])%list, Panic "interface conversion: not []interface {}").
Proof.
  destruct deep_section_without_block_panics as [H _].
  eapply (H Section3 Section3Title Section3Block
            (lines ["==== a"; "=== b"]) [] _ _ _ "=== b" []).
  - simpl. auto.
  - ev.
  - ev.
Defined.

(** ** The helpers of the renderer *)

Lemma last_take_app {A} (l : list A) x :
  last l = Some x -> l = (take (length l - 1) l ++ [x])%list.
Proof.
  intros H. destruct (last_Some l x) as [[l' ->] _]; [done|].
  rewrite length_app. simpl.
  replace (length l' + 1 - 1)%nat with (length l') by lia.
  by rewrite take_app_length.
Qed.

Lemma discard_loop_spec n : forall l,
  (length l <= n)%nat ->
  exists k, l = (html5.discard_loop n l ++ replicate k VBlankLine)%list
            /\ last (html5.discard_loop n l) <> Some VBlankLine.
Proof.
  induction n as [|n IH]; intros l Hn.
  - destruct l; [|simpl in Hn; lia]. by exists 0%nat.
  - cbn [html5.discard_loop].
    destruct (last l) as [x|] eqn:Hl.
    + assert (x = VBlankLine \/ x <> VBlankLine) as [->|Hx]
        by (destruct x; first [by left|by right]).
      * pose proof (last_take_app _ _ Hl) as E.
        destruct (IH (take (length l - 1) l)) as (k & Hk & Hlast).
        { rewrite length_take. lia. }
        exists (S k). split; [|done].
        rewrite E at 1. rewrite Hk at 1. rewrite <- app_assoc. f_equal.
        change [VBlankLine] with (replicate 1 VBlankLine).
        rewrite <- replicate_add. f_equal. lia.
      * exists 0%nat. rewrite app_nil_r.
        destruct x; try (split; [done|rewrite Hl; congruence]). done.
    + exists 0%nat. rewrite app_nil_r. split; [done|]. by rewrite Hl.
Qed.

(** X8: [discardTrailingBlankLines] removes the blank lines at the end
    of the elements and nothing else: the elements are the result
    followed by blank lines only, the result does not end with a blank
    line, and discarding again changes nothing. *)
Theorem discardTrailingBlankLines_drops_the_final_run (elements : list value) :
  (exists k,
     elements = (html5.discardTrailingBlankLines elements ++ replicate k VBlankLine)%list)
  /\ last (html5.discardTrailingBlankLines elements) <> Some VBlankLine
  /\ html5.discardTrailingBlankLines (html5.discardTrailingBlankLines elements)
     = html5.discardTrailingBlankLines elements.
Proof.
  destruct (discard_loop_spec (length elements) elements) as (k & Hk & Hl); [lia|].
  fold (html5.discardTrailingBlankLines elements) in Hk, Hl.
  split; [by exists k|]. split; [done|].
  set (r := html5.discardTrailingBlankLines elements) in *.
  unfold html5.discardTrailingBlankLines. destruct (length r) as [|n]; [done|].
  cbn [html5.discard_loop]. destruct (last r) as [[]|]; try done.
Qed.

Lemma renderPlainString_cons e l :
  html5.renderPlainString (VInlineElements (e :: l))
  = both (html5.renderPlainString e) (html5.renderPlainString (VInlineElements l)).
Proof. simpl. by destruct (html5.renderPlainString e). Qed.

Lemma both_assoc x y z : both (both x y) z = both x (both y z).
Proof.
  destruct x as [x|], y as [y|], z as [z|]; simpl; try done.
  by rewrite append_assoc.
Qed.

(** X9: the plain string of a sequence of elements is the plain string
    of its first part followed by the plain string of the rest, and an
    error when one of the two is; a quoted text in the sequence counts
    as its elements, its markup leaves no trace. *)
Theorem renderPlainString_of_a_sequence (a b : list value) kind elements :
  html5.renderPlainString (VInlineElements (a ++ b))
  = both (html5.renderPlainString (VInlineElements a))
         (html5.renderPlainString (VInlineElements b))
  /\ html5.renderPlainString (VInlineElements (a ++ VQuotedText kind elements :: b))
     = html5.renderPlainString (VInlineElements (a ++ elements ++ b)).
Proof.
  assert (forall a b, html5.renderPlainString (VInlineElements (a ++ b))
          = both (html5.renderPlainString (VInlineElements a))
                 (html5.renderPlainString (VInlineElements b))) as Happ.
  { clear. intros a b. induction a as [|e a IH].
    - simpl. by destruct (_ b).
    - rewrite <- app_comm_cons, !renderPlainString_cons, IH. by rewrite both_assoc. }
  split; [apply Happ|].
  rewrite !Happ. f_equal.
Qed.

(** ** Lists of items of one type *)

Lemma item_type_eqb_refl t : item_type_eqb t t = true.
Proof. by destruct t. Qed.

Lemma list_scan_one_type t ptrs : forall st : ListState,
  previousType st = t ->
  Forall (fun p => exists v, l_store st !! p = Some v /\ type_of v = Some t) ptrs ->
  exists s,
    list_scan t st ptrs = Done s
    /\ l_store s = l_store st /\ l_buffer s t = (l_buffer st t ++ ptrs)%list
    /\ stack s = stack st.
Proof.
  induction ptrs as [|p ptrs IH]; intros st Hp Hall.
  - exists st. by rewrite app_nil_r.
  - apply Forall_cons in Hall as [(v & Hv & Ht) Hall].
    cbn [list_scan]. unfold list_step. rewrite Hv, Ht, Hp, item_type_eqb_refl. simpl.
    edestruct IH as (s & Hs & Hst & Hb & Hk); [| |rewrite Hs].
    + reflexivity.
    + exact Hall.
    + exists s. split; [done|]. simpl in *. split; [done|]. split; [|done].
      rewrite Hb. unfold buffer_set. rewrite item_type_eqb_refl.
      by rewrite <- app_assoc.
Qed.

Lemma labeled_items_all (pre l : list value) :
  Forall (fun v => type_of v = Some LabeledT) l ->
  labeled_items (seq (length pre) (length l)) (pre ++ l)%list = l.
Proof.
  revert pre. induction l as [|v l IH]; intros pre Hl; [done|].
  apply Forall_cons in Hl as [Hv Hl]. cbn [length seq labeled_items]. unfold store in *.
  rewrite lookup_app_r by lia. rewrite Nat.sub_diag. simpl.
  destruct v; try done. f_equal.
  specialize (IH (pre ++ [VLabeledListItem Term Elements])%list Hl).
  rewrite length_app, <- app_assoc in IH. simpl in IH.
  by rewrite Nat.add_1_r in IH.
Qed.

(** X10: for elements that are list items of one type, [NewList] makes
    no sub-list: it hands all the items, in their order, to [newList]
    (and so to the constructor of their type) and returns what this
    returns; labeled items come back as they are, in one LabeledList. *)
Theorem NewList_of_items_of_one_type (elements attributes : list value) (t : item_type) :
  elements <> [] ->
  Forall (fun v => type_of v = Some t) elements ->
  NewList elements attributes
  = returned (newList (seq 0 (length elements)) attributes elements)
  /\ (t = LabeledT ->
      NewList elements attributes
      = Ret (VLabeledList (mergeAttributes attributes) elements)).
Proof.
  intros Hne Hall.
  assert (NewList elements attributes
          = returned (newList (seq 0 (length elements)) attributes elements)) as E.
  { unfold NewList. destruct elements as [|first rest] eqn:He; [done|].
    rewrite <- He in *.
    assert (type_of first = Some t) as -> by (rewrite He in Hall; by apply Forall_cons in Hall as [? _]).
    edestruct (list_scan_one_type t (seq 0 (length elements))) as (s & Hs & Hst & Hb & Hk);
      [| |rewrite Hs].
    - reflexivity.
    - simpl. apply Forall_forall. intros p Hp%elem_of_seq.
      destruct (lookup_lt_is_Some_2 elements p) as [v Hv]; [lia|].
      exists v. split; [done|]. rewrite Forall_forall in Hall. apply Hall.
      by eapply list_elem_of_lookup_2.
    - simpl in *. rewrite Hk, Hst, Hb. simpl.
      destruct (newList _ _ _) as [[l st']| |]; done. }
  split; [done|]. intros ->. rewrite E.
  destruct elements as [|first rest]; [done|].
  pose proof (labeled_items_all [] (first :: rest) Hall) as Hl.
  apply Forall_cons in Hall as [Hf _].
  unfold newList. cbn [length seq]. cbn [lookup list_lookup]. rewrite Hf.
  unfold NewLabeledList. cbn [returned]. by rewrite <- Hl at 2.
Qed.

Lemma NewList_of_items_of_one_type_witness :
  NewList [VLabeledListItem "a" []; VLabeledListItem "b" []] []
  = returned (newList (seq 0 (length [VLabeledListItem "a" []; VLabeledListItem "b" []])) []
                [VLabeledListItem "a" []; VLabeledListItem "b" []])
  /\ (LabeledT = LabeledT ->
      NewList [VLabeledListItem "a" []; VLabeledListItem "b" []] []
      = Ret (VLabeledList (mergeAttributes [])
               [VLabeledListItem "a" []; VLabeledListItem "b" []])).
Proof.
  apply (NewList_of_items_of_one_type
           [VLabeledListItem "a" []; VLabeledListItem "b" []] [] LabeledT).
  - discriminate.
  - repeat constructor.
Defined.

(** ** The numbering of a nested ordered list *)

Lemma core_at_insert (st : store) ptr q l p ns els at_ p' ns' :
  st !! ptr = Some (VOrderedListItem l p ns els at_) ->
  core_at (<[ ptr := VOrderedListItem l p' ns' els at_ ]> st) q = core_at st q.
Proof.
  intros H. unfold core_at. unfold store in *.
  destruct (decide (q = ptr)) as [->|Hne].
  - rewrite list_lookup_insert_eq by (by eapply lookup_lt_Some). by rewrite H.
  - by rewrite list_lookup_insert_ne.
Qed.

Lemma core_at_Some (st : store) ptr l els at_ :
  core_at st ptr = Some (l, els, at_) ->
  exists p ns, st !! ptr = Some (VOrderedListItem l p ns els at_).
Proof.
  unfold core_at. destruct (st !! ptr) as [v|]; [|done]. simpl.
  destruct v; try done. intros [= -> -> ->]. eauto.
Qed.

Lemma int_add_small a b :
  - 2 ^ 63 <= a + b < 2 ^ 63 -> Go.int_add a b = a + b.
Proof. intros H. unfold Go.int_add. rewrite Z.mod_small by lia. lia. Qed.

Lemma renumber_spec items : forall idx ptr0 p0 ns0 (st : store) acc,
  (exists l0 els0 at0, st !! ptr0 = Some (VOrderedListItem l0 p0 ns0 els0 at0)) ->
  ptr0 ∉ items ->
  Forall (fun ptr => is_Some (core_at st ptr)) items ->
  exists vs st',
    renumber items idx ptr0 st acc = Some ((acc ++ vs)%list, st')
    /\ length vs = length items
    /\ (forall q, core_at st' q = core_at st q)
    /\ (forall i ptr l els at_,
          items !! i = Some ptr -> core_at st ptr = Some (l, els, at_) ->
          vs !! i = Some (VOrderedListItem l (Go.int_add p0 (idx + Z.of_nat i)) ns0 els at_))
    /\ (NoDup items ->
        (forall i ptr, items !! i = Some ptr -> st' !! ptr = vs !! i)
        /\ forall q, q ∉ items -> st' !! q = st !! q).
Proof.
  induction items as [|ptr items IH]; intros idx ptr0 p0 ns0 st acc H0 Hnot Hall.
  - exists [], st. rewrite app_nil_r. split; [done|]. split; [done|]. split; [done|].
    split; [by intros []|]. intros _. split; [by intros []|done].
  - apply Forall_cons in Hall as [[[[l els] at_] Hc] Hall].
    apply not_elem_of_cons in Hnot as [Hne Hnot].
    destruct H0 as (l0 & els0 & at0 & H0).
    pose proof Hc as Hc'. apply core_at_Some in Hc' as (p & ns & Hp).
    cbn [renumber]. rewrite H0, Hp.
    set (item := VOrderedListItem l (Go.int_add p0 idx) ns0 els at_).
    assert (forall q, core_at (<[ ptr := item ]> st) q = core_at st q) as Hcore
      by (intros q; by eapply core_at_insert).
    destruct (IH (idx + 1) ptr0 p0 ns0 (<[ ptr := item ]> st) (acc ++ [item])%list)
      as (vs & st' & Hr & Hlen & Hsame & Hvs & Hnd).
    { exists l0, els0, at0. unfold store in *. by rewrite list_lookup_insert_ne. }
    { done. }
    { eapply Forall_impl; [exact Hall|]. intros q Hq. cbv beta. by rewrite Hcore. }
    exists (item :: vs), st'. rewrite Hr, <- app_assoc. split; [done|].
    split; [simpl; by rewrite Hlen|].
    split; [intros q; by rewrite Hsame|].
    split.
    + intros [|i] q l' els' at' Hi Hq; simpl in Hi.
      * simplify_eq. simpl. unfold item.
        do 3 f_equal. lia.
      * simpl. rewrite (Hvs i q l' els' at' Hi) by (by rewrite Hcore).
        do 3 f_equal. lia.
    + intros [Hnotin Hnd']%NoDup_cons. destruct (Hnd Hnd') as [Hin Hout]. split.
      * intros [|i] q Hi; simpl in Hi.
        -- simplify_eq. simpl. rewrite Hout by done. unfold store in *.
           apply list_lookup_insert_eq. by eapply lookup_lt_Some.
        -- simpl. by apply Hin.
      * intros q Hq. apply not_elem_of_cons in Hq as [Hne' Hq].
        rewrite Hout by done. unfold store in *. by rewrite list_lookup_insert_ne.
Qed.

(** X11: [toOrderedList], given pointers to ordered items the first
    of which has an element and is not pointed to a second time,
    returns a list: the items in their order, each with its own level,
    elements and attributes, all with the numbering style of the first
    item (the style its attributes name, if they name one), at
    positions that count up by one from the position of the first item
    (the value of its attribute [start], if it has one that is a
    number), as long as these positions are within the 64 bits of an
    [int].  The items of the store are changed in the same way. *)
Theorem toOrderedList_numbers_the_items (ptr0 : nat) (rest : list nat) (st : store)
    l0 p ns e0 els0 at0 :
  st !! ptr0 = Some (VOrderedListItem l0 p ns (e0 :: els0) at0) ->
  Forall (fun ptr => is_Some (core_at st ptr)) rest ->
  ptr0 ∉ rest ->
  - 2 ^ 63 <= start_position p at0 ->
  start_position p at0 + Z.of_nat (length rest) < 2 ^ 63 ->
  exists vs st',
    toOrderedList (ptr0 :: rest) st = Some (VOrderedList ∅ vs, st')
    /\ length vs = S (length rest)
    /\ (forall i ptr l els at_,
          (ptr0 :: rest) !! i = Some ptr -> core_at st ptr = Some (l, els, at_) ->
          vs !! i = Some (VOrderedListItem l (start_position p at0 + Z.of_nat i)
                            (style_override ns at0) els at_))
    /\ (NoDup (ptr0 :: rest) ->
        forall i ptr, (ptr0 :: rest) !! i = Some ptr -> st' !! ptr = vs !! i).
Proof.
  intros H0 Hrest Hnot Hlo Hhi. unfold toOrderedList, applyAttributes. rewrite H0.
  fold (start_position p at0). fold (style_override ns at0).
  set (P := start_position p at0) in *. set (NS := style_override ns at0).
  set (item := VOrderedListItem l0 P NS (e0 :: els0) at0).
  assert (forall q, core_at (<[ ptr0 := item ]> st) q = core_at st q) as Hcore
    by (intros q; by eapply core_at_insert).
  assert ((<[ ptr0 := item ]> st : store) !! ptr0 = Some item) as Hitem.
  { unfold store in *. apply list_lookup_insert_eq. by eapply lookup_lt_Some. }
  cbn [renumber]. rewrite Hitem. unfold item at 1 2.
  rewrite (int_add_small P 0) by lia. rewrite Z.add_0_r. fold item.
  assert ((<[ ptr0 := item ]> (<[ ptr0 := item ]> st) : store) = <[ ptr0 := item ]> st) as ->.
  { unfold store in *. apply list_insert_insert_eq. }
  destruct (renumber_spec rest (0 + 1) ptr0 P NS (<[ ptr0 := item ]> st) ([] ++ [item])%list)
    as (vs & st' & Hr & Hlen & Hsame & Hvs & Hnd).
  { by exists l0, (e0 :: els0), at0. }
  { done. }
  { eapply Forall_impl; [exact Hrest|]. intros q Hq. cbv beta. by rewrite Hcore. }
  rewrite Hr. exists (item :: vs), st'. split; [done|].
  split; [simpl; by rewrite Hlen|]. split.
  - intros [|i] ptr l els at_ Hi Hc; simpl in Hi.
    + simplify_eq. unfold core_at in Hc. rewrite H0 in Hc. simpl in Hc. simplify_eq.
      simpl. unfold item. by rewrite Z.add_0_r.
    + simpl. rewrite (Hvs i ptr l els at_ Hi) by (by rewrite Hcore).
      apply lookup_lt_Some in Hi.
      rewrite int_add_small by lia. do 3 f_equal. lia.
  - intros [_ Hnd']%NoDup_cons. destruct (Hnd Hnd') as [Hin Hout].
    intros [|i] ptr Hi; simpl in Hi.
    + simplify_eq. simpl. by rewrite Hout.
    + simpl. by apply Hin.
Qed.

Lemma toOrderedList_numbers_the_items_witness :
  exists vs st',
    toOrderedList [1; 0]%nat
      [VOrderedListItem 2 1 LowerAlpha [VStr "b"] ∅;
       VOrderedListItem 2 1 LowerRoman [VStr "a"] {[ "start" := VStr "5" ]}]
    = Some (VOrderedList ∅ vs, st')
    /\ vs = [VOrderedListItem 2 5 LowerRoman [VStr "a"] {[ "start" := VStr "5" ]};
             VOrderedListItem 2 6 LowerRoman [VStr "b"] ∅].
Proof.
  set (st := [VOrderedListItem 2 1 LowerAlpha [VStr "b"] ∅;
              VOrderedListItem 2 1 LowerRoman [VStr "a"] {[ "start" := VStr "5" ]}]).
  destruct (toOrderedList_numbers_the_items 1%nat [0%nat] st
              2 1 LowerRoman (VStr "a") [] {[ "start" := VStr "5" ]})
    as (vs & st' & Hto & Hlen & Hvs & _).
  - reflexivity.
  - repeat constructor. by eexists.
  - intros [H|H]%elem_of_cons; [discriminate H|by apply elem_of_nil in H].
  - vm_compute. discriminate.
  - vm_compute. reflexivity.
  - exists vs, st'. split; [exact Hto|].
    pose proof (Hvs 0%nat 1%nat 2 [VStr "a"] {[ "start" := VStr "5" ]} eq_refl eq_refl) as H0.
    pose proof (Hvs 1%nat 0%nat 2 [VStr "b"] ∅ eq_refl eq_refl) as H1.
    destruct vs as [|v0 [|v1 [|v2 vs]]]; try discriminate Hlen.
    simpl in H0, H1. by simplify_eq.
Defined.

(** ** The default [alt] of an image, for any file name *)

Lemma contains_byte_app c s t :
  Go.contains_byte c (s ++ t) = Go.contains_byte c s || Go.contains_byte c t.
Proof.
  induction s as [|a s IH]; [done|]. rewrite append_cons. simpl.
  by rewrite IH, orb_assoc.
Qed.

Lemma contains_byte_rev c s : Go.contains_byte c (str_rev s) = Go.contains_byte c s.
Proof.
  induction s as [|a s IH]; [done|]. rewrite str_rev_cons, contains_byte_app, IH. simpl.
  rewrite orb_false_r. apply orb_comm.
Qed.

Lemma split_last_none c f : Go.contains_byte c f = false -> Go.split_last c f = None.
Proof.
  induction f as [|a f IH]; [done|]. simpl.
  intros [Ha Hf]%orb_false_iff. rewrite (IH Hf). by rewrite Ha.
Qed.

Lemma split_last_app c d f :
  Go.contains_byte c f = false ->
  Go.split_last c (d ++ String c f) = Some (d ++ String c EmptyString, f).
Proof.
  intros Hf. induction d as [|a d IH].
  - rewrite !append_nil. simpl. rewrite (split_last_none _ _ Hf).
    by rewrite Ascii.eqb_refl.
  - rewrite !append_cons. simpl. by rewrite IH.
Qed.

(** The bytes of the cutset at the start of a text are dropped. *)
Lemma trim_left_set_app cutset s t :
  all_bytes (fun a => Go.contains_byte a cutset) s = true ->
  Go.trim_left_set cutset (s ++ t) = Go.trim_left_set cutset t.
Proof.
  induction s as [|a s IH]; [done|]. simpl.
  intros [Ha Hs]%andb_true_iff. rewrite Ha. by apply IH.
Qed.

Lemma all_bytes_sub (f g : ascii -> bool) s :
  (forall a, f a = true -> g a = true) -> all_bytes f s = true -> all_bytes g s = true.
Proof.
  intros Hfg. induction s as [|a s IH]; [done|]. simpl.
  intros [Ha Hs]%andb_true_iff. by rewrite (Hfg a Ha), IH.
Qed.

Lemma all_bytes_self s : all_bytes (fun a => Go.contains_byte a s) s = true.
Proof.
  induction s as [|a s IH]; [done|]. simpl. rewrite Ascii.eqb_refl. simpl.
  eapply all_bytes_sub; [|exact IH]. intros b Hb. simpl. rewrite Hb. apply orb_true_r.
Qed.

Lemma all_bytes_app f s t : all_bytes f (s ++ t) = all_bytes f s && all_bytes f t.
Proof.
  induction s as [|a s IH]; [done|]. rewrite append_cons. simpl.
  by rewrite IH, andb_assoc.
Qed.

Lemma all_bytes_rev f s : all_bytes f (str_rev s) = all_bytes f s.
Proof.
  induction s as [|a s IH]; [done|]. rewrite str_rev_cons, all_bytes_app, IH. simpl.
  rewrite andb_true_r. apply andb_comm.
Qed.

(** An ASCII cutset is looked up byte by byte. *)
Lemma all_ascii_bytes s : Go.all_ascii s = all_bytes Go.is_ascii s.
Proof. induction s as [|a s IH]; [done|]. simpl. by rewrite IH. Qed.

Lemma TrimRight_ascii s cutset :
  all_bytes Go.is_ascii cutset = true ->
  Go.TrimRight s cutset = str_rev (Go.trim_left_set cutset (str_rev s)).
Proof. intros H. unfold Go.TrimRight. by rewrite all_ascii_bytes, H. Qed.

Lemma trim_left_set_stop cutset s :
  match s with
  | String c _ => Go.contains_byte c cutset
  | EmptyString => false
  end = false ->
  Go.trim_left_set cutset s = s.
Proof. destruct s as [|c s]; [done|]. simpl. by intros ->. Qed.

(** The final bytes that are in the cutset are removed, up to the
    last byte that is not. *)
Lemma TrimRight_core core tail cutset :
  all_bytes Go.is_ascii cutset = true ->
  all_bytes (fun a => Go.contains_byte a cutset) tail = true ->
  ends_in cutset core = false ->
  Go.TrimRight (core ++ tail) cutset = core.
Proof.
  intros Hascii Ht Hc. rewrite TrimRight_ascii by done.
  rewrite str_rev_app, trim_left_set_app by (by rewrite all_bytes_rev).
  rewrite trim_left_set_stop by exact Hc. apply str_rev_involutive.
Qed.

Lemma contains_byte_all c f s :
  Go.contains_byte c s = true -> all_bytes f s = true -> f c = true.
Proof.
  induction s as [|a s IH]; [done|]. simpl.
  intros [Ha|Hs]%orb_true_iff [Hfa Hfs]%andb_true_iff; [|by apply IH].
  apply Ascii.eqb_eq in Ha. by subst.
Qed.

(** X12: an image whose attribute [alt] is empty, at a path that ends
    with a file name [stem.e] with an extension [e] of ASCII
    characters: [NewImageMacro] sets [alt] to the stem without its
    final bytes that are a dot or a byte of [e].  With the stem written
    as [core ++ tail], where [tail] has only such bytes and [core] does
    not end with one, [alt] is [core]: the whole stem only when the
    tail is empty. *)
Theorem default_alt_of_an_image (dir core tail e : string) (attributes : gmap string value) :
  dir = EmptyString \/ (exists d, dir = d ++ "/") ->
  Go.contains_byte "/" core = false ->
  Go.contains_byte "/" e = false -> Go.contains_byte "." e = false ->
  all_bytes Go.is_ascii e = true ->
  all_bytes (fun a => Go.contains_byte a ("." ++ e)) tail = true ->
  ends_in ("." ++ e) core = false ->
  attributes !! AttrImageAlt = Some (VStr EmptyString) ->
  let path := dir ++ (core ++ tail) ++ "." ++ e in
  NewImageMacro path attributes
  = Ret (VImageMacro path (<[ AttrImageAlt := VStr core ]> attributes)).
Proof.
  intros Hdir Hcore He1 He2 Hascii Htail Hend Halt path.
  unfold NewImageMacro. rewrite Halt.
  assert (Htail' : Go.contains_byte "/" tail = false).
  { destruct (Go.contains_byte "/" tail) eqn:Hs; [|done].
    pose proof (contains_byte_all _ _ _ Hs Htail) as H. cbv beta in H.
    change ("." ++ e) with (String "." e) in H. cbn [Go.contains_byte] in H.
    by rewrite He1 in H. }
  assert (Hfile : Go.contains_byte "/" ((core ++ tail) ++ "." ++ e) = false).
  { rewrite !contains_byte_app, Hcore, Htail', He1. done. }
  assert (Go.Split path = (dir, (core ++ tail) ++ "." ++ e)) as Hsplit.
  { unfold Go.Split, path. destruct Hdir as [->|[d ->]].
    - rewrite append_nil. by rewrite split_last_none.
    - rewrite append_assoc.
      change ("/" ++ (core ++ tail) ++ "." ++ e)
        with (String "/" ((core ++ tail) ++ "." ++ e)).
      by rewrite split_last_app. }
  rewrite Hsplit. cbn [snd].
  assert (Go.Ext ((core ++ tail) ++ "." ++ e) = "." ++ e) as Hext.
  { unfold Go.Ext, Go.Split. rewrite (split_last_none _ _ Hfile). cbn [snd].
    change ("." ++ e) with (String "." e). by rewrite split_last_app. }
  rewrite Hext. simpl negb. cbv iota.
  do 3 f_equal.
  assert (Hsub : forall a, Go.contains_byte a ("." ++ e) = true ->
                           Go.contains_byte a ("." ++ "." ++ e) = true).
  { intros a Ha. change ("." ++ "." ++ e) with (String "." ("." ++ e)).
    cbn [Go.contains_byte]. by rewrite Ha, orb_true_r. }
  f_equal. rewrite append_assoc.
  apply TrimRight_core.
  - change ("." ++ "." ++ e) with (String "." (String "." e)). cbn [all_bytes].
    by rewrite Hascii.
  - rewrite all_bytes_app. apply andb_true_iff. split.
    + eapply all_bytes_sub; [exact Hsub|exact Htail].
    + change ("." ++ e) with (String "." e). cbn [all_bytes]. apply andb_true_iff. split.
      * reflexivity.
      * eapply all_bytes_sub; [|apply all_bytes_self]. intros a Ha.
        apply Hsub. change ("." ++ e) with (String "." e).
        cbn [Go.contains_byte]. by rewrite Ha, orb_true_r.
  - unfold ends_in in *. destruct (str_rev core) as [|c r]; [done|].
    change ("." ++ "." ++ e) with (String "." ("." ++ e)).
    cbn [Go.contains_byte]. rewrite Hend, orb_false_r.
    change ("." ++ e) with (String "." e) in Hend. cbn [Go.contains_byte] in Hend.
    by apply orb_false_iff in Hend as [-> _].
Qed.

Lemma default_alt_of_an_image_witness :
  let path := "images/" ++ ("spri" ++ "ng") ++ "." ++ "png" in
  NewImageMacro path {[ AttrImageAlt := VStr EmptyString ]}
  = Ret (VImageMacro path
           (<[ AttrImageAlt := VStr "spri" ]> {[ AttrImageAlt := VStr EmptyString ]})).
Proof.
  apply (default_alt_of_an_image "images/" "spri" "ng" "png"
           {[ AttrImageAlt := VStr EmptyString ]}).
  - right. by exists "images".
  - reflexivity.
  - reflexivity.
  - reflexivity.
  - reflexivity.
  - reflexivity.
  - reflexivity.
  - reflexivity.
Defined.

(** An extension that is not ASCII is trimmed rune by rune: of the
    file name [a], [U+0171], [.], [U+00F1] the [alt] keeps the two
    bytes of [U+0171], whose second byte is also the second byte of
    [U+00F1]. *)
Example alt_of_a_name_that_is_not_ascii :
  let b (l : list nat) := string_of_list_ascii (map ascii_of_nat l) in
  NewImageMacro (b [97; 197; 177; 46; 195; 177]%nat) {[ AttrImageAlt := VStr EmptyString ]}
  = Ret (VImageMacro (b [97; 197; 177; 46; 195; 177]%nat)
           {[ AttrImageAlt := VStr (b [97; 197; 177]%nat) ]}).
Proof. vm_compute. reflexivity. Qed.

(** ** The levels and the bullet styles of an unordered list *)

Lemma bullet_at_insert (st : store) ptr v v' q :
  st !! ptr = Some v -> bullet_key v' = bullet_key v ->
  bullet_at (<[ ptr := v' ]> st) q = bullet_at st q.
Proof.
  intros Hv Hk. unfold bullet_at, store in *. destruct (decide (q = ptr)) as [->|Hne].
  - rewrite list_lookup_insert_eq by (by eapply lookup_lt_Some). rewrite Hv. simpl. done.
  - by rewrite list_lookup_insert_ne.
Qed.

Lemma add_child_bullets parent v (st st' : store) q :
  add_child parent v st = Some st' -> bullet_at st' q = bullet_at st q.
Proof.
  unfold add_child. intros H.
  destruct (st !! parent) as [w|] eqn:Hw; [|done].
  destruct w; try done; simplify_eq; by eapply bullet_at_insert.
Qed.

Lemma unordered_flush_bullets n : forall l b (st st' : store) b' q,
  unordered_flush n l b st = Some (st', b') -> bullet_at st' q = bullet_at st q.
Proof.
  induction n as [|n IH]; intros l b st st' b' q H; simpl in H.
  { by simplify_eq. }
  destruct (last _) as [parent|]; [|done].
  destruct (copies _ _) as [items|]; [|done].
  destruct (add_child _ _ _) as [st1|] eqn:Hadd; [|done].
  erewrite IH by done. by eapply add_child_bullets.
Qed.

Lemma unordered_rest_bullets n : forall b (st : store) result r st' q,
  unordered_rest n b st result = Some (r, st') -> bullet_at st' q = bullet_at st q.
Proof.
  induction n as [|level IH]; intros b st result r st' q H; simpl in H.
  { by simplify_eq. }
  destruct (copies _ _) as [items|]; [|done].
  destruct level as [|level'].
  - by eapply IH.
  - destruct (last _) as [parent|]; [|done].
    destruct (add_child _ _ _) as [st1|] eqn:Hadd; [|done].
    erewrite IH by done. by eapply add_child_bullets.
Qed.

Lemma unordered_step_bullets st p st1 :
  unordered_step st p = Done st1 ->
  exists l' s',
    (l', s', ul_levelPerStyle st1)
    = rewrite_bullet (bullet_of (ul_store st) p).1 (bullet_of (ul_store st) p).2
        (bullet_scan_of st)
    /\ ul_previousLevel st1 = l'
    /\ previousBulletStyle st1 = s'
    /\ bullet_at (ul_store st1) p = Some (l', s')
    /\ (forall q, q <> p -> bullet_at (ul_store st1) q = bullet_at (ul_store st) q).
Proof.
  unfold unordered_step, bullet_of, bullet_at. intros H.
  destruct (ul_store st !! p) as [v|] eqn:Hv; [|done].
  destruct v; try done. destruct Elements as [|e els]; [done|]. simpl.
  assert (exists l' s' lps,
            (l', s', lps) = rewrite_bullet Level BulletStyle (bullet_scan_of st)
            /\ (if ul_previousLevel st <? Level
                then (ul_previousLevel st + 1,
                      nextLevelStyle BulletStyle (previousBulletStyle st),
                      <[ nextLevelStyle BulletStyle (previousBulletStyle st)
                         := ul_previousLevel st + 1 ]> (ul_levelPerStyle st))
                else if negb (String.eqb BulletStyle (previousBulletStyle st))
                then match ul_levelPerStyle st !! BulletStyle with
                     | Some l => (l, BulletStyle, ul_levelPerStyle st)
                     | None => (ul_previousLevel st + 1, BulletStyle,
                                <[ BulletStyle := ul_previousLevel st + 1 ]>
                                  (ul_levelPerStyle st))
                     end
                else (ul_previousLevel st, BulletStyle, ul_levelPerStyle st))
               = (l', s', lps)) as (l' & s' & lps & Hr & Heq).
  { unfold rewrite_bullet, bullet_scan_of; simpl.
    destruct (Z.ltb_spec (ul_previousLevel st) Level) as [Hlt|Hge].
    - rewrite decide_True by lia. by eexists _, _, _.
    - rewrite decide_False by lia.
      destruct (String.eqb_spec BulletStyle (previousBulletStyle st)) as [Hs|Hs]; simpl.
      + rewrite decide_False by (by intros ?). by eexists _, _, _.
      + rewrite decide_True by done.
        destruct (ul_levelPerStyle st !! BulletStyle); by eexists _, _, _. }
  rewrite Heq in H.
  destruct (unordered_flush _ _ _ _) as [[st2 buf]|] eqn:Hflush; [|done].
  simplify_eq. simpl. exists l', s'. split; [done|]. split; [done|]. split; [done|].
  assert (forall q, bullet_at st2 q
                    = bullet_at (<[ p := VUnorderedListItem l' s' (e :: els) ]> (ul_store st)) q)
    as Hb by (intros q; by eapply unordered_flush_bullets).
  split.
  - change (st2 !! p ≫= bullet_key) with (bullet_at st2 p). rewrite Hb.
    unfold bullet_at, store in *.
    rewrite list_lookup_insert_eq by (by eapply lookup_lt_Some). done.
  - intros q Hq. change (st2 !! q ≫= bullet_key) with (bullet_at st2 q). rewrite Hb.
    unfold bullet_at, store in *. by rewrite list_lookup_insert_ne.
Qed.

Lemma unordered_scan_bullets ptrs : forall st st',
  NoDup ptrs ->
  unordered_scan st ptrs = Done st' ->
  map (bullet_at (ul_store st')) ptrs
  = map Some (rewritten_bullets (bullet_scan_of st) (map (bullet_of (ul_store st)) ptrs))
  /\ (forall q, q ∉ ptrs -> bullet_at (ul_store st') q = bullet_at (ul_store st) q).
Proof.
  induction ptrs as [|p rest IH]; intros st st' Hnd H; simpl in H.
  { simplify_eq. done. }
  destruct (unordered_step st p) as [st1| |] eqn:Hstep; try done.
  apply NoDup_cons in Hnd as [Hp Hnd].
  destruct (unordered_step_bullets _ _ _ Hstep) as (l' & s' & Hr & Hl & Hs & Hat & Hother).
  destruct (IH st1 st' Hnd H) as [IH1 IH2].
  split.
  - simpl. destruct (bullet_of (ul_store st) p) as [l s] eqn:Hk. simpl in *.
    rewrite <- Hr. simpl. f_equal.
    + by rewrite IH2, Hat.
    + rewrite IH1. f_equal.
      replace (bullet_scan_of st1) with
        {| bs_level := l'; bs_style := s'; bs_levels := ul_levelPerStyle st1 |}
        by (unfold bullet_scan_of; by rewrite Hl, Hs).
      f_equal. apply map_ext_in. intros q Hq%list_elem_of_In.
      unfold bullet_of. rewrite Hother; [done|]. by intros ->.
  - intros q Hq. apply not_elem_of_cons in Hq as [Hqp Hq].
    by rewrite IH2, Hother.
Qed.

(** X13: [NewUnorderedList] gives to the items, scanned from left to
    right, these levels and bullet styles: an item of a greater level
    than the previous one gets the previous level plus one and the
    bullet style that follows the previous style (its own style when
    the previous one is unknown), and the level is recorded for this
    style; an item of another style than the previous one gets the
    level recorded for its style, and without one the previous level
    plus one, which is recorded; any other item gets the previous
    level.  The items of the store are changed in place, and nothing
    that follows in the constructor changes a level or a style
    again. *)
Theorem bullets_of_an_unordered_list (elements : list nat) attributes (st : store) l st' :
  NoDup elements ->
  NewUnorderedList elements attributes st = Done (l, st') ->
  map (bullet_at st') elements
  = map Some (rewritten_bullets first_bullet_scan (map (bullet_of st) elements)).
Proof.
  unfold NewUnorderedList. intros Hnd H.
  destruct (unordered_scan _ _) as [s| |] eqn:Hscan; try done.
  destruct (unordered_rest _ _ _ _) as [[result st1]|] eqn:Hrest; [|done]. simplify_eq.
  apply unordered_scan_bullets in Hscan as [Hscan _]; [|done].
  change (bullet_scan_of _) with first_bullet_scan in Hscan. simpl in Hscan.
  rewrite <- Hscan. apply map_ext. intros q.
  by eapply unordered_rest_bullets.
Qed.

Lemma bullets_of_an_unordered_list_witness :
  exists l st',
    NewUnorderedList [0; 1; 2]%nat []
      [VUnorderedListItem 1 Dash [VStr "a"];
       VUnorderedListItem 1 OneAsterisk [VStr "b"];
       VUnorderedListItem 1 Dash [VStr "c"]] = Done (l, st') /\
    map (bullet_at st') [0; 1; 2]%nat
    = [Some (1, Dash); Some (2, OneAsterisk); Some (1, Dash)].
Proof.
  set (st := [VUnorderedListItem 1 Dash [VStr "a"];
              VUnorderedListItem 1 OneAsterisk [VStr "b"];
              VUnorderedListItem 1 Dash [VStr "c"]]).
  assert (H : exists r, NewUnorderedList [0; 1; 2]%nat [] st = Done r)
    by (eexists; vm_compute; reflexivity).
  destruct H as [[l st'] H]. exists l, st'. split; [exact H|].
  assert (Hnd : NoDup [0; 1; 2]%nat)
    by (apply (bool_decide_unpack _); vm_compute; exact I).
  rewrite (bullets_of_an_unordered_list _ _ _ _ _ Hnd H).
  vm_compute. reflexivity.
Defined.

(** ** Items that all have the same marker *)

Lemma rewritten_levels_same_marker L s n : 1 <= L -> forall sc,
  0 <= previous_level sc <= L ->
  (1 <= previous_level sc -> previous_numbering_style sc = s) ->
  rewritten_levels sc (replicate n (L, s))
  = map (fun i => Z.min (previous_level sc + 1 + Z.of_nat i) L) (seq 0 n).
Proof.
  intros H1. induction n as [|n IH]; intros sc Hk Hs; [done|].
  cbn [replicate rewritten_levels]. unfold rewrite_level.
  destruct (decide (L > previous_level sc)) as [Hgt|Hle].
  - cbn [seq map]. f_equal; [lia|].
    rewrite IH; [|simpl; lia|done]. simpl.
    rewrite <- seq_shift, map_map. apply map_ext. intros i. lia.
  - assert (previous_level sc = L) as HL by lia.
    rewrite decide_False by (rewrite Hs by lia; by intros ?).
    cbn [seq map]. f_equal; [lia|].
    destruct sc as [k st lps]. simpl in *. subst k.
    rewrite IH; [|simpl; lia|done]. simpl.
    rewrite <- seq_shift, map_map. apply map_ext. intros i. lia.
Qed.

(** X14: ordered items that all have the level [L] of their marker
    and one numbering style do not make a flat list unless [L] is 1:
    [NewOrderedList] gives them the levels 1, 2, ..., [L] and then
    [L] for every item that follows. *)
Theorem same_marker_ordered_items_form_a_staircase
    (elements : list nat) attributes (st : store) (L : Z) (s : string) l st' :
  NoDup elements -> 1 <= L ->
  Forall (fun ptr => item_key st ptr = (L, s)) elements ->
  NewOrderedList elements attributes st = Done (l, st') ->
  map (level_at st') elements
  = map (fun i => Some (Z.min (Z.of_nat i + 1) L)) (seq 0 (length elements)).
Proof.
  unfold NewOrderedList. intros Hnd HL Hall H.
  destruct (ordered_scan _ _) as [sc| |] eqn:Hscan; try done.
  destruct (ordered_rest _ _ _ _) as [[result st1]|] eqn:Hrest; [|done]. simplify_eq.
  apply ordered_scan_levels in Hscan as [Hscan _]; [|done|].
  2:{ intros q _ (lv & ps & Hl & _). simpl in Hl. by rewrite lookup_empty in Hl. }
  change (scan_of _) with first_scan in Hscan. simpl in Hscan.
  assert (map (item_key st) elements = replicate (length elements) (L, s)) as Hkeys.
  { clear -Hall. induction Hall as [|p ps Hp _ IH]; [done|]. simpl. by rewrite Hp, IH. }
  rewrite Hkeys, rewritten_levels_same_marker in Hscan; [|done|simpl; lia|simpl; lia].
  rewrite map_map in Hscan. simpl in Hscan.
  erewrite map_ext; [rewrite Hscan|intros q; by eapply ordered_rest_levels].
  apply map_ext. intros i. f_equal. lia.
Qed.

Lemma same_marker_ordered_items_form_a_staircase_witness :
  exists l st',
    NewOrderedList [0; 1; 2]%nat []
      [VOrderedListItem 2 1 LowerAlpha [VStr "a"] ∅;
       VOrderedListItem 2 1 LowerAlpha [VStr "b"] ∅;
       VOrderedListItem 2 1 LowerAlpha [VStr "c"] ∅] = Done (l, st') /\
    map (level_at st') [0; 1; 2]%nat = [Some 1; Some 2; Some 2].
Proof.
  set (st := [VOrderedListItem 2 1 LowerAlpha [VStr "a"] ∅;
              VOrderedListItem 2 1 LowerAlpha [VStr "b"] ∅;
              VOrderedListItem 2 1 LowerAlpha [VStr "c"] ∅]).
  assert (H : exists r, NewOrderedList [0; 1; 2]%nat [] st = Done r)
    by (eexists; vm_compute; reflexivity).
  destruct H as [[l st'] H]. exists l, st'. split; [exact H|].
  assert (Hnd : NoDup [0; 1; 2]%nat)
    by (apply (bool_decide_unpack _); vm_compute; exact I).
  assert (Hall : Forall (fun ptr => item_key st ptr = (2, LowerAlpha)) [0; 1; 2]%nat)
    by (repeat (constructor; [reflexivity|]); constructor).
  assert (HL : 1 <= 2) by lia.
  rewrite (same_marker_ordered_items_form_a_staircase _ _ _ 2 LowerAlpha _ _ Hnd HL Hall H).
  reflexivity.
Defined.

Lemma rewritten_bullets_two_asterisks n : forall (sc : bullet_scan) (odd : bool),
  bs_levels sc !! TwoAsterisks = Some 1 ->
  (bs_level sc, bs_style sc) = (if odd then (1, TwoAsterisks) else (2, ThreeAsterisks)) ->
  rewritten_bullets sc (replicate n (2, TwoAsterisks)) = alternating n odd.
Proof.
  induction n as [|n IH]; intros sc odd Hl Hsc; [done|].
  cbn [replicate rewritten_bullets alternating]. unfold rewrite_bullet.
  destruct sc as [k st lps]. simpl in *. destruct odd; simplify_eq.
  - rewrite decide_True by lia. simpl. f_equal.
    apply (IH _ false); simpl; [|done].
    by rewrite lookup_insert_ne.
  - rewrite decide_False by lia. rewrite decide_True by done. rewrite Hl. f_equal.
    by apply (IH _ true).
Qed.

(** X15: unordered items that all start with [**] do not make a flat
    list: [NewUnorderedList] gives the first, the third, ... item the
    level 1 and the style of two asterisks, and the second, the fourth,
    ... item the level 2 and the style of three asterisks. *)
Theorem two_asterisks_items_alternate (elements : list nat) attributes (st : store) l st' :
  NoDup elements ->
  Forall (fun ptr => bullet_at st ptr = Some (2, TwoAsterisks)) elements ->
  NewUnorderedList elements attributes st = Done (l, st') ->
  map (bullet_at st') elements = map Some (alternating (length elements) false).
Proof.
  unfold NewUnorderedList. intros Hnd Hall H.
  destruct (unordered_scan _ _) as [sc| |] eqn:Hscan; try done.
  destruct (unordered_rest _ _ _ _) as [[result st1]|] eqn:Hrest; [|done]. simplify_eq.
  apply unordered_scan_bullets in Hscan as [Hscan _]; [|done].
  change (bullet_scan_of _) with first_bullet_scan in Hscan. simpl in Hscan.
  assert (map (bullet_of st) elements = replicate (length elements) (2, TwoAsterisks))
    as Hkeys.
  { clear -Hall. induction Hall as [|p ps Hp _ IH]; [done|]. simpl.
    unfold bullet_of at 1. by rewrite Hp, IH. }
  rewrite Hkeys in Hscan.
  erewrite map_ext; [rewrite Hscan|intros q; by eapply unordered_rest_bullets].
  f_equal. destruct (length elements) as [|n]; [done|].
  cbn [replicate rewritten_bullets alternating]. unfold rewrite_bullet. simpl.
  f_equal. by apply (rewritten_bullets_two_asterisks n _ true).
Qed.

Lemma two_asterisks_items_alternate_witness :
  exists l st',
    NewUnorderedList [0; 1; 2]%nat []
      [VUnorderedListItem 2 TwoAsterisks [VStr "a"];
       VUnorderedListItem 2 TwoAsterisks [VStr "b"];
       VUnorderedListItem 2 TwoAsterisks [VStr "c"]] = Done (l, st') /\
    map (bullet_at st') [0; 1; 2]%nat
    = [Some (1, TwoAsterisks); Some (2, ThreeAsterisks); Some (1, TwoAsterisks)].
Proof.
  set (st := [VUnorderedListItem 2 TwoAsterisks [VStr "a"];
              VUnorderedListItem 2 TwoAsterisks [VStr "b"];
              VUnorderedListItem 2 TwoAsterisks [VStr "c"]]).
  assert (H : exists r, NewUnorderedList [0; 1; 2]%nat [] st = Done r)
    by (eexists; vm_compute; reflexivity).
  destruct H as [[l st'] H]. exists l, st'. split; [exact H|].
  assert (Hnd : NoDup [0; 1; 2]%nat)
    by (apply (bool_decide_unpack _); vm_compute; exact I).
  assert (Hall : Forall (fun ptr => bullet_at st ptr = Some (2, TwoAsterisks)) [0; 1; 2]%nat)
    by (repeat (constructor; [reflexivity|]); constructor).
  rewrite (two_asterisks_items_alternate _ _ _ _ _ Hnd Hall H).
  reflexivity.
Defined.

(** ** An ordered list that falls by two levels *)

(** X16: four items of the levels 1, 2, 3 and 1, whatever their
    elements.  When the fourth item is reached [NewOrderedList] moves
    the items of one level only (the third) into their parent; the
    item of the second level stays in its buffer to the end, where the
    last item of the first level is its parent: the sub-list of the
    first item ends under the fourth item.  [NewUnorderedList], which
    moves every level down to the new one, puts it under the first
    item. *)
Theorem ordered_list_back_to_the_first_level
    (ea eb ec ed : value) (eas ebs ecs eds attributes : list value) :
  list_value
    (NewOrderedList [0; 1; 2; 3]%nat attributes
       [VOrderedListItem 1 1 Arabic (ea :: eas) ∅;
        VOrderedListItem 2 1 LowerAlpha (eb :: ebs) ∅;
        VOrderedListItem 3 1 LowerRoman (ec :: ecs) ∅;
        VOrderedListItem 1 1 Arabic (ed :: eds) ∅])
  = Some (VOrderedList (mergeAttributes attributes)
      [VOrderedListItem 1 1 Arabic (ea :: eas) ∅;
       VOrderedListItem 1 2 Arabic
         (ed :: eds ++
          [VOrderedList ∅
             [VOrderedListItem 2 1 LowerAlpha
                (eb :: ebs ++
                 [VOrderedList ∅ [VOrderedListItem 3 1 LowerRoman (ec :: ecs) ∅]]) ∅]]) ∅])
  /\ list_value
    (NewUnorderedList [0; 1; 2; 3]%nat attributes
       [VUnorderedListItem 1 OneAsterisk (ea :: eas);
        VUnorderedListItem 2 TwoAsterisks (eb :: ebs);
        VUnorderedListItem 3 ThreeAsterisks (ec :: ecs);
        VUnorderedListItem 1 OneAsterisk (ed :: eds)])
  = Some (VUnorderedList (mergeAttributes attributes)
      [VUnorderedListItem 1 OneAsterisk
         (ea :: eas ++
          [VUnorderedList ∅
             [VUnorderedListItem 2 TwoAsterisks
                (eb :: ebs ++
                 [VUnorderedList ∅ [VUnorderedListItem 3 ThreeAsterisks (ec :: ecs)]])]]);
       VUnorderedListItem 1 OneAsterisk (ed :: eds)]).
Proof. split; vm_compute; reflexivity. Qed.

(** ** The document and the end of the input *)

Lemma EOF_takes_nothing s er v b k r :
  eval grammar (Ref EOF) s (er, Matched v b k r) -> r = s.
Proof.
  intros H. apply ref_inv in H as [_ [b0 H]]. open_rule_in H.
  by apply not_inv in H as (-> & _ & _).
Qed.

(** X17: when [Parse] returns a value for the rule [Document], the
    value is a Document and the rule has matched the whole input:
    nothing is left after it, and no error was recorded. *)
Theorem Document_reads_the_whole_input n input v :
  Parse n Document input = Some (Returned v) ->
  is_document v = true
  /\ exists b k, eval grammar (Ref Document) input ([], Matched v b k EmptyString).
Proof.
  intros (b & k & rest & H)%Parse_Returned.
  assert (rest = EmptyString /\ is_document v = true) as [-> Hv].
  { pose proof H as H'.
    apply ref_inv in H' as [-> [b0 H']]. open_rule_in H'.
    apply act_inv in H' as (er0 & v0 & H' & Hf).
    apply seq_inv in H' as (vs & -> & H').
    do 4 seq_step H'. pose proof (seq_end _ _ _ _ _ _ _ H') as Hend.
    pose proof (EOF_matched _ _ _ _ _ _ He2) as Hs.
    pose proof (EOF_takes_nothing _ _ _ _ _ _ He2) as Hr.
    split; [congruence|].
    apply ref_inv in He2 as [-> _].
    apply seq_nil_inv in H' as [-> ->].
    apply lbl_inv in He as [-> [? He]].
    apply lbl_inv in He0 as [-> [? He0]].
    apply lbl_inv in He1 as [-> [? He1]].
    apply star_env in He1 as [-> [bs ->]].
    simpl in Hf. eval_get Hf. unfold asList in Hf.
    apply NewDocument_elements in Hf as (attrs & els & refs & -> & _). done. }
  split; [done|]. eauto.
Qed.

Lemma Document_reads_the_whole_input_witness :
  is_document (VDocument ∅ [text_paragraph ["a"]] ∅) = true
  /\ exists b k,
       eval grammar (Ref Document) ("a" ++ nl)
         ([], Matched (VDocument ∅ [text_paragraph ["a"]] ∅) b k EmptyString).
Proof.
  apply (Document_reads_the_whole_input 100%nat ("a" ++ nl)).
  vm_compute. reflexivity.
Defined.

(** ** A document of lines of white space *)

Lemma white_lines_blocks wss :
  forallb (all_bytes is_blank) wss = true ->
  exists k,
    eval_many grammar block (ended_lines wss)
      ([], MatchedAll (replicate (length wss) VBlankLine) [] k EmptyString).
Proof.
  induction wss as [|ws wss IH]; intros H.
  - exists 0%nat. apply many_done. ev.
  - simpl in H. apply andb_true_iff in H as [Hws H]. destruct (IH H) as [k Hk].
    exists (String.length ws + 1 + k)%nat. cbn [ended_lines length replicate].
    refine (many_more grammar _ _ _ _ _ _ _ _ _ _ Hk).
    apply (white_line_block ws (nl ++ ended_lines wss) (VBytes nl) 1%nat); [done|done| |ev].
    by destruct ws.
Qed.

Lemma white_lines_start wss :
  forallb (all_bytes is_blank) wss = true ->
  eval grammar (Ref FrontMatter) (ended_lines wss) ([], Failed)
  /\ eval grammar (Ref DocumentHeader) (ended_lines wss) ([], Failed).
Proof.
  intros H. destruct wss as [|ws wss]; [split; ev|].
  simpl in H. apply andb_true_iff in H as [Hws _]. cbn [ended_lines].
  destruct ws as [|a ws]; [split; ev|].
  simpl in Hws. apply andb_true_iff in Hws as [Ha _]. rewrite append_cons.
  apply is_blank_inv in Ha as [-> | ->]; split; ev.
Qed.

(** X18: a document made of lines of spaces and tabs only, each ended
    by a line feed, has a parse: a Document without attributes whose
    elements are one BlankLine for each line. *)
Theorem document_of_white_lines (wss : list string) :
  forallb (all_bytes is_blank) wss = true ->
  exists n,
    Parse n Document (ended_lines wss)
    = Some (Returned (VDocument ∅ (replicate (length wss) VBlankLine) ∅)).
Proof.
  intros H. destruct (white_lines_blocks wss H) as [k Hk].
  destruct (white_lines_start wss H) as [Hf Hh].
  eapply eval_Parse, Document_of_blocks; [exact Hf|exact Hh|apply star_matched, Hk|].
  apply NewDocument_no_section.
  clear. induction (length wss); simpl; done.
Qed.

Lemma document_of_white_lines_witness :
  exists n,
    Parse n Document (ended_lines [" "; EmptyString; tab ++ " "])
    = Some (Returned
              (VDocument ∅ (replicate (length [" "; EmptyString; tab ++ " "]) VBlankLine) ∅)).
Proof. apply (document_of_white_lines [" "; EmptyString; tab ++ " "]). reflexivity. Defined.

(** ** The prefix of a numbered item *)

Lemma is_digit_inv a :
  is_digit a = true -> is_blank a = false /\ Ascii.eqb "." a = false.
Proof.
  destruct a as [[] [] [] [] [] [] [] []]; intros H; try discriminate H; done.
Qed.

Lemma digits_many ds t :
  all_bytes is_digit ds = true ->
  eval_many grammar (Range "0" "9") (ds ++ "." ++ t)
    ([], MatchedAll (map (fun a => VBytes (String a EmptyString)) (bytes_of ds)) []
           (String.length ds) ("." ++ t)).
Proof.
  induction ds as [|a ds IH]; intros H.
  - rewrite append_nil. apply many_done. by apply E_Range.
  - simpl in H. apply andb_true_iff in H as [Ha H]. rewrite append_cons.
    apply (many_more grammar _ _ (VBytes (String a EmptyString)) [] 1%nat (ds ++ "." ++ t)).
    + apply E_Range. unfold p_range. unfold is_digit in Ha. by rewrite Ha.
    + by apply IH.
Qed.

Lemma dots_fail l a t f :
  is_digit a = true ->
  eval grammar (Act (Lit (String "." l)) f) (String a t) ([], Failed).
Proof.
  intros [_ Ha]%is_digit_inv. apply act_failed, E_Lit. unfold p_lit. cbn [strip_prefix]. by rewrite Ha.
Qed.

(** X19: the prefix of a list item written with a number and a dot:
    whatever the digits, the prefix is of the arabic style and of the
    level 1; it takes the digits, the dot and the white space that
    follows, and the number itself is not kept. *)
Theorem numbered_item_prefix (ds ws t : string) :
  ds <> EmptyString -> all_bytes is_digit ds = true ->
  ws <> EmptyString -> all_bytes is_blank ws = true ->
  text_start t = true ->
  eval grammar (Ref OrderedListItemPrefix) (ds ++ "." ++ ws ++ t)
    ([], Matched (VOrderedListItemPrefix Arabic 1) []
           (String.length ds + 1 + String.length ws)%nat t).
Proof.
  intros Hne Hds Hwne Hws Ht.
  destruct ds as [|a ds]; [done|]. pose proof Hds as Hds'.
  simpl in Hds'. apply andb_true_iff in Hds' as [Ha _].
  destruct ws as [|w ws]; [done|].
  eapply E_Ref_some. open_rule.
  eapply act_ret.
  - apply seq_matched.
    apply (seq_cons grammar _ _ _ (VList []) [] 0%nat (String a ds ++ "." ++ String w ws ++ t)).
    { apply star_matched, many_done. rewrite append_cons.
      apply WS_fails. by apply is_digit_inv in Ha as [? _]. }
    eapply (seq_cons grammar _ _ _ (VOrderedListItemPrefix Arabic 1)
              [("prefix", VOrderedListItemPrefix Arabic 1)]
              (String.length (String a ds) + 1)%nat (String w ws ++ t)).
    { eapply E_Lbl_some, E_Choice. rewrite append_cons.
      do 5 (apply choice_next; [by apply dots_fail|]).
      eapply choice_first. eapply act_ret; [|reflexivity].
      apply seq_matched. rewrite <- append_cons.
      eapply (seq_cons grammar _ _ _ _ [] (String.length (String a ds)) ("." ++ String w ws ++ t)).
      { apply plus_matched. exact (digits_many (String a ds) _ Hds). }
      rewrite <- (Nat.add_0_r 1).
      eapply (seq_cons grammar _ _ _ _ [] 1%nat (String w ws ++ t)); [|apply seq_nil].
      apply E_Lit. reflexivity. }
    rewrite <- (Nat.add_0_r (String.length (String w ws))).
    eapply (seq_cons grammar _ _ _ _ [] (String.length (String w ws)) t); [|apply seq_nil].
    apply plus_matched.
    exact (WS_many (String w ws) t Hws (WS_fails_at_text_start t Ht)).
  - reflexivity.
Qed.

Lemma numbered_item_prefix_witness :
  eval grammar (Ref OrderedListItemPrefix) ("42" ++ "." ++ " " ++ "item")
    ([], Matched (VOrderedListItemPrefix Arabic 1) []
           (String.length "42" + 1 + String.length " ")%nat "item").
Proof. apply (numbered_item_prefix "42" " " "item"); done. Defined.

